(** * typeglance: process-discovery and RPC substrate

    Shallow embedding of the graph codec ([dehydrateValue] / [hydrateValue]),
    the [MessageChannel] request/response correlation, the host-side broadcast
    [invoke], the client-side [discoverMessageChannel] race and the
    file-backed global context store, together with the properties that the
    specification states about them; and, beside these, the routing of
    requests, the heartbeat of a websocket, the host of a discoverable
    channel and the memory cells of the hooks. *)

From stdpp Require Import gmap strings list fin_maps relations sorting.


(** ** Outcomes of fallible, fuel-bounded computations *)

Inductive error :=
  | TypeError        (* thrown by the runtime, e.g. [Object.entries(null)] *)
  | HydrationError   (* [new Error('Hydration error')] *)
  | DanglingRef.     (* a reference to an object that the heap does not hold *)

Inductive result (A : Type) :=
  | Ok (a : A)
  | Throw (e : error)
  | OutOfFuel.
Arguments Ok {A} a.
Arguments Throw {A} e.
Arguments OutOfFuel {A}.

Definition result_bind {A B} (f : A → result B) (r : result A) : result B :=
  match r with
  | Ok a => f a
  | Throw e => Throw e
  | OutOfFuel => OutOfFuel
  end.

#[global] Instance result_mbind : MBind result := @result_bind.
#[global] Instance result_mret : MRet result := @Ok.

(** [Array.prototype.map] with a callback that threads a state and may throw:
    the elements are visited from left to right. *)
Fixpoint mapM_st {S A B} (f : A → S → result (B * S)) (l : list A) (s : S)
  : result (list B * S) :=
  match l with
  | [] => Ok ([], s)
  | x :: l' =>
      match f x s with
      | Ok (y, s1) =>
          match mapM_st f l' s1 with
          | Ok (ys, s2) => Ok (y :: ys, s2)
          | Throw e => Throw e
          | OutOfFuel => OutOfFuel
          end
      | Throw e => Throw e
      | OutOfFuel => OutOfFuel
      end
  end.

(** ** A JavaScript [Map]: insertion-ordered, one binding per key *)

Section JsMap.
Context {K V : Type} `{EqDecision K}.

Fixpoint jsmap_get (m : list (K * V)) (k : K) : option V :=
  match m with
  | [] => None
  | (k', v) :: m' => if decide (k' = k) then Some v else jsmap_get m' k
  end.

(** [Map.prototype.set]: an existing key keeps its position. *)
Fixpoint jsmap_set (m : list (K * V)) (k : K) (v : V) : list (K * V) :=
  match m with
  | [] => [(k, v)]
  | (k', v') :: m' =>
      if decide (k' = k) then (k', v) :: m' else (k', v') :: jsmap_set m' k v
  end.

(** [Map.prototype.delete] *)
Fixpoint jsmap_delete (m : list (K * V)) (k : K) : list (K * V) :=
  match m with
  | [] => []
  | (k', v') :: m' =>
      if decide (k' = k) then jsmap_delete m' k
      else (k', v') :: jsmap_delete m' k
  end.
End JsMap.

(** ** The graph codec (utils/hydration) *)

Module Codec.

(** JavaScript values: primitives are compared by value, everything else is a
    reference into a heap of objects and is compared by identity. Numbers are
    integers here. *)
Inductive prim :=
  | PUndef
  | PNull
  | PBool (b : bool)
  | PNum (z : Z)
  | PStr (s : string).

Inductive jsval :=
  | VPrim (p : prim)
  | VRef (a : nat).

(** Own enumerable properties are kept in [Object.entries] order. *)
Inductive object :=
  | OArr (elems : list jsval)
  | OObj (props : list (string * jsval))
  | OFun (name : string).

Abbreviation heap := (list object).

#[global] Instance prim_eq_dec : EqDecision prim.
Proof. solve_decision. Defined.
#[global] Instance jsval_eq_dec : EqDecision jsval.
Proof. solve_decision. Defined.

(** An encoded node of [Dehydrated<T>]: a primitive (function placeholders
    are strings), an array of ids, or a record from property names to ids. *)
Inductive enc :=
  | EPrim (p : prim)
  | EArr (ids : list nat)
  | EObj (props : list (string * nat)).

#[global] Instance enc_eq_dec : EqDecision enc.
Proof. solve_decision. Defined.

(** [Dehydrated<T>] is a record keyed by id. *)
Abbreviation dehydrated := (gmap nat enc).

(** The cache entry [{ id, value }] of [dehydrateValue]. *)
Record entry := { entry_id : nat; entry_value : enc }.

Record dstate := { cache : list (jsval * entry); nextId : nat }.

Definition ignoredKeys : list string := ["checker"].

Definition kept (kv : string * jsval) : bool :=
  bool_decide (kv.1 ∉ ignoredKeys).

(** [`function_${value.name || '[anon]'}`] *)
Definition function_placeholder (name : string) : string :=
  "function_" +:+ (if decide (name = "") then "[anon]" else name).

(** [Object.assign({}, Object.fromEntries(entries))] where every value is a
    number: each pair is stored with [[Set]], so that a pair named
    [__proto__] reaches the setter of [Object.prototype], which ignores a
    value that is not an object. The other pairs become own properties. *)
Definition assigned {A} (entries : list (string * A)) : list (string * A) :=
  filter (λ kx, kx.1 ≠ "__proto__") entries.

(** [entry.value = x]: the entry object is the one held by the cache. *)
Definition set_entry_value (v : jsval) (i : nat) (x : enc) (st : dstate) : dstate :=
  {| cache := jsmap_set (cache st) v {| entry_id := i; entry_value := x |};
     nextId := nextId st |}.

Fixpoint serialize (fuel : nat) (h : heap) (v : jsval) (st : dstate)
  : result (nat * dstate) :=
  match fuel with
  | 0 => OutOfFuel
  | S fuel' =>
      match jsmap_get (cache st) v with
      | Some e => Ok (entry_id e, st)
      | None =>
          let i := nextId st in
          let st1 :=
            {| cache := jsmap_set (cache st) v
                          {| entry_id := i; entry_value := EPrim PUndef |};
               nextId := S i |} in
          match v with
          | VRef a =>
              match h !! a with
              | Some (OArr elems) =>
                  match mapM_st (serialize fuel' h) elems st1 with
                  | Ok (ids, st2) => Ok (i, set_entry_value v i (EArr ids) st2)
                  | Throw e => Throw e
                  | OutOfFuel => OutOfFuel
                  end
              | Some (OFun name) =>
                  Ok (i, set_entry_value v i
                           (EPrim (PStr (function_placeholder name))) st1)
              | Some (OObj props) =>
                  match mapM_st
                          (λ kv st', match serialize fuel' h kv.2 st' with
                                     | Ok (j, st'') => Ok ((kv.1, j), st'')
                                     | Throw e => Throw e
                                     | OutOfFuel => OutOfFuel
                                     end)
                          (filter (λ kv, kept kv = true) props) st1 with
                  | Ok (ps, st2) =>
                      Ok (i, set_entry_value v i (EObj (assigned ps)) st2)
                  | Throw e => Throw e
                  | OutOfFuel => OutOfFuel
                  end
              | None => Throw DanglingRef
              end
          | VPrim PNull =>
              (* typeof null === 'object': Object.entries(null) throws *)
              Throw TypeError
          | VPrim p => Ok (i, set_entry_value v i (EPrim p) st1)
          end
      end
  end.

(** [Object.fromEntries]: a later pair overwrites an earlier one. *)
Definition fromEntries (l : list (nat * enc)) : dehydrated :=
  foldl (λ m kx, <[kx.1 := kx.2]> m) ∅ l.

(** Every cache key is the root or sits in a slot of some heap object, so the
    recursion depth is bounded by the number of those. *)
Definition slots (o : object) : list jsval :=
  match o with
  | OArr elems => elems
  | OObj props => props.*2
  | OFun _ => []
  end.

Definition universe (h : heap) (v : jsval) : list jsval :=
  v :: mjoin (slots <$> h).

Definition dehydrate_fuel (h : heap) (v : jsval) : nat :=
  S (length (universe h v)).

Definition dehydrateValue (h : heap) (type : jsval) : result dehydrated :=
  match serialize (dehydrate_fuel h type) h type {| cache := []; nextId := 0 |} with
  | Ok (_, st) =>
      Ok (fromEntries ((λ ke, (entry_id ke.2, entry_value ke.2)) <$> cache st))
  | Throw e => Throw e
  | OutOfFuel => OutOfFuel
  end.

(** Hydration reads nodes [value[k]]. A compound node is an object of its
    own (both after [dehydrateValue] and after [JSON.parse]), so its identity
    is the id under which the record holds it; a primitive is its value. *)
Inductive node :=
  | NPrim (p : prim)
  | NArr (self : nat) (ids : list nat)
  | NObj (self : nat) (props : list (string * nat)).

Definition dget (d : dehydrated) (k : nat) : node :=
  match d !! k with
  | None => NPrim PUndef
  | Some (EPrim p) => NPrim p
  | Some (EArr ids) => NArr k ids
  | Some (EObj props) => NObj k props
  end.

Inductive hkey :=
  | HPrim (p : prim)
  | HNode (i : nat).

#[global] Instance hkey_eq_dec : EqDecision hkey.
Proof. solve_decision. Defined.

Definition key_of (n : node) : hkey :=
  match n with
  | NPrim p => HPrim p
  | NArr i _ => HNode i
  | NObj i _ => HNode i
  end.

(** The cache of [hydrateValue], the heap of the objects that it creates,
    and the prototypes that it sets: an object that [hproto] does not list
    has the prototype that it was created with, [Object.prototype] or
    [Array.prototype]. *)
Record hstate := {
  hcache : list (hkey * jsval);
  hheap : heap;
  hproto : list (nat * nat)
}.

(** [[SetPrototypeOf]] looks for the object [a] on the prototype chain that
    starts at [p]. A chain passes through each object once, so that it has
    no more links than [hproto] has entries. *)
Fixpoint on_chain (fuel : nat) (protos : list (nat * nat)) (a p : nat) : bool :=
  bool_decide (p = a) ||
  match fuel with
  | 0 => false
  | S fuel' =>
      match jsmap_get protos p with
      | Some q => on_chain fuel' protos a q
      | None => false
      end
  end.

(** [Object.assign(target, Object.fromEntries(entries))] for the new object
    [a], whose own properties so far are [own]: each pair is stored with
    [[Set]]. A pair named [__proto__] reaches the setter of
    [Object.prototype]: a value that is not an object is ignored, an object
    becomes the prototype of [a], and the setter throws a TypeError when [a]
    is on the prototype chain of that object. The names of an entry are
    distinct. [None] stands for the TypeError. *)
Fixpoint assign (a : nat) (entries own : list (string * jsval))
    (protos : list (nat * nat)) : option (list (string * jsval) * list (nat * nat)) :=
  match entries with
  | [] => Some (own, protos)
  | (k, x) :: entries' =>
      if decide (k = "__proto__") then
        match x with
        | VPrim _ => assign a entries' own protos
        | VRef b =>
            if on_chain (length protos) protos a b then None
            else assign a entries' own (jsmap_set protos a b)
        end
      else assign a entries' (own ++ [(k, x)]) protos
  end.

Fixpoint deserialize (fuel : nat) (d : dehydrated) (val : node) (st : hstate)
  : result (jsval * hstate) :=
  match fuel with
  | 0 => OutOfFuel
  | S fuel' =>
      match jsmap_get (hcache st) (key_of val) with
      | Some x => Ok (x, st)
      | None =>
          let st1 :=
            {| hcache := jsmap_set (hcache st) (key_of val) (VPrim PUndef);
               hheap := hheap st; hproto := hproto st |} in
          match val with
          | NArr _ ids =>
              match mapM_st (λ k, deserialize fuel' d (dget d k)) ids st1 with
              | Ok (xs, st2) =>
                  let a := length (hheap st2) in
                  Ok (VRef a,
                      {| hcache := jsmap_set (hcache st2) (key_of val) (VRef a);
                         hheap := hheap st2 ++ [OArr xs]; hproto := hproto st2 |})
              | Throw e => Throw e
              | OutOfFuel => OutOfFuel
              end
          | NPrim PNull => Throw TypeError
          | NPrim p =>
              Ok (VPrim p,
                  {| hcache := jsmap_set (hcache st1) (key_of val) (VPrim p);
                     hheap := hheap st1; hproto := hproto st1 |})
          | NObj _ props =>
              let a := length (hheap st1) in
              let st1' :=
                {| hcache := jsmap_set (hcache st1) (key_of val) (VRef a);
                   hheap := hheap st1 ++ [OObj []]; hproto := hproto st1 |} in
              match mapM_st
                      (λ kv st', match deserialize fuel' d (dget d kv.2) st' with
                                 | Ok (x, st'') => Ok ((kv.1, x), st'')
                                 | Throw e => Throw e
                                 | OutOfFuel => OutOfFuel
                                 end)
                      props st1' with
              | Ok (ps, st2) =>
                  match assign a ps [] (hproto st2) with
                  | Some (own, protos) =>
                      Ok (VRef a,
                          {| hcache := hcache st2;
                             hheap := <[a := OObj own]> (hheap st2);
                             hproto := protos |})
                  | None => Throw TypeError
                  end
              | Throw e => Throw e
              | OutOfFuel => OutOfFuel
              end
          end
      end
  end.

Definition hydrate_fuel (d : dehydrated) : nat := S (S (size d)).

(** [None] stands for a null or undefined argument. *)
Definition hydrateValue (value : option dehydrated) : result (jsval * heap) :=
  match value with
  | None => Throw HydrationError
  | Some d =>
      if decide (size d = 0) then Throw HydrationError
      else
        match deserialize (hydrate_fuel d) d (dget d 0)
                {| hcache := []; hheap := []; hproto := [] |} with
        | Ok (r, st) => Ok (r, hheap st)
        | Throw e => Throw e
        | OutOfFuel => OutOfFuel
        end
  end.

(** The prototypes that [hydrateValue(value)] has set when it returns. *)
Definition prototypes (d : dehydrated) : list (nat * nat) :=
  match deserialize (hydrate_fuel d) d (dget d 0)
          {| hcache := []; hheap := []; hproto := [] |} with
  | Ok (_, st) => hproto st
  | _ => []
  end.

(** [hydrateValue(dehydrateValue(v))] *)
Definition roundtrip (h : heap) (v : jsval) : result (jsval * heap) :=
  match dehydrateValue h v with
  | Ok d => hydrateValue (Some d)
  | Throw e => Throw e
  | OutOfFuel => OutOfFuel
  end.

End Codec.


(** ** The message channel (utils/MessageChannel) *)

Module Channel.
Section Channel.
Context {body : Type}.

(** The text that the runtime puts under the header line of [e.stack]. *)
Variable frames : string.

(** What [catch (e)] receives, as far as the channel looks at it: [e.stack]. *)
Inductive thrown :=
  | ThrownNullish                          (* throw null, throw undefined *)
  | ThrownValue (stack : option string).   (* e.stack; None when undefined *)

(** [new Error(message)] *)
Definition new_Error (message : string) : thrown :=
  ThrownValue (Some ("Error: " +:+ message +:+ frames)).

(** The settled result of [await requestHandler(body)]. *)
Inductive handler_result :=
  | Returns (response : body)
  | Throws (e : thrown).

Definition handler : Type := body → handler_result.

(** The body of a response frame: a handler result or [{ stack: e.stack }]. *)
Inductive rbody :=
  | RValue (b : body)
  | RStack (stack : option string).

Inductive message :=
  | REQUEST (key : string) (b : body)
  | RESPONSE (n : nat) (b : rbody) (isError : bool)
  | OTHER (type : string).

(** [raw_source] tells whether [source === 'MessageChannel']. *)
Record RawMessage := {
  raw_n : option nat;
  raw_message : message;
  raw_source : bool
}.

Definition TIMEOUT : Z := 3600000.

Inductive reason :=
  | ResponseError (b : rbody)       (* new ResponseError(body) *)
  | TimedOut (ms : Z).              (* new Error(`timed out after ${TIMEOUT} ms`) *)

Inductive settled :=
  | Pending
  | Resolved (b : rbody)
  | Rejected (r : reason).

(** What makes the promise of [messageHandler] reject. *)
Inductive failure :=
  | UnexpectedResponse   (* new Error('unexpected response message') *)
  | StackOfNullish       (* TypeError: e.stack of null or undefined *)
  | UnhandledError.      (* of emit('error', message) without listener *)

(** An entry [{ resolve, reject, timeout }]: the promise that [resolve] and
    [reject] settle and the handle of the timer. The promise and the timer
    of request number [k] are both named [k]. *)
Record responseHandler := { rh_promise : nat; rh_timeout : nat }.

Record channel := {
  n : nat;
  handlerRegistry : list (string * handler);
  responseHandlers : list (nat * responseHandler);
  promises : list (nat * settled);
  timers : list nat;                  (* armed timers *)
  sent : list RawMessage;             (* frames handed to config.send *)
  emitted : list string;              (* events published on eventEmitter *)
  console : list (option string);     (* console.log(e.stack) *)
  listeners : list (string * bool)    (* of eventEmitter: the event, and
                                         whether it was added by once() *)
}.

(** [new MessageChannel(config, handlerRegistry)]: the registry is copied. *)
Definition create (registry : list (string * handler)) : channel :=
  {| n := 0; handlerRegistry := registry; responseHandlers := [];
     promises := []; timers := []; sent := []; emitted := []; console := [];
     listeners := [] |}.

Definition config_send (m : RawMessage) (ch : channel) : channel :=
  {| n := n ch; handlerRegistry := handlerRegistry ch;
     responseHandlers := responseHandlers ch; promises := promises ch;
     timers := timers ch; sent := sent ch ++ [m];
     emitted := emitted ch; console := console ch;
     listeners := listeners ch |}.

(** [eventEmitter.emit(type, ...)] when it returns: the listeners of [type]
    are called, and those that [once] added are removed. A listener is taken
    to return. *)
Definition emit (type : string) (ch : channel) : channel :=
  {| n := n ch; handlerRegistry := handlerRegistry ch;
     responseHandlers := responseHandlers ch; promises := promises ch;
     timers := timers ch; sent := sent ch;
     emitted := emitted ch ++ [type]; console := console ch;
     listeners := filter (λ l, l ≠ (type, true)) (listeners ch) |}.

Definition console_log (line : option string) (ch : channel) : channel :=
  {| n := n ch; handlerRegistry := handlerRegistry ch;
     responseHandlers := responseHandlers ch; promises := promises ch;
     timers := timers ch; sent := sent ch;
     emitted := emitted ch; console := console ch ++ [line];
     listeners := listeners ch |}.

(** [resolve] and [reject] act on a pending promise only. *)
Definition settle (p : nat) (o : settled) (ch : channel) : channel :=
  match jsmap_get (promises ch) p with
  | Some Pending =>
      {| n := n ch; handlerRegistry := handlerRegistry ch;
         responseHandlers := responseHandlers ch;
         promises := jsmap_set (promises ch) p o;
         timers := timers ch; sent := sent ch;
         emitted := emitted ch; console := console ch;
         listeners := listeners ch |}
  | _ => ch
  end.

Definition clearTimeout (t : nat) (ch : channel) : channel :=
  {| n := n ch; handlerRegistry := handlerRegistry ch;
     responseHandlers := responseHandlers ch; promises := promises ch;
     timers := filter (λ t', t' ≠ t) (timers ch); sent := sent ch;
     emitted := emitted ch; console := console ch;
     listeners := listeners ch |}.

(** [send(message)]: a frame without sequence number. *)
Definition send (m : message) (ch : channel) : channel :=
  config_send {| raw_n := None; raw_message := m; raw_source := true |} ch.

Definition sendNumbered (m : message) (ch : channel) : nat * channel :=
  let k := n ch in
  (k, config_send {| raw_n := Some k; raw_message := m; raw_source := true |}
        {| n := S k; handlerRegistry := handlerRegistry ch;
           responseHandlers := responseHandlers ch; promises := promises ch;
           timers := timers ch; sent := sent ch;
           emitted := emitted ch; console := console ch;
           listeners := listeners ch |}).

(** [request(key, body)]: returns the number of the request, which names
    its promise. *)
Definition request (key : string) (b : body) (ch : channel) : nat * channel :=
  let '(k, ch1) := sendNumbered (REQUEST key b) ch in
  (k, {| n := n ch1; handlerRegistry := handlerRegistry ch1;
         responseHandlers :=
           jsmap_set (responseHandlers ch1) k {| rh_promise := k; rh_timeout := k |};
         promises := jsmap_set (promises ch1) k Pending;
         timers := timers ch1 ++ [k]; sent := sent ch1;
         emitted := emitted ch1; console := console ch1;
         listeners := listeners ch1 |}).

(** The callback of the timer of [request]: it rejects, and does nothing
    else. A timer that was cleared does not fire. *)
Definition timeout_fires (t : nat) (ch : channel) : channel :=
  if decide (t ∈ timers ch) then
    settle t (Rejected (TimedOut TIMEOUT)) (clearTimeout t ch)
  else ch.

(** [respond(n, isError, body)]: a failure of [send] is swallowed. *)
Definition respond (k : nat) (isError : bool) (b : rbody) (ch : channel) : channel :=
  send (RESPONSE k b isError) ch.

Definition handle (key : string) (f : handler) (ch : channel) : channel :=
  {| n := n ch; handlerRegistry := jsmap_set (handlerRegistry ch) key f;
     responseHandlers := responseHandlers ch; promises := promises ch;
     timers := timers ch; sent := sent ch;
     emitted := emitted ch; console := console ch;
     listeners := listeners ch |}.

(** [on(key, callback)] and [once(key, callback)] *)
Definition on (key : string) (ch : channel) : channel :=
  {| n := n ch; handlerRegistry := handlerRegistry ch;
     responseHandlers := responseHandlers ch; promises := promises ch;
     timers := timers ch; sent := sent ch;
     emitted := emitted ch; console := console ch;
     listeners := listeners ch ++ [(key, false)] |}.

Definition once (key : string) (ch : channel) : channel :=
  {| n := n ch; handlerRegistry := handlerRegistry ch;
     responseHandlers := responseHandlers ch; promises := promises ch;
     timers := timers ch; sent := sent ch;
     emitted := emitted ch; console := console ch;
     listeners := listeners ch ++ [(key, true)] |}.

(** [eventEmitter.emit(type, message)]: an ['error'] event that has no
    listener is thrown, as an error, by the emitter. *)
Definition eventEmitter_emit (type : string) (ch : channel)
  : channel * option failure :=
  if decide (type = "error" ∧ "error" ∉ (listeners ch).*1)
  then (ch, Some UnhandledError)
  else (emit type ch, None).

Definition delete_responseHandler (k : nat) (ch : channel) : channel :=
  {| n := n ch; handlerRegistry := handlerRegistry ch;
     responseHandlers := jsmap_delete (responseHandlers ch) k;
     promises := promises ch; timers := timers ch; sent := sent ch;
     emitted := emitted ch; console := console ch;
     listeners := listeners ch |}.

(** [messageHandler(m)]: the new state, and the failure with which the
    returned promise rejects, if it does. *)
Definition messageHandler (m : RawMessage) (ch : channel) : channel * option failure :=
  let '(ch1, err) :=
    if raw_source m then
      match raw_message m with
      | REQUEST key b =>
          let result :=
            match jsmap_get (handlerRegistry ch) key with
            | None => Throws (new_Error ("no handler for " +:+ key))
            | Some requestHandler => requestHandler b
            end in
          match result with
          | Returns response =>
              (match raw_n m with
               | Some k => respond k false (RValue response) ch
               | None => ch
               end, None)
          | Throws ThrownNullish => (ch, Some StackOfNullish)
          | Throws (ThrownValue stack) =>
              let ch' := console_log stack ch in
              (match raw_n m with
               | Some k => respond k true (RStack stack) ch'
               | None => ch'
               end, None)
          end
      | RESPONSE requestN b isError =>
          match jsmap_get (responseHandlers ch) requestN with
          | None => (ch, Some UnexpectedResponse)
          | Some rh =>
              let ch' := clearTimeout (rh_timeout rh)
                           (delete_responseHandler requestN ch) in
              (settle (rh_promise rh)
                      (if isError then Rejected (ResponseError b) else Resolved b)
                      ch', None)
          end
      | OTHER type => eventEmitter_emit type ch
      end
    else (ch, None) in
  match err with
  | Some e => (ch1, Some e)
  | None => (emit "message" ch1, None)
  end.

(** [handlers.invoke(key, body)] is [request]. *)
Definition invoke (key : string) (b : body) (ch : channel) : nat * channel :=
  request key b ch.

(** The frames that [ch'] has sent since it was [ch]. *)
Definition new_frames (ch ch' : channel) : list RawMessage :=
  drop (length (sent ch)) (sent ch').

(** One request over a connection whose peer answers at once, or never:
    the request frame is handled by the peer, and the frames that the peer
    sends back are handled here; when the peer sends nothing back, the
    timer fires. The result is the state of the request's promise. *)
Definition exchange (key : string) (b : body) (here peer : channel)
  : settled * channel * channel :=
  let '(k, here1) := invoke key b here in
  let peer1 := foldl (λ p m, (messageHandler m p).1) peer (new_frames here here1) in
  let here2 := foldl (λ c m, (messageHandler m c).1) here1 (new_frames peer peer1) in
  let here3 := timeout_fires k here2 in
  (default Pending (jsmap_get (promises here3) k), here3, peer1).
End Channel.
End Channel.

(** ** The broadcast of a host (utils/discoverable-message-channels) *)

Module Broadcast.
Import Channel.
Section Broadcast.
Context {body : Type}.
Variable frames : string.

(** The outcome of [Promise.all]. *)
Inductive all_settled :=
  | AllPending
  | AllResolved (results : list (@rbody body))
  | AllRejected (r : @reason body).

(** The reason with which the promise at position [i] is rejected, if it
    is. *)
Definition rejection_at (ps : list (@settled body)) (i : nat) : option (@reason body) :=
  match ps !! i with
  | Some (Rejected r) => Some r
  | _ => None
  end.

Definition result_of (p : @settled body) : option (@rbody body) :=
  match p with
  | Resolved b => Some b
  | _ => None
  end.

(** [Promise.all(ps)], where [order] lists the positions of the promises in
    the order in which they settle: the first rejection in time rejects the
    whole, and only when every promise is fulfilled is the whole fulfilled,
    with the results in the order of the positions. *)
Definition promise_all (ps : list (@settled body)) (order : list nat) : all_settled :=
  match omap (rejection_at ps) order with
  | r :: _ => AllRejected r
  | [] =>
      match mapM result_of ps with
      | Some bs => AllResolved bs
      | None => AllPending
      end
  end.

(** An accepted connection: the host's channel over the socket and the
    client's channel at the other end. *)
Record connection := { host_side : @channel body; client_side : @channel body }.

(** A request that was answered: it is not the timer that settled it. *)
Definition answered (ps : list (@settled body)) (i : nat) : bool :=
  match ps !! i with
  | Some (Rejected (TimedOut _)) | None => false
  | Some _ => true
  end.

(** The order in which the requests of a broadcast settle. The answers come
    first: [arrival] lists positions of the connection set in the order in
    which their answers arrive, and connections that it does not list
    answer after those. The timers of the requests that are not answered
    fire later, in the order in which the requests were made. *)
Definition settling_order (arrival : list nat) (ps : list (@settled body)) : list nat :=
  let positions := seq 0 (length ps) in
  filter (λ i, answered ps i = true) (arrival ++ positions)
  ++ filter (λ i, answered ps i = false) positions.

(** [handlers.invoke(handlerKey, requestMessage)] of the host: the requests
    are made in the iteration order of the connection set. *)
Definition invoke (arrival : list nat) (connections : list connection)
    (handlerKey : string) (requestMessage : body) : all_settled :=
  let ps := (λ child, (exchange frames handlerKey requestMessage
                         (host_side child) (client_side child)).1.1)
            <$> connections in
  promise_all ps (settling_order arrival ps).
End Broadcast.
End Broadcast.

(** ** The global context store (utils/global-context) *)

Module GlobalContext.
Section Store.
Context {content : Type}.

(** A file name of the form [`${pid}-${seq}.json`], which is what
    [/^(\d+)-\d+\.json$/] accepts, is kept as its two numbers; any other
    name is kept as text. *)
Inductive filename :=
  | CtxFile (pid seq : nat)
  | OtherFile (name : string).

#[global] Instance filename_eq_dec : EqDecision filename.
Proof. solve_decision. Defined.

(** What [JSON.parse(fs.readFileSync(path, 'utf8'))] makes of a file. *)
Inductive data :=
  | Json (c : content)
  | Malformed.

Record file := { mtime : Z; fdata : data }.

(** [process.kill(pid, 0)]: it returns true, or throws with a code. *)
Inductive probe := Running | EPERM | ESRCH.

Inductive io_error :=
  | UnexpectedFilename (name : filename)
  | SyntaxError (name : filename).

(** A subscriber [{ onChange, onError }]: one that records what it is given,
    or the one that [getAllGlobalContexts] makes for its promise, its timer
    and its own subscription to watcher [w]. *)
Inductive subscriber :=
  | Listener
  | GetAll (promise timer w : nat).

(** The callbacks handed to [setImmediate]. *)
Inductive task :=
  | TEmit (w : nat)                     (* of emit() *)
  | TError (w : nat) (err : io_error)   (* of handleUnexpectedError(err) *)
  | TFirst (w s : nat).                 (* of subscribe(subscriber) *)

Inductive timer :=
  | PurgeInterval (w : nat)             (* setInterval(purge, 30000) *)
  | GetAllTimeout (promise w s : nat).  (* setTimeout(..., 500) *)

#[global] Instance timer_eq_dec : EqDecision timer.
Proof. solve_decision. Defined.

Inductive outcome :=
  | Pending
  | Resolved (configs : list content)
  | Rejected (err : option io_error).   (* None: rejected with undefined *)

(** The calls that the store makes on its collaborators, in order. *)
Inductive effect :=
  | OnChange (s : nat) (configs : list content)
  | OnError (s : nat) (err : io_error)
  | Unsubscribe (w s : nat)
  | Resolve (p : nat) (configs : list content)
  | Reject (p : nat) (err : option io_error).

(** The state behind one [GlobalContextWatcher]. *)
Record watcher := {
  wkey : string;
  subscribers : list nat;                          (* Set, in insertion order *)
  configByFileName : list (filename * content);    (* Map *)
  lastCalled : Z;                                  (* of throttle *)
  closed : bool                                    (* the fs watcher *)
}.

Record world := {
  fs : string → list (filename * file);            (* the directory of a key *)
  kill0 : nat → probe;
  now : Z;                                         (* Date.now() *)
  boot : Z;                                        (* now - os.uptime() * 1000 *)
  globalContextWatchers : list (string * nat);
  watchers : list watcher;
  subscriptions : list subscriber;
  immediates : list task;
  timers : list (nat * timer);
  next_timer : nat;
  promises : list outcome;
  log : list effect
}.

Definition with_fs (x : string → list (filename * file)) (w : world) : world :=
  {| fs := x; kill0 := kill0 w; now := now w; boot := boot w;
     globalContextWatchers := globalContextWatchers w; watchers := watchers w;
     subscriptions := subscriptions w; immediates := immediates w;
     timers := timers w; next_timer := next_timer w;
     promises := promises w; log := log w |}.


Definition with_registry (x : list (string * nat)) (w : world) : world :=
  {| fs := fs w; kill0 := kill0 w; now := now w; boot := boot w;
     globalContextWatchers := x; watchers := watchers w;
     subscriptions := subscriptions w; immediates := immediates w;
     timers := timers w; next_timer := next_timer w;
     promises := promises w; log := log w |}.

Definition with_watchers (x : list watcher) (w : world) : world :=
  {| fs := fs w; kill0 := kill0 w; now := now w; boot := boot w;
     globalContextWatchers := globalContextWatchers w; watchers := x;
     subscriptions := subscriptions w; immediates := immediates w;
     timers := timers w; next_timer := next_timer w;
     promises := promises w; log := log w |}.

Definition with_subscriptions (x : list subscriber) (w : world) : world :=
  {| fs := fs w; kill0 := kill0 w; now := now w; boot := boot w;
     globalContextWatchers := globalContextWatchers w; watchers := watchers w;
     subscriptions := x; immediates := immediates w;
     timers := timers w; next_timer := next_timer w;
     promises := promises w; log := log w |}.

Definition with_immediates (x : list task) (w : world) : world :=
  {| fs := fs w; kill0 := kill0 w; now := now w; boot := boot w;
     globalContextWatchers := globalContextWatchers w; watchers := watchers w;
     subscriptions := subscriptions w; immediates := x;
     timers := timers w; next_timer := next_timer w;
     promises := promises w; log := log w |}.

Definition with_timers (x : list (nat * timer)) (nx : nat) (w : world) : world :=
  {| fs := fs w; kill0 := kill0 w; now := now w; boot := boot w;
     globalContextWatchers := globalContextWatchers w; watchers := watchers w;
     subscriptions := subscriptions w; immediates := immediates w;
     timers := x; next_timer := nx;
     promises := promises w; log := log w |}.

Definition with_promises (x : list outcome) (w : world) : world :=
  {| fs := fs w; kill0 := kill0 w; now := now w; boot := boot w;
     globalContextWatchers := globalContextWatchers w; watchers := watchers w;
     subscriptions := subscriptions w; immediates := immediates w;
     timers := timers w; next_timer := next_timer w;
     promises := x; log := log w |}.

Definition with_log (x : list effect) (w : world) : world :=
  {| fs := fs w; kill0 := kill0 w; now := now w; boot := boot w;
     globalContextWatchers := globalContextWatchers w; watchers := watchers w;
     subscriptions := subscriptions w; immediates := immediates w;
     timers := timers w; next_timer := next_timer w;
     promises := promises w; log := x |}.

Definition record (e : effect) (w : world) : world := with_log (log w ++ [e]) w.

(** *** The file system *)

(** The store keeps one directory per key; a directory that does not exist
    holds no file, and every operation below creates it or treats its
    absence (ENOENT) as emptiness. *)
Definition readdir (key : string) (w : world) : list (filename * file) := fs w key.

Definition set_dir (key : string) (d : list (filename * file)) (w : world) : world :=
  with_fs (λ k, if decide (k = key) then d else fs w k) w.

(** [fs.mkdirSync(dir, { recursive: true })] *)
Definition mkdirSync (key : string) (w : world) : world := w.

Definition writeFileSync (key : string) (name : filename) (c : content)
    (w : world) : world :=
  set_dir key (jsmap_set (readdir key w) name {| mtime := now w; fdata := Json c |}) w.

(** [fs.unlinkSync]: [None] is the ENOENT error. *)
Definition unlinkSync (key : string) (name : filename) (w : world) : option world :=
  match jsmap_get (readdir key w) name with
  | Some _ => Some (set_dir key (jsmap_delete (readdir key w) name) w)
  | None => None
  end.

(** *** exposeGlobalContext *)

(** The writer is the process [pid], whose module counter [i] stands at [i];
    the result holds the path that [hideGlobalContext] unlinks. *)
Definition exposeGlobalContext (pid i : nat) (key : string) (context : content)
    (w : world) : world * filename :=
  let w1 := mkdirSync key w in
  let contextPath := CtxFile pid (S i) in
  (writeFileSync key contextPath context w1, contextPath).

Definition hideGlobalContext (key : string) (contextPath : filename) (w : world) : world :=
  match unlinkSync key contextPath w with
  | Some w' => w'
  | None => w            (* err.code === 'ENOENT' *)
  end.

(** *** The watcher of a key *)

Definition update_watcher (wid : nat) (f : watcher → watcher) (w : world) : world :=
  match watchers w !! wid with
  | Some x => with_watchers (<[wid := f x]> (watchers w)) w
  | None => w
  end.

Definition set_config (x : list (filename * content)) (v : watcher) : watcher :=
  {| wkey := wkey v; subscribers := subscribers v; configByFileName := x;
     lastCalled := lastCalled v; closed := closed v |}.

Definition set_subscribers (x : list nat) (v : watcher) : watcher :=
  {| wkey := wkey v; subscribers := x; configByFileName := configByFileName v;
     lastCalled := lastCalled v; closed := closed v |}.

Definition set_lastCalled (x : Z) (v : watcher) : watcher :=
  {| wkey := wkey v; subscribers := subscribers v;
     configByFileName := configByFileName v; lastCalled := x; closed := closed v |}.

Definition set_closed (v : watcher) : watcher :=
  {| wkey := wkey v; subscribers := subscribers v;
     configByFileName := configByFileName v; lastCalled := lastCalled v;
     closed := true |}.

Definition watcher_key (wid : nat) (w : world) : string :=
  default "" (wkey <$> watchers w !! wid).

Definition configs_of (wid : nat) (w : world) : list content :=
  default [] ((λ v, (configByFileName v).*2) <$> watchers w !! wid).

Definition subscribers_of (wid : nat) (w : world) : list nat :=
  default [] (subscribers <$> watchers w !! wid).

Definition setImmediate (t : task) (w : world) : world :=
  with_immediates (immediates w ++ [t]) w.

Definition emit (wid : nat) (w : world) : world := setImmediate (TEmit wid) w.

Definition handleUnexpectedError (wid : nat) (err : io_error) (w : world) : world :=
  setImmediate (TError wid err) w.

(** The body of the callback of [configByFileName.forEach] in [purge]. *)
Definition purge_entry (wid : nat) (acc : world * bool) (name : filename)
  : world * bool :=
  let '(w, purged) := acc in
  match name with
  | OtherFile _ => (handleUnexpectedError wid (UnexpectedFilename name) w, purged)
  | CtxFile pid _ =>
      let running :=
        match kill0 w pid with
        | Running => true
        | EPERM => true      (* e.code === 'EPERM' *)
        | ESRCH => false
        end in
      if running then (w, purged)
      else
        match unlinkSync (watcher_key wid w) name w with
        | Some w' =>
            (update_watcher wid
               (λ v, set_config (jsmap_delete (configByFileName v) name) v) w',
             true)
        | None => (w, purged)           (* err.code === 'ENOENT' *)
        end
  end.

(** [purge], throttled to one run in 5000 ms. *)
Definition purge (wid : nat) (w : world) : world :=
  match watchers w !! wid with
  | None => w
  | Some v =>
      if decide (5000 ≤ now w - lastCalled v)%Z then
        let w1 := update_watcher wid (set_lastCalled (now w)) w in
        let '(w2, purged) :=
          foldl (purge_entry wid) (w1, false) (configByFileName v).*1 in
        if purged then emit wid w2 else w2
      else w
  end.

Definition eventTriggered (wid : nat) (name : filename) (w : world) : world :=
  let w1 :=
    match jsmap_get (readdir (watcher_key wid w) w) name with
    | Some {| fdata := Json c |} =>
        update_watcher wid (λ v, set_config (jsmap_set (configByFileName v) name c) v) w
    | None =>                                         (* err.code === 'ENOENT' *)
        update_watcher wid (λ v, set_config (jsmap_delete (configByFileName v) name) v) w
    | Some {| fdata := Malformed |} =>
        handleUnexpectedError wid (SyntaxError name) w
    end in
  emit wid w1.

(** The body of the callback of [readdirSync(dir).forEach] in [readAll];
    [minTime] is the boot time. *)
Definition readAll_entry (wid : nat) (w : world) (name : filename) : world :=
  match jsmap_get (readdir (watcher_key wid w) w) name with
  | Some f =>
      if decide (mtime f < boot w)%Z then
        match unlinkSync (watcher_key wid w) name w with
        | Some w' => w'
        | None => w
        end
      else eventTriggered wid name w
  | None => w                                         (* statSync: ENOENT *)
  end.

Definition readAll (wid : nat) (w : world) : world :=
  foldl (readAll_entry wid) w (readdir (watcher_key wid w) w).*1.

Definition setTimer (t : timer) (w : world) : nat * world :=
  (next_timer w, with_timers (timers w ++ [(next_timer w, t)]) (S (next_timer w)) w).

Definition clearTimer (t : nat) (w : world) : world :=
  with_timers (jsmap_delete (timers w) t) (next_timer w) w.

(** The watcher of [key]: the registered one, or a new one. *)
Definition getGlobalContextWatcher (key : string) (w : world) : nat * world :=
  match jsmap_get (globalContextWatchers w) key with
  | Some existingWatcher => (existingWatcher, w)
  | None =>
      let wid := length (watchers w) in
      let w1 := with_watchers
                  (watchers w ++
                   [{| wkey := key; subscribers := []; configByFileName := [];
                       lastCalled := 0; closed := false |}]) w in
      let w2 := mkdirSync key w1 in
      let w3 := readAll wid w2 in
      let w4 := purge wid w3 in
      let w5 := (setTimer (PurgeInterval wid) w4).2 in
      let w6 := emit wid w5 in
      (wid, with_registry (jsmap_set (globalContextWatchers w6) key wid) w6)
  end.

(** [contextWatcher.subscribe(subscriber)]; the subscriber is object [s]. *)
Definition subscribe (wid s : nat) (w : world) : world :=
  let w1 := update_watcher wid
              (λ v, if decide (s ∈ subscribers v) then v
                    else set_subscribers (subscribers v ++ [s]) v) w in
  setImmediate (TFirst wid s) w1.

(** The [unsubscribe] that [subscribe] returns. *)
Definition unsubscribe (wid s : nat) (w : world) : world :=
  let w1 := update_watcher wid
              (λ v, set_subscribers (filter (λ s', s' ≠ s) (subscribers v)) v) w in
  let w2 := record (Unsubscribe wid s) w1 in
  match subscribers_of wid w2 with
  | [] =>
      let w3 := with_registry
                  (jsmap_delete (globalContextWatchers w2) (watcher_key wid w2)) w2 in
      (* watcher.close(), whose 'close' event clears the purge interval *)
      let w4 := update_watcher wid set_closed w3 in
      with_timers (filter (λ it, it.2 ≠ PurgeInterval wid) (timers w4))
                  (next_timer w4) w4
  | _ => w2
  end.

(** [watchGlobalContext({ key, onChange, onError })]: the new subscriber's
    name and its watcher, which together are the returned [unsubscribe]. *)
Definition watchGlobalContext (key : string) (kind : nat → nat → subscriber)
    (w : world) : nat * nat * world :=
  let '(wid, w1) := getGlobalContextWatcher key w in
  let s := length (subscriptions w1) in
  let w2 := with_subscriptions (subscriptions w1 ++ [kind wid s]) w1 in
  (wid, s, subscribe wid s w2).

(** [resolve] and [reject] of a promise act while it is pending. *)
Definition settle (p : nat) (o : outcome) (w : world) : world :=
  match promises w !! p with
  | Some Pending => with_promises (<[p := o]> (promises w)) w
  | _ => w
  end.

Definition onChange (s : nat) (configs : list content) (w : world) : world :=
  match subscriptions w !! s with
  | Some Listener => record (OnChange s configs) w
  | Some (GetAll p t wid) =>
      let w1 := unsubscribe wid s w in                 (* unwatch() *)
      let w2 := clearTimer t w1 in                     (* clearTimeout(timeout) *)
      settle p (Resolved configs) (record (Resolve p configs) w2)
  | None => w
  end.

Definition onError (s : nat) (err : io_error) (w : world) : world :=
  match subscriptions w !! s with
  | Some Listener => record (OnError s err) w
  | Some (GetAll p t wid) =>
      settle p (Rejected (Some err)) (record (Reject p (Some err)) w)
  | None => w
  end.

(** One callback of the immediate queue. *)
Definition run_task (w : world) (t : task) : world :=
  match t with
  | TEmit wid =>
      let configs := configs_of wid w in
      foldl (λ w' s, onChange s configs w') w (subscribers_of wid w)
  | TError wid err =>
      foldl (λ w' s, onError s err w') w (subscribers_of wid w)
  | TFirst wid s => onChange s (configs_of wid w) w
  end.

(** One check phase of the event loop: the callbacks queued so far. *)
Definition run_immediates (w : world) : world :=
  foldl run_task (with_immediates [] w) (immediates w).

(** A timer fires. *)
Definition fire (t : nat) (w : world) : world :=
  match jsmap_get (timers w) t with
  | Some (PurgeInterval wid) => purge wid w
  | Some (GetAllTimeout p wid s) =>
      let w1 := clearTimer t w in
      let w2 := unsubscribe wid s w1 in                (* unwatch() *)
      settle p (Rejected None) (record (Reject p None) w2)   (* reject() *)
  | None => w
  end.

(** The callback of [fs.watch]. *)
Definition fs_event (wid : nat) (name : filename) (w : world) : world :=
  match closed <$> watchers w !! wid with
  | Some false => eventTriggered wid name w
  | _ => w
  end.

(** [getAllGlobalContexts(contextKey)]: the promise, the timer, the watcher
    and the subscriber. [setTimeout] is called first, so that its handle is
    the first to be allocated; its callback reads [unwatch] when it runs,
    which is after [watchGlobalContext] has returned. *)
Definition getAllGlobalContexts (contextKey : string) (w : world)
  : nat * nat * nat * nat * world :=
  let p := length (promises w) in
  let w1 := with_promises (promises w ++ [Pending]) w in
  let timeout := next_timer w1 in
  let w2 := with_timers (timers w1) (S timeout) w1 in
  let '(wid, s, w3) :=
    watchGlobalContext contextKey (λ wid _, GetAll p timeout wid) w2 in
  (p, timeout, wid, s,
   with_timers (timers w3 ++ [(timeout, GetAllTimeout p wid s)]) (next_timer w3) w3).
End Store.
End GlobalContext.

(** ** Client-side discovery (utils/discoverable-message-channels) *)

Module Discovery.

Record DiscoverableChannelConfig := {
  cfg_key : string;
  description : string;
  port : nat
}.

(** [ws.readyState]; CLOSING counts as CLOSED. *)
Inductive readyState := CONNECTING | OPEN | CLOSED.

#[global] Instance readyState_eq_dec : EqDecision readyState.
Proof. solve_decision. Defined.

(** A websocket made by [createOpenSocket]: whether its 65 ms timer is
    armed, whether the promise of [createOpenSocket] is resolved, and the
    snapshot callback whose pass made it. *)
Record socket := {
  sport : nat;
  state : readyState;
  timer : bool;
  settled : bool;
  pass : nat
}.

(** The callbacks given to the async queue. *)
Inductive job :=
  | Explore (pass : nat) (configs : list DiscoverableChannelConfig)
  | TimeOut.

#[global] Instance config_eq_dec : EqDecision DiscoverableChannelConfig.
Proof. solve_decision. Defined.
#[global] Instance job_eq_dec : EqDecision job.
Proof. solve_decision. Defined.

Inductive outcome :=
  | Pending
  | Resolved (ws : nat)     (* the channel made of websocket [ws] *)
  | Rejected.               (* discovery timed out *)

Record discovery := {
  key : string;
  finalized : bool;
  queue : list job;               (* of createAsyncQueue *)
  running : bool;                 (* of createAsyncQueue *)
  awaiting : option nat;          (* the pass whose Promise.all is awaited *)
  catches : bool;                 (* the call of enqueue that runs the loop
                                     is one with a .catch: the call of a
                                     snapshot callback *)
  hostSelected : list bool;       (* one per snapshot callback *)
  sockets : list socket;
  timeout : bool;                 (* the discovery timer is armed *)
  watching : bool;                (* until unwatch() *)
  promise : outcome;
  resolves : nat;                 (* calls of resolve *)
  rejects : nat                   (* calls of reject *)
}.

Definition init (k : string) : discovery :=
  {| key := k; finalized := false; queue := []; running := false;
     awaiting := None; catches := false; hostSelected := []; sockets := [];
     timeout := true;
     watching := true; promise := Pending; resolves := 0; rejects := 0 |}.

Definition with_queue (q : list job) (r : bool) (a : option nat) (d : discovery)
  : discovery :=
  {| key := key d; finalized := finalized d; queue := q; running := r;
     awaiting := a; catches := catches d; hostSelected := hostSelected d;
     sockets := sockets d;
     timeout := timeout d; watching := watching d; promise := promise d;
     resolves := resolves d; rejects := rejects d |}.

Definition with_sockets (x : list socket) (d : discovery) : discovery :=
  {| key := key d; finalized := finalized d; queue := queue d;
     running := running d; awaiting := awaiting d; catches := catches d;
     hostSelected := hostSelected d; sockets := x;
     timeout := timeout d; watching := watching d; promise := promise d;
     resolves := resolves d; rejects := rejects d |}.

Definition with_hostSelected (x : list bool) (d : discovery) : discovery :=
  {| key := key d; finalized := finalized d; queue := queue d;
     running := running d; awaiting := awaiting d; catches := catches d;
     hostSelected := x; sockets := sockets d;
     timeout := timeout d; watching := watching d; promise := promise d;
     resolves := resolves d; rejects := rejects d |}.

Definition with_catches (x : bool) (d : discovery) : discovery :=
  {| key := key d; finalized := finalized d; queue := queue d;
     running := running d; awaiting := awaiting d; catches := x;
     hostSelected := hostSelected d; sockets := sockets d;
     timeout := timeout d; watching := watching d; promise := promise d;
     resolves := resolves d; rejects := rejects d |}.

Definition with_timeout (x : bool) (d : discovery) : discovery :=
  {| key := key d; finalized := finalized d; queue := queue d;
     running := running d; awaiting := awaiting d; catches := catches d;
     hostSelected := hostSelected d; sockets := sockets d;
     timeout := x; watching := watching d; promise := promise d;
     resolves := resolves d; rejects := rejects d |}.

(** [finalize()]: finalized = true; queue.clear(); unwatch();
    clearTimeout(timeout). *)
Definition finalize (d : discovery) : discovery :=
  {| key := key d; finalized := true; queue := [];
     running := running d; awaiting := awaiting d; catches := catches d;
     hostSelected := hostSelected d; sockets := sockets d;
     timeout := false; watching := false; promise := promise d;
     resolves := resolves d; rejects := rejects d |}.

(** [resolve(channel)] and [reject(error)] of the promise of discovery. *)
Definition resolve (ws : nat) (d : discovery) : discovery :=
  {| key := key d; finalized := finalized d; queue := queue d;
     running := running d; awaiting := awaiting d; catches := catches d;
     hostSelected := hostSelected d; sockets := sockets d;
     timeout := timeout d; watching := watching d;
     promise := match promise d with Pending => Resolved ws | o => o end;
     resolves := S (resolves d); rejects := rejects d |}.

Definition reject (d : discovery) : discovery :=
  {| key := key d; finalized := finalized d; queue := queue d;
     running := running d; awaiting := awaiting d; catches := catches d;
     hostSelected := hostSelected d; sockets := sockets d;
     timeout := timeout d; watching := watching d;
     promise := match promise d with Pending => Rejected | o => o end;
     resolves := resolves d; rejects := S (rejects d) |}.

(** [new WebSocket(`ws://localhost:${port}`)] throws when the URL is not
    valid, which is when the port is above 65535. *)
Definition valid_port (p : nat) : bool := (N.of_nat p <=? 65535)%N.

(** A connecting websocket of pass [k] and its 65 ms timer. *)
Definition connecting (k : nat) (p : nat) : socket :=
  {| sport := p; state := CONNECTING; timer := true; settled := false; pass := k |}.

(** [createOpenSocket(port)] in pass [k]: the websocket that it makes.
    When [new WebSocket] throws there is none, and the promise that
    [createOpenSocket] returns is rejected. *)
Definition createOpenSocket (k : nat) (p : nat) : option socket :=
  if valid_port p then Some (connecting k p) else None.

(** The ports that a pass explores: [configs.filter(config => config.key
    === key)]. *)
Definition candidates (d : discovery) (configs : list DiscoverableChannelConfig)
  : list nat :=
  port <$> filter (λ config, cfg_key config = key d) configs.

(** The loop of [enqueue], from the point where it takes the next callback:
    [jobs] is the queue. A pass with candidates suspends the loop until its
    [Promise.all] is settled. When a promise of the pass is rejected, so is
    the [Promise.all], at once: [await] throws and the loop is left with
    [running] true; the call of [enqueue] that ran it rejects, and its
    [.catch], if it has one, finalizes and rejects the discovery. The
    websockets of the pass are made all the same. *)
Fixpoint drain (jobs : list job) (d : discovery) : discovery :=
  match jobs with
  | [] => with_queue [] false None d
  | TimeOut :: rest =>
      if finalized d then drain rest (with_queue rest true None d)
      else with_queue [] false None (reject (finalize d))
  | Explore k configs :: rest =>
      match candidates d configs with
      | [] => drain rest (with_queue rest true None d)
      | ports =>
          let d1 := with_sockets (sockets d ++ omap (createOpenSocket k) ports) d in
          if forallb valid_port ports then with_queue rest true (Some k) d1
          else
            let d2 := with_queue rest true None d1 in
            if catches d then reject (finalize d2) else d2
      end
  end.

(** [queue.enqueue(cb)]: the call that finds the loop idle runs it. The
    snapshot callback calls [enqueue(...).catch(...)], the callback of the
    discovery timer calls [enqueue(...)]. *)
Definition enqueue (j : job) (d : discovery) : discovery :=
  if running d then with_queue (queue d ++ [j]) true (awaiting d) d
  else
    drain (queue d ++ [j])
      (with_catches (match j with Explore _ _ => true | TimeOut => false end) d).

(** Every websocket of pass [k] has settled its promise. *)
Definition pass_settled (k : nat) (d : discovery) : bool :=
  forallb (λ s, negb (bool_decide (pass s = k)) || settled s) (sockets d).

(** After a promise of [createOpenSocket] has settled: when that completes
    the [Promise.all] that the queue awaits, the loop goes on. *)
Definition continue (d : discovery) : discovery :=
  match awaiting d with
  | Some k => if pass_settled k d then drain (queue d) d else d
  | None => d
  end.

Definition set_socket (i : nat) (s : socket) (d : discovery) : discovery :=
  with_sockets (<[i := s]> (sockets d)) d.

Inductive event :=
  | Snapshot (configs : list DiscoverableChannelConfig)
      (* watchDiscoverableChannels calls back *)
  | TimerElapsed          (* the timer of timeoutMilliseconds fires *)
  | SocketOpen (ws : nat)   (* 'open' on a websocket *)
  | SocketError (ws : nat)  (* 'error' on a websocket *)
  | SocketTimer (ws : nat). (* the 65 ms timer of a websocket fires *)

Definition step (d : discovery) (e : event) : discovery :=
  match e with
  | Snapshot configs =>
      if finalized d then d
      else
        let k := length (hostSelected d) in
        enqueue (Explore k configs) (with_hostSelected (hostSelected d ++ [false]) d)
  | TimerElapsed =>
      if timeout d then enqueue TimeOut (with_timeout false d) else d
  | SocketOpen i =>
      match sockets d !! i with
      | Some s =>
          match state s with
          | CONNECTING =>
              (* clearTimeout(timeout); addHeartbeat; resolve(ws) *)
              let opened := {| sport := sport s; state := OPEN; timer := false;
                               settled := true; pass := pass s |} in
              let d1 := set_socket i opened d in
              let d2 :=
                if default false (hostSelected d1 !! pass s) then
                  (* websocket.close() *)
                  set_socket i {| sport := sport s; state := CLOSED; timer := false;
                                  settled := true; pass := pass s |} d1
                else
                  resolve i
                    (finalize
                       (with_hostSelected (<[pass s := true]> (hostSelected d1)) d1)) in
              continue d2
          | _ => d
          end
      | None => d
      end
  | SocketError i =>
      match sockets d !! i with
      | Some s =>
          (* ws.close(); resolve(null) *)
          continue
            (set_socket i {| sport := sport s; state := CLOSED; timer := timer s;
                             settled := true; pass := pass s |} d)
      | None => d
      end
  | SocketTimer i =>
      match sockets d !! i with
      | Some s =>
          if timer s then
            (* ws.close(); resolve(null) *)
            continue
              (set_socket i {| sport := sport s; state := CLOSED; timer := false;
                               settled := true; pass := pass s |} d)
          else d
      | None => d
      end
  end.

Definition run (k : string) (events : list event) : discovery :=
  foldl step (init k) events.

End Discovery.

(** ** Handler registries and routes (utils/handlers, utils/MessageChannel) *)

Module Routing.
Import Channel.
Section Routing.
Context {body : Type}.
Variable frames : string.

(** What travels as the body of a request: a value of the application, or
    the input [{ route, handlerKey, body }] of a routed request. [Plain b]
    stands for a value that is not null or undefined and has no property
    [route]. *)
Inductive payload :=
  | Plain (b : body)
  | Routed (route : string) (handlerKey : string) (b : payload).

Definition ROUTED_REQUEST : string := "routed-request".

Abbreviation registry := (list (string * @handler payload)).

(** [createHandlerRegistry(handlerRegistry)]: the map is copied, and [set]
    and [register] write to the copy. *)
Definition createHandlerRegistry (handlerRegistry : option registry) : registry :=
  default [] handlerRegistry.

Definition register (key : string) (f : @handler payload) (r : registry) : registry :=
  jsmap_set r key f.

(** [registryAsHandlers(handlerRegistry).invoke(key, input)], seen by a
    caller that awaits it inside [try]: [getRequiredHandler] throws for a
    key without handler. *)
Definition registryAsHandlers (handlerRegistry : registry)
    (key : string) (input : payload) : @handler_result payload :=
  match jsmap_get handlerRegistry key with
  | None => Throws (new_Error frames ("missing handler for " +:+ key))
  | Some f => f input
  end.

(** The handler that [routeMessageChannel] registers under ROUTED_REQUEST. *)
Definition routed_handler (routeRegistries : list (string * registry))
  : @handler payload :=
  λ input,
    match input with
    | Routed route handlerKey b =>
        match jsmap_get routeRegistries route with
        | None => Throws (new_Error frames "no handlers known for given route")
        | Some r => registryAsHandlers r handlerKey b
        end
    | Plain _ =>
        (* route is undefined, and routeHandlers.get(undefined) is too *)
        Throws (new_Error frames "no handlers known for given route")
    end.

(** [routeMessageChannel(messageChannel, routeRegistries)]: the channel
    with the routed handler registered. *)
Definition routeMessageChannel (messageChannel : @channel payload)
    (routeRegistries : list (string * registry)) : @channel payload :=
  handle ROUTED_REQUEST (routed_handler routeRegistries) messageChannel.

(** [handlers.invoke(handlerKey, body)] of the entry that the result of
    [routeMessageChannel] holds for [route]. *)
Definition routed_invoke (route : string) (handlerKey : string) (b : payload)
    (messageChannel : @channel payload) : nat * @channel payload :=
  invoke ROUTED_REQUEST (Routed route handlerKey b) messageChannel.

End Routing.
End Routing.

(** ** Keys of the global context (utils/global-context) *)

Module ContextKey.

(** The order of [Array.prototype.sort] without comparator: by code units.
    A character of [string] is a code unit below 256. *)
Definition code_unit_le (s t : string) : Prop := String.leb s t = true.

#[global] Instance code_unit_le_dec s t : Decision (code_unit_le s t).
Proof. unfold code_unit_le. apply _. Defined.

(** [components.sort().join('.')] *)
Definition createKeyFromComponents (components : list string) : string :=
  String.concat "." (merge_sort code_unit_le components).

End ContextKey.

(** ** The heartbeat of a websocket (utils/discoverable-message-channels) *)

Module Heartbeat.

(** The variables of [addHeartbeat(ws, ms)], whether its interval is still
    set, and the calls that it has made of [ws.close()] and [ws.ping()]. *)
Record heartbeat := {
  ms : Z;
  lastSentPing : Z;
  lastReceivedMessage : Z;
  interval : bool;
  closes : nat;
  pings : nat
}.

(** [addHeartbeat(ws, ms)]; [t0] and [t1] are the two readings of
    [Date.now()]. *)
Definition addHeartbeat (ms t0 t1 : Z) : heartbeat :=
  {| ms := ms; lastSentPing := t0; lastReceivedMessage := t1; interval := true;
     closes := 0; pings := 0 |}.

Inductive event :=
  | Tick (now : Z)     (* the callback of setInterval *)
  | Pong (now : Z)     (* 'pong' *)
  | Ping (now : Z)     (* 'ping', which also refreshes the interval *)
  | Close.             (* 'close' *)

Definition step (h : heartbeat) (e : event) : heartbeat :=
  match e with
  | Tick now =>
      if interval h then
        if decide (lastSentPing h - lastReceivedMessage h > ms h)%Z then
          {| ms := ms h; lastSentPing := lastSentPing h;
             lastReceivedMessage := lastReceivedMessage h; interval := interval h;
             closes := S (closes h); pings := pings h |}
        else
          {| ms := ms h; lastSentPing := now;
             lastReceivedMessage := lastReceivedMessage h; interval := interval h;
             closes := closes h; pings := S (pings h) |}
      else h
  | Pong now | Ping now =>
      {| ms := ms h; lastSentPing := lastSentPing h; lastReceivedMessage := now;
         interval := interval h; closes := closes h; pings := pings h |}
  | Close =>
      {| ms := ms h; lastSentPing := lastSentPing h;
         lastReceivedMessage := lastReceivedMessage h; interval := false;
         closes := closes h; pings := pings h |}
  end.

Definition run (h : heartbeat) (events : list event) : heartbeat :=
  foldl step h events.

End Heartbeat.

(** ** The host of a discoverable channel (utils/discoverable-message-channels) *)

Module Host.
Import GlobalContext Discovery.

Definition globalContextKey : string := "discoverable-host-channels".

(** The store holds [DiscoverableChannelConfig]s. *)
Abbreviation store := (@world DiscoverableChannelConfig).

(** What [hostDiscoverableMessageChannel] closes over: the set of
    connections, [closed], the callbacks that hide what was exposed (each is
    the path that it unlinks), and the calls that were made of
    [server.close], of [onClose] and of [setImmediate(() => close())]. *)
Record host := {
  hport : nat;
  connections : list nat;
  closed : bool;
  hideGlobalContextCallbacks : list filename;
  server_closes : nat;
  onClose_calls : nat;
  close_scheduled : nat
}.

(** [clientKeys.map(key => exposeDiscoverableChannelConfig({ port, key,
    description }))] by the process [pid], whose counter of exposed
    contexts stands at [i]: the paths, the store and the counter. *)
Fixpoint expose_all (pid i : nat) (clientKeys : list string) (description : string)
    (port : nat) (w : store) : list filename * store * nat :=
  match clientKeys with
  | [] => ([], w, i)
  | key :: keys =>
      let '(w1, path) :=
        exposeGlobalContext pid i globalContextKey
          {| cfg_key := key; description := description; port := port |} w in
      let '(paths, w2, i') := expose_all pid (S i) keys description port w1 in
      (path :: paths, w2, i')
  end.

(** The part of [hostDiscoverableMessageChannel] that follows the creation
    of the server, which listens on [port]; [description] defaults to
    [clientKeys.join(', ')]. *)
Definition hostDiscoverableMessageChannel (pid i : nat) (clientKeys : list string)
    (description : option string) (port : nat) (w : store) : host * store * nat :=
  let d := default (String.concat ", " clientKeys) description in
  let '(paths, w', i') := expose_all pid i clientKeys d port w in
  ({| hport := port; connections := []; closed := false;
      hideGlobalContextCallbacks := paths; server_closes := 0;
      onClose_calls := 0; close_scheduled := 0 |}, w', i').

(** [hideGlobalContext()]: every callback is called, and the list is
    emptied. *)
Definition hide_all (paths : list filename) (w : store) : store :=
  foldl (λ w' path, hideGlobalContext globalContextKey path w') w paths.

(** [close()], with an [onClose] that was given. *)
Definition close (h : host) (w : store) : host * store :=
  if closed h then (h, w)
  else
    ({| hport := hport h; connections := connections h; closed := true;
        hideGlobalContextCallbacks := []; server_closes := S (server_closes h);
        onClose_calls := S (onClose_calls h); close_scheduled := close_scheduled h |},
     hide_all (hideGlobalContextCallbacks h) w).

Definition schedule_close (h : host) : host :=
  {| hport := hport h; connections := connections h; closed := closed h;
     hideGlobalContextCallbacks := hideGlobalContextCallbacks h;
     server_closes := server_closes h; onClose_calls := onClose_calls h;
     close_scheduled := S (close_scheduled h) |}.

(** The handlers 'terminate-any-host' and 'terminate-unused-host'. *)
Definition terminate_any_host (h : host) : host := schedule_close h.

Definition terminate_unused_host (h : host) : host :=
  match connections h with
  | [] => schedule_close h
  | _ => h
  end.

(** The callback of [setImmediate(() => close())]. *)
Definition run_scheduled_close (h : host) (w : store) : host * store :=
  match close_scheduled h with
  | 0 => (h, w)
  | S k =>
      close {| hport := hport h; connections := connections h; closed := closed h;
               hideGlobalContextCallbacks := hideGlobalContextCallbacks h;
               server_closes := server_closes h; onClose_calls := onClose_calls h;
               close_scheduled := k |} w
  end.

(** 'connection' on the server, and 'close' on the websocket of a
    connection. *)
Definition connection (c : nat) (h : host) : host :=
  {| hport := hport h;
     connections := if decide (c ∈ connections h) then connections h
                    else connections h ++ [c];
     closed := closed h;
     hideGlobalContextCallbacks := hideGlobalContextCallbacks h;
     server_closes := server_closes h; onClose_calls := onClose_calls h;
     close_scheduled := close_scheduled h |}.

Definition connection_closed (c : nat) (h : host) : host :=
  {| hport := hport h; connections := filter (λ c', c' ≠ c) (connections h);
     closed := closed h;
     hideGlobalContextCallbacks := hideGlobalContextCallbacks h;
     server_closes := server_closes h; onClose_calls := onClose_calls h;
     close_scheduled := close_scheduled h |}.

End Host.

(** ** The hooks (utils/hooks) *)

Module Hooks.

(** Values, as far as [===] tells them apart. *)
Inductive value :=
  | Undefined
  | Num (z : Z)
  | NaN
  | Str (s : string)
  | Obj (address : nat).

#[global] Instance value_eq_dec : EqDecision value.
Proof. solve_decision. Defined.

(** [a === b] *)
Definition strict_eq (a b : value) : bool :=
  match a, b with
  | NaN, _ | _, NaN => false
  | _, _ => bool_decide (a = b)
  end.

Inductive failure :=
  | Error (message : string)   (* new Error(message) *)
  | TypeError                  (* thrown by the runtime *)
  | Raised (e : value).        (* thrown by the code that uses the hooks *)

Inductive outcome (A : Type) :=
  | Returns (a : A)
  | Throws (e : failure)
  | NoFuel.
Arguments Returns {A} a.
Arguments Throws {A} e.
Arguments NoFuel {A}.

(** The object behind [cell.ref]: of [useState], with the target that its
    [setState] closes over, or of [useMemo]. *)
Inductive cellref :=
  | StateRef (state : value) (target : nat)
  | MemoRef (state : value) (deps : list value).

(** A memory cell; [ref] is the address of the object, [None] when
    undefined. *)
Record MemoryCell := { type : string; ctarget : nat; ref : option nat }.

(** A link of [hookState]. *)
Record frame := { index : nat; target : nat }.

(** What [setState] is given: a value, or a function of the last state;
    and what such a function returns: a value, or a function. *)
Inductive resolved :=
  | Value (v : value)
  | Function.

Inductive newState :=
  | Direct (v : value)
  | Updater (f : value → resolved).

(** The callback that [setState] hands to [setImmediate]. *)
Inductive task := SetState (r : nat) (arg : newState).

(** The variables of the module, the objects that they reach, and of every
    hook target its [memoryCells] and the [active] of [createHookTarget].
    Cells and refs are objects: they are kept in a heap each, and named by
    their address. [executed] lists the targets whose [execute] was called. *)
Record hooks := {
  hookState : list frame;            (* the linked list, the head first *)
  cells : list MemoryCell;
  refs : list cellref;
  memoryCells : nat → list nat;
  active : nat → bool;
  nodesToRefresh : list nat;         (* Set, in insertion order *)
  stack : list nat;                  (* schedule.stack *)
  executingSchedule : bool;
  immediates : list task;
  executed : list nat
}.

(** The module as it is loaded; a target that [createHookTarget] returns has
    no cells and is not active. *)
Definition init : hooks :=
  {| hookState := []; cells := []; refs := []; memoryCells := λ _, [];
     active := λ _, false; nodesToRefresh := []; stack := [];
     executingSchedule := false; immediates := []; executed := [] |}.

Definition with_hookState (x : list frame) (σ : hooks) : hooks :=
  {| hookState := x; cells := cells σ; refs := refs σ; memoryCells := memoryCells σ;
     active := active σ; nodesToRefresh := nodesToRefresh σ; stack := stack σ;
     executingSchedule := executingSchedule σ; immediates := immediates σ;
     executed := executed σ |}.

Definition with_cells (x : list MemoryCell) (σ : hooks) : hooks :=
  {| hookState := hookState σ; cells := x; refs := refs σ; memoryCells := memoryCells σ;
     active := active σ; nodesToRefresh := nodesToRefresh σ; stack := stack σ;
     executingSchedule := executingSchedule σ; immediates := immediates σ;
     executed := executed σ |}.

Definition with_refs (x : list cellref) (σ : hooks) : hooks :=
  {| hookState := hookState σ; cells := cells σ; refs := x; memoryCells := memoryCells σ;
     active := active σ; nodesToRefresh := nodesToRefresh σ; stack := stack σ;
     executingSchedule := executingSchedule σ; immediates := immediates σ;
     executed := executed σ |}.

Definition with_memoryCells (t : nat) (x : list nat) (σ : hooks) : hooks :=
  {| hookState := hookState σ; cells := cells σ; refs := refs σ;
     memoryCells := λ t', if decide (t' = t) then x else memoryCells σ t';
     active := active σ; nodesToRefresh := nodesToRefresh σ; stack := stack σ;
     executingSchedule := executingSchedule σ; immediates := immediates σ;
     executed := executed σ |}.

Definition with_active (t : nat) (x : bool) (σ : hooks) : hooks :=
  {| hookState := hookState σ; cells := cells σ; refs := refs σ;
     memoryCells := memoryCells σ;
     active := λ t', if decide (t' = t) then x else active σ t';
     nodesToRefresh := nodesToRefresh σ; stack := stack σ;
     executingSchedule := executingSchedule σ; immediates := immediates σ;
     executed := executed σ |}.

Definition with_nodesToRefresh (x : list nat) (σ : hooks) : hooks :=
  {| hookState := hookState σ; cells := cells σ; refs := refs σ;
     memoryCells := memoryCells σ; active := active σ; nodesToRefresh := x;
     stack := stack σ; executingSchedule := executingSchedule σ;
     immediates := immediates σ; executed := executed σ |}.

Definition with_stack (x : list nat) (σ : hooks) : hooks :=
  {| hookState := hookState σ; cells := cells σ; refs := refs σ;
     memoryCells := memoryCells σ; active := active σ;
     nodesToRefresh := nodesToRefresh σ; stack := x;
     executingSchedule := executingSchedule σ; immediates := immediates σ;
     executed := executed σ |}.

Definition with_executingSchedule (x : bool) (σ : hooks) : hooks :=
  {| hookState := hookState σ; cells := cells σ; refs := refs σ;
     memoryCells := memoryCells σ; active := active σ;
     nodesToRefresh := nodesToRefresh σ; stack := stack σ;
     executingSchedule := x; immediates := immediates σ; executed := executed σ |}.

Definition with_immediates (x : list task) (σ : hooks) : hooks :=
  {| hookState := hookState σ; cells := cells σ; refs := refs σ;
     memoryCells := memoryCells σ; active := active σ;
     nodesToRefresh := nodesToRefresh σ; stack := stack σ;
     executingSchedule := executingSchedule σ; immediates := x;
     executed := executed σ |}.

Definition with_executed (x : list nat) (σ : hooks) : hooks :=
  {| hookState := hookState σ; cells := cells σ; refs := refs σ;
     memoryCells := memoryCells σ; active := active σ;
     nodesToRefresh := nodesToRefresh σ; stack := stack σ;
     executingSchedule := executingSchedule σ; immediates := immediates σ;
     executed := x |}.

(** *** Code that reads and writes the state, and may throw *)

Definition M (A : Type) : Type := hooks → hooks * outcome A.

Definition ret {A} (a : A) : M A := λ σ, (σ, Returns a).

Definition throw {A} (e : failure) : M A := λ σ, (σ, Throws e).

Definition bind {A B} (m : M A) (k : A → M B) : M B := λ σ,
  match m σ with
  | (σ1, Returns a) => k a σ1
  | (σ1, Throws e) => (σ1, Throws e)
  | (σ1, NoFuel) => (σ1, NoFuel)
  end.

Definition modify (f : hooks → hooks) : M unit := λ σ, (f σ, Returns ()).

Definition gets {A} (f : hooks → A) : M A := λ σ, (σ, Returns (f σ)).

(** [try { m } finally { fin }] *)
Definition finally {A} (m : M A) (fin : M unit) : M A := λ σ,
  match m σ with
  | (σ1, NoFuel) => (σ1, NoFuel)
  | (σ1, r) =>
      match fin σ1 with
      | (σ2, Returns _) => (σ2, r)
      | (σ2, Throws e) => (σ2, Throws e)
      | (σ2, NoFuel) => (σ2, NoFuel)
      end
  end.

Notation "'let*' x := m 'in' k" := (bind m (λ x, k))
  (at level 10, x name, m at level 100, k at level 200).
Notation "m ;;; k" := (bind m (λ _, k))
  (at level 100, k at level 200, right associativity).

(** *** The stack of hook targets *)

Definition pushHookTarget (t : nat) : M unit :=
  modify (λ σ, with_hookState ({| index := 0; target := t |} :: hookState σ) σ).

Definition popHookTarget (t : nat) : M unit := λ σ,
  match hookState σ with
  | [] => throw (Error "could not pop hook target from empty stack") σ
  | fr :: next =>
      if decide (target fr = t) then (with_hookState next σ, Returns ())
      else throw (Error "popped hook target does not match current hook state") σ
  end.

Definition getHookTarget : M nat := λ σ,
  match hookState σ with
  | [] => throw (Error "No active hook target found") σ
  | fr :: _ => (σ, Returns (target fr))
  end.

(** [getMemoryCell(type)] returns the address of the cell. The index of the
    top link is advanced before the cell is looked at; a cell that is
    missing at the index is pushed at the end of [memoryCells]. An address
    in [memoryCells] always names a cell of the heap. *)
Definition getMemoryCell (ty : string) : M nat := λ σ,
  match hookState σ with
  | [] => throw (Error "No active hook target found") σ
  | fr :: next =>
      let t := target fr in
      let σ1 := with_hookState ({| index := S (index fr); target := t |} :: next) σ in
      match memoryCells σ t !! index fr with
      | Some c =>
          match cells σ !! c with
          | Some cell =>
              if decide (type cell = ty) then (σ1, Returns c)
              else throw (Error ("Hook policy violated: expected " +:+ type cell
                                 +:+ " but found " +:+ ty +:+ " instead")) σ1
          | None => throw TypeError σ1
          end
      | None =>
          let c := length (cells σ) in
          (with_memoryCells t (memoryCells σ t ++ [c])
             (with_cells (cells σ ++ [{| type := ty; ctarget := t; ref := None |}]) σ1),
           Returns c)
      end
  end.

Definition executeWithHooks (t : nat) (fn : M unit) : M unit :=
  pushHookTarget t ;;; finally fn (popHookTarget t).

(** *** Reading and writing cells and refs *)

(** [cell.ref] *)
Definition cell_ref (c : nat) : M (option nat) := λ σ,
  match cells σ !! c with
  | Some cell => (σ, Returns (ref cell))
  | None => throw TypeError σ
  end.

(** [cell.ref = ref], for a new object [ref]: the address of the object. *)
Definition set_cell_ref (c : nat) (x : cellref) : M nat := λ σ,
  let r := length (refs σ) in
  let σ1 := with_refs (refs σ ++ [x]) σ in
  match cells σ !! c with
  | Some cell =>
      (with_cells (<[c := {| type := type cell; ctarget := ctarget cell;
                             ref := Some r |}]> (cells σ)) σ1, Returns r)
  | None => throw TypeError σ1
  end.

Definition read_ref (r : nat) : M cellref := λ σ,
  match refs σ !! r with
  | Some x => (σ, Returns x)
  | None => throw TypeError σ
  end.

(** [ref.state = v] *)
Definition set_state (r : nat) (v : value) : M unit :=
  modify (λ σ,
    match refs σ !! r with
    | Some (StateRef _ t) => with_refs (<[r := StateRef v t]> (refs σ)) σ
    | Some (MemoRef _ d) => with_refs (<[r := MemoRef v d]> (refs σ)) σ
    | None => σ
    end).

(** [ref.deps = deps] *)
Definition set_deps (r : nat) (deps : list value) : M unit :=
  modify (λ σ,
    match refs σ !! r with
    | Some (MemoRef s _) => with_refs (<[r := MemoRef s deps]> (refs σ)) σ
    | _ => σ
    end).

(** [ref.state] *)
Definition get_state (r : nat) : M value :=
  let* x := read_ref r in
  ret (match x with StateRef s _ => s | MemoRef s _ => s end).

(** *** useMemo *)

(** [ref.deps.length !== deps.length || ref.deps.some((v, i) => deps[i] !== v)] *)
Definition deps_changed (old deps : list value) : bool :=
  negb (length old =? length deps)
  || existsb (λ iv, negb (strict_eq (default Undefined (deps !! iv.1)) iv.2))
       (imap pair old).

Definition useMemo (create : M value) (deps : list value) : M value :=
  let* c := getMemoryCell "memo" in
  let* ref0 := cell_ref c in
  let* r := match ref0 with
            | Some r => ret r
            | None => let* s := create in set_cell_ref c (MemoRef s deps)
            end in
  let* x := read_ref r in
  match x with
  | MemoRef _ old =>
      (if deps_changed old deps
       then set_deps r deps ;;; let* s := create in set_state r s
       else ret ()) ;;;
      get_state r
  | StateRef _ _ => throw TypeError      (* ref.deps is undefined *)
  end.

(** *** useState *)

(** The result holds [ref.state] and, for [ref.setState], the address of
    the ref. *)
Definition useState (initialState : value) : M (value * nat) :=
  let* c := getMemoryCell "state" in
  let* ref0 := cell_ref c in
  let* r := match ref0 with
            | Some r => ret r
            | None => let* t := getHookTarget in set_cell_ref c (StateRef initialState t)
            end in
  let* s := get_state r in
  ret (s, r).

(** [ref.setState(newState)] *)
Definition setState (r : nat) (arg : newState) : M unit :=
  modify (λ σ, with_immediates (immediates σ ++ [SetState r arg]) σ).

Section Targets.
(** [depth] of a hook target, and the [execute] that it was created with. *)
Variable depth : nat → option nat.
Variable execute : nat → M unit.

(** *** createHookTarget *)

Definition refresh (t : nat) : M unit :=
  modify (λ σ, with_nodesToRefresh (filter (λ n, n ≠ t) (nodesToRefresh σ)) σ) ;;;
  let* a := gets (λ σ, active σ t) in
  if a : bool then
    modify (λ σ, with_executed (executed σ ++ [t]) σ) ;;;
    executeWithHooks t (execute t)
  else ret ().

Definition activate (t : nat) : M unit :=
  modify (with_active t true) ;;; refresh t.

(** [dispose()] of a target whose cells are of [useState] and [useMemo],
    which have nothing to clean up, and that was given no [dispose]. *)
Definition dispose (t : nat) : M unit :=
  modify (with_active t false) ;;; modify (with_memoryCells t []).

(** *** scheduleRefresh *)

(** The comparator [(a, b) => (b.depth || 0) - (a.depth || 0)] is not
    positive: [a] may stand before [b]. *)
Definition before (a b : nat) : Prop := default 0 (depth b) ≤ default 0 (depth a).

#[global] Instance before_dec a b : Decision (before a b).
Proof. unfold before. apply _. Defined.

(** [Array.prototype.sort] is stable. *)
Fixpoint insert_sorted (x : nat) (l : list nat) : list nat :=
  match l with
  | [] => [x]
  | y :: l' => if decide (before x y) then x :: y :: l' else y :: insert_sorted x l'
  end.

Definition sort (l : list nat) : list nat := foldr insert_sorted [] l.

(** [Set.prototype.add] for every node. *)
Definition add_all (nodes : list nat) (set : list nat) : list nat :=
  foldl (λ s n, if decide (n ∈ s) then s else s ++ [n]) set nodes.

(** The loop [while (schedule.stack.length)]; [pop] takes the last
    element. *)
Fixpoint drain (fuel : nat) : M unit := λ σ,
  match reverse (stack σ) with
  | [] => (σ, Returns ())
  | node :: rest =>
      match fuel with
      | 0 => (σ, NoFuel)
      | S fuel' =>
          (modify (with_stack (reverse rest)) ;;;
           let* has := gets (λ σ', bool_decide (node ∈ nodesToRefresh σ')) in
           (if has : bool then refresh node else ret ()) ;;;
           drain fuel') σ
      end
  end.

Definition scheduleRefresh (fuel : nat) (rawNodes : list nat) : M unit :=
  modify (λ σ, with_nodesToRefresh (add_all rawNodes (nodesToRefresh σ)) σ) ;;;
  modify (λ σ, with_stack (sort (nodesToRefresh σ)) σ) ;;;
  let* executing := gets executingSchedule in
  if executing : bool then ret ()
  else
    modify (with_executingSchedule true) ;;;
    drain fuel ;;;
    modify (with_executingSchedule false).

(** *** The callback of setState *)

Definition run_task (fuel : nat) (k : task) : M unit :=
  match k with
  | SetState r arg =>
      let* x := read_ref r in
      match x with
      | StateRef s t =>
          let nextStateResolved :=
            match arg with
            | Direct v => Value v
            | Updater f => f s
            end in
          match nextStateResolved with
          | Function =>
              throw (Error "functions can't be stored as top-level values in useState hooks")
          | Value v =>
              if strict_eq s v then ret ()
              else set_state r v ;;; scheduleRefresh fuel [t]
          end
      | MemoRef _ _ => throw TypeError
      end
  end.

(** One turn of the event loop: the first callback of [setImmediate] is
    taken and run. *)
Definition run_immediate (fuel : nat) : M unit := λ σ,
  match immediates σ with
  | [] => (σ, Returns ())
  | k :: rest => (modify (with_immediates rest) ;;; run_task fuel k) σ
  end.
End Targets.

End Hooks.
(** ** Specification vocabulary for the codec *)

Import Codec.

(** The values that [serialize] visits below [v]: array elements and the
    values of the properties that are not denylisted. *)
Definition children (h : heap) (v : jsval) : list jsval :=
  match v with
  | VRef a =>
      match h !! a with
      | Some (OArr elems) => elems
      | Some (OObj props) => (filter (λ kv, kept kv = true) props).*2
      | _ => []
      end
  | VPrim _ => []
  end.

Definition edge (h : heap) (x y : jsval) : Prop := y ∈ children h x.

(** Keys of the dehydration cache and the id given to a value. *)
Definition dkeys (st : dstate) : list jsval := (cache st).*1.

Definition idof (st : dstate) (v : jsval) : option nat :=
  entry_id <$> jsmap_get (cache st) v.

Definition grows (st st' : dstate) : Prop :=
  (∀ k, k ∈ dkeys st → k ∈ dkeys st') ∧ length (cache st) ≤ length (cache st').

(** The measure behind the fuel bound: the keys are distinct members of a
    finite universe [U], and the fuel exceeds what is left of it. *)
Definition fuel_inv (U : list jsval) (fuel : nat) (st : dstate) : Prop :=
  NoDup (dkeys st) ∧ (∀ k, k ∈ dkeys st → k ∈ U) ∧
  length U < fuel + length (cache st).

(** [x] is the finished encoding of [v] when slots are numbered by [nu]. *)
Definition encodes (h : heap) (nu : jsval → option nat) (v : jsval) (x : enc) : Prop :=
  match v with
  | VPrim p => p ≠ PNull ∧ x = EPrim p
  | VRef a =>
      match h !! a with
      | Some (OArr elems) =>
          ∃ ids, x = EArr ids ∧ Forall2 (λ y j, nu y = Some j) elems ids
      | Some (OObj props) =>
          ∃ qs, x = EObj (assigned qs) ∧
                Forall2 (λ kv kj, kv.1 = kj.1 ∧ nu kv.2 = Some kj.2)
                        (filter (λ kv, kept kv = true) props) qs
      | Some (OFun name) => x = EPrim (PStr (function_placeholder name))
      | None => False
      end
  end.

Definition wf_cache (st : dstate) : Prop :=
  nextId st = length (cache st) ∧ NoDup (dkeys st) ∧
  ∀ i k e, cache st !! i = Some (k, e) → entry_id e = i.

(** The entries of the values in [G] are still being built; all others are
    finished. *)
Definition dinv (h : heap) (G : list jsval) (st : dstate) : Prop :=
  wf_cache st ∧
  ∀ k e, jsmap_get (cache st) k = Some e → k ∉ G →
         encodes h (idof st) k (entry_value e).

Definition extends (st st' : dstate) : Prop :=
  ∀ k i, idof st k = Some i → idof st' k = Some i.

(** [nu] numbers exactly the values reachable from the root [v0], the root
    first, and [d] holds the encoding of each of them under its number. *)
Definition numbering (h : heap) (v0 : jsval) (nu : jsval → option nat)
    (d : dehydrated) : Prop :=
  nu v0 = Some 0 ∧
  (∀ k k' i, nu k = Some i → nu k' = Some i → k = k') ∧
  (∀ k i, nu k = Some i → ∃ x, d !! i = Some x ∧ encodes h nu k x) ∧
  (∀ i x, d !! i = Some x → ∃ k, nu k = Some i) ∧
  (∀ k i, nu k = Some i → rtc (edge h) v0 k).

(** A value on which [serialize] throws. *)
Definition throws_at (h : heap) (y : jsval) (e : error) : Prop :=
  (y = VPrim PNull ∧ e = TypeError) ∨
  (∃ a, y = VRef a ∧ h !! a = None ∧ e = DanglingRef).

(** Keys of the hydration cache, the value cached for a key, and the keys
    that [deserialize] visits below a key. *)
Definition hkeys (st : hstate) : list hkey := (hcache st).*1.

Definition hval (st : hstate) (k : hkey) : option jsval := jsmap_get (hcache st) k.

Definition dchildren (d : dehydrated) (k : hkey) : list hkey :=
  match k with
  | HNode i =>
      match d !! i with
      | Some (EArr ids) => (λ j, key_of (dget d j)) <$> ids
      | Some (EObj props) => (λ kj, key_of (dget d kj.2)) <$> props
      | _ => []
      end
  | HPrim _ => []
  end.

Definition dedge (d : dehydrated) (k k' : hkey) : Prop := k' ∈ dchildren d k.

Definition is_arr (d : dehydrated) (k : hkey) : Prop :=
  ∃ i ids, k = HNode i ∧ d !! i = Some (EArr ids).

(** A node read from the record [d] itself. *)
Definition wf_node (d : dehydrated) (val : node) : Prop :=
  match val with
  | NPrim _ => True
  | NArr i ids => d !! i = Some (EArr ids)
  | NObj i props => d !! i = Some (EObj props)
  end.

Definition entry_key (ix : nat * enc) : hkey :=
  match ix.2 with
  | EPrim p => HPrim p
  | _ => HNode ix.1
  end.

Definition huniverse (d : dehydrated) : list hkey :=
  HPrim PUndef :: (entry_key <$> map_to_list d).

Definition hfuel_inv (U : list hkey) (fuel : nat) (st : hstate) : Prop :=
  NoDup (hkeys st) ∧ (∀ k, k ∈ hkeys st → k ∈ U) ∧
  length U < fuel + length (hcache st).

Definition hgrows (st st' : hstate) : Prop :=
  (∀ k, k ∈ hkeys st → k ∈ hkeys st') ∧ length (hcache st) ≤ length (hcache st').

(** What a call of [deserialize] leaves alone: the cached values, and the
    objects that existed when it started. *)
Definition hstable (st st' : hstate) : Prop :=
  (∀ k x, hval st k = Some x → hval st' k = Some x) ∧
  length (hheap st) ≤ length (hheap st') ∧
  (∀ b, b < length (hheap st) → hheap st' !! b = hheap st !! b).

(** [x] is the finished decoding of the node with key [k], given the values
    [g] of the other keys and the heap [hp] of created objects. *)
Definition decodes (d : dehydrated) (g : hkey → option jsval) (hp : heap)
    (k : hkey) (x : jsval) : Prop :=
  match k with
  | HPrim p => x = VPrim p
  | HNode i =>
      match d !! i with
      | Some (EArr ids) =>
          ∃ b xs, x = VRef b ∧ hp !! b = Some (OArr xs) ∧
                  Forall2 (λ j y, g (key_of (dget d j)) = Some y) ids xs
      | Some (EObj props) =>
          ∃ b qs, x = VRef b ∧ hp !! b = Some (OObj qs) ∧
                  Forall2 (λ kj ky, kj.1 = ky.1 ∧
                                    g (key_of (dget d kj.2)) = Some ky.2)
                          props qs
      | _ => False
      end
  end.

(** The cached value of a node whose children are still being visited. *)
Definition pending (d : dehydrated) (k : hkey) (x : jsval) : Prop :=
  match k with
  | HPrim _ => False
  | HNode i =>
      match d !! i with
      | Some (EArr _) => x = VPrim PUndef
      | Some (EObj _) => ∃ b, x = VRef b
      | _ => False
      end
  end.

Definition hinv (d : dehydrated) (G : list hkey) (st : hstate) : Prop :=
  (∀ k x, hval st k = Some x → k ∉ G → decodes d (hval st) (hheap st) k x) ∧
  (∀ k x, hval st k = Some x → k ∈ G → pending d k x) ∧
  (∀ k k' b, hval st k = Some (VRef b) → hval st k' = Some (VRef b) → k = k') ∧
  (∀ k b, hval st k = Some (VRef b) → b < length (hheap st)) ∧
  (∀ k c, is_Some (hval st k) → k ∉ G → dedge d k c → c ∈ G → ¬ is_arr d c) ∧
  (∀ k, k ∈ G → is_Some (hval st k)).

(** Deep equality of two object graphs with preserved aliasing: an injective
    correspondence [f] between the objects of the two graphs under which the
    roots agree and corresponding objects have corresponding contents.
    [keep] selects the properties that are compared. *)
Definition vrel (f : nat → option nat) (x y : jsval) : Prop :=
  match x, y with
  | VPrim p, VPrim q => p = q
  | VRef a, VRef b => f a = Some b
  | _, _ => False
  end.

Definition orel (keep : string * jsval → bool) (f : nat → option nat)
    (o o' : object) : Prop :=
  match o, o' with
  | OArr xs, OArr ys => Forall2 (vrel f) xs ys
  | OObj ps, OObj qs =>
      Forall2 (λ kx ky, kx.1 = ky.1 ∧ vrel f kx.2 ky.2)
              (filter (λ kv, keep kv = true) ps) qs
  | _, _ => False
  end.

Definition same_graph (keep : string * jsval → bool)
    (h : heap) (v : jsval) (h' : heap) (r : jsval) : Prop :=
  ∃ f : nat → option nat,
    vrel f v r ∧
    (∀ a a' b, f a = Some b → f a' = Some b → a = a') ∧
    (∀ a b, f a = Some b →
       ∃ o o', h !! a = Some o ∧ h' !! b = Some o' ∧ orel keep f o o').

(** Deep equality on all own properties. *)
Definition deep_equal : heap → jsval → heap → jsval → Prop :=
  same_graph (λ _, true).

(** The correspondence that a round trip induces between the objects of the
    input and the objects that hydration creates. *)
Definition through (nu : jsval → option nat) (st : hstate) (a : nat) : option nat :=
  match nu (VRef a) with
  | Some i =>
      match hval st (HNode i) with
      | Some (VRef b) => Some b
      | _ => None
      end
  | None => None
  end.

(** First binding of a property name. *)
Fixpoint get_prop {A} (props : list (string * A)) (k : string) : option A :=
  match props with
  | [] => None
  | (k', x) :: props' => if decide (k' = k) then Some x else get_prop props' k
  end.

Definition is_function (o : object) : Prop :=
  match o with OFun _ => True | _ => False end.

(** No entry of the record has a property named [__proto__]. *)
Definition proto_free (d : dehydrated) : Prop :=
  ∀ i props, d !! i = Some (EObj props) → Forall (λ kj, kj.1 ≠ "__proto__") props.

(** [q] is the prototype that hydration has set for the object [p]. *)
Definition proto_link (protos : list (nat * nat)) (p q : nat) : Prop :=
  jsmap_get protos p = Some q.

Definition proto_acyclic (protos : list (nat * nat)) : Prop :=
  ∀ x, ¬ tc (proto_link protos) x x.

(** The properties that a round trip returns: those that are not
    denylisted and not named [__proto__]. *)
Definition returned (kv : string * jsval) : bool :=
  kept kv && bool_decide (kv.1 ≠ "__proto__").

(** The id that [dehydrateValue h v] gives to the value [x]. Ids are given
    in the order in which [serialize] first visits the values. *)
Definition visit_id (h : heap) (v x : jsval) : option nat :=
  match serialize (dehydrate_fuel h v) h v {| cache := []; nextId := 0 |} with
  | Ok (_, st) => idof st x
  | _ => None
  end.

(** An edge to a value that is not visited before the value with id [i]. *)
Definition later_edge (h : heap) (v : jsval) (i : nat) (x y : jsval) : Prop :=
  edge h x y ∧ ∃ j, visit_id h v y = Some j ∧ i ≤ j.

(** [a] lies on a reference cycle of which it is the first value to be
    visited: no member of the cycle has a smaller id than [a]. *)
Definition first_on_cycle (h : heap) (v a : jsval) : Prop :=
  ∃ i, visit_id h v a = Some i ∧ tc (later_edge h v i) a a.

(** The same for the entries of a record. *)
Definition later (d : dehydrated) (i : nat) (k k' : hkey) : Prop :=
  dedge d k k' ∧ ∃ j, k' = HNode j ∧ i ≤ j.

(** The ids of a record are in depth-first order: [dfs d j N N'] says that
    a depth-first visit of the entry [j], started when the entries below [N]
    have been visited, ends when the entries below [N'] have been visited.
    An entry that has not been visited is the entry [N]. *)
Inductive dfs (d : dehydrated) : nat → nat → nat → Prop :=
  | dfs_seen j N : j < N → dfs d j N N
  | dfs_prim p N : d !! N = Some (EPrim p) → dfs d N N (S N)
  | dfs_arr ids N N' :
      d !! N = Some (EArr ids) → dfs_list d ids (S N) N' → dfs d N N N'
  | dfs_obj props N N' :
      d !! N = Some (EObj props) → dfs_list d props.*2 (S N) N' → dfs d N N N'
with dfs_list (d : dehydrated) : list nat → nat → nat → Prop :=
  | dfs_nil N : dfs_list d [] N N
  | dfs_cons j js N N1 N2 :
      dfs d j N N1 → dfs_list d js N1 N2 → dfs_list d (j :: js) N N2.

(** The record [d] holds the finished entries of the cache from position
    [lo] on. *)
Definition agrees (d : dehydrated) (st : dstate) (lo : nat) : Prop :=
  ∀ i k en, lo ≤ i → cache st !! i = Some (k, en) → d !! i = Some (entry_value en).

(** The keys of the hydration cache are the keys of the entries below [N]. *)
Definition sync (d : dehydrated) (N : nat) (st : hstate) : Prop :=
  ∀ k, k ∈ hkeys st ↔ ∃ i, i < N ∧ k = key_of (dget d i).

(** A list of values that is closed under [children]: it holds everything
    reachable from its members. *)
Definition closedb (h : heap) (S : list jsval) : bool :=
  forallb (λ z, forallb (λ c, bool_decide (c ∈ S)) (children h z)) S.

(** The same for the edges to values that are not visited before the value
    with id [i]. *)
Definition visited_later (h : heap) (v : jsval) (i : nat) (c : jsval) : bool :=
  match visit_id h v c with
  | Some j => bool_decide (i ≤ j)
  | None => false
  end.

Definition later_children (h : heap) (v : jsval) (i : nat) (z : jsval) : list jsval :=
  filter (λ c, visited_later h v i c = true) (children h z).

Definition later_closedb (h : heap) (v : jsval) (i : nat) (S : list jsval) : bool :=
  forallb (λ z, forallb (λ c, bool_decide (c ∈ S)) (later_children h v i z)) S.

(** The claim that the two properties [k1] and [k2] of the object [a], which
    both hold the primitive [p], receive one shared id and one shared entry
    of the record. *)
Definition occurrences_share_id (h : heap) (a : nat) (k1 k2 : string)
    (p : prim) : Prop :=
  ∃ d qs j, dehydrateValue h (VRef a) = Ok d ∧
            d !! 0 = Some (EObj qs) ∧ (k1, j) ∈ qs ∧ (k2, j) ∈ qs ∧
            d !! j = Some (EPrim p).

(** ** Specification vocabulary for the global context store *)

Section StoreSpec.
Import GlobalContext.
Context {content : Type}.

(** The fields that the file and watcher operations leave alone. *)
Definition same_calls (w w' : @world content) : Prop :=
  timers w' = timers w ∧ next_timer w' = next_timer w ∧
  promises w' = promises w ∧ subscriptions w' = subscriptions w ∧
  log w' = log w.

(** Timer handles are allocated in increasing order. *)
Definition timers_fresh (w : @world content) : Prop :=
  ∀ t, t ∈ (timers w).*1 → t < next_timer w.

(** A process that has not used the store yet. *)
Definition fresh_process (w : @world content) : Prop :=
  globalContextWatchers w = [] ∧ watchers w = [] ∧ subscriptions w = [] ∧
  immediates w = [] ∧ timers w = [] ∧ next_timer w = 0 ∧ log w = [].

(** Every registered watcher exists. *)
Definition registry_wf (w : @world content) : Prop :=
  ∀ key wid, jsmap_get (globalContextWatchers w) key = Some wid →
             wid < length (watchers w).

(** A callback that the watcher [wid] hands to [setImmediate] while it reads
    its directory. *)
Definition own_task (wid : nat) (t : task) : Prop :=
  t = TEmit wid ∨ ∃ err, t = TError wid err.

(** What the reading and the purging of the watcher [wid] may change: the
    directory, the map and the throttle of the watcher, and the callbacks
    that it has queued. *)
Definition watcher_steps (wid : nat) (w w' : @world content) : Prop :=
  same_calls w w' ∧ kill0 w' = kill0 w ∧ now w' = now w ∧ boot w' = boot w ∧
  globalContextWatchers w' = globalContextWatchers w ∧
  length (watchers w') = length (watchers w) ∧
  (∀ v, watchers w !! wid = Some v →
        ∃ v', watchers w' !! wid = Some v' ∧ wkey v' = wkey v ∧
              subscribers v' = subscribers v ∧ closed v' = closed v) ∧
  ∃ tasks, immediates w' = immediates w ++ tasks ∧ Forall (own_task wid) tasks.
End StoreSpec.

(** ** Specification vocabulary for discovery *)

Section DiscoverySpec.
Import Discovery.

(** Every promise of [createOpenSocket] has settled. *)
Definition all_settled (d : discovery) : Prop :=
  ∀ s, s ∈ sockets d → settled s = true.

(** [finalized] is set together with the one call of [resolve] or of
    [reject]; until then no pass has selected a host. *)
Definition settled_once (d : discovery) : Prop :=
  (finalized d = false →
     promise d = Pending ∧ resolves d = 0 ∧ rejects d = 0 ∧
     ∀ k b, hostSelected d !! k = Some b → b = false) ∧
  (finalized d = true →
     timeout d = false ∧
     ((∃ j, promise d = Resolved j ∧ resolves d = 1 ∧ rejects d = 0) ∨
      (promise d = Rejected ∧ resolves d = 0 ∧ rejects d = 1))).

Definition socket_inv (d : discovery) : Prop :=
  ∀ j s, sockets d !! j = Some s →
    (state s = OPEN → promise d = Resolved j) ∧
    (state s = CONNECTING → timer s = true ∧ settled s = false) ∧
    (settled s = false → state s = CONNECTING) ∧
    pass s < length (hostSelected d).

(** What the loop of the queue relies on, for the callbacks [jobs] that it
    has yet to run. *)
Definition queue_inv (jobs : list job) (d : discovery) : Prop :=
  (finalized d = true → jobs = []) ∧
  (timeout d = false → finalized d = true ∨ TimeOut ∈ jobs) ∧
  (∀ k configs, Explore k configs ∈ jobs → k < length (hostSelected d)).

(** The loop is idle, or suspended on the pass [k]: then the websockets
    that have not settled are of that pass, and discovery can only have
    been finalized by a host selected in it. *)
Definition loop_inv (d : discovery) : Prop :=
  match awaiting d with
  | None => running d = false ∧ queue d = [] ∧ all_settled d
  | Some k =>
      running d = true ∧ k < length (hostSelected d) ∧
      (∀ s, s ∈ sockets d → settled s = false → pass s = k) ∧
      (finalized d = true → hostSelected d !! k = Some true) ∧
      promise d ≠ Rejected
  end.

Definition inv (d : discovery) : Prop :=
  settled_once d ∧ socket_inv d ∧ queue_inv (queue d) d ∧ loop_inv d.

(** The loop of the queue was left by an exception: [running] stays true
    and nothing is awaited. The websockets whose promise has not settled
    are those of the pass that threw. *)
Definition stuck (d : discovery) : Prop :=
  running d = true ∧ awaiting d = None ∧
  (∃ k, ∀ s, s ∈ sockets d → settled s = false → pass s = k) ∧
  (promise d ≠ Pending → finalized d = true) ∧
  (finalized d = true → timeout d = false).

(** Every port that a snapshot advertises under the key [k] is one that a
    websocket can be made for. *)
Definition dialable (k : string) (e : event) : Prop :=
  match e with
  | Snapshot configs =>
      ∀ c, c ∈ configs → cfg_key c = k → valid_port (port c) = true
  | _ => True
  end.

Definition jobs_dialable (k : string) (jobs : list job) : Prop :=
  ∀ p configs, Explore p configs ∈ jobs → dialable k (Snapshot configs).


End DiscoverySpec.

(** ** Specification vocabulary for the message channel *)

Section ChannelSpec.
Import Channel.
Context {body : Type}.
Variable frames : string.

(** What happens to a channel: a call of [request] or of [handle], a frame
    that arrives, a request timer that fires, a call of [on] or of [once]. *)
Inductive channel_op :=
  | DoRequest (key : string) (b : body)
  | DoHandle (key : string) (f : @handler body)
  | Receive (m : @RawMessage body)
  | TimerFires (t : nat)
  | DoOn (key : string)
  | DoOnce (key : string).

Definition apply_op (ch : @channel body) (o : channel_op) : @channel body :=
  match o with
  | DoRequest key b => (request key b ch).2
  | DoHandle key f => handle key f ch
  | Receive m => (messageHandler frames m ch).1
  | TimerFires t => timeout_fires t ch
  | DoOn key => on key ch
  | DoOnce key => once key ch
  end.

Definition run_channel (registry : list (string * @handler body))
    (ops : list channel_op) : @channel body :=
  foldl apply_op (create registry) ops.

(** The sequence numbers of the frames sent, in the order sent. *)
Definition sent_numbers (ch : @channel body) : list nat :=
  omap raw_n (sent ch).

(** The requests among the operations. *)
Definition is_request (o : channel_op) : bool :=
  match o with DoRequest _ _ => true | _ => false end.

End ChannelSpec.

(** ** Where the websockets of discovery come from *)

Section DiscoveryOrigin.
Import Discovery.

(** Every websocket was made for a configuration of the key, taken from a
    snapshot that [seen] holds, and so will be the websockets of the
    snapshots that wait in the queue. *)
Definition made_for (seen : list DiscoverableChannelConfig → Prop)
    (d : discovery) : Prop :=
  (∀ s, s ∈ sockets d →
     ∃ configs c, seen configs ∧ c ∈ configs ∧ cfg_key c = key d ∧ port c = sport s) ∧
  (∀ p configs, Explore p configs ∈ queue d → seen configs).

End DiscoveryOrigin.

(** ** Directories that a watcher loads whole *)

Section StoreExtraSpec.
Import GlobalContext.
Context {content : Type}.

(** The file [nf] is recent, holds the JSON text of [c], and is named after
    a process that [w] finds running. *)
Definition live_entry (w : @world content) (nf : filename * file) (c : content)
  : Prop :=
  fdata nf.2 = Json c ∧ (boot w ≤ mtime nf.2)%Z ∧
  ∃ pid seq, nf.1 = CtxFile pid seq ∧ kill0 w pid ≠ ESRCH.

End StoreExtraSpec.

(** ** Notions used to state the properties of keys, heartbeat and host *)

(** A component without the separator of [createKeyFromComponents], the
    full stop, whose code unit is 46. *)
Fixpoint dot_free (s : string) : bool :=
  match s with
  | EmptyString => true
  | String c s' => if decide (c = Ascii.ascii_of_nat 46) then false else dot_free s'
  end.

(** The readings of [Date.now()] in a trace do not go back from [t]. *)
Fixpoint clock_from (t : Z) (events : list Heartbeat.event) : Prop :=
  match events with
  | [] => True
  | Heartbeat.Tick now :: es | Heartbeat.Pong now :: es | Heartbeat.Ping now :: es =>
      (t ≤ now)%Z ∧ clock_from now es
  | Heartbeat.Close :: es => clock_from t es
  end.

(** Between two ticks of the interval a pong or a ping arrives: [waiting]
    tells whether a tick has passed since the last one. *)
Fixpoint answered (waiting : bool) (events : list Heartbeat.event) : Prop :=
  match events with
  | [] => True
  | Heartbeat.Tick _ :: es => waiting = false ∧ answered true es
  | Heartbeat.Pong _ :: es | Heartbeat.Ping _ :: es => answered false es
  | Heartbeat.Close :: es => answered waiting es
  end.

(** Times that lie at least [ms] apart, the first at least [ms] after [t]:
    the times at which an interval of [ms] that was set at [t] fires. *)
Fixpoint spaced (ms t : Z) (times : list Z) : Prop :=
  match times with
  | [] => True
  | t' :: ts => (t + ms ≤ t')%Z ∧ spaced ms t' ts
  end.

(** The number of ticks of the interval in a trace. *)
Definition ticks (events : list Heartbeat.event) : nat :=
  length (omap (λ e, match e with Heartbeat.Tick now => Some now | _ => None end) events).

(** ** Notions used to state the properties of the hooks *)

(** A function that calls hooks of the given types, in this order, and
    does nothing else. *)
Definition hook_calls (types : list string) : Hooks.M unit :=
  foldr (λ ty k, Hooks.bind (Hooks.getMemoryCell ty) (λ _, k)) (Hooks.ret ()) types.

(** The types of the memory cells of a target. *)
Definition cell_types (σ : Hooks.hooks) (t : nat) : list (option string) :=
  (λ c, Hooks.type <$> Hooks.cells σ !! c) <$> Hooks.memoryCells σ t.

(** The state of the hooks between two calls of [executeWithHooks] for
    target [t], which holds the link of the hook that is called next. *)
Definition rendering (t i : nat) (σ : Hooks.hooks) : Prop :=
  ∃ next, Hooks.hookState σ = {| Hooks.index := i; Hooks.target := t |} :: next.

(** The same state at the same hook of the next execution. *)
Definition again (i : nat) (σ : Hooks.hooks) : Hooks.hooks :=
  match Hooks.hookState σ with
  | fr :: next =>
      Hooks.with_hookState ({| Hooks.index := i; Hooks.target := Hooks.target fr |} :: next) σ
  | [] => σ
  end.

(** What [getMemoryCell] throws when a cell of type [a] is met by a hook of
    type [b]. *)
Definition policy_error (a b : string) : Hooks.failure :=
  Hooks.Error ("Hook policy violated: expected " +:+ a +:+ " but found " +:+ b
               +:+ " instead").

(** A property of the state that only the cells, the refs and the lists
    of cells of the targets can make true or false. *)
Definition memory_only (I : Hooks.hooks → Prop) : Prop :=
  ∀ σ σ', Hooks.cells σ' = Hooks.cells σ → Hooks.refs σ' = Hooks.refs σ →
          (∀ t, Hooks.memoryCells σ' t = Hooks.memoryCells σ t) → I σ → I σ'.

(** A property of the state that [ref.state = v] keeps. *)
Definition state_stable (I : Hooks.hooks → Prop) : Prop :=
  ∀ σ r s t v, Hooks.refs σ !! r = Some (Hooks.StateRef s t) → I σ →
               I (Hooks.with_refs (<[r := Hooks.StateRef v t]> (Hooks.refs σ)) σ).

(** An [execute] that, called as [executeWithHooks] calls it (its link on
    top, at index 0) on a state where [I] holds, returns and leaves alone
    the schedule, the activity of the targets, the record of the executions
    and the links under its own one. It may call hooks, which advance the
    index of its link and change the cells and the refs, and it may call
    [setState]; [I] holds again when it returns. *)
Definition quiet (I : Hooks.hooks → Prop) (execute : nat → Hooks.M unit) : Prop :=
  ∀ t next σ,
    I σ → Hooks.hookState σ = {| Hooks.index := 0; Hooks.target := t |} :: next →
    ∃ σ' j,
      execute t σ = (σ', Hooks.Returns ()) ∧ I σ' ∧
      Hooks.hookState σ' = {| Hooks.index := j; Hooks.target := t |} :: next ∧
      (∀ n, Hooks.active σ' n = Hooks.active σ n) ∧
      Hooks.nodesToRefresh σ' = Hooks.nodesToRefresh σ ∧
      Hooks.stack σ' = Hooks.stack σ ∧
      Hooks.executingSchedule σ' = Hooks.executingSchedule σ ∧
      Hooks.executed σ' = Hooks.executed σ.

(** A target that calls [useState] once, and nothing else. *)
Definition one_state (initialState : Hooks.value) (t : nat) : Hooks.M unit :=
  Hooks.bind (Hooks.useState initialState) (λ _, Hooks.ret ()).

(** The memory that executions of [one_state] build: a target has no cell
    yet, or one cell of [useState] whose ref holds a state. *)
Definition one_state_memory (σ : Hooks.hooks) : Prop :=
  ∀ t, Hooks.memoryCells σ t = [] ∨
       ∃ c ct r s t', Hooks.memoryCells σ t = [c] ∧
                      Hooks.cells σ !! c
                      = Some {| Hooks.type := "state"; Hooks.ctarget := ct;
                                Hooks.ref := Some r |} ∧
                      Hooks.refs σ !! r = Some (Hooks.StateRef s t').

(** [node.depth || 0] *)
Definition depth_of (depth : nat → option nat) (node : nat) : nat :=
  default 0 (depth node).
(** ** Facts about the insertion-ordered map *)

Section JsMapFacts.
Context {K V : Type} `{EqDecision K}.
Implicit Types (m : list (K * V)) (k : K) (v : V).

Lemma jsmap_get_None m k : jsmap_get m k = None ↔ k ∉ m.*1.
Proof.
  induction m as [|[k' v'] m IH]; simpl.
  - split; [intros _; apply not_elem_of_nil | reflexivity].
  - case_decide as Hk; subst.
    + split; [done | intros Hn; destruct Hn; left].
    + rewrite IH, not_elem_of_cons. naive_solver.
Qed.

Lemma jsmap_get_Some_elem m k v : jsmap_get m k = Some v → (k, v) ∈ m.
Proof.
  induction m as [|[k' v'] m IH]; simpl; [done|].
  case_decide; subst.
  - intros [= ->]. left.
  - intros ?. right. auto.
Qed.

Lemma jsmap_get_elem m k v : NoDup m.*1 → (k, v) ∈ m → jsmap_get m k = Some v.
Proof.
  induction m as [|[k' v'] m IH]; simpl; [by intros _ ?%elem_of_nil|].
  rewrite NoDup_cons. intros [Hk Hnd] [[= -> ->]|Hin]%elem_of_cons.
  - by rewrite decide_True.
  - rewrite decide_False; [auto|].
    intros ->. apply Hk. apply list_elem_of_fmap. by exists (k, v).
Qed.

Lemma jsmap_get_is_Some m k : is_Some (jsmap_get m k) ↔ k ∈ m.*1.
Proof.
  destruct (jsmap_get m k) eqn:E.
  - split; [intros _|eauto]. apply jsmap_get_Some_elem in E.
    apply list_elem_of_fmap. by eexists (_, _).
  - apply jsmap_get_None in E. split; [by intros [? ?]|done].
Qed.

Lemma jsmap_get_set_eq m k v : jsmap_get (jsmap_set m k v) k = Some v.
Proof.
  induction m as [|[k' v'] m IH]; simpl.
  - by rewrite decide_True.
  - case_decide; subst; simpl; [by rewrite decide_True|by rewrite decide_False].
Qed.

Lemma jsmap_get_set_ne m k k' v :
  k ≠ k' → jsmap_get (jsmap_set m k v) k' = jsmap_get m k'.
Proof.
  intros Hne. induction m as [|[k0 v0] m IH]; simpl.
  - by rewrite decide_False.
  - case_decide; subst; simpl.
    + by rewrite !decide_False.
    + by rewrite IH.
Qed.

Lemma jsmap_get_set m k k' v :
  jsmap_get (jsmap_set m k v) k' =
    if decide (k = k') then Some v else jsmap_get m k'.
Proof.
  case_decide; subst; [apply jsmap_get_set_eq|by apply jsmap_get_set_ne].
Qed.

Lemma jsmap_set_fresh m k v : jsmap_get m k = None → jsmap_set m k v = m ++ [(k, v)].
Proof.
  induction m as [|[k' v'] m IH]; simpl; [done|].
  case_decide; [done|]. intros ?. by rewrite IH.
Qed.

Lemma jsmap_set_keys_present m k v : k ∈ m.*1 → (jsmap_set m k v).*1 = m.*1.
Proof.
  induction m as [|[k' v'] m IH]; simpl; [by intros ?%elem_of_nil|].
  case_decide; subst; simpl; [done|].
  intros [?|?]%elem_of_cons; [done|]. f_equal. by apply IH.
Qed.

Lemma jsmap_set_length_present m k v :
  k ∈ m.*1 → length (jsmap_set m k v) = length m.
Proof.
  intros Hk. apply (jsmap_set_keys_present m k v) in Hk.
  apply (f_equal length) in Hk. by rewrite !length_fmap in Hk.
Qed.

(** Overwriting the binding of [k] changes that one position only. *)
Lemma jsmap_set_lookup m k v i k' v' :
  jsmap_set m k v !! i = Some (k', v') →
  (k' = k ∧ v' = v) ∨ m !! i = Some (k', v').
Proof.
  revert i. induction m as [|[k0 v0] m IH]; intros i; simpl.
  - destruct i; simpl; [naive_solver|by rewrite lookup_nil].
  - case_decide; subst; destruct i; simpl; naive_solver.
Qed.

Lemma jsmap_delete_get_eq m k : jsmap_get (jsmap_delete m k) k = None.
Proof.
  induction m as [|[k' v'] m IH]; simpl; [done|].
  case_decide; subst; simpl; [apply IH|]. by rewrite decide_False.
Qed.

Lemma jsmap_delete_get_ne m k k' :
  k ≠ k' → jsmap_get (jsmap_delete m k) k' = jsmap_get m k'.
Proof.
  intros Hne. induction m as [|[k0 v0] m IH]; simpl; [done|].
  case_decide; subst; simpl.
  - by rewrite decide_False.
  - by rewrite IH.
Qed.
End JsMapFacts.

(** A state invariant [I] and a per-element postcondition [Q] carried
    through [mapM_st]; [R] relates a state to the later ones. *)
Lemma mapM_st_spec {S A B} (f : A → S → result (B * S))
    (I : S → Prop) (R : S → S → Prop) (Q : A → B → S → Prop)
    (T : error → Prop) (F : Prop) (l : list A) (s : S) :
  Reflexive R → Transitive R →
  (∀ x y s1 s2, Q x y s1 → I s1 → R s1 s2 → Q x y s2) →
  I s →
  (∀ x s1, x ∈ l → I s1 → R s s1 →
     match f x s1 with
     | Ok (y, s2) => I s2 ∧ R s1 s2 ∧ Q x y s2
     | Throw e => T e
     | OutOfFuel => F
     end) →
  match mapM_st f l s with
  | Ok (ys, s') => I s' ∧ R s s' ∧ Forall2 (λ x y, Q x y s') l ys
  | Throw e => T e
  | OutOfFuel => F
  end.
Proof.
  intros HR HT Hstable. revert s.
  induction l as [|x l IH]; intros s HI Hf; simpl.
  - split_and!; [done|done|constructor].
  - specialize (Hf x s) as Hx.
    destruct (f x s) as [[y s1]| |]; [|apply Hx; [left|done|done]..].
    destruct Hx as (HI1 & HR1 & HQ1); [left|done|done|].
    specialize (IH s1 HI1).
    destruct (mapM_st f l s1) as [[ys s2]| |].
    + destruct IH as (HI2 & HR2 & HQ2).
      { intros x' s' Hx' HI' HR'. apply Hf; [by right|done|by etrans]. }
      split_and!; [done|by etrans|].
      constructor; [by eapply Hstable|done].
    + apply IH. intros x' s' Hx' HI' HR'. apply Hf; [by right|done|by etrans].
    + apply IH. intros x' s' Hx' HI' HR'. apply Hf; [by right|done|by etrans].
Qed.

Lemma jsmap_set_set {K V} `{EqDecision K} (m : list (K * V)) k v v' :
  jsmap_set (jsmap_set m k v) k v' = jsmap_set m k v'.
Proof.
  induction m as [|[k0 v0] m IH]; simpl.
  - by rewrite decide_True.
  - case_decide; simpl; [by rewrite decide_True|].
    rewrite decide_False by done. by rewrite IH.
Qed.

Lemma Forall2_impl_elem {A B} (P Q : A → B → Prop) l k :
  Forall2 P l k → (∀ x y, x ∈ l → P x y → Q x y) → Forall2 Q l k.
Proof.
  induction 1 as [|x y l k HP HF IH]; intros Himp; constructor.
  - apply Himp; [left|done].
  - apply IH. intros x' y' Hx'. apply Himp. by right.
Qed.

Lemma jsmap_set_fresh_get {K V} `{EqDecision K} (m : list (K * V)) k v :
  jsmap_get m k = None → jsmap_get (m ++ [(k, v)]) k = Some v.
Proof. intros H. rewrite <-jsmap_set_fresh by done. apply jsmap_get_set_eq. Qed.

Lemma jsmap_set_elem_keys {K V} `{EqDecision K} (m : list (K * V)) k v k' :
  k' ∈ (jsmap_set m k v).*1 ↔ k' ∈ m.*1 ∨ k' = k.
Proof.
  rewrite <-!jsmap_get_is_Some, jsmap_get_set.
  case_decide; subst; naive_solver.
Qed.

Lemma jsmap_set_app_fresh {K V} `{EqDecision K} (m m' : list (K * V)) k v :
  jsmap_get m k = None → jsmap_set (m ++ m') k v = m ++ jsmap_set m' k v.
Proof.
  induction m as [|[k0 v0] m IH]; simpl; [done|].
  case_decide; [done|]. intros ?. by rewrite IH.
Qed.

(** [mapM_st] with an invariant that depends on the elements that are still
    to be visited. *)
Lemma mapM_st_spec_ix {S A B} (f : A → S → result (B * S))
    (I : list A → S → Prop) (R : S → S → Prop) (Q : A → B → S → Prop)
    (T : error → Prop) (F : Prop) (l : list A) (s : S) :
  Reflexive R → Transitive R →
  (∀ x y s1 s2, Q x y s1 → R s1 s2 → Q x y s2) →
  I l s →
  (∀ x l' s1, x ∈ l → I (x :: l') s1 → R s s1 →
     match f x s1 with
     | Ok (y, s2) => I l' s2 ∧ R s1 s2 ∧ Q x y s2
     | Throw e => T e
     | OutOfFuel => F
     end) →
  match mapM_st f l s with
  | Ok (ys, s') => I [] s' ∧ R s s' ∧ Forall2 (λ x y, Q x y s') l ys
  | Throw e => T e
  | OutOfFuel => F
  end.
Proof.
  intros HR HT Hstable. revert s.
  induction l as [|x l IH]; intros s HI Hf; simpl.
  - split_and!; [done|done|constructor].
  - specialize (Hf x l s) as Hx.
    destruct (f x s) as [[y s1]| |]; [|apply Hx; [left|done|done]..].
    destruct Hx as (HI1 & HR1 & HQ1); [left|done|done|].
    specialize (IH s1 HI1).
    destruct (mapM_st f l s1) as [[ys s2]| |].
    + destruct IH as (HI2 & HR2 & HQ2).
      { intros x' l' s' Hx' HI' HR'. apply Hf; [by right|done|by etrans]. }
      split_and!; [done|by etrans|].
      constructor; [by eapply Hstable|done].
    + apply IH. intros x' l' s' Hx' HI' HR'. apply Hf; [by right|done|by etrans].
    + apply IH. intros x' l' s' Hx' HI' HR'. apply Hf; [by right|done|by etrans].
Qed.
(** ** [serialize] returns or throws: it never runs out of fuel *)

Section SerializeFuel.
Variable h : heap.
Variable U : list jsval.
Hypothesis U_closed : ∀ a o x, h !! a = Some o → x ∈ slots o → x ∈ U.

#[local] Instance grows_refl : Reflexive grows.
Proof. intros st. split; [done|lia]. Qed.

#[local] Instance grows_trans : Transitive grows.
Proof. intros s1 s2 s3 [H1 L1] [H2 L2]. split; [auto|lia]. Qed.

Lemma dkeys_bound st : NoDup (dkeys st) → (∀ k, k ∈ dkeys st → k ∈ U) →
  length (cache st) ≤ length U.
Proof.
  intros Hnd Hsub. unfold dkeys in *.
  rewrite <-(length_fmap fst (cache st)).
  apply submseteq_length, NoDup_submseteq; done.
Qed.

Lemma dkeys_fresh st v e :
  jsmap_get (cache st) v = None →
  dkeys {| cache := jsmap_set (cache st) v e; nextId := S (nextId st) |}
  = dkeys st ++ [v].
Proof. intros Hv. unfold dkeys; simpl. rewrite jsmap_set_fresh by done. by rewrite fmap_app. Qed.

Lemma dkeys_set_entry_value st v i x :
  v ∈ dkeys st → dkeys (set_entry_value v i x st) = dkeys st.
Proof. intros Hv. unfold dkeys; simpl. by apply jsmap_set_keys_present. Qed.

Lemma fuel_inv_fresh fuel st v e :
  fuel_inv U (S fuel) st → v ∈ U → jsmap_get (cache st) v = None →
  let st1 := {| cache := jsmap_set (cache st) v e; nextId := S (nextId st) |} in
  fuel_inv U fuel st1 ∧ grows st st1 ∧ v ∈ dkeys st1.
Proof.
  intros (Hnd & Hsub & Hlen) HvU Hv st1.
  assert (Hk : dkeys st1 = dkeys st ++ [v]) by by apply dkeys_fresh.
  assert (Hl : length (cache st1) = S (length (cache st))).
  { subst st1; simpl. rewrite jsmap_set_fresh by done. rewrite length_app; simpl; lia. }
  split_and!.
  - split_and!.
    + rewrite Hk. apply NoDup_app. split_and!; [done| |apply NoDup_singleton].
      intros k Hk1 ->%list_elem_of_singleton. by apply jsmap_get_None in Hv.
    + intros k. rewrite Hk, elem_of_app, list_elem_of_singleton. naive_solver.
    + lia.
  - split; [|lia]. intros k. rewrite Hk, elem_of_app. auto.
  - rewrite Hk, elem_of_app, list_elem_of_singleton. auto.
Qed.

Lemma fuel_inv_finish fuel st v i x :
  fuel_inv U fuel st → v ∈ dkeys st →
  let st' := set_entry_value v i x st in
  NoDup (dkeys st') ∧ (∀ k, k ∈ dkeys st' → k ∈ U) ∧ grows st st'.
Proof.
  intros (Hnd & Hsub & Hlen) Hv st'.
  assert (Hk : dkeys st' = dkeys st) by by apply dkeys_set_entry_value.
  rewrite Hk. split_and!; [done|done|]. split; [by rewrite Hk|].
  subst st'; simpl. rewrite jsmap_set_length_present; done.
Qed.

Lemma serialize_fuel_ok fuel v st :
  fuel_inv U fuel st → v ∈ U →
  match serialize fuel h v st with
  | Ok (_, st') =>
      NoDup (dkeys st') ∧ (∀ k, k ∈ dkeys st' → k ∈ U) ∧ grows st st'
  | Throw _ => True
  | OutOfFuel => False
  end.
Proof.
  revert v st. induction fuel as [|fuel IH]; intros v st Hinv HvU.
  { destruct Hinv as (Hnd & Hsub & Hlen).
    pose proof (dkeys_bound st Hnd Hsub). simpl in *. lia. }
  simpl. destruct (jsmap_get (cache st) v) as [e|] eqn:Hget.
  { destruct Hinv as (Hnd & Hsub & Hlen). split_and!; [done|done|apply grows_refl]. }
  set (st1 := {| cache := _; nextId := _ |}).
  destruct (fuel_inv_fresh fuel st v
              {| entry_id := nextId st; entry_value := EPrim PUndef |}
              Hinv HvU Hget) as (Hinv1 & Hg1 & Hv1).
  fold st1 in Hinv1, Hg1, Hv1.
  assert (Hstep : ∀ x s1, x ∈ U → fuel_inv U fuel s1 →
            match serialize fuel h x s1 with
            | Ok (y, s2) => fuel_inv U fuel s2 ∧ grows s1 s2 ∧ True
            | Throw _ => True
            | OutOfFuel => False
            end).
  { intros x s1 Hx Hs1. specialize (IH x s1 Hs1 Hx).
    destruct (serialize fuel h x s1) as [[y s2]| |]; [|done..].
    destruct IH as (Hnd & Hsub & Hg). split_and!; [|done|done].
    split_and!; [done|done|]. destruct Hs1 as (_ & _ & Hl), Hg as [_ Hg]. lia. }
  assert (Hfin : ∀ x st2, fuel_inv U fuel st2 → grows st1 st2 →
            let st' := set_entry_value v (nextId st) x st2 in
            NoDup (dkeys st') ∧ (∀ k, k ∈ dkeys st' → k ∈ U) ∧ grows st st').
  { intros x st2 Hs2 Hg2.
    destruct (fuel_inv_finish fuel st2 v (nextId st) x Hs2) as (? & ? & ?).
    { by apply Hg2. }
    split_and!; [done|done|]. etrans; [apply Hg1|]. by etrans. }
  destruct v as [p|a].
  - destruct p; try done; apply Hfin; (done || apply grows_refl).
  - destruct (h !! a) as [[elems|props|name]|] eqn:Ha; [| | |done].
    + pose proof (mapM_st_spec (serialize fuel h) (fuel_inv U fuel) grows
                    (λ _ _ _, True) (λ _, True) False elems st1
                    grows_refl grows_trans) as Hm.
      destruct (mapM_st (serialize fuel h) elems st1) as [[ids st2]| |].
      * destruct Hm as (Hs2 & Hg2 & _); [done|done| |by apply Hfin].
        intros x s1 Hx Hs1 _. apply Hstep; [|done].
        eapply U_closed; [done|]. done.
      * done.
      * apply Hm; [done|done|]. intros x s1 Hx Hs1 _. apply Hstep; [|done].
        eapply U_closed; [done|]. done.
    + match goal with |- context [mapM_st ?f ?l st1] =>
        pose proof (mapM_st_spec f (fuel_inv U fuel) grows
                      (λ _ _ _, True) (λ _, True) False l st1
                      grows_refl grows_trans) as Hm;
        destruct (mapM_st f l st1) as [[ids st2]| |] end.
      * destruct Hm as (Hs2 & Hg2 & _); [done|done| |by apply Hfin].
        intros x s1 Hx Hs1 _. specialize (Hstep x.2 s1).
        destruct (serialize fuel h x.2 s1) as [[y s2]| |]; apply Hstep; try done.
        all: eapply U_closed; [done|]; simpl;
          apply list_elem_of_fmap; exists x; split; [done|];
          by apply list_elem_of_filter in Hx as [_ ?].
      * done.
      * apply Hm; [done|done|]. intros x s1 Hx Hs1 _. specialize (Hstep x.2 s1).
        destruct (serialize fuel h x.2 s1) as [[y s2]| |]; apply Hstep; try done.
        all: eapply U_closed; [done|]; simpl;
          apply list_elem_of_fmap; exists x; split; [done|];
          by apply list_elem_of_filter in Hx as [_ ?].
    + apply Hfin; [done|apply grows_refl].
Qed.
End SerializeFuel.


Lemma universe_closed h v a o x :
  h !! a = Some o → x ∈ slots o → x ∈ universe h v.
Proof.
  intros Ha Hx. right. apply list_elem_of_join. exists (slots o). split; [done|].
  apply list_elem_of_fmap. exists o. split; [done|]. by eapply list_elem_of_lookup_2.
Qed.

Lemma serialize_enough_fuel h v :
  match serialize (dehydrate_fuel h v) h v {| cache := []; nextId := 0 |} with
  | OutOfFuel => False
  | _ => True
  end.
Proof.
  pose proof (serialize_fuel_ok h (universe h v) (universe_closed h v)
                (dehydrate_fuel h v) v {| cache := []; nextId := 0 |}) as H.
  destruct (serialize _ _ _ _) as [[i st]| |]; [done|done|].
  apply H; [|left]. split_and!; [constructor|by intros ? ?%elem_of_nil|].
  unfold dehydrate_fuel; simpl. lia.
Qed.

Lemma dehydrateValue_terminates h v : dehydrateValue h v ≠ OutOfFuel.
Proof.
  unfold dehydrateValue. pose proof (serialize_enough_fuel h v) as H.
  by destruct (serialize _ _ _ _) as [[i st]| |].
Qed.

(** ** What [serialize] leaves in the cache *)

Section SerializeSpec.
Variable h : heap.

#[local] Instance extends_refl : Reflexive extends.
Proof. by intros st k i. Qed.

#[local] Instance extends_trans : Transitive extends.
Proof. intros s1 s2 s3 H1 H2 k i ?. auto. Qed.

Lemma encodes_mono (nu nu' : jsval → option nat) v x :
  (∀ k i, nu k = Some i → nu' k = Some i) →
  encodes h nu v x → encodes h nu' v x.
Proof.
  intros Hext. destruct v as [p|a]; simpl; [done|].
  destruct (h !! a) as [[elems|props|name]|]; [| |done..].
  - intros (ids & -> & HF). exists ids. split; [done|].
    eapply Forall2_impl; [done|]. simpl. auto.
  - intros (qs & -> & HF). exists qs. split; [done|].
    eapply Forall2_impl; [done|]. simpl. naive_solver.
Qed.

Lemma wf_cache_get st k e :
  wf_cache st → jsmap_get (cache st) k = Some e →
  cache st !! entry_id e = Some (k, e).
Proof.
  intros (_ & _ & Hpos) Hget. apply jsmap_get_Some_elem in Hget.
  apply list_elem_of_lookup in Hget as [i Hi].
  by rewrite (Hpos _ _ _ Hi).
Qed.

Lemma wf_cache_lookup st i k e :
  wf_cache st → cache st !! i = Some (k, e) →
  jsmap_get (cache st) k = Some e ∧ entry_id e = i.
Proof.
  intros (_ & Hnd & Hpos) Hi. split; [|by eapply Hpos].
  apply jsmap_get_elem; [done|]. by eapply list_elem_of_lookup_2.
Qed.

Lemma idof_inj st k k' i :
  wf_cache st → idof st k = Some i → idof st k' = Some i → k = k'.
Proof.
  unfold idof. intros Hwf Hk Hk'.
  destruct (jsmap_get (cache st) k) as [e|] eqn:He; [|done].
  destruct (jsmap_get (cache st) k') as [e'|] eqn:He'; [|done].
  simpl in *. injection Hk as <-. injection Hk' as Hid.
  apply (wf_cache_get _ _ _ Hwf) in He, He'. rewrite Hid in He'. congruence.
Qed.

Lemma idof_lt st k i : wf_cache st → idof st k = Some i → i < nextId st.
Proof.
  unfold idof. intros Hwf Hk.
  destruct (jsmap_get (cache st) k) as [e|] eqn:He; [|done].
  simpl in Hk. injection Hk as <-.
  apply (wf_cache_get _ _ _ Hwf) in He. apply lookup_lt_Some in He.
  destruct Hwf as (-> & _). done.
Qed.

Lemma dinv_fresh G st v :
  dinv h G st → jsmap_get (cache st) v = None →
  let st1 := {| cache := jsmap_set (cache st) v
                           {| entry_id := nextId st; entry_value := EPrim PUndef |};
                nextId := S (nextId st) |} in
  dinv h (v :: G) st1 ∧ extends st st1 ∧ idof st1 v = Some (nextId st).
Proof.
  intros [Hwf Hdone] Hv st1.
  assert (Hc : cache st1 = cache st ++
            [(v, {| entry_id := nextId st; entry_value := EPrim PUndef |})]).
  { subst st1; simpl. by rewrite jsmap_set_fresh. }
  assert (Hext : extends st st1).
  { intros k i. unfold idof. subst st1; simpl.
    rewrite jsmap_get_set. case_decide; [|done]. subst. by rewrite Hv. }
  split_and!; [|done|].
  - split.
    + destruct Hwf as (Hn & Hnd & Hpos). split_and!.
      * rewrite Hc, length_app. simpl. lia.
      * unfold dkeys. rewrite Hc, fmap_app. apply NoDup_app. split_and!; [done| |apply NoDup_singleton].
        intros k Hk ->%list_elem_of_singleton. by apply jsmap_get_None in Hv.
      * intros i k e. rewrite Hc. intros [Hi|[Hl Hi]]%lookup_app_Some; [by eapply Hpos|].
        apply list_lookup_singleton_Some in Hi as [Hi [= <- <-]]. simpl. lia.
    + intros k e Hk Hnot. apply not_elem_of_cons in Hnot as [Hkv HkG].
      subst st1; simpl in Hk. rewrite jsmap_get_set_ne in Hk by done.
      eapply encodes_mono; [apply Hext|]. by apply Hdone.
  - unfold idof. subst st1; simpl. by rewrite jsmap_get_set_eq.
Qed.

Lemma idof_set_entry_value st v i x k :
  idof st v = Some i → idof (set_entry_value v i x st) k = idof st k.
Proof.
  intros Hv. unfold idof; simpl. rewrite jsmap_get_set.
  case_decide; [|done]. subst k. done.
Qed.

Lemma wf_cache_set_entry_value st v i x :
  wf_cache st → idof st v = Some i → wf_cache (set_entry_value v i x st).
Proof.
  intros Hwf Hv. pose proof Hwf as (Hn & Hnd & Hpos).
  assert (Hin : v ∈ dkeys st).
  { apply jsmap_get_is_Some. unfold idof in Hv.
    destruct (jsmap_get (cache st) v); [eauto|done]. }
  assert (Hk : dkeys (set_entry_value v i x st) = dkeys st).
  { unfold dkeys; simpl. by apply jsmap_set_keys_present. }
  split_and!.
  - simpl. by rewrite jsmap_set_length_present.
  - by rewrite Hk.
  - intros j k e Hj. simpl in Hj.
    destruct (jsmap_set_lookup _ _ _ _ _ _ Hj) as [[-> ->]|Hold]; [|by eapply Hpos].
    simpl.
    assert (Hkj : dkeys st !! j = Some v).
    { rewrite <-Hk. unfold dkeys; simpl. by rewrite list_lookup_fmap, Hj. }
    unfold dkeys in Hkj. rewrite list_lookup_fmap in Hkj.
    destruct (cache st !! j) as [[k' e']|] eqn:Hj'; [|done].
    simpl in Hkj. injection Hkj as ->.
    destruct (wf_cache_lookup _ _ _ _ Hwf Hj') as [Hget Hid].
    unfold idof in Hv. rewrite Hget in Hv. simpl in Hv. congruence.
Qed.

Lemma dinv_finish G st v i x :
  dinv h (v :: G) st → idof st v = Some i → encodes h (idof st) v x →
  let st' := set_entry_value v i x st in
  dinv h G st' ∧ extends st st' ∧ idof st' v = Some i.
Proof.
  intros [Hwf Hdone] Hv Henc st'.
  assert (Hid : ∀ k, idof st' k = idof st k).
  { intros k. by apply idof_set_entry_value. }
  split_and!.
  - split; [by apply wf_cache_set_entry_value|].
    intros k e Hk HkG. apply (encodes_mono (idof st)); [intros k' j; by rewrite Hid|].
    subst st'; simpl in Hk. rewrite jsmap_get_set in Hk.
    case_decide as Hkv; [subst; by injection Hk as <-|].
    apply Hdone; [done|]. apply not_elem_of_cons. auto.
  - intros k j. by rewrite Hid.
  - by rewrite Hid.
Qed.

Lemma serialize_spec fuel v st G :
  dinv h G st →
  match serialize fuel h v st with
  | Ok (i, st') =>
      dinv h G st' ∧ extends st st' ∧ idof st' v = Some i ∧
      (idof st v = None → i = nextId st)
  | _ => True
  end.
Proof.
  revert v st G. induction fuel as [|fuel IH]; intros v st G Hinv; [done|].
  simpl. destruct (jsmap_get (cache st) v) as [e|] eqn:Hget.
  { split_and!; [done|done|unfold idof; by rewrite Hget|unfold idof; by rewrite Hget]. }
  set (st1 := {| cache := _; nextId := _ |}).
  destruct (dinv_fresh G st v Hinv Hget) as (Hinv1 & Hext1 & Hv1).
  fold st1 in Hinv1, Hext1, Hv1.
  assert (Hfin : ∀ x st2, dinv h (v :: G) st2 → extends st1 st2 →
            encodes h (idof st2) v x →
            let st' := set_entry_value v (nextId st) x st2 in
            dinv h G st' ∧ extends st st' ∧ idof st' v = Some (nextId st) ∧
            (idof st v = None → nextId st = nextId st)).
  { intros x st2 Hinv2 Hext2 Henc.
    destruct (dinv_finish G st2 v (nextId st) x Hinv2) as (? & ? & ?); [by apply Hext2|done|].
    split_and!; [done| |done|done]. etrans; [done|]. by etrans. }
  destruct v as [p|a].
  - destruct p; try done; apply Hfin; done.
  - destruct (h !! a) as [[elems|props|name]|] eqn:Ha; [| | |done].
    + pose proof (mapM_st_spec (serialize fuel h) (dinv h (VRef a :: G)) extends
                    (λ y j s, idof s y = Some j) (λ _, True) True elems st1
                    _ _) as Hm.
      destruct (mapM_st (serialize fuel h) elems st1) as [[ids st2]| |]; [|done..].
      destruct Hm as (Hinv2 & Hext2 & HF); [by auto|done| |].
      { intros x s1 _ Hs1 _. specialize (IH x s1 _ Hs1).
        destruct (serialize fuel h x s1) as [[y s2]| |]; [|done..]. naive_solver. }
      apply Hfin; [done|done|]. simpl. rewrite Ha. eauto.
    + match goal with |- context [mapM_st ?f ?l st1] =>
        pose proof (mapM_st_spec f (dinv h (VRef a :: G)) extends
                      (λ kv kj s, kv.1 = kj.1 ∧ idof s kv.2 = Some kj.2)
                      (λ _, True) True l st1 _ _) as Hm;
        destruct (mapM_st f l st1) as [[qs st2]| |]; [|done..] end.
      destruct Hm as (Hinv2 & Hext2 & HF); [by intros ???? [? ?]; auto|done| |].
      { intros x s1 _ Hs1 _. specialize (IH x.2 s1 _ Hs1).
        destruct (serialize fuel h x.2 s1) as [[y s2]| |]; [|done..]. naive_solver. }
      apply Hfin; [done|done|]. simpl. rewrite Ha. eauto.
    + apply Hfin; [done|done|]. simpl. by rewrite Ha.
Qed.
End SerializeSpec.

(** ** The record built from the cache *)

Lemma foldl_insert_lookup (l : list (nat * enc)) (m : dehydrated) i x :
  NoDup l.*1 →
  foldl (λ m kx, <[kx.1 := kx.2]> m) m l !! i = Some x ↔
  (i, x) ∈ l ∨ (i ∉ fst <$> l) ∧ m !! i = Some x.
Proof.
  revert m. induction l as [|[j y] l IH]; intros m; csimpl.
  - intros _. split; [intros ?; right; split; [apply not_elem_of_nil|done]|].
    intros [?%elem_of_nil|[_ ?]]; done.
  - rewrite NoDup_cons. intros [Hj Hnd]. rewrite IH by done.
    rewrite elem_of_cons, not_elem_of_cons. split.
    + intros [?|[Hi Hm]]; [by left; right|].
      destruct (decide (j = i)) as [->|Hne].
      * rewrite lookup_insert_eq in Hm. injection Hm as ->. left. by left.
      * rewrite lookup_insert_ne in Hm by done. right. done.
    + intros [[[= -> ->]|?]|[[Hne Hi] Hm]]; [|by left|].
      * right. split; [done|]. by rewrite lookup_insert_eq.
      * right. split; [done|]. by rewrite lookup_insert_ne.
Qed.

Lemma fromEntries_lookup (l : list (nat * enc)) i x :
  NoDup l.*1 → fromEntries l !! i = Some x ↔ (i, x) ∈ l.
Proof.
  intros Hnd. unfold fromEntries. rewrite foldl_insert_lookup by done.
  rewrite lookup_empty. naive_solver.
Qed.

Lemma wf_cache_record st i x :
  wf_cache st →
  fromEntries ((λ ke, (entry_id ke.2, entry_value ke.2)) <$> cache st) !! i = Some x ↔
  ∃ k, jsmap_get (cache st) k = Some {| entry_id := i; entry_value := x |}.
Proof.
  intros Hwf. rewrite fromEntries_lookup.
  - rewrite list_elem_of_fmap. split.
    + intros ([k [j y]] & [= -> ->] & Hin). exists k.
      destruct Hwf as (_ & Hnd & _). by apply jsmap_get_elem.
    + intros [k Hk]. apply jsmap_get_Some_elem in Hk.
      by exists (k, {| entry_id := i; entry_value := x |}).
  - apply NoDup_alt. intros j1 j2 z.
    rewrite !list_lookup_fmap.
    destruct (cache st !! j1) as [[k1 e1]|] eqn:H1; [|done].
    destruct (cache st !! j2) as [[k2 e2]|] eqn:H2; [|done].
    simpl. intros [= <-] [= Heq].
    destruct Hwf as (_ & _ & Hpos).
    apply Hpos in H1, H2. congruence.
Qed.

(** ** Reachability of the cache keys and the source of exceptions *)

Section SerializeReach.
Variable h : heap.
Variable P : jsval → Prop.
Hypothesis P_closed : ∀ x y, P x → edge h x y → P y.

Lemma serialize_keys fuel v st :
  P v → (∀ k, k ∈ dkeys st → P k) →
  match serialize fuel h v st with
  | Ok (_, st') => ∀ k, k ∈ dkeys st' → P k
  | _ => True
  end.
Proof.
  revert v st. induction fuel as [|fuel IH]; intros v st Hv Hst; [done|].
  simpl. destruct (jsmap_get (cache st) v) as [e|] eqn:Hget; [done|].
  set (st1 := {| cache := _; nextId := _ |}).
  assert (Hk1 : dkeys st1 = dkeys st ++ [v]).
  { unfold dkeys; subst st1; simpl. rewrite jsmap_set_fresh by done. by rewrite fmap_app. }
  assert (Hst1 : ∀ k, k ∈ dkeys st1 → P k).
  { intros k. rewrite Hk1, elem_of_app, list_elem_of_singleton. naive_solver. }
  assert (Hfin : ∀ x st2, (∀ k, k ∈ dkeys st2 → P k) →
            ∀ k, k ∈ dkeys (set_entry_value v (nextId st) x st2) → P k).
  { intros x st2 Hst2 k. unfold dkeys; simpl. intros Hk.
    apply list_elem_of_fmap in Hk as ([k' e'] & -> & Hk).
    apply list_elem_of_lookup in Hk as [j Hj].
    apply jsmap_set_lookup in Hj as [[-> _]|Hj]; [done|].
    apply Hst2. apply list_elem_of_fmap. exists (k', e'). split; [done|].
    by eapply list_elem_of_lookup_2. }
  destruct v as [p|a].
  - destruct p; try done; by apply Hfin.
  - destruct (h !! a) as [[elems|props|name]|] eqn:Ha; [| | |done].
    + pose proof (mapM_st_spec (serialize fuel h) (λ s, ∀ k, k ∈ dkeys s → P k)
                    (λ _ _, True) (λ _ _ _, True) (λ _, True) True elems st1) as Hm.
      destruct (mapM_st (serialize fuel h) elems st1) as [[ids st2]| |]; [|done..].
      destruct Hm as (Hst2 & _); [done|done|done|done| |by apply Hfin].
      intros x s1 Hx Hs1 _.
      assert (Px : P x). { apply (P_closed (VRef a)); [done|]. unfold edge; simpl. by rewrite Ha. }
      specialize (IH x s1 Px Hs1).
      destruct (serialize fuel h x s1) as [[y s2]| |]; done.
    + match goal with |- context [mapM_st ?f ?l st1] =>
        pose proof (mapM_st_spec f (λ s, ∀ k, k ∈ dkeys s → P k)
                    (λ _ _, True) (λ _ _ _, True) (λ _, True) True l st1) as Hm;
        destruct (mapM_st f l st1) as [[qs st2]| |]; [|done..] end.
      destruct Hm as (Hst2 & _); [done|done|done|done| |by apply Hfin].
      intros x s1 Hx Hs1 _.
      assert (Px : P x.2).
      { apply (P_closed (VRef a)); [done|]. unfold edge; simpl. rewrite Ha.
        apply list_elem_of_fmap. by exists x. }
      specialize (IH x.2 s1 Px Hs1).
      destruct (serialize fuel h x.2 s1) as [[y s2]| |]; done.
    + by apply Hfin.
Qed.
End SerializeReach.

Lemma serialize_throw h fuel v st e :
  serialize fuel h v st = Throw e →
  ∃ y, rtc (edge h) v y ∧ throws_at h y e.
Proof.
  revert v st e. induction fuel as [|fuel IH]; intros v st e; [done|].
  simpl. destruct (jsmap_get (cache st) v) as [e0|] eqn:Hget; [done|].
  set (st1 := {| cache := _; nextId := _ |}).
  destruct v as [p|a].
  - destruct p; try done. intros [= <-]. exists (VPrim PNull). split; [done|by left].
  - destruct (h !! a) as [[elems|props|name]|] eqn:Ha.
    + pose proof (mapM_st_spec (serialize fuel h) (λ _, True)
                    (λ _ _, True) (λ _ _ _, True)
                    (λ e, ∃ y, rtc (edge h) (VRef a) y ∧ throws_at h y e)
                    True elems st1) as Hm.
      destruct (mapM_st (serialize fuel h) elems st1) as [[ids st2]| |]; [done| |done].
      intros [= <-]. apply Hm; try done.
      intros x s1 Hx _ _. specialize (IH x s1).
      destruct (serialize fuel h x s1) as [[y s2]|e'|]; [done| |done].
      specialize (IH e').
      destruct IH as (y & Hy & Hbad); [done|]. exists y. split; [|done].
      eapply rtc_l; [|done]. unfold edge; simpl. by rewrite Ha.
    + match goal with |- context [mapM_st ?f ?l st1] =>
        pose proof (mapM_st_spec f (λ _, True)
                    (λ _ _, True) (λ _ _ _, True)
                    (λ e, ∃ y, rtc (edge h) (VRef a) y ∧ throws_at h y e)
                    True l st1) as Hm;
        destruct (mapM_st f l st1) as [[qs st2]| |]; [done| |done] end.
      intros [= <-]. apply Hm; try done.
      intros x s1 Hx _ _. specialize (IH x.2 s1).
      destruct (serialize fuel h x.2 s1) as [[y s2]|e'|]; [done| |done].
      specialize (IH e').
      destruct IH as (y & Hy & Hbad); [done|]. exists y. split; [|done].
      eapply rtc_l; [|done]. unfold edge; simpl. rewrite Ha.
      apply list_elem_of_fmap. by exists x.
    + done.
    + intros [= <-]. exists (VRef a). split; [done|]. right. eauto.
Qed.

Lemma dehydrateValue_throw h v e :
  dehydrateValue h v = Throw e → ∃ y, rtc (edge h) v y ∧ throws_at h y e.
Proof.
  unfold dehydrateValue.
  destruct (serialize _ _ _ _) as [[i st]|e'|] eqn:Hs; [done| |done].
  intros [= <-]. by eapply serialize_throw.
Qed.

Lemma dehydrateValue_spec h v d :
  dehydrateValue h v = Ok d → ∃ nu, numbering h v nu d.
Proof.
  unfold dehydrateValue.
  set (st0 := {| cache := []; nextId := 0 |}).
  assert (Hinv0 : dinv h [] st0).
  { split; [split_and!; [done|constructor|by intros ???]|by intros ???]. }
  pose proof (serialize_spec h (dehydrate_fuel h v) v st0 [] Hinv0) as Hspec.
  pose proof (serialize_keys h (λ k, rtc (edge h) v k)
                (λ x y Hx Hxy, rtc_r _ _ _ Hx Hxy)
                (dehydrate_fuel h v) v st0 (rtc_refl _ _)) as Hreach.
  destruct (serialize _ _ _ _) as [[i st]| |]; [|done..].
  intros [= <-]. destruct Hspec as ([Hwf Hdone] & _ & Hv & Hi).
  rewrite Hi in Hv by done. simpl in Hv.
  exists (idof st). split_and!.
  - done.
  - intros k k' j. by apply idof_inj.
  - intros k j Hk. unfold idof in Hk.
    destruct (jsmap_get (cache st) k) as [[j' x]|] eqn:Hget; [|done].
    simpl in Hk. injection Hk as ->. exists x. split.
    + apply wf_cache_record; eauto.
    + apply (Hdone _ _ Hget). apply not_elem_of_nil.
  - intros j x [k Hk]%wf_cache_record; [|done]. exists k.
    unfold idof. by rewrite Hk.
  - intros k j Hk. apply Hreach; [by intros ? ?%elem_of_nil|].
    apply jsmap_get_is_Some. unfold idof in Hk.
    destruct (jsmap_get (cache st) k); [eauto|done].
Qed.

(** ** The ids are given in depth-first order *)

Lemma dinv_empty h : dinv h [] {| cache := []; nextId := 0 |}.
Proof. split; [split_and!; [done|constructor|by intros ???]|by intros ???]. Qed.

Lemma lookup_middle_ne {A} (l1 l2 : list A) (x y : A) i :
  i ≠ length l1 → (l1 ++ x :: l2) !! i = (l1 ++ y :: l2) !! i.
Proof.
  intros Hi. destruct (decide (i < length l1)) as [Hlt|Hge].
  - by rewrite !lookup_app_l.
  - rewrite !lookup_app_r by lia.
    destruct (i - length l1) as [|n] eqn:Hn; [lia|done].
Qed.

Lemma assigned_proto_free {A} (ps : list (string * A)) :
  Forall (λ kv, kv.1 ≠ "__proto__") ps → assigned ps = ps.
Proof.
  intros Hps. unfold assigned. induction Hps as [|kv ps Hkv _ IH]; [done|].
  rewrite filter_cons_True by done. by rewrite IH.
Qed.

Section SerializeOrder.
Variable h : heap.
Variable P : jsval → Prop.
Hypothesis P_closed : ∀ x y, P x → edge h x y → P y.
Hypothesis P_proto : ∀ a props, P (VRef a) → h !! a = Some (OObj props) →
  Forall (λ kv : string * jsval, kv.1 ≠ "__proto__") props.

(** The visits of the elements of a list follow one another. *)
Lemma mapM_st_order {A B} (f : A → dstate → result (B * dstate))
    (proj : B → nat) G (l : list A) (s : dstate) :
  (∀ x s1, x ∈ l → dinv h G s1 →
     match f x s1 with
     | Ok (y, s2) =>
         dinv h G s2 ∧ cache s1 `prefix_of` cache s2 ∧
         ∀ d, agrees d s2 (nextId s1) → dfs d (proj y) (nextId s1) (nextId s2)
     | _ => True
     end) →
  dinv h G s →
  match mapM_st f l s with
  | Ok (ys, s') =>
      dinv h G s' ∧ cache s `prefix_of` cache s' ∧
      ∀ d, agrees d s' (nextId s) → dfs_list d (proj <$> ys) (nextId s) (nextId s')
  | _ => True
  end.
Proof.
  revert s. induction l as [|x l IH]; intros s Hf Hs; simpl.
  { split_and!; [done|done|]. intros d _. constructor. }
  pose proof (Hf x s (list_elem_of_here _ _) Hs) as Hx.
  destruct (f x s) as [[y s1]| |]; [|done..].
  destruct Hx as (Hs1 & Hpre1 & Hy).
  specialize (IH s1).
  destruct (mapM_st f l s1) as [[ys s2]| |]; [|done..].
  destruct IH as (Hs2 & Hpre2 & Hys); [|done|].
  { intros x' s' Hx'. apply Hf. by right. }
  split_and!; [done|by etrans|].
  intros d Hd. simpl.
  assert (Hle : nextId s ≤ nextId s1).
  { destruct Hs as [(-> & _) _]. destruct Hs1 as [(-> & _) _].
    by apply prefix_length. }
  econstructor.
  - apply Hy. intros i k en Hi Hlook. apply (Hd i k en Hi).
    by eapply prefix_lookup_Some.
  - apply Hys. intros i k en Hi Hlook. apply (Hd i k en); [lia|done].
Qed.

Lemma serialize_order fuel y st G :
  dinv h G st → P y →
  match serialize fuel h y st with
  | Ok (j, st2) =>
      cache st `prefix_of` cache st2 ∧
      ∀ d, agrees d st2 (nextId st) → dfs d j (nextId st) (nextId st2)
  | _ => True
  end.
Proof.
  revert y st G. induction fuel as [|fuel IH]; intros y st G Hinv Hy; [done|].
  simpl. destruct (jsmap_get (cache st) y) as [e0|] eqn:Hget.
  { split; [done|]. intros d _. apply dfs_seen.
    destruct Hinv as [Hwf _]. apply (idof_lt st y); [done|].
    unfold idof. by rewrite Hget. }
  set (st1 := {| cache := _; nextId := _ |}).
  destruct (dinv_fresh h G st y Hinv Hget) as (Hinv1 & _ & _).
  fold st1 in Hinv1.
  assert (Hlen : nextId st = length (cache st)) by by destruct Hinv as [(? & _) _].
  assert (Hc1 : cache st1 = cache st ++
            [(y, {| entry_id := nextId st; entry_value := EPrim PUndef |})]).
  { subst st1; simpl. by rewrite jsmap_set_fresh. }
  (* leaving [y]: its entry, at position [nextId st], receives its value *)
  assert (Hfin : ∀ x s', cache st1 `prefix_of` cache s' →
            cache st `prefix_of` cache (set_entry_value y (nextId st) x s') ∧
            ∀ d, agrees d (set_entry_value y (nextId st) x s') (nextId st) →
                 d !! nextId st = Some x ∧ agrees d s' (S (nextId st))).
  { intros x s' [rest Hrest]. rewrite Hc1, <-app_assoc in Hrest. simpl in Hrest.
    assert (Hc' : cache (set_entry_value y (nextId st) x s') =
              cache st ++ (y, {| entry_id := nextId st; entry_value := x |}) :: rest).
    { simpl. rewrite Hrest, jsmap_set_app_fresh by done. simpl.
      by rewrite decide_True. }
    split; [rewrite Hc'; by eexists|].
    intros d Hd. split.
    - apply (Hd (nextId st) y {| entry_id := nextId st; entry_value := x |});
        [done|]. rewrite Hc', Hlen. by apply list_lookup_middle.
    - intros i k en Hi Hlook. apply (Hd i k en); [lia|].
      rewrite Hc'. rewrite Hrest in Hlook.
      rewrite <-Hlook. apply lookup_middle_ne. lia. }
  destruct y as [p|a].
  - assert (Hprim : ∀ q,
              cache st `prefix_of` cache (set_entry_value (VPrim p) (nextId st) (EPrim q) st1) ∧
              ∀ d, agrees d (set_entry_value (VPrim p) (nextId st) (EPrim q) st1) (nextId st) →
                   dfs d (nextId st) (nextId st) (S (nextId st))).
    { intros q. destruct (Hfin (EPrim q) st1) as [Hpre Hd]; [done|].
      split; [done|]. intros d Hagrees. destruct (Hd d Hagrees) as [Hq _].
      by eapply dfs_prim. }
    destruct p; try done; apply Hprim.
  - destruct (h !! a) as [[elems|props|name]|] eqn:Ha; [| | |done].
    + pose proof (mapM_st_order (serialize fuel h) id (VRef a :: G) elems st1) as Hm.
      destruct (mapM_st (serialize fuel h) elems st1) as [[ids s']| |]; [|done..].
      destruct Hm as (_ & Hpre & Hch); [|done|].
      { intros x s1 Hx Hs1.
        assert (Px : P x).
        { apply (P_closed (VRef a)); [done|]. unfold edge; simpl. by rewrite Ha. }
        specialize (IH x s1 _ Hs1 Px).
        pose proof (serialize_spec h fuel x s1 _ Hs1) as Hspec.
        destruct (serialize fuel h x s1) as [[j s2]| |]; [|done..].
        destruct Hspec as (? & _). destruct IH as [? ?]. done. }
      destruct (Hfin (EArr ids) s' Hpre) as [Hpre' Hd].
      split; [done|]. intros d Hagrees. destruct (Hd d Hagrees) as [Hq Hrest].
      apply dfs_arr with ids; [done|].
      specialize (Hch d Hrest). by rewrite list_fmap_id in Hch.
    + match goal with |- context [mapM_st ?f ?l st1] =>
        pose proof (mapM_st_order f snd (VRef a :: G) l st1) as Hm;
        pose proof (mapM_st_spec f (λ _, True) (λ _ _, True)
                      (λ kv (kj : string * nat) _, kv.1 = kj.1)
                      (λ _, True) True l st1) as Hkeys;
        destruct (mapM_st f l st1) as [[ps s']| |]; [|done..] end.
      destruct Hm as (_ & Hpre & Hch); [|done|].
      { intros x s1 Hx Hs1.
        assert (Px : P x.2).
        { apply (P_closed (VRef a)); [done|]. unfold edge; simpl. rewrite Ha.
          apply list_elem_of_fmap. by exists x. }
        specialize (IH x.2 s1 _ Hs1 Px).
        pose proof (serialize_spec h fuel x.2 s1 _ Hs1) as Hspec.
        destruct (serialize fuel h x.2 s1) as [[j s2]| |]; [|done..].
        destruct Hspec as (? & _). destruct IH as [? ?]. done. }
      destruct Hkeys as (_ & _ & HF); [done|done|done|done| |].
      { intros x s1 _ _ _.
        by destruct (serialize fuel h x.2 s1) as [[j s2]| |]. }
      assert (Hps : assigned ps = ps).
      { apply assigned_proto_free.
        assert (Hprops : Forall (λ kv : string * jsval, kv.1 ≠ "__proto__")
                           (filter (λ kv, kept kv = true) props)).
        { apply Forall_forall. intros kv [_ Hkv]%list_elem_of_filter.
          pose proof (P_proto a props Hy Ha) as Hall.
          rewrite Forall_forall in Hall. by apply Hall. }
        clear -HF Hprops. induction HF as [|kv kj l ps Hk _ IH]; [done|].
        apply Forall_cons in Hprops as [Hkv Hprops].
        constructor; [congruence|by apply IH]. }
      rewrite Hps.
      destruct (Hfin (EObj ps) s' Hpre) as [Hpre' Hd].
      split; [done|]. intros d Hagrees. destruct (Hd d Hagrees) as [Hq Hrest].
      apply dfs_obj with ps; [done|]. by apply Hch.
    + destruct (Hfin (EPrim (PStr (function_placeholder name))) st1) as [Hpre Hd];
        [done|].
      split; [done|]. intros d Hagrees. destruct (Hd d Hagrees) as [Hq _].
      by eapply dfs_prim.
Qed.
End SerializeOrder.

(** The numbering of [dehydrateValue] is the one that [visit_id] reads. *)
Lemma dehydrateValue_numbering h v d :
  dehydrateValue h v = Ok d → numbering h v (visit_id h v) d.
Proof.
  unfold dehydrateValue, visit_id.
  set (st0 := {| cache := []; nextId := 0 |}).
  pose proof (serialize_spec h (dehydrate_fuel h v) v st0 [] (dinv_empty h)) as Hspec.
  pose proof (serialize_keys h (λ k, rtc (edge h) v k)
                (λ x y Hx Hxy, rtc_r _ _ _ Hx Hxy)
                (dehydrate_fuel h v) v st0 (rtc_refl _ _)) as Hreach.
  destruct (serialize _ _ _ _) as [[i st]| |]; [|done..].
  intros [= <-]. destruct Hspec as ([Hwf Hdone] & _ & Hv & Hi).
  rewrite Hi in Hv by done. simpl in Hv.
  split_and!.
  - done.
  - intros k k' j. by apply idof_inj.
  - intros k j Hk. unfold idof in Hk.
    destruct (jsmap_get (cache st) k) as [[j' x]|] eqn:Hget; [|done].
    simpl in Hk. injection Hk as ->. exists x. split.
    + apply wf_cache_record; eauto.
    + apply (Hdone _ _ Hget). apply not_elem_of_nil.
  - intros j x [k Hk]%wf_cache_record; [|done]. exists k.
    unfold idof. by rewrite Hk.
  - intros k j Hk. apply Hreach; [by intros ? ?%elem_of_nil|].
    apply jsmap_get_is_Some. unfold idof in Hk.
    destruct (jsmap_get (cache st) k); [eauto|done].
Qed.

(** The record of a graph without a property named [__proto__] is numbered
    in depth-first order. *)
Lemma dehydrateValue_order h v d :
  (∀ a props, rtc (edge h) v (VRef a) → h !! a = Some (OObj props) →
              Forall (λ kv : string * jsval, kv.1 ≠ "__proto__") props) →
  dehydrateValue h v = Ok d → ∃ n, dfs d 0 0 n.
Proof.
  intros Hproto. unfold dehydrateValue.
  set (st0 := {| cache := []; nextId := 0 |}).
  pose proof (serialize_spec h (dehydrate_fuel h v) v st0 [] (dinv_empty h)) as Hspec.
  pose proof (serialize_order h (λ k, rtc (edge h) v k)
                (λ x y Hx Hxy, rtc_r _ _ _ Hx Hxy) Hproto
                (dehydrate_fuel h v) v st0 [] (dinv_empty h) (rtc_refl _ _)) as Hord.
  destruct (serialize _ _ _ _) as [[i st]| |]; [|done..].
  intros [= <-]. destruct Hspec as ([Hwf _] & _ & _ & Hi).
  rewrite Hi in Hord by done. simpl in Hord. destruct Hord as [_ Hord].
  exists (nextId st). apply Hord.
  intros j k en _ Hlook.
  destruct (wf_cache_lookup _ _ _ _ Hwf Hlook) as [Hget Hid].
  apply wf_cache_record; [done|]. exists k. rewrite Hget.
  destruct en; simpl in *; by subst.
Qed.

(** ** The prototype chains that hydration builds *)

Lemma on_chain_sound fuel protos a p :
  on_chain fuel protos a p = true → rtc (proto_link protos) p a.
Proof.
  revert p. induction fuel as [|fuel IH]; intros p; simpl.
  - rewrite orb_false_r. by intros ->%bool_decide_eq_true.
  - intros [->%bool_decide_eq_true|Hq]%orb_true_iff; [done|].
    destruct (jsmap_get protos p) as [q|] eqn:Hp; [|done].
    eapply rtc_l; [exact Hp|by apply IH].
Qed.

Lemma on_chain_steps m k protos a p :
  nsteps (proto_link protos) m p a → on_chain (m + k) protos a p = true.
Proof.
  induction 1 as [p|m p q a Hpq _ IH].
  - destruct k; simpl; by rewrite bool_decide_eq_true_2.
  - simpl. unfold proto_link in Hpq. rewrite Hpq, IH. apply orb_true_r.
Qed.

(** A chain of prototypes passes through an object once, so that it has no
    more links than there are objects with a prototype of their own. *)
Lemma proto_chain_length protos m p a :
  proto_acyclic protos → nsteps (proto_link protos) m p a → m ≤ length protos.
Proof.
  intros Hacyc Hsteps.
  assert (∃ l : list nat, length l = m ∧ NoDup l ∧
            ∀ x, x ∈ l → x ∈ protos.*1 ∧ rtc (proto_link protos) p x)
    as (l & <- & Hnd & Hl).
  { induction Hsteps as [p|m p q a Hpq _ (l & Hlen & Hnd & Hl)].
    - exists []. split_and!; [done|constructor|by intros x ?%elem_of_nil].
    - exists (p :: l). split_and!; [simpl; by rewrite Hlen| |].
      + constructor; [|done]. intros Hp. apply (Hacyc p).
        eapply tc_rtc_r; [by apply tc_once|]. by apply Hl.
      + intros x [->|Hx]%elem_of_cons.
        * split; [|done]. apply jsmap_get_is_Some. by exists q.
        * split; [by apply Hl|]. eapply rtc_l; [done|]. by apply Hl. }
  rewrite <-(length_fmap fst protos). apply submseteq_length.
  apply NoDup_submseteq; [done|]. intros x Hx. by apply Hl.
Qed.

(** [on_chain] decides whether [a] is on the prototype chain of [p]. *)
Lemma on_chain_spec protos a p :
  proto_acyclic protos →
  on_chain (length protos) protos a p = true ↔ rtc (proto_link protos) p a.
Proof.
  intros Hacyc. split; [apply on_chain_sound|].
  intros (m & Hm)%rtc_nsteps.
  pose proof (proto_chain_length protos m p a Hacyc Hm) as Hle.
  replace (length protos) with (m + (length protos - m)) by lia.
  by apply on_chain_steps.
Qed.

Lemma proto_link_set protos a b p q :
  proto_link (jsmap_set protos a b) p q ↔
  (p = a ∧ q = b) ∨ (p ≠ a ∧ proto_link protos p q).
Proof.
  unfold proto_link. rewrite jsmap_get_set. case_decide; naive_solver.
Qed.

(** The prototype of [a] can be set to [b] when [a] is not on the chain of
    [b]: no cycle arises. *)
Lemma proto_acyclic_set protos a b :
  proto_acyclic protos → ¬ rtc (proto_link protos) b a →
  proto_acyclic (jsmap_set protos a b).
Proof.
  intros Hacyc Hba.
  assert (Hback : ∀ y, rtc (proto_link (jsmap_set protos a b)) y a →
                       rtc (proto_link protos) y a).
  { intros y Hy. remember a as a' eqn:Ha in Hy at 2.
    induction Hy as [y|y z a' [[-> ->]|[Hne Hyz]]%proto_link_set _ IH]; subst.
    - done.
    - done.
    - eapply rtc_l; [done|]. by apply IH. }
  assert (Hsplit : ∀ x y, tc (proto_link (jsmap_set protos a b)) x y →
            tc (proto_link protos) x y ∨
            (rtc (proto_link (jsmap_set protos a b)) x a ∧
             rtc (proto_link (jsmap_set protos a b)) b y)).
  { intros x y Hxy.
    induction Hxy as [x y Hxy|x z y Hxz Hzy IH].
    - apply proto_link_set in Hxy as [[-> ->]|[Hne Hxy]]; [by right|].
      left. by apply tc_once.
    - pose proof Hxz as Hxz'.
      apply proto_link_set in Hxz as [[-> ->]|[Hne Hxz]].
      + right. split; [done|by apply tc_rtc].
      + destruct IH as [IH|[IH1 IH2]].
        * left. by eapply tc_l.
        * right. split; [|done]. by eapply rtc_l. }
  intros x Hx. destruct (Hsplit x x Hx) as [Hold|[Hxa Hbx]].
  - by apply (Hacyc x).
  - apply Hba, Hback. by etrans.
Qed.

Lemma assign_acyclic a entries own protos own' protos' :
  proto_acyclic protos → assign a entries own protos = Some (own', protos') →
  proto_acyclic protos'.
Proof.
  revert own protos. induction entries as [|[k x] entries IH]; intros own protos Hacyc; simpl.
  { by intros [= _ <-]. }
  case_decide; [|by apply IH].
  destruct x as [p|b]; [by apply IH|].
  destruct (on_chain (length protos) protos a b) eqn:Hchain; [done|].
  apply IH. apply proto_acyclic_set; [done|].
  intros Hba. apply on_chain_spec in Hba; [congruence|done].
Qed.

(** The setter of [__proto__] throws exactly when the new object is on the
    prototype chain of the value. *)
Lemma assign_proto_throws a b own protos :
  proto_acyclic protos →
  assign a [("__proto__", VRef b)] own protos = None ↔
  rtc (proto_link protos) b a.
Proof.
  intros Hacyc. simpl. rewrite <-on_chain_spec by done.
  by destruct (on_chain (length protos) protos a b).
Qed.

Lemma deserialize_acyclic d fuel val st :
  proto_acyclic (hproto st) →
  match deserialize fuel d val st with
  | Ok (_, st') => proto_acyclic (hproto st')
  | _ => True
  end.
Proof.
  revert val st. induction fuel as [|fuel IH]; intros val st Hst; [done|].
  simpl. destruct (jsmap_get (hcache st) (key_of val)) as [x0|]; [done|].
  destruct val as [p|i ids|i props].
  - by destruct p.
  - match goal with |- context [mapM_st ?f ?l ?s] =>
      pose proof (mapM_st_spec f (λ s0, proto_acyclic (hproto s0)) (λ _ _, True)
                    (λ _ _ _, True) (λ _, True) True l s) as Hm;
      destruct (mapM_st f l s) as [[xs st2]| |]; [|done..] end.
    apply Hm; try done. intros j s1 _ Hs1 _. specialize (IH (dget d j) s1 Hs1).
    by destruct (deserialize fuel d (dget d j) s1) as [[y s2]| |].
  - match goal with |- context [mapM_st ?f ?l ?s] =>
      pose proof (mapM_st_spec f (λ s0, proto_acyclic (hproto s0)) (λ _ _, True)
                    (λ _ _ _, True) (λ _, True) True l s) as Hm;
      destruct (mapM_st f l s) as [[ps st2]| |]; [|done..] end.
    destruct Hm as (Hst2 & _); try done.
    { intros kj s1 _ Hs1 _. specialize (IH (dget d kj.2) s1 Hs1).
      by destruct (deserialize fuel d (dget d kj.2) s1) as [[y s2]| |]. }
    destruct (assign _ ps [] (hproto st2)) as [[own protos]|] eqn:Hassign; [|done].
    simpl. by eapply assign_acyclic.
Qed.

(** The prototypes that [hydrateValue] has set form no cycle. *)
Lemma prototypes_acyclic d : proto_acyclic (prototypes d).
Proof.
  unfold prototypes.
  pose proof (deserialize_acyclic d (hydrate_fuel d) (dget d 0)
                {| hcache := []; hheap := []; hproto := [] |}) as H.
  destruct (deserialize _ _ _ _) as [[r st]| |].
  - apply H. intros x Hx. apply tc_rtc_l with (x := x) in Hx; [|done].
    inversion Hx as [?? He|??? He]; done.
  - intros x Hx. inversion Hx as [?? He|??? He]; done.
  - intros x Hx. inversion Hx as [?? He|??? He]; done.
Qed.

(** ** [Object.assign] without a property named [__proto__] *)

Lemma assign_proto_free a ps own protos :
  Forall (λ kx : string * jsval, kx.1 ≠ "__proto__") ps →
  assign a ps own protos = Some (own ++ ps, protos).
Proof.
  revert own. induction ps as [|[k x] ps IH]; intros own Hf; simpl.
  { by rewrite app_nil_r. }
  apply Forall_cons in Hf as [Hk Hf]. simpl in Hk.
  rewrite decide_False by done. rewrite IH by done. by rewrite <- app_assoc.
Qed.

Lemma proto_free_names {A B} (R : A → B → Prop)
    (props : list (string * A)) (ps : list (string * B)) :
  Forall2 (λ kj ky, kj.1 = ky.1 ∧ R kj.2 ky.2) props ps →
  Forall (λ kj, kj.1 ≠ "__proto__") props →
  Forall (λ ky, ky.1 ≠ "__proto__") ps.
Proof.
  induction 1 as [|kj ky props ps [Hk _] HF IH]; intros Hp; [done|].
  apply Forall_cons in Hp as [Hkj Hp]. constructor; [congruence|by apply IH].
Qed.

(** ** [deserialize]: what a call leaves alone *)

#[local] Instance hstable_refl : Reflexive hstable.
Proof. intros st. split_and!; [done|lia|done]. Qed.

#[local] Instance hstable_trans : Transitive hstable.
Proof.
  intros s1 s2 s3 (H1 & L1 & P1) (H2 & L2 & P2). split_and!; [auto|lia|].
  intros b Hb. rewrite P2 by lia. auto.
Qed.

Lemma hstable_set_fresh st k x :
  hval st k = None →
  hstable st {| hcache := jsmap_set (hcache st) k x; hheap := hheap st; hproto := hproto st |}.
Proof.
  intros Hk. split_and!; [|done|done].
  intros k' y. unfold hval; simpl. rewrite jsmap_get_set.
  case_decide; [subst; unfold hval in Hk; congruence|done].
Qed.

Lemma hstable_finish st st2 k c' hp' pr :
  hval st k = None → hstable st st2 →
  (∀ k', k' ≠ k → jsmap_get c' k' = hval st2 k') →
  length (hheap st2) ≤ length hp' →
  (∀ b, b < length (hheap st) → hp' !! b = hheap st2 !! b) →
  hstable st {| hcache := c'; hheap := hp'; hproto := pr |}.
Proof.
  intros Hk (H2 & L2 & P2) Hc Hl Hp. split_and!; simpl.
  - intros k' y Hk'. unfold hval at 1; simpl. rewrite Hc; [by apply H2|].
    intros ->. congruence.
  - lia.
  - intros b Hb. rewrite Hp by done. by apply P2.
Qed.

Lemma deserialize_stable d fuel val st :
  match deserialize fuel d val st with
  | Ok (x, st') => hstable st st' ∧ hval st' (key_of val) = Some x
  | _ => True
  end.
Proof.
  revert val st. induction fuel as [|fuel IH]; intros val st; [done|].
  simpl. destruct (jsmap_get (hcache st) (key_of val)) as [x0|] eqn:Hget; [done|].
  set (st1 := {| hcache := _; hheap := hheap st; hproto := hproto st |}).
  assert (H1 : hstable st st1) by by apply hstable_set_fresh.
  assert (Hstep : ∀ j s1,
            match deserialize fuel d (dget d j) s1 with
            | Ok (y, s2) => True ∧ hstable s1 s2 ∧ True
            | _ => True
            end).
  { intros j s1. specialize (IH (dget d j) s1).
    destruct (deserialize fuel d (dget d j) s1) as [[y s2]| |]; naive_solver. }
  destruct val as [p|i ids|i props].
  - assert (∀ q, hstable st {| hcache := jsmap_set (hcache st1) (HPrim p) (VPrim q);
                               hheap := hheap st1; hproto := hproto st1 |} ∧
                 hval {| hcache := jsmap_set (hcache st1) (HPrim p) (VPrim q);
                         hheap := hheap st1; hproto := hproto st1 |} (HPrim p) = Some (VPrim q)) as Hp.
    { intros q. split; [|unfold hval; simpl; by rewrite jsmap_get_set_eq].
      apply (hstable_finish st st1 (HPrim p)); [done|done| |done|done].
      intros k' Hk'. by rewrite jsmap_get_set_ne. }
    destruct p; try done; apply Hp.
  - match goal with |- context [mapM_st ?f ?l st1] =>
      pose proof (mapM_st_spec f (λ _, True) hstable (λ _ _ _, True)
                    (λ _, True) True l st1 _ _) as Hm;
      destruct (mapM_st f l st1) as [[xs st2]| |]; [|done..] end.
    destruct Hm as (_ & H2 & _); [done|done| |].
    { intros j s1 _ _ _. apply Hstep. }
    split; [|unfold hval; simpl; by rewrite jsmap_get_set_eq].
    apply (hstable_finish st st2 (HNode i)); [done|by etrans| | |].
    + intros k' Hk'. by rewrite jsmap_get_set_ne.
    + rewrite length_app. lia.
    + intros b Hb. apply lookup_app_l. destruct H1 as (_ & L1 & _), H2 as (_ & L2 & _).
      simpl in *. lia.
  - set (st1' := {| hcache := _; hheap := _; hproto := _ |}).
    assert (H1' : hstable st st1').
    { apply (hstable_finish st st1 (HNode i)); [done|done| | |].
      - intros k' Hk'. by rewrite jsmap_get_set_ne.
      - simpl. rewrite length_app. lia.
      - intros b Hb. simpl. by apply lookup_app_l. }
    match goal with |- context [mapM_st ?f ?l st1'] =>
      pose proof (mapM_st_spec f (λ _, True) hstable (λ _ _ _, True)
                    (λ _, True) True l st1' _ _) as Hm;
      destruct (mapM_st f l st1') as [[ps st2]| |]; [|done..] end.
    destruct Hm as (_ & H2 & _); [done|done| |].
    { intros kj s1 _ _ _. specialize (Hstep kj.2 s1).
      destruct (deserialize fuel d (dget d kj.2) s1) as [[y s2]| |]; naive_solver. }
    destruct (assign _ ps [] (hproto st2)) as [[own protos]|]; [|done].
    split.
    + apply (hstable_finish st st2 (HNode i)); [done|by etrans|done| |].
      * by rewrite length_insert.
      * intros b Hb. apply list_lookup_insert_ne. simpl. lia.
    + destruct H2 as (H2 & _). apply H2.
      unfold hval; simpl. by rewrite jsmap_get_set_eq.
Qed.

(** ** [deserialize] returns or throws: it never runs out of fuel *)

Section DeserializeFuel.
Variable d : dehydrated.
Variable U : list hkey.
Hypothesis U_closed : ∀ j, key_of (dget d j) ∈ U.

Lemma hkeys_bound st : NoDup (hkeys st) → (∀ k, k ∈ hkeys st → k ∈ U) →
  length (hcache st) ≤ length U.
Proof.
  intros Hnd Hsub. unfold hkeys in *.
  rewrite <-(length_fmap fst (hcache st)).
  apply submseteq_length, NoDup_submseteq; done.
Qed.

Lemma hfuel_inv_fresh fuel st k x hp pr :
  hfuel_inv U (S fuel) st → k ∈ U → jsmap_get (hcache st) k = None →
  hfuel_inv U fuel {| hcache := jsmap_set (hcache st) k x; hheap := hp; hproto := pr |}.
Proof.
  intros (Hnd & Hsub & Hlen) HkU Hk. unfold hfuel_inv, hkeys in *; simpl.
  rewrite jsmap_set_fresh by done. rewrite fmap_app, length_app. simpl.
  split_and!.
  - apply NoDup_app. split_and!; [done| |apply NoDup_singleton].
    intros k' Hk' ->%list_elem_of_singleton. by apply jsmap_get_None in Hk.
  - intros k'. rewrite elem_of_app, list_elem_of_singleton. naive_solver.
  - lia.
Qed.

Lemma hfuel_inv_set fuel st k x hp pr :
  hfuel_inv U fuel st → k ∈ hkeys st →
  hfuel_inv U fuel {| hcache := jsmap_set (hcache st) k x; hheap := hp; hproto := pr |}.
Proof.
  intros (Hnd & Hsub & Hlen) Hk. unfold hfuel_inv, hkeys in *; simpl.
  rewrite jsmap_set_keys_present, jsmap_set_length_present by done. done.
Qed.

Lemma hfuel_inv_heap fuel st hp pr :
  hfuel_inv U fuel st →
  hfuel_inv U fuel {| hcache := hcache st; hheap := hp; hproto := pr |}.
Proof. done. Qed.

Lemma hfuel_inv_weaken fuel st st' :
  hfuel_inv U fuel st' → length (hcache st) ≤ length (hcache st') →
  hfuel_inv U (S fuel) st'.
Proof. intros (? & ? & ?) ?. split_and!; [done|done|lia]. Qed.

#[local] Instance hgrows_refl : Reflexive hgrows.
Proof. intros st. split; [done|lia]. Qed.

#[local] Instance hgrows_trans : Transitive hgrows.
Proof. intros s1 s2 s3 [H1 L1] [H2 L2]. split; [auto|lia]. Qed.

Lemma hgrows_fresh st k x hp pr :
  jsmap_get (hcache st) k = None →
  let st1 := {| hcache := jsmap_set (hcache st) k x; hheap := hp; hproto := pr |} in
  hgrows st st1 ∧ k ∈ hkeys st1.
Proof.
  intros Hk st1. unfold hgrows, hkeys; subst st1; simpl.
  rewrite jsmap_set_fresh by done. rewrite fmap_app, length_app. simpl.
  split_and!.
  - intros k'. rewrite elem_of_app. auto.
  - lia.
  - rewrite elem_of_app, list_elem_of_singleton. auto.
Qed.

Lemma hgrows_set st k x hp pr :
  k ∈ hkeys st →
  hgrows st {| hcache := jsmap_set (hcache st) k x; hheap := hp; hproto := pr |}.
Proof.
  intros Hk. unfold hgrows, hkeys in *; simpl.
  rewrite jsmap_set_keys_present, jsmap_set_length_present by done. done.
Qed.

Lemma deserialize_fuel_ok fuel val st :
  hfuel_inv U fuel st → key_of val ∈ U →
  match deserialize fuel d val st with
  | Ok (_, st') => hfuel_inv U fuel st' ∧ hgrows st st'
  | Throw _ => True
  | OutOfFuel => False
  end.
Proof.
  revert val st. induction fuel as [|fuel IH]; intros val st Hinv HvU.
  { destruct Hinv as (Hnd & Hsub & Hlen).
    pose proof (hkeys_bound st Hnd Hsub). simpl in *. lia. }
  simpl. destruct (jsmap_get (hcache st) (key_of val)) as [x0|] eqn:Hget; [done|].
  set (st1 := {| hcache := _; hheap := hheap st; hproto := hproto st |}).
  pose proof (hfuel_inv_fresh fuel st (key_of val) (VPrim PUndef) (hheap st)
                (hproto st) Hinv HvU Hget) as Hinv1.
  destruct (hgrows_fresh st (key_of val) (VPrim PUndef) (hheap st) (hproto st) Hget)
    as [Hg1 Hk1].
  fold st1 in Hinv1, Hg1, Hk1.
  assert (Hstep : ∀ j s1, hfuel_inv U fuel s1 →
            match deserialize fuel d (dget d j) s1 with
            | Ok (y, s2) => hfuel_inv U fuel s2 ∧ hgrows s1 s2 ∧ True
            | Throw _ => True
            | OutOfFuel => False
            end).
  { intros j s1 Hs1. specialize (IH (dget d j) s1 Hs1 (U_closed j)).
    destruct (deserialize fuel d (dget d j) s1) as [[y s2]| |]; naive_solver. }
  assert (Hfin : ∀ st2 x hp pr, hfuel_inv U fuel st2 → hgrows st1 st2 →
            let st' := {| hcache := jsmap_set (hcache st2) (key_of val) x;
                          hheap := hp; hproto := pr |} in
            hfuel_inv U (S fuel) st' ∧ hgrows st st').
  { intros st2 x hp pr Hs2 Hg2 st'.
    assert (Hk2 : key_of val ∈ hkeys st2) by by apply Hg2.
    assert (Hg' : hgrows st st').
    { etrans; [done|]. etrans; [done|]. by apply hgrows_set. }
    split; [|done]. eapply hfuel_inv_weaken; [by apply hfuel_inv_set|apply Hg']. }
  destruct val as [p|i ids|i props].
  - destruct p; try done; apply (Hfin st1 _ (hheap st1) (hproto st1)); done.
  - match goal with |- context [mapM_st ?f ?l st1] =>
      pose proof (mapM_st_spec f (hfuel_inv U fuel) hgrows (λ _ _ _, True)
                    (λ _, True) False l st1 _ _) as Hm;
      destruct (mapM_st f l st1) as [[xs st2]| |] end.
    + destruct Hm as (Hs2 & Hg2 & _); [done|done| |by apply Hfin].
      intros j s1 _ Hs1 _. by apply Hstep.
    + done.
    + apply Hm; [done|done|]. intros j s1 _ Hs1 _. by apply Hstep.
  - set (st1' := {| hcache := jsmap_set _ _ (VRef _); hheap := _ ++ _; hproto := _ |}).
    assert (Hinv1' : hfuel_inv U fuel st1').
    { exact (hfuel_inv_set fuel st1 (HNode i) (VRef (length (hheap st)))
               (hheap st ++ [OObj []]) (hproto st) Hinv1 Hk1). }
    assert (Hg1' : hgrows st1 st1').
    { exact (hgrows_set st1 (HNode i) (VRef (length (hheap st)))
               (hheap st ++ [OObj []]) (hproto st) Hk1). }
    assert (Hobj : ∀ kj s1, hfuel_inv U fuel s1 →
              match
                match deserialize fuel d (dget d kj.2) s1 with
                | Ok (x, st'') => Ok ((kj.1 : string, x), st'')
                | Throw e => Throw e
                | OutOfFuel => OutOfFuel
                end
              with
              | Ok (y, s2) => hfuel_inv U fuel s2 ∧ hgrows s1 s2 ∧ True
              | Throw _ => True
              | OutOfFuel => False
              end).
    { intros kj s1 Hs1. specialize (Hstep kj.2 s1 Hs1).
      destruct (deserialize fuel d (dget d kj.2) s1) as [[y s2]| |]; naive_solver. }
    match goal with |- context [mapM_st ?f ?l st1'] =>
      pose proof (mapM_st_spec f (hfuel_inv U fuel) hgrows (λ _ _ _, True)
                    (λ _, True) False l st1' _ _) as Hm;
      destruct (mapM_st f l st1') as [[ps st2]| |] end.
    + destruct Hm as (Hs2 & Hg2 & _); [done|done| |].
      { intros kj s1 _ Hs1 _. by apply Hobj. }
      destruct (assign _ ps [] (hproto st2)) as [[own protos]|]; [|done].
      split.
      * eapply hfuel_inv_weaken; [by apply hfuel_inv_heap|].
        etrans; [apply Hg1|]. etrans; [apply Hg1'|]. apply Hg2.
      * etrans; [done|]. etrans; [done|]. done.
    + done.
    + apply Hm; [done|done|]. intros kj s1 _ Hs1 _. by apply Hobj.
Qed.
End DeserializeFuel.

Lemma huniverse_closed d j : key_of (dget d j) ∈ huniverse d.
Proof.
  unfold dget, huniverse. destruct (d !! j) as [x|] eqn:Hj; [|left].
  right. apply list_elem_of_fmap. exists (j, x).
  split; [by destruct x|]. by apply elem_of_map_to_list.
Qed.

Lemma deserialize_enough_fuel d val :
  key_of val ∈ huniverse d →
  match deserialize (hydrate_fuel d) d val {| hcache := []; hheap := []; hproto := [] |} with
  | OutOfFuel => False
  | _ => True
  end.
Proof.
  intros Hval.
  pose proof (deserialize_fuel_ok d (huniverse d) (huniverse_closed d)
                (hydrate_fuel d) val {| hcache := []; hheap := []; hproto := [] |}) as H.
  destruct (deserialize _ _ _ _) as [[x st]| |]; [done|done|].
  apply H; [|done]. split_and!; [constructor|by intros ? ?%elem_of_nil|].
  unfold hydrate_fuel, huniverse; simpl.
  rewrite length_fmap, length_map_to_list. lia.
Qed.

Lemma hydrateValue_terminates value : hydrateValue value ≠ OutOfFuel.
Proof.
  unfold hydrateValue. destruct value as [d|]; [|done].
  case_decide; [done|].
  pose proof (deserialize_enough_fuel d (dget d 0) (huniverse_closed d 0)) as Hf.
  by destruct (deserialize (hydrate_fuel d) d (dget d 0) _) as [[x st]| |].
Qed.

(** ** What [deserialize] leaves in the cache and in the heap *)

Lemma wf_node_dget d j : wf_node d (dget d j).
Proof. unfold dget. destruct (d !! j) as [[p|ids|props]|] eqn:Hj; done. Qed.

Lemma deserialize_throw d fuel val st :
  (∀ j, d !! j ≠ Some (EPrim PNull)) → proto_free d →
  val ≠ NPrim PNull → wf_node d val →
  match deserialize fuel d val st with
  | Throw _ => False
  | _ => True
  end.
Proof.
  intros Hd Hproto. revert val st.
  induction fuel as [|fuel IH]; intros val st Hval Hwf; [done|].
  assert (Hstep : ∀ j s1,
            match deserialize fuel d (dget d j) s1 with
            | Ok (y, s2) => True ∧ True ∧ True
            | Throw _ => False
            | OutOfFuel => True
            end).
  { intros j s1. specialize (IH (dget d j) s1).
    destruct (deserialize fuel d (dget d j) s1) as [[y s2]| |]; try done.
    apply IH; [|apply wf_node_dget]. unfold dget. specialize (Hd j).
    destruct (d !! j) as [[p|ids|props]|]; try done. intros [= ->]. done. }
  simpl. destruct (jsmap_get (hcache st) (key_of val)) as [x0|]; [done|].
  destruct val as [p|i ids|i props].
  - by destruct p.
  - match goal with |- context [mapM_st ?f ?l ?s] =>
      pose proof (mapM_st_spec f (λ _, True) (λ _ _, True) (λ _ _ _, True)
                    (λ _, False) True l s) as Hm;
      destruct (mapM_st f l s) as [[xs st2]| |]; [done| |done] end.
    apply Hm; try done. intros j s1 _ _ _. apply Hstep.
  - match goal with |- context [mapM_st ?f ?l ?s] =>
      pose proof (mapM_st_spec f (λ _, True) (λ _ _, True)
                    (λ kj ky _, kj.1 = ky.1 ∧ True)
                    (λ _, False) True l s) as Hm;
      destruct (mapM_st f l s) as [[xs st2]| |]; [| |done] end.
    + destruct Hm as (_ & _ & HF); try done.
      { intros kj s1 _ _ _. specialize (Hstep kj.2 s1).
        by destruct (deserialize fuel d (dget d kj.2) s1) as [[y s2]| |]. }
      rewrite assign_proto_free; [done|].
      eapply (proto_free_names (λ _ _, True)); [exact HF|]. by apply (Hproto i).
    + apply Hm; try done. intros kj s1 _ _ _. specialize (Hstep kj.2 s1).
      by destruct (deserialize fuel d (dget d kj.2) s1) as [[y s2]| |].
Qed.

Section DeserializeSpec.
Variable d : dehydrated.

Lemma decodes_mono (g g' : hkey → option jsval) (hp hp' : heap) k x :
  (∀ c y, dedge d k c → g c = Some y → g' c = Some y) →
  (∀ b o, x = VRef b → hp !! b = Some o → hp' !! b = Some o) →
  decodes d g hp k x → decodes d g' hp' k x.
Proof.
  intros Hg Hhp. destruct k as [p|i]; simpl; [done|].
  unfold dedge in Hg. simpl in Hg.
  destruct (d !! i) as [[p|ids|props]|]; [done| | |done].
  - intros (b & xs & -> & Hb & HF). exists b, xs. split_and!; [done|by eapply Hhp|].
    eapply Forall2_impl_elem; [done|]. simpl. intros j y Hj Hy.
    apply Hg; [|done]. apply list_elem_of_fmap. by exists j.
  - intros (b & qs & -> & Hb & HF). exists b, qs. split_and!; [done|by eapply Hhp|].
    eapply Forall2_impl_elem; [done|]. simpl. intros kj ky Hj [? Hy].
    split; [done|]. apply Hg; [|done]. apply list_elem_of_fmap. by exists kj.
Qed.

Lemma decodes_children (g : hkey → option jsval) (hp : heap) k x c :
  decodes d g hp k x → dedge d k c → is_Some (g c).
Proof.
  destruct k as [p|i]; unfold dedge; simpl; [by intros _ ?%elem_of_nil|].
  destruct (d !! i) as [[p|ids|props]|]; [done| | |done].
  - intros (b & xs & -> & Hb & HF) (j & -> & Hj)%list_elem_of_fmap.
    apply list_elem_of_lookup in Hj as [n Hn].
    destruct (Forall2_lookup_l _ _ _ _ _ HF Hn) as (y & _ & Hy). eauto.
  - intros (b & qs & -> & Hb & HF) (kj & -> & Hj)%list_elem_of_fmap.
    apply list_elem_of_lookup in Hj as [n Hn].
    destruct (Forall2_lookup_l _ _ _ _ _ HF Hn) as (y & _ & _ & Hy). eauto.
Qed.

Lemma hval_set st k x hp pr k' :
  hval {| hcache := jsmap_set (hcache st) k x; hheap := hp; hproto := pr |} k' =
    if decide (k = k') then Some x else hval st k'.
Proof. unfold hval; simpl. apply jsmap_get_set. Qed.

(** Entering a node: its key becomes pending. *)
Lemma hinv_descend G st k x hp' pr :
  hinv d G st → hval st k = None → pending d k x →
  (∀ b, x = VRef b → b = length (hheap st) ∧ b < length hp') →
  (∀ b o, hheap st !! b = Some o → hp' !! b = Some o) →
  length (hheap st) ≤ length hp' →
  hinv d (k :: G) {| hcache := jsmap_set (hcache st) k x; hheap := hp'; hproto := pr |}.
Proof.
  intros (Hdec & Hpend & Hinj & Hlt & Hnoarr & Hgray) Hk Hx Hfresh Hhp Hlen.
  assert (Hold : ∀ c y, hval st c = Some y →
            hval {| hcache := jsmap_set (hcache st) k x; hheap := hp'; hproto := pr |} c = Some y).
  { intros c y Hc. rewrite hval_set. case_decide; [subst; congruence|done]. }
  split_and!.
  - intros k' x'. rewrite hval_set. case_decide as Hkk; [subst; intros _ []%not_elem_of_cons; done|].
    intros Hk' [_ HkG]%not_elem_of_cons.
    eapply decodes_mono; [| |by apply Hdec]; simpl; [auto|auto].
  - intros k' x'. rewrite hval_set. case_decide as Hkk; [by intros [= <-] _; subst|].
    intros Hk' [?|HkG]%elem_of_cons; [done|]. by eapply Hpend.
  - intros k1 k2 b. rewrite !hval_set.
    case_decide as H1; case_decide as H2; subst; try done.
    + intros [= ->] H2'. destruct (Hfresh b eq_refl) as [-> _].
      apply Hlt in H2'. lia.
    + intros H1' [= ->]. destruct (Hfresh b eq_refl) as [-> _].
      apply Hlt in H1'. lia.
    + apply Hinj.
  - intros k' b. rewrite hval_set. case_decide; simpl.
    + intros [= ->]. by apply Hfresh.
    + intros Hb%Hlt. lia.
  - intros k' c. rewrite hval_set. case_decide as Hkk; [subst; intros _ []%not_elem_of_cons; done|].
    intros [x' Hk'] [_ HkG]%not_elem_of_cons Hedge Hc.
    assert (is_Some (hval st c)) as [y Hy].
    { eapply decodes_children; [by apply Hdec|done]. }
    apply elem_of_cons in Hc as [->|Hc]; [congruence|].
    apply (Hnoarr k' c); [by exists x'|done|done|done].
  - intros k' [->|Hk']%elem_of_cons; rewrite hval_set.
    + rewrite decide_True by done. eauto.
    + case_decide; [eauto|by apply Hgray].
Qed.

(** A primitive is decoded at once. *)
Lemma hinv_prim G st p hp pr :
  hinv d G st → hval st (HPrim p) = None → hp = hheap st →
  hinv d G {| hcache := jsmap_set (hcache st) (HPrim p) (VPrim p); hheap := hp; hproto := pr |}.
Proof.
  intros (Hdec & Hpend & Hinj & Hlt & Hnoarr & Hgray) Hk ->.
  assert (HkG : HPrim p ∉ G).
  { intros HG. apply Hgray in HG as [? ?]. congruence. }
  split_and!.
  - intros k' x'. rewrite hval_set. case_decide as Hkk; [subst; by intros [= <-]|].
    intros Hk' HG. eapply decodes_mono; [| |by apply Hdec]; simpl; [|auto].
    intros c y _ Hc. rewrite hval_set. case_decide; [subst; congruence|done].
  - intros k' x'. rewrite hval_set. case_decide as Hkk; [by subst|]. apply Hpend.
  - intros k1 k2 b. rewrite !hval_set.
    case_decide; case_decide; subst; try done. apply Hinj.
  - intros k' b. rewrite hval_set. case_decide; [done|]. apply Hlt.
  - intros k' c. rewrite hval_set. case_decide as Hkk.
    + subst. by intros _ _ ?%elem_of_nil.
    + apply Hnoarr.
  - intros k' HG. rewrite hval_set. case_decide; [eauto|by apply Hgray].
Qed.

Lemma key_of_dget_node j i : key_of (dget d j) = HNode i → i = j.
Proof.
  unfold dget. destruct (d !! j) as [[p|ids|props]|]; simpl; congruence.
Qed.

Lemma sync_cached N st j :
  sync d N st → j < N → is_Some (hval st (key_of (dget d j))).
Proof. intros Hs Hj. apply jsmap_get_is_Some, Hs. eauto. Qed.

Lemma sync_node N st i : sync d N st → is_Some (hval st (HNode i)) → i < N.
Proof.
  intros Hs Hi. apply jsmap_get_is_Some, Hs in Hi as (j & Hj & Hk).
  symmetry in Hk. apply key_of_dget_node in Hk. by subst.
Qed.

Lemma sync_step N st st' :
  sync d N st →
  (∀ k, k ∈ hkeys st' ↔ k ∈ hkeys st ∨ k = key_of (dget d N)) →
  sync d (S N) st'.
Proof.
  intros Hs Hk k. rewrite Hk, (Hs k). split.
  - intros [(i & Hi & ->)| ->]; [exists i; split; [lia|done]|exists N; split; [lia|done]].
  - intros (i & Hi & ->). destruct (decide (i = N)) as [->|Hne]; [by right|].
    left. exists i. split; [lia|done].
Qed.

Lemma sync_keys N st st' :
  sync d N st → (∀ k, k ∈ hkeys st' ↔ k ∈ hkeys st) → sync d N st'.
Proof. intros Hs Hk k. by rewrite Hk. Qed.

Hypothesis Hproto : proto_free d.
Hypothesis Hacyc : ∀ i, is_arr d (HNode i) → ¬ tc (later d i) (HNode i) (HNode i).

(** Leaving an array: the array is created and cached. *)
Lemma hinv_finish_arr G st i ids xs :
  hinv d (HNode i :: G) st → d !! i = Some (EArr ids) → HNode i ∉ G →
  Forall2 (λ j y, hval st (key_of (dget d j)) = Some y) ids xs →
  (∀ g, HNode g ∈ G → tc (later d g) (HNode g) (HNode i)) →
  hinv d G {| hcache := jsmap_set (hcache st) (HNode i) (VRef (length (hheap st)));
              hheap := hheap st ++ [OArr xs]; hproto := hproto st |}.
Proof.
  intros (Hdec & Hpend & Hinj & Hlt & Hnoarr & Hgray) Hi HiG HF Hpath.
  assert (Harr : is_arr d (HNode i)) by (by exists i, ids).
  assert (Hself : ¬ dedge d (HNode i) (HNode i)).
  { intros He. apply (Hacyc _ Harr), tc_once. split; [done|by exists i]. }
  split_and!.
  - intros k' x'. rewrite hval_set. case_decide as Hkk.
    + subst k'. intros [= <-] _. simpl. rewrite Hi.
      exists (length (hheap st)), xs. split_and!; [done|apply list_lookup_middle; done|].
      eapply Forall2_impl_elem; [done|]. simpl. intros j y Hj Hy.
      rewrite hval_set. case_decide as Hjk; [|done].
      exfalso. apply Hself. unfold dedge; simpl. rewrite Hi.
      apply list_elem_of_fmap. by exists j.
    + intros Hk' HG. eapply decodes_mono; [| |apply Hdec; [done|]]; simpl.
      * intros c y Hedge Hc. rewrite hval_set. case_decide as Hck; [|done].
        subst c. exfalso. apply (Hnoarr k' (HNode i)); [by eexists| |done|left|done].
        apply not_elem_of_cons. done.
      * intros b o _ Hb. apply lookup_app_l_Some. done.
      * apply not_elem_of_cons. done.
  - intros k' x'. rewrite hval_set. case_decide as Hkk; [by subst|].
    intros Hk' HG. eapply Hpend; [done|by right].
  - intros k1 k2 b. rewrite !hval_set.
    case_decide as H1; case_decide as H2; subst; try done.
    + intros [= <-] H2'. apply Hlt in H2'. lia.
    + intros H1' [= <-]. apply Hlt in H1'. lia.
    + apply Hinj.
  - intros k' b. cbn [hheap]. rewrite hval_set, length_app. simpl. case_decide.
    + intros [= <-]. lia.
    + intros Hb%Hlt. lia.
  - intros k' c. rewrite hval_set. case_decide as Hkk.
    + subst k'. intros _ _ Hedge Hc Hcarr.
      pose proof Hcarr as (g & ? & -> & _). apply (Hacyc _ Hcarr).
      eapply tc_r; [by apply Hpath|]. split; [done|by exists g].
    + intros Hk' HG Hedge Hc. apply (Hnoarr k' c); [done| |done|by right].
      apply not_elem_of_cons. done.
  - intros k' HG. rewrite hval_set. case_decide; [eauto|]. apply Hgray. by right.
Qed.

(** Leaving an object: the placeholder receives its properties. *)
Lemma hinv_finish_obj G st i props ps a pr :
  hinv d (HNode i :: G) st → d !! i = Some (EObj props) → HNode i ∉ G →
  hval st (HNode i) = Some (VRef a) →
  Forall2 (λ kj ky, kj.1 = ky.1 ∧ hval st (key_of (dget d kj.2)) = Some ky.2) props ps →
  (∀ g, HNode g ∈ G → tc (later d g) (HNode g) (HNode i)) →
  hinv d G {| hcache := hcache st; hheap := <[a := OObj ps]> (hheap st); hproto := pr |}.
Proof.
  intros (Hdec & Hpend & Hinj & Hlt & Hnoarr & Hgray) Hi HiG Ha HF Hpath.
  pose proof (Hlt _ _ Ha) as Halt.
  set (st' := {| hcache := hcache st; hheap := <[a := OObj ps]> (hheap st);
                 hproto := pr |}).
  assert (Hv : ∀ k, hval st' k = hval st k) by done.
  split_and!.
  - intros k' x'. rewrite Hv. intros Hk' HG.
    eapply (decodes_mono (hval st)); [intros c y _; by rewrite Hv|intros b o Hb Ho; exact Ho|].
    destruct (decide (k' = HNode i)) as [->|Hne].
    + rewrite Ha in Hk'. injection Hk' as <-. simpl. rewrite Hi.
      exists a, ps. split_and!; [done|by apply list_lookup_insert_eq|done].
    + eapply decodes_mono; [| |apply Hdec; [done|]]; simpl; [auto| |].
      * intros b o -> Hb. rewrite list_lookup_insert_ne; [done|].
        intros <-. apply Hne. by eapply Hinj.
      * apply not_elem_of_cons. done.
  - intros k' x'. rewrite Hv. intros Hk' HG. eapply Hpend; [done|by right].
  - intros k1 k2 b. rewrite !Hv. apply Hinj.
  - intros k' b. rewrite Hv. intros Hb%Hlt. subst st'; simpl. by rewrite length_insert.
  - intros k' c. rewrite Hv. intros Hk' HG Hedge Hc.
    destruct (decide (k' = HNode i)) as [->|Hne].
    + intros Hcarr. pose proof Hcarr as (g & ? & -> & _). apply (Hacyc _ Hcarr).
      eapply tc_r; [by apply Hpath|]. split; [done|by exists g].
    + apply (Hnoarr k' c); [done| |done|by right]. apply not_elem_of_cons. done.
  - intros k' HG. rewrite Hv. apply Hgray. by right.
Qed.

(** Entering the entry [N] when the entries below [N] are cached. *)
Lemma sync_enter N st x hp pr :
  sync d N st →
  sync d (S N) {| hcache := jsmap_set (hcache st) (key_of (dget d N)) x;
                  hheap := hp; hproto := pr |}.
Proof.
  intros Hs. eapply sync_step; [done|]. intros k. unfold hkeys; simpl.
  apply jsmap_set_elem_keys.
Qed.

Lemma deserialize_spec fuel j N N' st G :
  hinv d G st → sync d N st → dfs d j N N' →
  (hval st (key_of (dget d j)) = None → key_of (dget d j) = HNode j →
   ∀ g, HNode g ∈ G → tc (later d g) (HNode g) (HNode j)) →
  match deserialize fuel d (dget d j) st with
  | Ok (x, st') => hinv d G st' ∧ sync d N' st'
  | _ => True
  end.
Proof.
  revert j N N' st G.
  induction fuel as [|fuel IH]; intros j N N' st G Hinv Hsync Hdfs Hpath; [done|].
  pose proof (wf_node_dget d j) as Hwf.
  remember (dget d j) as val eqn:Hval.
  simpl. destruct (jsmap_get (hcache st) (key_of val)) as [x0|] eqn:Hget.
  { (* cached: the entry has been visited, or it is a primitive that an
       earlier entry holds too *)
    split; [done|]. inversion Hdfs as [| p ? HN | ids ? ? HN | props ? ? HN]; subst.
    - done.
    - eapply sync_step; [done|]. intros k. split; [by left|].
      intros [?| ->]; [done|]. apply jsmap_get_is_Some. eauto.
    - assert (N < N); [|lia]. eapply sync_node; [done|].
      unfold hval. unfold dget in Hget. rewrite HN in Hget. eauto.
    - assert (N < N); [|lia]. eapply sync_node; [done|].
      unfold hval. unfold dget in Hget. rewrite HN in Hget. eauto. }
  assert (HkG : key_of val ∉ G).
  { intros HG. destruct Hinv as (_ & _ & _ & _ & _ & Hgray).
    apply Hgray in HG as [? HG]. unfold hval in HG. congruence. }
  assert (HjN : j = N ∧ is_Some (d !! N)).
  { inversion Hdfs; subst; eauto.
    destruct (sync_cached _ st j Hsync) as [? Hc]; [done|].
    unfold hval in Hc. congruence. }
  destruct HjN as [-> [e HN]].
  assert (Hgray : ∀ g, HNode g ∈ G → g < N).
  { intros g Hg. eapply sync_node; [done|].
    destruct Hinv as (_ & _ & _ & _ & _ & Hgr). by apply Hgr. }
  (* a visit of an element [c] of the entry [N] *)
  assert (Hstep : ∀ c s1 Nk Nk', dedge d (key_of val) (key_of (dget d c)) →
            key_of val = HNode N →
            hinv d (key_of val :: G) s1 → sync d Nk s1 → dfs d c Nk Nk' →
            match deserialize fuel d (dget d c) s1 with
            | Ok (y, s2) => (hinv d (key_of val :: G) s2 ∧ sync d Nk' s2) ∧
                            hstable s1 s2 ∧
                            hval s2 (key_of (dget d c)) = Some y
            | _ => True
            end).
  { intros c s1 Nk Nk' Hedge Hkey Hs1 Hsync1 Hdfs1.
    specialize (IH c Nk Nk' s1 (key_of val :: G) Hs1 Hsync1 Hdfs1).
    pose proof (deserialize_stable d fuel (dget d c) s1) as Hst.
    destruct (deserialize fuel d (dget d c) s1) as [[y s2]| |]; [|done..].
    destruct Hst as [Hst Hy]. split; [|done].
    apply IH. intros Hnone Hc g Hg.
    assert (HNk : N < Nk).
    { eapply sync_node; [done|]. destruct Hs1 as (_ & _ & _ & _ & _ & Hgr).
      rewrite <-Hkey. apply Hgr. left. }
    assert (Hle : Nk ≤ c).
    { destruct (decide (Nk ≤ c)); [done|].
      destruct (sync_cached Nk s1 c Hsync1) as [? Hsome]; [lia|congruence]. }
    assert (Hlater : ∀ g', g' ≤ N → later d g' (HNode N) (HNode c)).
    { intros g' Hg'. split; [by rewrite <-Hkey, <-Hc|]. exists c. split; [done|lia]. }
    rewrite Hkey in Hg. apply elem_of_cons in Hg as [[= ->]|Hg].
    - apply tc_once. by apply Hlater.
    - eapply tc_r; [|apply Hlater; apply Hgray in Hg; lia].
      apply Hpath; [done|by rewrite <-Hkey|done]. }
  unfold dget in Hval. rewrite HN in Hval.
  destruct e as [p|ids|props]; subst val; simpl in *.
  - assert (N' = S N) as ->.
    { inversion Hdfs; subst; [lia|done|congruence..]. }
    assert (Hkey : key_of (dget d N) = HPrim p) by (unfold dget; by rewrite HN).
    rewrite jsmap_set_set. rewrite <-Hkey.
    destruct p; try done; (split; [rewrite Hkey; by apply hinv_prim|by apply sync_enter]).
  - assert (Hch : dfs_list d ids (S N) N').
    { inversion Hdfs; subst; [lia|congruence| |congruence].
      match goal with H : d !! N = Some (EArr _) |- _ => rewrite HN in H; by injection H as <- end. }
    assert (Hkey : key_of (dget d N) = HNode N) by (unfold dget; by rewrite HN).
    set (st1 := {| hcache := _; hheap := hheap st; hproto := hproto st |}).
    assert (Hinv1 : hinv d (HNode N :: G) st1).
    { apply hinv_descend; [done|done|by simpl; rewrite HN|done|done|done]. }
    assert (Hsync1 : sync d (S N) st1).
    { subst st1. rewrite <-Hkey. by apply sync_enter. }
    match goal with |- context [mapM_st ?f ?l st1] =>
      pose proof (mapM_st_spec_ix f
                    (λ l' s, hinv d (HNode N :: G) s ∧
                             ∃ Nk, sync d Nk s ∧ dfs_list d l' Nk N')
                    hstable
                    (λ j y s, hval s (key_of (dget d j)) = Some y)
                    (λ _, True) True l st1 _ _) as Hm;
      destruct (mapM_st f l st1) as [[xs st2]| |]; [|done..] end.
    destruct Hm as ((Hinv2 & Nk & Hsync2 & Hnil) & _ & HF); [|by eauto| |].
    { intros c y s1 s2 Hy (Hs & _). by apply Hs. }
    { intros c l' s1 Hc (Hs1 & Nk & Hsk & Hl) _.
      inversion Hl as [|? ? ? Nk1 ? Hdc Hl']; subst.
      specialize (Hstep c s1 Nk Nk1).
      destruct (deserialize fuel d (dget d c) s1) as [[y s2]| |]; [|done..].
      destruct Hstep as ((? & ?) & ? & ?); [|done|done|done|done|by eauto 10].
      unfold dedge; simpl. rewrite HN. apply list_elem_of_fmap. by exists c. }
    inversion Hnil; subst. split.
    + eapply hinv_finish_arr; try done.
      intros g Hg. apply Hpath; [done|done|done].
    + eapply sync_keys; [done|]. intros k. unfold hkeys; simpl.
      rewrite jsmap_set_elem_keys. split; [|by left].
      intros [?| ->]; [done|]. apply jsmap_get_is_Some.
      destruct Hinv2 as (_ & _ & _ & _ & _ & Hgr). apply Hgr. left.
  - assert (Hch : dfs_list d props.*2 (S N) N').
    { inversion Hdfs; subst; [lia|congruence|congruence|].
      match goal with H : d !! N = Some (EObj _) |- _ => rewrite HN in H; by injection H as <- end. }
    assert (Hkey : key_of (dget d N) = HNode N) by (unfold dget; by rewrite HN).
    rewrite jsmap_set_set.
    set (st1' := {| hcache := _; hheap := _ ++ _; hproto := _ |}).
    assert (Hinv1 : hinv d (HNode N :: G) st1').
    { apply hinv_descend; [done|done|simpl; rewrite HN; eauto| |
        intros b o Hb; by apply lookup_app_l_Some|rewrite length_app; lia].
      intros b [= <-]. rewrite length_app. simpl. lia. }
    assert (Hsync1 : sync d (S N) st1').
    { subst st1'. rewrite <-Hkey. by apply sync_enter. }
    match goal with |- context [mapM_st ?f ?l st1'] =>
      pose proof (mapM_st_spec_ix f
                    (λ l' s, hinv d (HNode N :: G) s ∧
                             ∃ Nk, sync d Nk s ∧ dfs_list d l'.*2 Nk N')
                    hstable
                    (λ kj ky s, kj.1 = ky.1 ∧
                                hval s (key_of (dget d kj.2)) = Some ky.2)
                    (λ _, True) True l st1' _ _) as Hm;
      destruct (mapM_st f l st1') as [[ps st2]| |]; [|done..] end.
    destruct Hm as ((Hinv2 & Nk & Hsync2 & Hnil) & Hst2 & HF); [|by eauto| |].
    { intros kj ky s1 s2 [? Hy] (Hs & _). split; [done|]. by apply Hs. }
    { intros kj l' s1 Hj (Hs1 & Nk & Hsk & Hl) _.
      rewrite fmap_cons in Hl.
      inversion Hl as [|? ? ? Nk1 ? Hdc Hl']; subst.
      specialize (Hstep kj.2 s1 Nk Nk1).
      destruct (deserialize fuel d (dget d kj.2) s1) as [[y s2]| |]; [|done..].
      destruct Hstep as ((? & ?) & ? & ?); [|done|done|done|done|by eauto 10].
      unfold dedge; simpl. rewrite HN. apply list_elem_of_fmap. by exists kj. }
    rewrite assign_proto_free
      by (eapply (proto_free_names (λ j y, hval st2 (key_of (dget d j)) = Some y));
          [exact HF|by apply (Hproto N)]).
    inversion Hnil; subst. split.
    + eapply hinv_finish_obj; try done.
      * destruct Hst2 as (Hs & _). apply Hs. unfold hval; simpl.
        by rewrite jsmap_get_set_eq.
      * intros g Hg. apply Hpath; [done|done|done].
    + eapply sync_keys; [done|]. intros k. done.
Qed.
End DeserializeSpec.

(** ** Hydrating what dehydration produced *)

Lemma hinv_empty d : hinv d [] {| hcache := []; hheap := []; hproto := [] |}.
Proof.
  split_and!; try done.
  - intros k c _ _ _ ?%elem_of_nil. done.
  - by intros k ?%elem_of_nil.
Qed.

Lemma tc_dedge_prim d p k : ¬ tc (dedge d) (HPrim p) k.
Proof.
  intros Htc. apply tc_rtc_l with (x := HPrim p) in Htc; [|done].
  inversion Htc as [?? He|??? He]; by apply elem_of_nil in He.
Qed.

Lemma elem_of_assigned {A} (kx : string * A) qs : kx ∈ assigned qs → kx ∈ qs.
Proof. unfold assigned. by intros [_ ?]%list_elem_of_filter. Qed.

Lemma assigned_names {A} (qs : list (string * A)) :
  Forall (λ kj, kj.1 ≠ "__proto__") (assigned qs).
Proof.
  apply Forall_forall. unfold assigned. by intros kj [? _]%list_elem_of_filter.
Qed.

Lemma sync_empty d : sync d 0 {| hcache := []; hheap := []; hproto := [] |}.
Proof.
  intros k. split; [by intros ?%elem_of_nil|]. intros (i & Hi & _). lia.
Qed.

Section Numbered.
Variables (h : heap) (v0 : jsval) (nu : jsval → option nat) (d : dehydrated).
Hypothesis Hnum : numbering h v0 nu d.

Lemma numbered_entry k i :
  nu k = Some i → ∃ x, d !! i = Some x ∧ encodes h nu k x.
Proof. destruct Hnum as (_ & _ & H & _). apply H. Qed.

Lemma numbered_inj k k' i : nu k = Some i → nu k' = Some i → k = k'.
Proof. destruct Hnum as (_ & H & _). apply H. Qed.

Lemma numbered_reach k i : nu k = Some i → rtc (edge h) v0 k.
Proof. destruct Hnum as (_ & _ & _ & _ & H). apply H. Qed.

Lemma numbered_no_null j : d !! j ≠ Some (EPrim PNull).
Proof.
  intros Hj. destruct Hnum as (_ & _ & Henc & Hsur & _).
  destruct (Hsur _ _ Hj) as [k Hk]. destruct (Henc _ _ Hk) as (x & Hx & He).
  rewrite Hj in Hx. injection Hx as <-. destruct k as [p|a]; simpl in He.
  - destruct He as [Hp [= <-]]. done.
  - destruct (h !! a) as [[elems|props|name]|]; [| |done..].
    + by destruct He as (? & ? & _).
    + by destruct He as (? & ? & _).
Qed.

(** One edge of the record is one edge of the input graph. *)
Lemma numbered_edge a i k :
  nu (VRef a) = Some i → dedge d (HNode i) k →
  ∃ z j, edge h (VRef a) z ∧ nu z = Some j ∧ k = key_of (dget d j).
Proof.
  intros Ha Hedge. destruct (numbered_entry _ _ Ha) as (x & Hx & He).
  unfold dedge in Hedge. simpl in Hedge, He. rewrite Hx in Hedge.
  unfold edge. simpl.
  destruct (h !! a) as [[elems|props|name]|]; [| | |done].
  - destruct He as (ids & -> & HF).
    apply list_elem_of_fmap in Hedge as (j & -> & Hj).
    apply list_elem_of_lookup in Hj as [n Hn].
    destruct (Forall2_lookup_r _ _ _ _ _ HF Hn) as (z & Hz & Hnu).
    exists z, j. split_and!; [by eapply list_elem_of_lookup_2|done|done].
  - destruct He as (qs & -> & HF).
    apply list_elem_of_fmap in Hedge as (kj & -> & Hj).
    apply elem_of_assigned in Hj.
    apply list_elem_of_lookup in Hj as [n Hn].
    destruct (Forall2_lookup_r _ _ _ _ _ HF Hn) as (kz & Hz & _ & Hnu).
    exists kz.2, kj.2. split_and!; [|done|done].
    apply list_elem_of_fmap. exists kz. split; [done|]. by eapply list_elem_of_lookup_2.
  - subst x. by apply elem_of_nil in Hedge.
Qed.

Lemma numbered_key_node z j i :
  nu z = Some j → key_of (dget d j) = HNode i → j = i ∧ ∃ a, z = VRef a.
Proof.
  intros Hz Hk. destruct (numbered_entry _ _ Hz) as (x & Hx & He).
  unfold dget in Hk. rewrite Hx in Hk.
  destruct x as [p|ids|props]; simpl in Hk; [done|..]; injection Hk as <-.
  all: split; [done|]; destruct z as [p|a]; [|by eauto].
  all: by destruct He as [_ ?].
Qed.

(** The record has no property named [__proto__]. *)
Lemma numbered_proto_free : proto_free d.
Proof.
  intros i props Hi. destruct Hnum as (_ & _ & Henc & Hsur & _).
  destruct (Hsur _ _ Hi) as [k Hk]. destruct (Henc _ _ Hk) as (x & Hx & He).
  rewrite Hi in Hx. injection Hx as <-. destruct k as [p|a]; simpl in He.
  - by destruct He as [_ ?].
  - destruct (h !! a) as [[elems|ps|name]|]; [| |done..].
    + by destruct He as (? & ? & _).
    + destruct He as (qs & [= ->] & _). apply assigned_names.
Qed.

(** A path of the record through entries that are not visited before the
    entry [i0] is such a path of the input graph. *)
Lemma numbered_path i0 k1 k2 :
  tc (later d i0) k1 k2 →
  ∀ a1 i1 i2, k1 = HNode i1 → nu (VRef a1) = Some i1 → k2 = HNode i2 →
  ∃ a2, nu (VRef a2) = Some i2 ∧
        tc (λ x y, edge h x y ∧ ∃ j, nu y = Some j ∧ i0 ≤ j) (VRef a1) (VRef a2).
Proof.
  induction 1 as [k1 k2 [Hedge (j2 & Hk2 & Hle)]|k1 y k2 [Hedge (jy & Hy & Hle)] Htc IH];
    intros a1 i1 i2 -> Ha1 Hk.
  - subst k2. injection Hk as ->.
    destruct (numbered_edge _ _ _ Ha1 Hedge) as (z & j & Hz & Hj & Hkz).
    destruct (numbered_key_node z j i2 Hj) as (-> & a2 & ->); [done|].
    exists a2. split; [done|]. apply tc_once. eauto.
  - subst y k2.
    destruct (numbered_edge _ _ _ Ha1 Hedge) as (z & j & Hz & Hj & Hkz).
    destruct (numbered_key_node z j jy Hj) as (-> & ay & ->); [done|].
    destruct (IH ay jy i2 eq_refl Hj eq_refl) as (a2 & Ha2 & Hp).
    exists a2. split; [done|]. eapply tc_l; [|done]. eauto.
Qed.

Lemma numbered_acyclic :
  (∀ a elems i, rtc (edge h) v0 (VRef a) → h !! a = Some (OArr elems) →
     nu (VRef a) = Some i →
     ¬ tc (λ x y, edge h x y ∧ ∃ j, nu y = Some j ∧ i ≤ j) (VRef a) (VRef a)) →
  ∀ i, is_arr d (HNode i) → ¬ tc (later d i) (HNode i) (HNode i).
Proof.
  intros Hacyc i0 (i & ids & [= <-] & Hi) Htc.
  destruct Hnum as (_ & _ & _ & Hsur & _).
  destruct (Hsur _ _ Hi) as [k Hk].
  destruct (numbered_entry _ _ Hk) as (x & Hx & He).
  rewrite Hi in Hx. injection Hx as <-.
  destruct k as [p|a]; simpl in He; [by destruct He|].
  destruct (h !! a) as [[elems|props|name]|] eqn:Ha; [| |done..].
  - destruct (numbered_path _ _ _ Htc a i0 i0 eq_refl Hk eq_refl) as (a2 & Ha2 & Hp).
    assert (VRef a2 = VRef a) as [= ->] by by eapply numbered_inj.
    eapply Hacyc; [by eapply numbered_reach|done|done|done].
  - by destruct He as (? & ? & _).
Qed.

(** The values that hydration returns for the numbered values. *)
Section Hydrated.
Variable st : hstate.
Hypothesis Hinv : hinv d [] st.
Hypothesis Hclosed : ∀ a, rtc (edge h) v0 (VRef a) →
  ∃ o, h !! a = Some o ∧ ¬ is_function o.
Hypothesis Hnoproto : ∀ a props, rtc (edge h) v0 (VRef a) →
  h !! a = Some (OObj props) →
  Forall (λ kv : string * jsval, kv.1 ≠ "__proto__") props.

Lemma hinv_decodes k x :
  hval st k = Some x → decodes d (hval st) (hheap st) k x.
Proof.
  intros Hk. destruct Hinv as (Hdec & _). apply Hdec; [done|]. apply not_elem_of_nil.
Qed.

Lemma hydrated_vrel k i y :
  nu k = Some i → hval st (key_of (dget d i)) = Some y →
  vrel (through nu st) k y.
Proof.
  intros Hk Hy. destruct (numbered_entry _ _ Hk) as (x & Hx & He).
  apply hinv_decodes in Hy as Hdec. unfold dget in Hdec, Hy. rewrite Hx in Hdec, Hy.
  destruct k as [p|a]; simpl in He.
  - destruct He as [_ ->]. simpl in Hdec. by subst y.
  - destruct (Hclosed a) as (o & Ho & Hfun); [by eapply numbered_reach|].
    rewrite Ho in He.
    destruct o as [elems|props|name]; [| |by destruct Hfun].
    + destruct He as (ids & -> & _). simpl in Hdec, Hy. rewrite Hx in Hdec.
      destruct Hdec as (b & xs & -> & _). simpl. unfold through. by rewrite Hk, Hy.
    + destruct He as (qs & -> & _). simpl in Hdec, Hy. rewrite Hx in Hdec.
      destruct Hdec as (b & xs & -> & _). simpl. unfold through. by rewrite Hk, Hy.
Qed.

Lemma through_inj a a' b :
  through nu st a = Some b → through nu st a' = Some b → a = a'.
Proof.
  unfold through. intros H1 H2.
  destruct (nu (VRef a)) as [i|] eqn:Hi; [|done].
  destruct (nu (VRef a')) as [i'|] eqn:Hi'; [|done].
  destruct (hval st (HNode i)) as [[p|b1]|] eqn:Hb; try done.
  destruct (hval st (HNode i')) as [[p'|b2]|] eqn:Hb'; try done.
  injection H1 as ->. injection H2 as ->.
  destruct Hinv as (_ & _ & Hinj & _).
  assert (HNode i = HNode i') as [= ->] by by eapply Hinj.
  assert (VRef a = VRef a') as [= ->] by by eapply numbered_inj.
  done.
Qed.

Lemma through_objects a b :
  through nu st a = Some b →
  ∃ o o', h !! a = Some o ∧ hheap st !! b = Some o' ∧
          orel kept (through nu st) o o'.
Proof.
  unfold through. intros Hab.
  destruct (nu (VRef a)) as [i|] eqn:Hi; [|done].
  destruct (hval st (HNode i)) as [[p|b1]|] eqn:Hb; try done.
  injection Hab as ->.
  destruct (numbered_entry _ _ Hi) as (x & Hx & He). simpl in He.
  assert (Hreach : rtc (edge h) v0 (VRef a)) by by eapply numbered_reach.
  destruct (Hclosed a Hreach) as (o & Ho & Hfun). rewrite Ho in He.
  apply hinv_decodes in Hb as Hdec. simpl in Hdec. rewrite Hx in Hdec.
  destruct o as [elems|props|name]; [| |by destruct Hfun].
  - destruct He as (ids & -> & HF).
    destruct Hdec as (b' & xs & [= <-] & Hb' & HF').
    exists (OArr elems), (OArr xs). split_and!; [done|done|]. simpl.
    eapply Forall2_trans; [|done|done]. simpl.
    intros z j y Hz Hy. by eapply hydrated_vrel.
  - destruct He as (qs & -> & HF).
    destruct Hdec as (b' & ps & [= <-] & Hb' & HF').
    assert (Hqs : assigned qs = qs).
    { apply assigned_proto_free.
      assert (Hprops : Forall (λ kv : string * jsval, kv.1 ≠ "__proto__")
                         (filter (λ kv, kept kv = true) props)).
      { apply Forall_forall. intros kv [_ Hkv]%list_elem_of_filter.
        pose proof (Hnoproto a props Hreach Ho) as Hall.
        rewrite Forall_forall in Hall. by apply Hall. }
      clear -HF Hprops. induction HF as [|kv kj l qs [Hk _] _ IH]; [done|].
      apply Forall_cons in Hprops as [Hkv Hprops].
      constructor; [congruence|by apply IH]. }
    rewrite Hqs in HF'.
    exists (OObj props), (OObj ps). split_and!; [done|done|]. simpl.
    eapply Forall2_trans; [|done|done]. simpl.
    intros kz kj ky [Hk1 Hz] [Hk2 Hy]. split; [congruence|].
    by eapply hydrated_vrel.
Qed.
End Hydrated.
End Numbered.

Lemma dget_not_null d j : (∀ i, d !! i ≠ Some (EPrim PNull)) → dget d j ≠ NPrim PNull.
Proof.
  intros Hd. unfold dget. specialize (Hd j).
  destruct (d !! j) as [[p|ids|props]|]; try done. intros [= ->]. done.
Qed.

(** Hydration of a record without null entries and without properties named
    [__proto__] returns. *)
Lemma hydrateValue_returns d :
  is_Some (d !! 0) → (∀ i, d !! i ≠ Some (EPrim PNull)) → proto_free d →
  ∃ r st, deserialize (hydrate_fuel d) d (dget d 0)
            {| hcache := []; hheap := []; hproto := [] |} = Ok (r, st) ∧
          hydrateValue (Some d) = Ok (r, hheap st).
Proof.
  intros H0 Hd Hproto. unfold hydrateValue.
  rewrite decide_False by by apply map_size_ne_0_lookup_2 with 0.
  pose proof (deserialize_enough_fuel d (dget d 0) (huniverse_closed d 0)) as Hfuel.
  pose proof (deserialize_throw d (hydrate_fuel d) (dget d 0)
                {| hcache := []; hheap := []; hproto := [] |}
                Hd Hproto (dget_not_null d 0 Hd) (wf_node_dget d 0)) as Hthrow.
  destruct (deserialize _ _ _ _) as [[r st]| |]; [|done..]. eauto.
Qed.

Section Roundtrip.
Variables (h : heap) (v : jsval).
Hypothesis Hnull : ∀ y, rtc (edge h) v y → y ≠ VPrim PNull.
Hypothesis Hclosed : ∀ a, rtc (edge h) v (VRef a) →
  ∃ o, h !! a = Some o ∧ ¬ is_function o.
Hypothesis Hnoproto : ∀ a props, rtc (edge h) v (VRef a) →
  h !! a = Some (OObj props) →
  Forall (λ kv : string * jsval, kv.1 ≠ "__proto__") props.
Hypothesis Harr : ∀ a elems, rtc (edge h) v (VRef a) →
  h !! a = Some (OArr elems) → ¬ first_on_cycle h v (VRef a).

Lemma dehydrateValue_returns : ∃ d, dehydrateValue h v = Ok d.
Proof.
  destruct (dehydrateValue h v) as [d|e|] eqn:Hd; [by eauto| |].
  - apply dehydrateValue_throw in Hd as (y & Hy & [[-> _]|(a & -> & Ha & _)]).
    + by apply Hnull in Hy.
    + apply Hclosed in Hy as (o & Ho & _). congruence.
  - by apply dehydrateValue_terminates in Hd.
Qed.

(** C1 (amended): for a value whose graph holds no function, no null, no
    own property named [__proto__] and no array that is the first value of
    one of its reference cycles to be visited by [dehydrateValue],
    [hydrateValue(dehydrateValue(v))] returns a graph that is deep-equal to
    [v] with the denylisted ['checker'] properties left out, and two
    references are aliases in the result exactly when they were aliases in
    [v]. *)
Theorem roundtrip_same_graph :
  ∃ r h', roundtrip h v = Ok (r, h') ∧ same_graph kept h v h' r.
Proof.
  destruct dehydrateValue_returns as [d Hd].
  pose proof (dehydrateValue_numbering h v d Hd) as Hnum.
  destruct (dehydrateValue_order h v d Hnoproto Hd) as [n Hdfs].
  pose proof Hnum as (Hroot & _).
  destruct (numbered_entry h v _ d Hnum _ _ Hroot) as (x0 & Hx0 & _).
  pose proof (numbered_no_null h v _ d Hnum) as Hnonull.
  pose proof (numbered_proto_free h v _ d Hnum) as Hproto.
  destruct (hydrateValue_returns d) as (r & st & Hdes & Hhyd); [by eauto|done|done|].
  exists r, (hheap st). split; [unfold roundtrip; by rewrite Hd|].
  assert (Hacyc : ∀ i, is_arr d (HNode i) → ¬ tc (later d i) (HNode i) (HNode i)).
  { apply (numbered_acyclic h v _ d Hnum).
    intros a elems i Hr Ha Hi Htc. apply (Harr a elems Hr Ha). by exists i. }
  pose proof (deserialize_stable d (hydrate_fuel d) (dget d 0)
                {| hcache := []; hheap := []; hproto := [] |}) as Hst.
  pose proof (deserialize_spec d Hproto Hacyc (hydrate_fuel d) 0 0 n
                {| hcache := []; hheap := []; hproto := [] |} []
                (hinv_empty d) (sync_empty d) Hdfs) as Hinv.
  rewrite Hdes in Hst, Hinv. destruct Hst as [_ Hr].
  assert (Hinv' : hinv d [] st).
  { apply Hinv. by intros _ _ g ?%elem_of_nil. }
  exists (through (visit_id h v) st). split_and!.
  - by eapply hydrated_vrel.
  - by eapply through_inj.
  - by eapply through_objects.
Qed.
End Roundtrip.

(** ** Reachability in concrete heaps *)

Lemma closedb_edge h S z c : closedb h S = true → z ∈ S → edge h z c → c ∈ S.
Proof.
  unfold closedb, edge. rewrite forallb_forall. intros Hcl Hz Hc.
  apply list_elem_of_In in Hz. specialize (Hcl z Hz).
  rewrite forallb_forall in Hcl. apply list_elem_of_In in Hc.
  specialize (Hcl c Hc). by apply bool_decide_eq_true in Hcl.
Qed.

Lemma closedb_reach h S x y :
  closedb h S = true → x ∈ S → rtc (edge h) x y → y ∈ S.
Proof.
  intros Hcl Hx Hxy. induction Hxy as [|x z y Hxz _ IH]; [done|].
  apply IH. by eapply closedb_edge.
Qed.

Lemma closedb_reach_forall h S (P : jsval → Prop) x y :
  closedb h S = true → x ∈ S → Forall P S → rtc (edge h) x y → P y.
Proof.
  intros Hcl Hx HP Hxy. rewrite Forall_forall in HP. apply HP.
  by eapply closedb_reach.
Qed.

Lemma closedb_tc h S x y :
  closedb h S = true → Forall (λ c, c ∈ S) (children h x) →
  tc (edge h) x y → y ∈ S.
Proof.
  intros Hcl Hch Hxy. rewrite Forall_forall in Hch.
  assert (∃ c, edge h x c ∧ rtc (edge h) c y) as (c & Hc & Hcy).
  { inversion Hxy as [?? He|? z ? He Hz]; subst; [by exists y|].
    exists z. split; [done|by apply tc_rtc]. }
  eapply closedb_reach; [done| |done]. by apply Hch.
Qed.

Lemma later_edge_children h v i z c :
  later_edge h v i z c ↔ c ∈ later_children h v i z.
Proof.
  unfold later_edge, later_children, visited_later, edge.
  rewrite list_elem_of_filter.
  destruct (visit_id h v c) as [j|]; [rewrite bool_decide_eq_true|]; naive_solver.
Qed.

Lemma later_closedb_tc h v i S x y :
  later_closedb h v i S = true →
  forallb (λ c, bool_decide (c ∈ S)) (later_children h v i x) = true →
  tc (later_edge h v i) x y → y ∈ S.
Proof.
  unfold later_closedb. rewrite !forallb_forall. intros Hcl Hx Hxy.
  assert (Hstep : ∀ z c, z ∈ S → later_edge h v i z c → c ∈ S).
  { intros z c Hz Hc%later_edge_children.
    apply list_elem_of_In in Hz, Hc. specialize (Hcl z Hz).
    rewrite forallb_forall in Hcl. specialize (Hcl c Hc).
    by apply bool_decide_eq_true in Hcl. }
  assert (Hfirst : ∀ c, later_edge h v i x c → c ∈ S).
  { intros c Hc%later_edge_children. apply list_elem_of_In in Hc.
    specialize (Hx c Hc). by apply bool_decide_eq_true in Hx. }
  clear Hcl Hx. induction Hxy as [x y Hxy|x z y Hxz Hzy IH]; [by apply Hfirst|].
  apply IH. intros c Hc. eapply Hstep; [|done]. by apply Hfirst.
Qed.

(** A value that no chain of later edges leads back to is not the first
    value of a cycle. *)
Lemma not_first_on_cycle h v a i S :
  visit_id h v a = Some i →
  later_closedb h v i S = true →
  forallb (λ c, bool_decide (c ∈ S)) (later_children h v i a) = true →
  a ∉ S → ¬ first_on_cycle h v a.
Proof.
  intros Hi Hcl Ha HaS (i' & Hi' & Htc).
  assert (i' = i) as -> by congruence.
  apply HaS. by eapply later_closedb_tc.
Qed.

(** ** C1: the round trip *)

(** C1 (as stated) fails: an object without functions whose only property is
    named ['checker'] comes back as the empty object, which is not deep-equal
    to it. *)
Lemma roundtrip_checker_counterexample :
  let h := [OObj [("checker", VPrim (PNum 1))]] in
  Forall (λ o, ¬ is_function o) h ∧
  roundtrip h (VRef 0) = Ok (VRef 0, [OObj []]) ∧
  ¬ deep_equal h (VRef 0) [OObj []] (VRef 0).
Proof.
  intros h. split_and!.
  - repeat constructor. simpl. tauto.
  - by vm_compute.
  - intros (f & Hv & _ & Hcl). simpl in Hv.
    destruct (Hcl 0 0 Hv) as (o & o' & [= <-] & [= <-] & Ho).
    simpl in Ho. inversion Ho.
Qed.

(** The round trip of an array that is visited first on its cycle: the
    array is read from the cache while its elements are being hydrated, and
    the back reference is lost. *)
Lemma roundtrip_cyclic_array :
  roundtrip [OArr [VRef 1]; OObj [("back", VRef 0)]] (VRef 0)
  = Ok (VRef 1, [OObj [("back", VPrim PUndef)]; OArr [VRef 0]]).
Proof. by vm_compute. Qed.

(** The same cycle entered through the object is rebuilt. *)
Lemma roundtrip_cycle_through_object :
  roundtrip [OObj [("arr", VRef 1)]; OArr [VRef 0]] (VRef 0)
  = Ok (VRef 0, [OObj [("arr", VRef 1)]; OArr [VRef 0]]).
Proof. by vm_compute. Qed.

(** Which member of a cycle is visited first depends on the order of the
    properties: the cycle between the object 1 and the array 2 is rebuilt
    when the root names the object first, and broken when it names the array
    first. *)
Lemma roundtrip_property_order :
  roundtrip [OObj [("x", VRef 1); ("y", VRef 2)]; OObj [("a", VRef 2)]; OArr [VRef 1]]
            (VRef 0)
  = Ok (VRef 0, [OObj [("x", VRef 1); ("y", VRef 2)]; OObj [("a", VRef 2)];
                 OArr [VRef 1]]) ∧
  roundtrip [OObj [("y", VRef 2); ("x", VRef 1)]; OObj [("a", VRef 2)]; OArr [VRef 1]]
            (VRef 0)
  = Ok (VRef 0, [OObj [("y", VRef 2); ("x", VRef 1)]; OObj [("a", VPrim PUndef)];
                 OArr [VRef 1]]).
Proof. split; by vm_compute. Qed.

Lemma roundtrip_null :
  roundtrip [OObj [("a", VPrim PNull)]] (VRef 0) = Throw TypeError.
Proof. by vm_compute. Qed.

(** An own property named [__proto__] does not come back: [Object.assign]
    hands its value to the setter of [Object.prototype]. *)
Lemma roundtrip_proto_property :
  roundtrip [OObj [("__proto__", VPrim (PNum 1)); ("a", VPrim (PNum 2))]] (VRef 0)
  = Ok (VRef 0, [OObj [("a", VPrim (PNum 2))]]).
Proof. by vm_compute. Qed.

Lemma roundtrip_same_graph_witness :
  let h := [OObj [("left", VRef 1); ("right", VRef 1); ("self", VRef 0);
                  ("list", VRef 2); ("checker", VPrim (PNum 7))];
            OObj [("n", VPrim (PNum 1)); ("again", VRef 1)];
            OArr [VRef 1; VPrim (PStr "x"); VPrim (PStr "x"); VRef 0]] in
  ∃ r h', roundtrip h (VRef 0) = Ok (r, h') ∧ same_graph kept h (VRef 0) h' r.
Proof.
  intros h.
  set (S := [VRef 0; VRef 1; VRef 2; VPrim (PNum 1); VPrim (PStr "x")]).
  assert (Hcl : closedb h S = true) by (by vm_compute).
  assert (H0 : VRef 0 ∈ S) by left.
  apply (roundtrip_same_graph h (VRef 0)).
  - intros y Hy. revert Hy.
    apply (closedb_reach_forall h S (λ y, y ≠ VPrim PNull)); [done|done|].
    repeat constructor; discriminate.
  - intros a Ha. revert a Ha.
    cut (∀ y, rtc (edge h) (VRef 0) y →
              ∀ a, y = VRef a → ∃ o, h !! a = Some o ∧ ¬ is_function o).
    { intros Hc a Ha. by eapply Hc. }
    intros y.
    apply (closedb_reach_forall h S
             (λ y, ∀ a, y = VRef a → ∃ o, h !! a = Some o ∧ ¬ is_function o));
      [done|done|].
    repeat constructor; intros a [= <-]; eexists; (split; [reflexivity|simpl; tauto]).
  - intros a props Ha. revert a Ha props.
    cut (∀ y, rtc (edge h) (VRef 0) y →
              ∀ a, y = VRef a → ∀ props, h !! a = Some (OObj props) →
              Forall (λ kv : string * jsval, kv.1 ≠ "__proto__") props).
    { intros Hc a Ha. by eapply Hc. }
    intros y.
    apply (closedb_reach_forall h S
             (λ y, ∀ a, y = VRef a → ∀ props, h !! a = Some (OObj props) →
                   Forall (λ kv : string * jsval, kv.1 ≠ "__proto__") props));
      [done|done|].
    repeat constructor; intros a [= <-] props [= <-]; repeat constructor; discriminate.
  - intros a elems Ha Helems.
    assert (Ha' : VRef a ∈ S) by by eapply closedb_reach.
    assert (a = 2) as ->.
    { subst S. rewrite !elem_of_cons, elem_of_nil in Ha'.
      destruct Ha' as [[= ->]|[[= ->]|[[= ->]|[[=]|[[=]|[]]]]]]; done. }
    apply (not_first_on_cycle h (VRef 0) (VRef 2) 3 [VPrim (PStr "x")]);
      [by vm_compute..|].
    intros Hin. apply list_elem_of_singleton in Hin. discriminate.
Defined.

(** ** C5: a self-referencing object *)

Lemma get_prop_filter_kept (props : list (string * jsval)) k :
  k ∉ ignoredKeys →
  get_prop (filter (λ kv, kept kv = true) props) k = get_prop props k.
Proof.
  intros Hk. induction props as [|[k' x] props IH]; [done|].
  rewrite filter_cons. simpl.
  destruct (decide (kept (k', x) = true)) as [Hk'|Hk']; simpl.
  - by rewrite IH.
  - rewrite IH. case_decide as Hkk; [|done]. subst k'.
    exfalso. apply Hk'. unfold kept. by apply bool_decide_eq_true.
Qed.

Lemma get_prop_Forall2 {A B} (R : A → B → Prop)
    (ps : list (string * A)) (qs : list (string * B)) k x :
  Forall2 (λ kx ky, kx.1 = ky.1 ∧ R kx.2 ky.2) ps qs →
  get_prop ps k = Some x → ∃ y, get_prop qs k = Some y ∧ R x y.
Proof.
  induction 1 as [|[k1 x1] [k2 y2] ps qs [Hk HR] HF IH]; simpl in *; [done|].
  subst k2. case_decide; [intros [= <-]; eauto|done].
Qed.

Lemma get_prop_assigned {A} (qs : list (string * A)) k :
  k ≠ "__proto__" → get_prop (assigned qs) k = get_prop qs k.
Proof.
  intros Hk. unfold assigned. induction qs as [|[k' x] qs IH]; [done|].
  rewrite filter_cons. simpl.
  destruct (decide (k' ≠ "__proto__")) as [Hk'|Hk']; simpl.
  - by rewrite IH.
  - rewrite IH. case_decide as Hkk; [|done]. subst k'. by destruct Hk'.
Qed.

Lemma deserialize_root_object d fuel qs r st :
  d !! 0 = Some (EObj qs) → Forall (λ kj, kj.1 ≠ "__proto__") qs →
  deserialize fuel d (dget d 0) {| hcache := []; hheap := []; hproto := [] |} = Ok (r, st) →
  r = VRef 0 ∧
  ∃ ps, hheap st !! 0 = Some (OObj ps) ∧
        Forall2 (λ kj ky, kj.1 = ky.1 ∧ (kj.2 = 0 → ky.2 = VRef 0)) qs ps.
Proof.
  intros H0 Hqs. destruct fuel as [|fuel]; [done|].
  unfold dget at 1. rewrite H0. simpl.
  set (st1 := {| hcache := _; hheap := _; hproto := _ |}).
  match goal with |- context [mapM_st ?f ?l st1] =>
    pose proof (mapM_st_spec f (λ s, hval s (HNode 0) = Some (VRef 0)) hstable
                  (λ kj ky s, kj.1 = ky.1 ∧ (kj.2 = 0 → ky.2 = VRef 0))
                  (λ _, True) True l st1 _ _) as Hm;
    destruct (mapM_st f l st1) as [[ps st2]| |]; [|done..] end.
  destruct Hm as (H2 & Hst & HF); [done|done| |].
  { intros kj s1 _ Hs1 _.
    pose proof (deserialize_stable d fuel (dget d kj.2) s1) as Hs.
    destruct (deserialize fuel d (dget d kj.2) s1) as [[y s2]| |] eqn:Hdes; [|done..].
    destruct Hs as [Hs Hy]. split_and!; [by apply Hs|done|done|].
    simpl. intros Hkj. rewrite Hkj in Hdes.
    destruct fuel as [|fuel]; [done|]. simpl in Hdes.
    assert (Hk : key_of (dget d 0) = HNode 0) by (unfold dget; by rewrite H0).
    rewrite Hk in Hdes. unfold hval in Hs1. rewrite Hs1 in Hdes. congruence. }
  rewrite assign_proto_free
    by (by eapply (proto_free_names (λ j y, j = 0 → y = VRef 0))).
  intros [= <- <-]. split; [done|]. exists ps. split; [|done].
  simpl. apply list_lookup_insert_eq. destruct Hst as (_ & Hl & _). simpl in Hl.
  lia.
Qed.

(** C5 (as stated) fails: the object [{x: null}] with [a.self === a] is
    cyclic, and its dehydration throws the TypeError of
    [Object.entries(null)], so that there is no hydrated result. *)
Lemma cyclic_self_null_counterexample :
  let props := [("x", VPrim PNull); ("self", VRef 0)] in
  let h := [OObj props] in
  h !! 0 = Some (OObj props) ∧
  get_prop props "self" = Some (VRef 0) ∧
  dehydrateValue h (VRef 0) = Throw TypeError ∧
  roundtrip h (VRef 0) = Throw TypeError.
Proof. intros props h. split_and!; by vm_compute. Qed.

(** C5 (amended): for a plain object [a] with [a.self === a], dehydration
    terminates; and when no null is reachable from [a] through array
    elements and properties not named ['checker'], so that nothing makes
    dehydration throw, the round trip returns an object [r] with
    [r.self === r]. *)
Theorem cyclic_self_roundtrip h a props :
  h !! a = Some (OObj props) →
  get_prop props "self" = Some (VRef a) →
  dehydrateValue h (VRef a) ≠ OutOfFuel ∧
  ((∀ y e, rtc (edge h) (VRef a) y → ¬ throws_at h y e) →
   ∃ d b h' props',
     dehydrateValue h (VRef a) = Ok d ∧
     hydrateValue (Some d) = Ok (VRef b, h') ∧
     h' !! b = Some (OObj props') ∧
     get_prop props' "self" = Some (VRef b)).
Proof.
  intros Ha Hself. split; [apply dehydrateValue_terminates|].
  intros Hok.
  destruct (dehydrateValue h (VRef a)) as [d|e|] eqn:Hd.
  - destruct (dehydrateValue_spec _ _ _ Hd) as [nu Hnum].
    pose proof Hnum as (Hroot & _).
    destruct (numbered_entry _ _ _ _ Hnum _ _ Hroot) as (x & H0 & He).
    simpl in He. rewrite Ha in He. destruct He as (qs & -> & HF).
    destruct (hydrateValue_returns d) as (r & st & Hdes & Hhyd);
      [by eauto|by eapply numbered_no_null|by eapply numbered_proto_free|].
    destruct (deserialize_root_object _ _ _ _ _ H0 (assigned_names qs) Hdes)
      as (-> & ps & Hps & HF').
    exists d, 0, (hheap st), ps. split_and!; [done|done|done|].
    rewrite <-get_prop_filter_kept in Hself
      by (intros Hin; apply list_elem_of_singleton in Hin; discriminate).
    destruct (get_prop_Forall2 (λ x j, nu x = Some j) _ _ _ _ HF Hself)
      as (j & Hj & Hnu).
    assert (j = 0) as -> by congruence.
    rewrite <-(get_prop_assigned qs "self") in Hj by done.
    destruct (get_prop_Forall2 (λ j y, j = 0 → y = VRef 0) _ _ _ _ HF' Hj)
      as (y & Hy & Hyv).
    by rewrite Hy, Hyv.
  - apply dehydrateValue_throw in Hd as (y & Hy & Hbad). by apply Hok in Hbad.
  - by apply dehydrateValue_terminates in Hd.
Qed.

Lemma cyclic_self_roundtrip_witness :
  let props := [("n", VPrim (PNum 1)); ("self", VRef 0); ("list", VRef 1)] in
  let h := [OObj props; OArr [VRef 0]] in
  dehydrateValue h (VRef 0) ≠ OutOfFuel ∧
  ∃ d b h' props',
    dehydrateValue h (VRef 0) = Ok d ∧
    hydrateValue (Some d) = Ok (VRef b, h') ∧
    h' !! b = Some (OObj props') ∧
    get_prop props' "self" = Some (VRef b).
Proof.
  intros props h.
  destruct (cyclic_self_roundtrip h 0 props eq_refl eq_refl) as [Ht Hr].
  split; [exact Ht|]. apply Hr.
  intros y e Hy.
  assert (Hin : y ∈ [VRef 0; VRef 1; VPrim (PNum 1)]).
  { eapply (closedb_reach h); [by vm_compute| |exact Hy]. left. }
  rewrite !elem_of_cons, elem_of_nil in Hin.
  destruct Hin as [->|[->|[->|[]]]];
    intros [[[=] _]|(a & [= <-] & [=] & _)].
Defined.

(** The self-referencing object with no other property comes back as it
    was. *)
Lemma roundtrip_self :
  roundtrip [OObj [("self", VRef 0)]] (VRef 0) = Ok (VRef 0, [OObj [("self", VRef 0)]]).
Proof. by vm_compute. Qed.

(** ** C10: one id per primitive value *)

Lemma numbered_complete h v0 nu d k :
  numbering h v0 nu d → rtc (edge h) v0 k → is_Some (nu k).
Proof.
  intros Hnum. revert k. apply rtc_ind_r.
  { destruct Hnum as (H0 & _). eauto. }
  intros y z Hy Hyz [i Hi].
  destruct (numbered_entry _ _ _ _ Hnum _ _ Hi) as (x & Hx & He).
  unfold edge in Hyz. destruct y as [p|a]; simpl in Hyz, He; [by apply elem_of_nil in Hyz|].
  destruct (h !! a) as [[elems|props|name]|]; [| |by apply elem_of_nil in Hyz..].
  - destruct He as (ids & _ & HF).
    apply list_elem_of_lookup in Hyz as [n Hn].
    destruct (Forall2_lookup_l _ _ _ _ _ HF Hn) as (j & _ & Hj). eauto.
  - destruct He as (qs & _ & HF).
    apply list_elem_of_fmap in Hyz as (kz & -> & Hkz).
    apply list_elem_of_lookup in Hkz as [n Hn].
    destruct (Forall2_lookup_l _ _ _ _ _ HF Hn) as (kj & _ & _ & Hj). eauto.
Qed.

Lemma numbered_property h v0 nu d a i props k x :
  numbering h v0 nu d → nu (VRef a) = Some i → h !! a = Some (OObj props) →
  (k, x) ∈ props → k ∉ ignoredKeys → k ≠ "__proto__" →
  ∃ qs j, d !! i = Some (EObj qs) ∧ (k, j) ∈ qs ∧ nu x = Some j.
Proof.
  intros Hnum Hi Ha Hin Hk Hproto.
  destruct (numbered_entry _ _ _ _ Hnum _ _ Hi) as (e & He & Henc).
  simpl in Henc. rewrite Ha in Henc. destruct Henc as (qs & -> & HF).
  assert (Hin' : (k, x) ∈ filter (λ kv, kept kv = true) props).
  { apply list_elem_of_filter. split; [|done]. unfold kept. by apply bool_decide_eq_true. }
  apply list_elem_of_lookup in Hin' as [n Hn].
  destruct (Forall2_lookup_l _ _ _ _ _ HF Hn) as ([k' j] & Hj & Hkk & Hnu).
  simpl in *. subst k'. exists (assigned qs), j. split_and!; [done| |done].
  unfold assigned. apply list_elem_of_filter. split; [done|].
  by eapply list_elem_of_lookup_2.
Qed.

(** C10 (as stated) fails on a denylisted property: the occurrence under
    ['checker'] is not encoded at all, so it shares no id. *)
Lemma shared_id_checker_counterexample :
  let props := [("checker", VPrim (PStr "x")); ("a", VPrim (PStr "x"))] in
  let h := [OObj props] in
  h !! 0 = Some (OObj props) ∧
  ("checker", VPrim (PStr "x")) ∈ props ∧ ("a", VPrim (PStr "x")) ∈ props ∧
  ¬ occurrences_share_id h 0 "checker" "a" (PStr "x").
Proof.
  intros props h. split_and!; [done|left|right; left|].
  intros (d & qs & j & Hd & H0 & Hk1 & _).
  vm_compute in Hd. injection Hd as <-. vm_compute in H0. injection H0 as <-.
  apply list_elem_of_singleton in Hk1. discriminate.
Qed.

(** No id is given either when the shared primitive is [null]: dehydration
    throws. *)
Lemma shared_id_null_throws :
  dehydrateValue [OObj [("a", VPrim PNull); ("b", VPrim PNull)]] (VRef 0)
  = Throw TypeError.
Proof. by vm_compute. Qed.

(** The value of an own property named [__proto__] is given an id, which it
    shares with the other occurrences of the value, but the entry of the
    object does not name the property: [Object.assign] hands the id to the
    setter of [Object.prototype]. *)
Lemma shared_id_proto_dropped :
  dehydrateValue [OObj [("__proto__", VPrim (PStr "x")); ("a", VPrim (PStr "x"))]]
                 (VRef 0)
  = Ok (fromEntries [(0, EObj [("a", 1)]); (1, EPrim (PStr "x"))]).
Proof. by vm_compute. Qed.

(** C10 (amended): when dehydration returns, any two properties of
    reachable objects that are named neither ['checker'] nor [__proto__]
    and hold the same primitive refer to one shared id, under which the
    record holds that primitive once. *)
Theorem shared_primitive_id h v d a1 a2 props1 props2 k1 k2 p :
  dehydrateValue h v = Ok d →
  rtc (edge h) v (VRef a1) → rtc (edge h) v (VRef a2) →
  h !! a1 = Some (OObj props1) → h !! a2 = Some (OObj props2) →
  (k1, VPrim p) ∈ props1 → (k2, VPrim p) ∈ props2 →
  k1 ∉ ignoredKeys → k2 ∉ ignoredKeys →
  k1 ≠ "__proto__" → k2 ≠ "__proto__" →
  ∃ nu i1 i2 qs1 qs2 j,
    numbering h v nu d ∧
    nu (VRef a1) = Some i1 ∧ d !! i1 = Some (EObj qs1) ∧ (k1, j) ∈ qs1 ∧
    nu (VRef a2) = Some i2 ∧ d !! i2 = Some (EObj qs2) ∧ (k2, j) ∈ qs2 ∧
    d !! j = Some (EPrim p) ∧
    (∀ j', nu (VPrim p) = Some j' ↔ j' = j).
Proof.
  intros Hd Hr1 Hr2 Ha1 Ha2 Hin1 Hin2 Hk1 Hk2 Hp1 Hp2.
  destruct (dehydrateValue_spec _ _ _ Hd) as [nu Hnum].
  destruct (numbered_complete _ _ _ _ _ Hnum Hr1) as [i1 Hi1].
  destruct (numbered_complete _ _ _ _ _ Hnum Hr2) as [i2 Hi2].
  destruct (numbered_property _ _ _ _ _ _ _ _ _ Hnum Hi1 Ha1 Hin1 Hk1 Hp1)
    as (qs1 & j & Hq1 & Hj1 & Hnu1).
  destruct (numbered_property _ _ _ _ _ _ _ _ _ Hnum Hi2 Ha2 Hin2 Hk2 Hp2)
    as (qs2 & j' & Hq2 & Hj2 & Hnu2).
  assert (j' = j) as -> by congruence.
  destruct (numbered_entry _ _ _ _ Hnum _ _ Hnu1) as (x & Hx & _ & ->).
  exists nu, i1, i2, qs1, qs2, j. split_and!; try done.
  intros j'. split; [congruence|by intros ->].
Qed.

Lemma shared_primitive_id_witness :
  let props := [("a", VPrim (PStr "x")); ("b", VPrim (PStr "x"))] in
  let h := [OObj props] in
  ∃ d nu i1 i2 qs1 qs2 j,
    dehydrateValue h (VRef 0) = Ok d ∧
    numbering h (VRef 0) nu d ∧
    nu (VRef 0) = Some i1 ∧ d !! i1 = Some (EObj qs1) ∧ ("a", j) ∈ qs1 ∧
    nu (VRef 0) = Some i2 ∧ d !! i2 = Some (EObj qs2) ∧ ("b", j) ∈ qs2 ∧
    d !! j = Some (EPrim (PStr "x")) ∧
    (∀ j', nu (VPrim (PStr "x")) = Some j' ↔ j' = j).
Proof.
  intros props h.
  destruct (dehydrateValue h (VRef 0)) as [d| |] eqn:Hd; [|by vm_compute in Hd..].
  exists d.
  destruct (shared_primitive_id h (VRef 0) d 0 0 props props "a" "b" (PStr "x"))
    as (nu & i1 & i2 & qs1 & qs2 & j & H); try done.
  - left.
  - right; left.
  - intros Hin; apply list_elem_of_singleton in Hin; discriminate.
  - intros Hin; apply list_elem_of_singleton in Hin; discriminate.
  - exists nu, i1, i2, qs1, qs2, j. split; [done|exact H].
Defined.

(** The record of an object with the same string under two names. *)
Lemma dehydrate_shared_string :
  dehydrateValue [OObj [("a", VPrim (PStr "x")); ("b", VPrim (PStr "x"))]] (VRef 0)
  = Ok (fromEntries [(0, EObj [("a", 1); ("b", 1)]); (1, EPrim (PStr "x"))]).
Proof. by vm_compute. Qed.

(** ** C6: hydration errors *)

(** C6 (as stated) fails: a non-empty record without id 0 hydrates to
    [undefined]; no error is raised. *)
Lemma hydrate_rootless_counterexample :
  let d : dehydrated := {[ 1 := EPrim (PNum 5) ]} in
  d ≠ ∅ ∧ d !! 0 = None ∧ hydrateValue (Some d) = Ok (VPrim PUndef, []).
Proof.
  intros d. split_and!; [|done|by vm_compute].
  intros Hd. apply (f_equal (λ m : dehydrated, m !! 1)) in Hd. done.
Qed.

(** C6 (amended): hydration of a null, undefined or empty record fails with
    the hydration error; hydration of a non-empty record without id 0
    returns [undefined]. *)
Theorem hydrate_empty_or_rootless :
  hydrateValue None = Throw HydrationError ∧
  hydrateValue (Some ∅) = Throw HydrationError ∧
  (∀ d : dehydrated, d ≠ ∅ → d !! 0 = None →
     hydrateValue (Some d) = Ok (VPrim PUndef, [])).
Proof.
  split_and!; [done|done|].
  intros d Hne H0. unfold hydrateValue.
  rewrite decide_False by by apply map_size_non_empty_iff.
  unfold hydrate_fuel, dget. rewrite H0. done.
Qed.

Lemma hydrate_empty_or_rootless_witness :
  hydrateValue None = Throw HydrationError ∧
  hydrateValue (Some ∅) = Throw HydrationError ∧
  hydrateValue (Some {[ 1 := EPrim (PNum 5) ]}) = Ok (VPrim PUndef, []).
Proof.
  destruct hydrate_empty_or_rootless as (H1 & H2 & H3).
  split_and!; [exact H1|exact H2|].
  apply H3; [|done].
  intros Hd. apply (f_equal (λ m : dehydrated, m !! 1)) in Hd. done.
Defined.

(** ** The message channel *)

Section ChannelFacts.
Import Channel.
Context {body : Type}.
Variable frames : string.
Implicit Types (ch : @channel body) (b : body) (k : nat).

Lemma sent_emit type ch : sent (emit type ch) = sent ch.
Proof. done. Qed.

Lemma new_frames_app ch ch' l : sent ch' = sent ch ++ l → new_frames ch ch' = l.
Proof. intros H. unfold new_frames. rewrite H. by rewrite drop_app_length. Qed.

Lemma sent_settle p o ch : sent (settle p o ch) = sent ch.
Proof. unfold settle. by destruct (jsmap_get (promises ch) p) as [[]|]. Qed.

Lemma timers_settle p o ch : timers (settle p o ch) = timers ch.
Proof. unfold settle. by destruct (jsmap_get (promises ch) p) as [[]|]. Qed.

Lemma responseHandlers_settle p o ch :
  responseHandlers (settle p o ch) = responseHandlers ch.
Proof. unfold settle. by destruct (jsmap_get (promises ch) p) as [[]|]. Qed.

Lemma promises_settle_pending p o ch :
  jsmap_get (promises ch) p = Some Pending →
  jsmap_get (promises (settle p o ch)) p = Some o.
Proof. intros H. unfold settle. rewrite H. simpl. apply jsmap_get_set_eq. Qed.

Lemma promises_settle_done p o ch x :
  jsmap_get (promises ch) p = Some x → x ≠ Pending →
  settle p o ch = ch.
Proof. intros H Hx. unfold settle. rewrite H. by destruct x. Qed.

Lemma not_elem_of_filter_ne (t : nat) (l : list nat) : t ∉ filter (λ t', t' ≠ t) l.
Proof. rewrite list_elem_of_filter. naive_solver. Qed.

(** *** C7: requests and the handler registry *)

(** The state after a numbered request frame, by what the handler lookup and
    the handler give. *)
Lemma numbered_request_sent ch key b k :
  sent (messageHandler frames
          {| raw_n := Some k; raw_message := REQUEST key b; raw_source := true |}
          ch).1
  = sent ch ++
    match jsmap_get (handlerRegistry ch) key with
    | None =>
        [{| raw_n := None;
            raw_message :=
              RESPONSE k (RStack (Some ("Error: no handler for " +:+ key +:+ frames)))
                       true;
            raw_source := true |}]
    | Some f =>
        match f b with
        | Returns r =>
            [{| raw_n := None; raw_message := RESPONSE k (RValue r) false;
                raw_source := true |}]
        | Throws ThrownNullish => []
        | Throws (ThrownValue stack) =>
            [{| raw_n := None; raw_message := RESPONSE k (RStack stack) true;
                raw_source := true |}]
        end
    end.
Proof.
  unfold messageHandler. simpl.
  destruct (jsmap_get (handlerRegistry ch) key) as [f|]; simpl; [|done].
  destruct (f b) as [r|[|stack]]; simpl; [done| |done]. by rewrite app_nil_r.
Qed.

(** C7 (amended): a request frame that carries a sequence number [k] is
    answered with one response frame numbered [k]: the error response that
    names the missing handler when the key has none, the handler's result
    when it returns, and [{ stack: e.stack }], as an error response, when
    it throws a value [e] other than null or undefined. A request frame
    without sequence number is never answered. *)
Theorem request_frame_response ch key b k :
  let numbered := {| raw_n := Some k; raw_message := REQUEST key b;
                     raw_source := true |} in
  let unnumbered := {| raw_n := None; raw_message := REQUEST key b;
                       raw_source := true |} in
  let reply rb isError := {| raw_n := None; raw_message := RESPONSE k rb isError;
                             raw_source := true |} in
  (jsmap_get (handlerRegistry ch) key = None →
   new_frames ch (messageHandler frames numbered ch).1
   = [reply (RStack (Some ("Error: no handler for " +:+ key +:+ frames))) true]) ∧
  (∀ f r, jsmap_get (handlerRegistry ch) key = Some f → f b = Returns r →
   new_frames ch (messageHandler frames numbered ch).1 = [reply (RValue r) false]) ∧
  (∀ f stack, jsmap_get (handlerRegistry ch) key = Some f →
   f b = Throws (ThrownValue stack) →
   new_frames ch (messageHandler frames numbered ch).1 = [reply (RStack stack) true]) ∧
  new_frames ch (messageHandler frames unnumbered ch).1 = [].
Proof.
  intros numbered unnumbered reply. split_and!.
  - intros Hget. apply new_frames_app. unfold messageHandler. simpl. by rewrite Hget.
  - intros f r Hget Hf. apply new_frames_app. unfold messageHandler. simpl.
    by rewrite Hget, Hf.
  - intros f stack Hget Hf. apply new_frames_app. unfold messageHandler. simpl.
    by rewrite Hget, Hf.
  - apply new_frames_app. unfold messageHandler. simpl.
    destruct (jsmap_get (handlerRegistry ch) key) as [f|]; simpl.
    + destruct (f b) as [r|[|stack]]; simpl; by rewrite app_nil_r.
    + by rewrite app_nil_r.
Qed.

(** *** C3: pending requests *)

Lemma request_state key b ch :
  let k := n ch in
  let ch1 := (request key b ch).2 in
  (request key b ch).1 = k ∧
  jsmap_get (responseHandlers ch1) k = Some {| rh_promise := k; rh_timeout := k |} ∧
  jsmap_get (promises ch1) k = Some Pending ∧
  k ∈ timers ch1.
Proof.
  simpl. split_and!; [done|apply jsmap_get_set_eq|apply jsmap_get_set_eq|].
  apply elem_of_app. right. left.
Qed.

(** C3: when the timer of a pending request fires, the request's promise is
    rejected, but its entry stays in [responseHandlers]; a response that
    arrives afterwards is still matched against it, without error. *)
Theorem timeout_keeps_entry key b ch rb isError :
  let k := (request key b ch).1 in
  let ch1 := (request key b ch).2 in
  let ch2 := timeout_fires k ch1 in
  let late := {| raw_n := None; raw_message := RESPONSE k rb isError;
                 raw_source := true |} in
  jsmap_get (promises ch2) k = Some (Rejected (TimedOut TIMEOUT)) ∧
  jsmap_get (responseHandlers ch2) k = Some {| rh_promise := k; rh_timeout := k |} ∧
  (messageHandler frames late ch2).2 = None ∧
  jsmap_get (promises (messageHandler frames late ch2).1) k
    = Some (Rejected (TimedOut TIMEOUT)).
Proof.
  intros k ch1 ch2 late.
  destruct (request_state key b ch) as (Hk & Hrh & Hp & Ht).
  fold ch1 in Hrh, Hp, Ht. change (n ch) with k in Hrh, Hp, Ht.
  assert (Hp2 : jsmap_get (promises ch2) k = Some (Rejected (TimedOut TIMEOUT))).
  { subst ch2. unfold timeout_fires. rewrite decide_True by done.
    by apply promises_settle_pending. }
  assert (Hrh2 : jsmap_get (responseHandlers ch2) k
                 = Some {| rh_promise := k; rh_timeout := k |}).
  { subst ch2. unfold timeout_fires. rewrite decide_True by done.
    by rewrite responseHandlers_settle. }
  split_and!; [done|done| |].
  - unfold messageHandler. simpl. by rewrite Hrh2.
  - unfold messageHandler. simpl. rewrite Hrh2. simpl.
    rewrite (promises_settle_done k _ _ (Rejected (TimedOut TIMEOUT))); done.
Qed.

(** The other half of the claim holds: a matched response removes the entry
    and disarms the timer, so the timer cannot fire afterwards. *)
Lemma response_disarms_timeout ch k rb isError :
  jsmap_get (responseHandlers ch) k = Some {| rh_promise := k; rh_timeout := k |} →
  let m := {| raw_n := None; raw_message := RESPONSE k rb isError;
              raw_source := true |} in
  let ch' := (messageHandler frames m ch).1 in
  jsmap_get (responseHandlers ch') k = None ∧
  (k ∉ timers ch') ∧
  timeout_fires k ch' = ch'.
Proof.
  intros Hrh m ch'.
  assert (Ht : k ∉ timers ch').
  { subst ch'. unfold messageHandler. simpl. rewrite Hrh. simpl.
    rewrite timers_settle. simpl. apply not_elem_of_filter_ne. }
  split_and!; [|done|].
  - subst ch'. unfold messageHandler. simpl. rewrite Hrh. simpl.
    rewrite responseHandlers_settle. simpl. apply jsmap_delete_get_eq.
  - unfold timeout_fires. by rewrite decide_False.
Qed.

(** A response for a sequence number without entry is a failure. *)
Lemma unexpected_response ch k rb isError :
  jsmap_get (responseHandlers ch) k = None →
  (messageHandler frames
     {| raw_n := None; raw_message := RESPONSE k rb isError; raw_source := true |}
     ch).2 = Some UnexpectedResponse.
Proof. intros H. unfold messageHandler. simpl. by rewrite H. Qed.
End ChannelFacts.


(** C7 (as stated) fails for a request frame without sequence number: when
    its key has no handler, nothing is sent back. It also fails for a
    numbered request whose handler throws null: reading [e.stack] throws in
    the catch block, and no response frame is sent. *)
Lemma notify_without_handler_counterexample :
  let ch := @Channel.create Z [("null", λ _, Channel.Throws Channel.ThrownNullish)] in
  let notify := {| Channel.raw_n := None;
                   Channel.raw_message := Channel.REQUEST "missing" 0%Z;
                   Channel.raw_source := true |} in
  let numbered := {| Channel.raw_n := Some 3;
                     Channel.raw_message := Channel.REQUEST "null" 0%Z;
                     Channel.raw_source := true |} in
  (jsmap_get (Channel.handlerRegistry ch) "missing" = None ∧
   Channel.sent (Channel.messageHandler "" notify ch).1 = []) ∧
  (is_Some (jsmap_get (Channel.handlerRegistry ch) "null") ∧
   Channel.messageHandler "" numbered ch = (ch, Some Channel.StackOfNullish) ∧
   Channel.sent ch = []).
Proof. split; [done|]. split_and!; [by eexists|done|done]. Qed.

Lemma request_frame_response_witness :
  let double : @Channel.handler Z := λ x, Channel.Returns (x * 2)%Z in
  let boom : @Channel.handler Z :=
    λ _, Channel.Throws (Channel.new_Error "" "boom") in
  let ch := Channel.create [("double", double); ("boom", boom)] in
  let frame key := {| Channel.raw_n := Some 7;
                      Channel.raw_message := Channel.REQUEST key 21%Z;
                      Channel.raw_source := true |} in
  let reply rb isError := {| Channel.raw_n := None;
                             Channel.raw_message := Channel.RESPONSE 7 rb isError;
                             Channel.raw_source := true |} in
  Channel.new_frames ch (Channel.messageHandler "" (frame "absent") ch).1
  = [reply (Channel.RStack (Some "Error: no handler for absent")) true] ∧
  Channel.new_frames ch (Channel.messageHandler "" (frame "double") ch).1
  = [reply (Channel.RValue 42%Z) false] ∧
  Channel.new_frames ch (Channel.messageHandler "" (frame "boom") ch).1
  = [reply (Channel.RStack (Some "Error: boom")) true].
Proof.
  intros double boom ch frame reply. split_and!.
  - apply (request_frame_response "" ch "absent" 21%Z 7). reflexivity.
  - apply (request_frame_response "" ch "double" 21%Z 7) with double; reflexivity.
  - apply (request_frame_response "" ch "boom" 21%Z 7) with boom; reflexivity.
Defined.

(** ** The broadcast of a host *)

Section ExchangeFacts.
Import Channel.
Context {body : Type}.
Variable frames : string.
Implicit Types (here peer : @channel body) (b : body).

Lemma exchange_reply key b here peer rb isError :
  new_frames peer
    (messageHandler frames
       {| raw_n := Some (n here); raw_message := REQUEST key b; raw_source := true |}
       peer).1
  = [{| raw_n := None; raw_message := RESPONSE (n here) rb isError;
        raw_source := true |}] →
  (exchange frames key b here peer).1.1
  = (if isError then Rejected (ResponseError rb) else Resolved rb).
Proof.
  intros Hreply. unfold exchange, invoke.
  destruct (request key b here) as [k here1] eqn:Hreq.
  destruct (request_state key b here) as (Hk & Hrh & Hp & Ht).
  rewrite Hreq in Hk, Hrh, Hp, Ht. simpl in Hk, Hrh, Hp, Ht. subst k.
  assert (Hnew : new_frames here here1
            = [{| raw_n := Some (n here); raw_message := REQUEST key b;
                  raw_source := true |}]).
  { apply new_frames_app. by injection Hreq as <-. }
  rewrite Hnew. simpl. rewrite Hreply. simpl.
  unfold messageHandler at 1. simpl. rewrite Hrh. simpl.
  set (o := if isError then Rejected (ResponseError rb) else Resolved rb).
  set (here2 := emit "message" _).
  assert (Hp2 : jsmap_get (promises here2) (n here) = Some o).
  { subst here2. simpl. by apply promises_settle_pending. }
  assert (Ht2 : n here ∉ timers here2).
  { subst here2. simpl. rewrite timers_settle. simpl. apply not_elem_of_filter_ne. }
  unfold timeout_fires. rewrite decide_False by done. by rewrite Hp2.
Qed.

(** The peer's handler returns: the request is fulfilled with its result. *)
Lemma exchange_returns key b here peer f r :
  jsmap_get (handlerRegistry peer) key = Some f → f b = Returns r →
  (exchange frames key b here peer).1.1 = Resolved (RValue r).
Proof.
  intros Hf Hr.
  apply (exchange_reply key b here peer (RValue r) false).
  apply new_frames_app. rewrite numbered_request_sent. by rewrite Hf, Hr.
Qed.

(** The peer's handler throws: the request is rejected. *)
Lemma exchange_throws key b here peer f stack :
  jsmap_get (handlerRegistry peer) key = Some f → f b = Throws (ThrownValue stack) →
  (exchange frames key b here peer).1.1 = Rejected (ResponseError (RStack stack)).
Proof.
  intros Hf Hr.
  apply (exchange_reply key b here peer (RStack stack) true).
  apply new_frames_app. rewrite numbered_request_sent. by rewrite Hf, Hr.
Qed.

(** The peer has no handler: the request is rejected. *)
Lemma exchange_no_handler key b here peer :
  jsmap_get (handlerRegistry peer) key = None →
  (exchange frames key b here peer).1.1
  = Rejected (ResponseError
                (RStack (Some ("Error: no handler for " +:+ key +:+ frames)))).
Proof.
  intros Hf.
  apply (exchange_reply key b here peer _ true).
  apply new_frames_app. rewrite numbered_request_sent. by rewrite Hf.
Qed.
End ExchangeFacts.

Section BroadcastFacts.
Import Channel Broadcast.
Context {body : Type}.
Variable frames : string.

Lemma rejection_at_Some (ps : list (@settled body)) i r :
  rejection_at ps i = Some r ↔ ps !! i = Some (Rejected r).
Proof.
  unfold rejection_at. destruct (ps !! i) as [[|b|r0]|]; split; try done.
  - by intros [= ->].
  - by intros [= ->].
Qed.

Lemma mapM_result_of (ps : list (@settled body)) bs :
  Forall2 (λ p b, p = Resolved b) ps bs → mapM result_of ps = Some bs.
Proof.
  intros HF. apply mapM_Some. eapply Forall2_impl; [exact HF|].
  by intros p b ->.
Qed.

(** Every promise is fulfilled: so is the whole, whatever the order. *)
Lemma promise_all_resolved (ps : list (@settled body)) order bs :
  Forall2 (λ p b, p = Resolved b) ps bs → promise_all ps order = AllResolved bs.
Proof.
  intros HF. unfold promise_all.
  assert (Hnone : omap (rejection_at ps) order = []).
  { induction order as [|i order IH]; [done|]. simpl.
    destruct (rejection_at ps i) as [r|] eqn:Hr; [|exact IH].
    apply rejection_at_Some in Hr.
    destruct (Forall2_lookup_l _ _ _ _ _ HF Hr) as (b & _ & Hb). done. }
  by rewrite Hnone, (mapM_result_of ps bs).
Qed.

(** Every position is in the order in which the requests settle. *)
Lemma settling_order_complete arrival (ps : list (@settled body)) i :
  i < length ps → i ∈ settling_order arrival ps.
Proof.
  intros Hi. unfold settling_order.
  assert (Hpos : i ∈ seq 0 (length ps)) by (apply elem_of_seq; lia).
  rewrite elem_of_app, !list_elem_of_filter, elem_of_app.
  destruct (answered ps i); [left|right]; tauto.
Qed.

(** A promise that settles is rejected: the whole is rejected, with the
    first rejection in the order. *)
Lemma promise_all_rejected (ps : list (@settled body)) order :
  (∃ i r, i ∈ order ∧ ps !! i = Some (Rejected r)) →
  ∃ j r, promise_all ps order = AllRejected r ∧ ps !! j = Some (Rejected r).
Proof.
  intros (i & r & Hi & Hr). unfold promise_all.
  destruct (omap (rejection_at ps) order) as [|r' l] eqn:Ho.
  - assert (Hin : r ∈ omap (rejection_at ps) order).
    { apply list_elem_of_omap. exists i. split; [done|]. by apply rejection_at_Some. }
    rewrite Ho in Hin. by apply elem_of_nil in Hin.
  - assert (Hin : r' ∈ omap (rejection_at ps) order) by (rewrite Ho; left).
    apply list_elem_of_omap in Hin as (j & _ & Hj).
    exists j, r'. split; [done|]. by apply rejection_at_Some.
Qed.

(** C2 (amended): the broadcast is fulfilled, with the array of all results
    in the iteration order of the connection set, when the request succeeds
    on every connection; as soon as the request of one connection fails, the
    whole broadcast is rejected with such a failure, and no array is
    produced. *)
Theorem broadcast_invoke arrival (connections : list (@connection body)) key msg :
  let result child :=
    (exchange frames key msg (host_side child) (client_side child)).1.1 in
  (∀ bs, Forall2 (λ child b, result child = Resolved b) connections bs →
         invoke frames arrival connections key msg = AllResolved bs ∧
         length bs = length connections) ∧
  ((∃ child r, child ∈ connections ∧ result child = Rejected r) →
   ∃ child r, child ∈ connections ∧ result child = Rejected r ∧
              invoke frames arrival connections key msg = AllRejected r).
Proof.
  intros result. split.
  - intros bs HF. split; [|symmetry; by eapply Forall2_length].
    unfold invoke. apply promise_all_resolved.
    apply Forall2_fmap_l. done.
  - intros (child & r & Hin & Hr).
    apply list_elem_of_lookup in Hin as [i Hi].
    destruct (promise_all_rejected (result <$> connections)
                (settling_order arrival (result <$> connections)))
      as (j & r' & Hall & Hj).
    { exists i, r. split.
      - apply settling_order_complete. rewrite length_fmap. by eapply lookup_lt_Some.
      - by rewrite list_lookup_fmap, Hi, <- Hr. }
    rewrite list_lookup_fmap in Hj.
    destruct (connections !! j) as [child'|] eqn:Hc'; [|done].
    injection Hj as Hj.
    exists child', r'. split_and!; [by eapply list_elem_of_lookup_2|done|done].
Qed.
End BroadcastFacts.

(** C2 (as stated) fails: with three connected clients, the second of which
    throws inside its handler, the broadcast is rejected, in whatever order
    the answers arrive; it is not fulfilled with an array of length 3. *)
Lemma broadcast_one_failure_counterexample :
  let double : @Channel.handler Z := λ x, Channel.Returns (x * 2)%Z in
  let boom : @Channel.handler Z :=
    λ _, Channel.Throws (Channel.new_Error "" "boom") in
  let client f :=
    {| Broadcast.host_side := Channel.create [];
       Broadcast.client_side := Channel.create [("work", f)] |} in
  (∀ arrival,
     Broadcast.invoke "" arrival [client double; client boom; client double] "work" 21%Z
     = Broadcast.AllRejected
         (Channel.ResponseError (Channel.RStack (Some "Error: boom")))) ∧
  ¬ ∃ arrival results,
      Broadcast.invoke "" arrival [client double; client boom; client double]
        "work" 21%Z = Broadcast.AllResolved results.
Proof.
  intros double boom client.
  assert (H : ∀ arrival,
            Broadcast.invoke "" arrival [client double; client boom; client double]
              "work" 21%Z
            = Broadcast.AllRejected
                (Channel.ResponseError (Channel.RStack (Some "Error: boom")))).
  { intros arrival. unfold Broadcast.invoke.
    set (ps := [Channel.Resolved (Channel.RValue 42%Z);
                Channel.Rejected
                  (Channel.ResponseError (Channel.RStack (Some "Error: boom")));
                Channel.Resolved (Channel.RValue 42%Z)]).
    change (_ <$> [client double; client boom; client double]) with ps.
    destruct (promise_all_rejected ps (Broadcast.settling_order arrival ps))
      as (j & r & -> & Hj).
    { exists 1, (Channel.ResponseError (Channel.RStack (Some "Error: boom"))).
      split; [|done]. apply settling_order_complete. simpl. lia. }
    destruct j as [|[|[|j]]]; simpl in Hj; try done. by injection Hj as <-. }
  split; [exact H|]. intros (arrival & results & Hr). rewrite H in Hr. discriminate.
Qed.

(** A request that is not answered is rejected by its timer, which is later
    than every answer: the broadcast is rejected with the failure that was
    answered, also when the silent connection comes first in the set. *)
Lemma broadcast_rejects_with_first_failure_in_time :
  let silent : @Channel.handler Z := λ _, Channel.Throws Channel.ThrownNullish in
  let boom : @Channel.handler Z :=
    λ _, Channel.Throws (Channel.new_Error "" "boom") in
  let client f :=
    {| Broadcast.host_side := Channel.create [];
       Broadcast.client_side := Channel.create [("work", f)] |} in
  ∀ arrival,
    Broadcast.invoke "" arrival [client silent; client boom] "work" 21%Z
    = Broadcast.AllRejected
        (Channel.ResponseError (Channel.RStack (Some "Error: boom"))).
Proof.
  intros silent boom client arrival. unfold Broadcast.invoke.
  set (ps := [@Channel.Rejected Z (Channel.TimedOut Channel.TIMEOUT);
              Channel.Rejected
                (Channel.ResponseError (Channel.RStack (Some "Error: boom")))]).
  change (_ <$> [client silent; client boom]) with ps.
  unfold Broadcast.settling_order.
  assert (Hans : filter (λ i, Broadcast.answered ps i = true) (arrival ++ seq 0 (length ps))
                 = replicate (length (filter (λ i, i = 1) arrival)) 1 ++ [1]).
  { rewrite filter_app. f_equal.
    induction arrival as [|i arrival IH]; [done|]. rewrite !filter_cons.
    destruct i as [|[|i]]; simpl; [exact IH|by rewrite IH|exact IH]. }
  rewrite Hans. unfold Broadcast.promise_all.
  destruct (length (filter (λ i, i = 1) arrival)); reflexivity.
Qed.

Lemma broadcast_invoke_witness :
  let double : @Channel.handler Z := λ x, Channel.Returns (x * 2)%Z in
  let boom : @Channel.handler Z :=
    λ _, Channel.Throws (Channel.new_Error "" "boom") in
  let client f :=
    {| Broadcast.host_side := Channel.create [];
       Broadcast.client_side := Channel.create [("work", f)] |} in
  (Broadcast.invoke "" [2; 0; 1] [client double; client double; client double]
     "work" 21%Z
   = Broadcast.AllResolved
       [Channel.RValue 42%Z; Channel.RValue 42%Z; Channel.RValue 42%Z]) ∧
  (∃ child r, child ∈ [client double; client boom; client double] ∧
     Broadcast.invoke "" [2; 0; 1] [client double; client boom; client double]
       "work" 21%Z
     = Broadcast.AllRejected r).
Proof.
  intros double boom client. split.
  - apply (broadcast_invoke "" [2; 0; 1] [client double; client double; client double]
             "work" 21%Z).
    repeat constructor.
  - destruct (broadcast_invoke "" [2; 0; 1] [client double; client boom; client double]
                "work" 21%Z) as [_ H].
    destruct H as (child & r & Hin & _ & Hr).
    + exists (client boom), (Channel.ResponseError (Channel.RStack (Some "Error: boom"))).
      split; [right; left|reflexivity].
    + by exists child, r.
Defined.

(** ** The global context store *)

Section StoreFacts.
Import GlobalContext.
Context {content : Type}.
Implicit Types (w : @world content).

#[local] Instance same_calls_refl : Reflexive (@same_calls content).
Proof. by intros w. Qed.

#[local] Instance same_calls_trans : Transitive (@same_calls content).
Proof.
  intros w1 w2 w3 (A1 & A2 & A3 & A4 & A5) (B1 & B2 & B3 & B4 & B5).
  split_and!; congruence.
Qed.

Lemma same_calls_update_watcher wid f w : same_calls w (update_watcher wid f w).
Proof. unfold update_watcher. by destruct (watchers w !! wid). Qed.

Lemma same_calls_setImmediate t w : same_calls w (setImmediate t w).
Proof. done. Qed.

Lemma same_calls_mkdirSync key w : same_calls w (mkdirSync key w).
Proof. done. Qed.

Lemma same_calls_unlinkSync key name w w' :
  unlinkSync key name w = Some w' → same_calls w w'.
Proof.
  unfold unlinkSync. destruct (jsmap_get (readdir key w) name); [|done].
  by intros [= <-].
Qed.

Lemma same_calls_purge_entry wid w purged name :
  same_calls w (purge_entry wid (w, purged) name).1.
Proof.
  unfold purge_entry. destruct name as [pid seq|name]; [|done].
  destruct (kill0 w pid); simpl; try done.
  destruct (unlinkSync _ _ w) as [w'|] eqn:Hu; simpl; [|done].
  etrans; [by eapply same_calls_unlinkSync|apply same_calls_update_watcher].
Qed.

Lemma same_calls_foldl {A} (f : @world content → A → @world content) l w :
  (∀ w x, same_calls w (f w x)) → same_calls w (foldl f w l).
Proof.
  intros Hf. revert w. induction l as [|x l IH]; intros w; simpl; [done|].
  etrans; [apply Hf|apply IH].
Qed.

Lemma same_calls_purge wid w : same_calls w (purge wid w).
Proof.
  unfold purge. destruct (watchers w !! wid) as [v|]; [|done].
  case_decide; [|done].
  set (w1 := update_watcher wid _ w).
  assert (H1 : same_calls w w1) by apply same_calls_update_watcher.
  assert (H2 : ∀ l acc, same_calls w acc.1 →
            same_calls w (foldl (purge_entry wid) acc l).1).
  { induction l as [|x l IH]; intros [w' b] Hacc; simpl; [done|].
    apply IH. etrans; [done|]. apply same_calls_purge_entry. }
  specialize (H2 (configByFileName v).*1 (w1, false) H1).
  destruct (foldl _ _ _) as [w2 purged]. simpl in H2.
  destruct purged; [|done]. etrans; [done|]. done.
Qed.

Lemma same_calls_eventTriggered wid name w : same_calls w (eventTriggered wid name w).
Proof.
  unfold eventTriggered.
  destruct (jsmap_get _ name) as [[m [c|]]|]; unfold emit.
  - etrans; [apply same_calls_update_watcher|done].
  - done.
  - etrans; [apply same_calls_update_watcher|done].
Qed.

Lemma same_calls_readAll wid w : same_calls w (readAll wid w).
Proof.
  unfold readAll. apply same_calls_foldl. clear w. intros w name.
  unfold readAll_entry. destruct (jsmap_get _ name) as [f|]; [|done].
  case_decide; [|apply same_calls_eventTriggered].
  destruct (unlinkSync _ _ w) as [w'|] eqn:Hu; [|done].
  by eapply same_calls_unlinkSync.
Qed.

(** A new watcher arms its purge interval, and nothing else. *)
Lemma getGlobalContextWatcher_timers key w :
  let w' := (getGlobalContextWatcher key w).2 in
  promises w' = promises w ∧ subscriptions w' = subscriptions w ∧ log w' = log w ∧
  ((timers w' = timers w ∧ next_timer w' = next_timer w) ∨
   (∃ wid, timers w' = timers w ++ [(next_timer w, PurgeInterval wid)] ∧
           next_timer w' = S (next_timer w))).
Proof.
  unfold getGlobalContextWatcher.
  destruct (jsmap_get (globalContextWatchers w) key) as [wid|]; simpl.
  { split_and!; [done|done|done|]. left. done. }
  set (wid := length (watchers w)).
  set (w1 := with_watchers _ w).
  assert (H : same_calls w (purge wid (readAll wid (mkdirSync key w1)))).
  { etrans; [|apply same_calls_purge]. etrans; [|apply same_calls_readAll].
    etrans; [|apply same_calls_mkdirSync]. done. }
  destruct H as (Ht & Hn & Hp & Hs & Hl).
  split_and!; [done|done|done|]. right. exists wid. by rewrite Ht, Hn.
Qed.

Lemma same_log_unsubscribe wid s w :
  log (unsubscribe wid s w) = log w ++ [Unsubscribe wid s] ∧
  promises (unsubscribe wid s w) = promises w ∧
  subscriptions (unsubscribe wid s w) = subscriptions w.
Proof.
  unfold unsubscribe.
  set (w1 := update_watcher wid _ w).
  destruct (same_calls_update_watcher wid
              (λ v, set_subscribers (filter (λ s', s' ≠ s) (subscribers v)) v) w)
    as (_ & _ & Hp & Hs & Hl). fold w1 in Hp, Hs, Hl.
  destruct (subscribers_of wid (record (Unsubscribe wid s) w1)); simpl.
  - set (w3 := with_registry _ _).
    destruct (same_calls_update_watcher wid set_closed w3) as (_ & _ & Hp' & Hs' & Hl').
    rewrite Hp', Hs', Hl'. simpl. by rewrite Hp, Hs, Hl.
  - by rewrite Hp, Hs, Hl.
Qed.

(** The timeout callback of [getAllGlobalContexts]: [unwatch()], then
    [reject()]. *)
Lemma fire_getAll_timeout t p wid s w :
  jsmap_get (timers w) t = Some (GetAllTimeout p wid s) →
  log (fire t w) = log w ++ [Unsubscribe wid s; Reject p None] ∧
  (promises w !! p = Some Pending → promises (fire t w) !! p = Some (Rejected None)).
Proof.
  intros Ht. unfold fire. rewrite Ht.
  destruct (same_log_unsubscribe wid s (clearTimer t w)) as (Hl & Hp & _).
  set (w2 := unsubscribe wid s (clearTimer t w)) in *.
  simpl in Hl, Hp.
  assert (Hlog : log (record (Reject p None) w2) = log w ++ [Unsubscribe wid s; Reject p None]).
  { simpl. rewrite Hl. by rewrite <-app_assoc. }
  unfold settle. simpl. rewrite Hp.
  destruct (promises w !! p) as [[| |]|] eqn:Hpp; (split; [exact Hlog|]); try done.
  intros _. simpl. apply list_lookup_insert_eq. by eapply lookup_lt_Some.
Qed.

(** A snapshot observation disarms the timeout. *)
Lemma onChange_getAll_disarms s p t wid configs w :
  subscriptions w !! s = Some (GetAll p t wid) →
  jsmap_get (timers (onChange s configs w)) t = None.
Proof.
  intros Hs. unfold onChange. rewrite Hs.
  unfold settle. set (w2 := clearTimer t _).
  assert (Hnone : jsmap_get (timers w2) t = None) by apply jsmap_delete_get_eq.
  change (promises (record (Resolve p configs) w2)) with (promises w2).
  destruct (promises w2 !! p) as [[| |]|]; exact Hnone.
Qed.

(** *** C8: expose, watch, and the liveness sweep *)

Lemma jsmap_get_head {K V} `{EqDecision K} (m : list (K * V)) k v :
  jsmap_get ((k, v) :: m) k = Some v.
Proof. simpl. by rewrite decide_True. Qed.

Lemma jsmap_delete_head {K V} `{EqDecision K} (m : list (K * V)) k v :
  jsmap_delete ((k, v) :: m) k = jsmap_delete m k.
Proof. simpl. by rewrite decide_True. Qed.



Lemma purge_entry_running wid (w : @world content) purged nm pid seq :
  nm = CtxFile pid seq → kill0 w pid ≠ ESRCH →
  purge_entry wid (w, purged) nm = (w, purged).
Proof. intros -> H. simpl. by destruct (kill0 w pid). Qed.


End StoreFacts.



(** ** Discovery: the promise settles once and no other websocket stays open *)

Section DiscoveryFacts.
Import Discovery.

Ltac split_inv := refine (conj _ (conj _ (conj _ _))).
Ltac split_queue := refine (conj _ (conj _ _)).

Lemma inv_init k : inv (init k).
Proof.
  split_inv.
  - split; simpl; [|done]. intros _. repeat split.
    intros k' b H. by rewrite lookup_nil in H.
  - intros j s H. simpl in H. by rewrite lookup_nil in H.
  - split_queue; simpl; try done.
    intros k' c H. by apply elem_of_nil in H.
  - unfold loop_inv. simpl. repeat split.
    intros s H. by apply elem_of_nil in H.
Qed.

Lemma candidates_valid d configs :
  dialable (key d) (Snapshot configs) →
  forallb valid_port (candidates d configs) = true.
Proof.
  intros Hd. apply forallb_forall. intros p Hp. apply list_elem_of_In in Hp.
  unfold candidates in Hp. apply list_elem_of_fmap in Hp as (c & -> & Hc).
  apply list_elem_of_filter in Hc as [Hk Hc]. by apply Hd.
Qed.

Lemma elem_of_createOpenSocket s k (ports : list nat) :
  s ∈ omap (createOpenSocket k) ports → ∃ p, p ∈ ports ∧ s = connecting k p.
Proof.
  intros (p & Hp & Hs)%list_elem_of_omap. exists p. split; [done|].
  unfold createOpenSocket in Hs. destruct (valid_port p); congruence.
Qed.

Lemma key_drain jobs : ∀ d, key (drain jobs d) = key d.
Proof.
  induction jobs as [|j rest IH]; intros d; [done|].
  destruct j as [k configs|]; cbn [drain].
  - destruct (candidates d configs) as [|p ports]; [by rewrite IH|].
    destruct (forallb valid_port (p :: ports)); [done|]. by destruct (catches d).
  - destruct (finalized d); [by rewrite IH|done].
Qed.

(** The loop of the queue, entered with every websocket settled, ends in a
    state of the invariant, unless a pass makes it throw: then a port of
    that pass is not valid. *)
Lemma drain_ginv jobs d :
  settled_once d → socket_inv d → queue_inv jobs d → all_settled d →
  (inv (drain jobs d) ∧ ∀ j, j ∈ queue (drain jobs d) → j ∈ jobs) ∨
  (stuck (drain jobs d) ∧ ¬ jobs_dialable (key d) jobs).
Proof.
  revert d. induction jobs as [|j rest IH]; intros d Hso Hs (Hq1 & Hq2 & Hq3) Hall.
  - left. simpl. split; [split_inv; done|done].
  - assert (Hfin : finalized d = false).
    { destruct (finalized d) eqn:E; [|done]. by specialize (Hq1 eq_refl). }
    destruct (proj1 Hso Hfin) as (Hp & Hr & Hj & Hh).
    destruct j as [k configs|]; cbn [drain].
    + destruct (candidates d configs) as [|p ports] eqn:Hc.
      * destruct (IH (with_queue rest true None d)) as [[IH1 IH2]|[IH1 IH2]]; try done.
        -- split_queue; simpl.
           ++ by rewrite Hfin.
           ++ intros Ht. destruct (Hq2 Ht) as [?|Hin]; [by left|right].
              apply elem_of_cons in Hin as [?|?]; done.
           ++ intros k' c' Hin. apply (Hq3 k' c'). by right.
        -- left. split; [done|]. intros j Hj'. right. by apply IH2.
        -- right. split; [done|]. intros Hd. apply IH2.
           intros p' c' Hin. apply (Hd p' c'). by right.
      * assert (Hk : k < length (hostSelected d)).
        { apply (Hq3 k configs). by left. }
        assert (Hnew : ∀ s, s ∈ omap (createOpenSocket k) (p :: ports) →
                  state s = CONNECTING ∧ timer s = true ∧ settled s = false ∧ pass s = k).
        { intros s (p' & _ & ->)%elem_of_createOpenSocket. done. }
        destruct (forallb valid_port (p :: ports)) eqn:Hvalid.
        -- left. split; [|intros j Hj'; by right].
           split_inv.
           ++ done.
           ++ intros j s Hl. cbn [sockets with_queue with_sockets] in Hl.
              apply lookup_app_Some in Hl as [Hl|[_ Hl]]; [by apply Hs|].
              apply list_elem_of_lookup_2 in Hl.
              destruct (Hnew s Hl) as (H1 & H2 & H3 & H4).
              cbn [promise hostSelected with_queue with_sockets].
              rewrite H1, H2, H3, H4. repeat split; done.
           ++ split_queue; simpl.
              ** by rewrite Hfin.
              ** intros Ht. destruct (Hq2 Ht) as [?|Hin]; [by left|right].
                 apply elem_of_cons in Hin as [?|?]; done.
              ** intros k' c' Hin. apply (Hq3 k' c'). by right.
           ++ unfold loop_inv. cbn [awaiting with_queue]. split_and!; try done.
              ** intros s Hin Hset. cbn [sockets with_queue with_sockets] in Hin.
                 apply elem_of_app in Hin as [Hin|Hin].
                 --- apply Hall in Hin. congruence.
                 --- by apply Hnew.
              ** cbn [finalized with_queue with_sockets]. by rewrite Hfin.
              ** cbn [promise with_queue with_sockets]. by rewrite Hp.
        -- right. split.
           ++ assert (Hk0 : ∃ k0, ∀ s, s ∈ sockets d ++ omap (createOpenSocket k) (p :: ports) →
                         settled s = false → pass s = k0).
              { exists k. intros s Hin Hset. apply elem_of_app in Hin as [Hin|Hin].
                - apply Hall in Hin. congruence.
                - by apply Hnew. }
              destruct (catches d).
              ** split_and!; done.
              ** split_and!; try done.
                 intros E. change (finalized d = true) in E. congruence.
           ++ intros Hd.
              assert (Hv : forallb valid_port (candidates d configs) = true).
              { apply candidates_valid, (Hd k). by left. }
              congruence.
    + rewrite Hfin. left. split; [|intros j Hj'; by apply elem_of_nil in Hj'].
      split_inv.
      * split; simpl; [done|]. intros _. split; [done|right].
        rewrite Hp, Hr, Hj. done.
      * intros j s Hj'. destruct (Hs j s Hj') as (H1 & H2 & H3 & H4).
        simpl. refine (conj _ (conj H2 (conj H3 H4))).
        intros Ho. specialize (H1 Ho). congruence.
      * split_queue; simpl; [done|by left|].
        intros k c Hin. by apply elem_of_nil in Hin.
      * unfold loop_inv. simpl. done.
Qed.

Lemma pass_settled_all k d :
  pass_settled k d = true →
  (∀ s, s ∈ sockets d → settled s = false → pass s = k) →
  all_settled d.
Proof.
  intros Hps Hk s Hin. unfold pass_settled in Hps.
  rewrite forallb_forall in Hps.
  destruct (settled s) eqn:E; [done|].
  assert (Hin' : In s (sockets d)) by (by apply list_elem_of_In).
  specialize (Hps s Hin'). rewrite E, (Hk s Hin E) in Hps.
  by rewrite bool_decide_eq_true_2 in Hps.
Qed.

Lemma continue_ginv d :
  inv d →
  (inv (continue d) ∧ ∀ j, j ∈ queue (continue d) → j ∈ queue d) ∨
  (stuck (continue d) ∧ ¬ jobs_dialable (key d) (queue d)).
Proof.
  intros (Hso & Hs & Hq & Hl). unfold continue.
  destruct (awaiting d) as [k|] eqn:Ha; [|by left].
  destruct (pass_settled k d) eqn:Hps; [|by left].
  apply drain_ginv; try done.
  unfold loop_inv in Hl. rewrite Ha in Hl. destruct Hl as (_ & _ & Hk & _).
  by apply (pass_settled_all k).
Qed.

Lemma key_continue d : key (continue d) = key d.
Proof.
  unfold continue. destruct (awaiting d); [|done].
  destruct (pass_settled _ d); [|done]. apply key_drain.
Qed.

Lemma elem_of_insert_inv {A} (l : list A) i x y :
  y ∈ <[i := x]> l → y = x ∨ y ∈ l.
Proof.
  intros Hin. apply list_elem_of_lookup in Hin as [j Hj].
  apply list_lookup_insert_Some in Hj as [(-> & -> & _)|[_ Hj]]; [by left|right].
  by apply list_elem_of_lookup_2 in Hj.
Qed.

(** A websocket is closed, or it is the open one that the promise holds. *)
Lemma set_socket_inv i s s' d :
  inv d → sockets d !! i = Some s →
  pass s' = pass s → settled s' = true → state s' ≠ CONNECTING →
  (state s' = OPEN → promise d = Resolved i) →
  inv (set_socket i s' d).
Proof.
  intros (Hso & Hs & Hq & Hl) Hi Hp Hset Hst Hopen.
  split_inv; try done.
  - intros j x Hj. simpl in Hj.
    apply list_lookup_insert_Some in Hj as [(-> & -> & _)|[_ Hj]]; [|by apply Hs].
    simpl. repeat split; try done; try congruence.
    rewrite Hp. by apply (Hs _ _ Hi).
  - unfold loop_inv in *. simpl. destruct (awaiting d) as [k|].
    + destruct Hl as (H1 & H2 & H3 & H4 & H5). repeat split; try done.
      intros x Hin Hx. apply elem_of_insert_inv in Hin as [->|Hin]; [congruence|].
      by apply H3.
    + destruct Hl as (H1 & H2 & H3). repeat split; try done.
      intros x Hin. apply elem_of_insert_inv in Hin as [->|Hin]; [done|].
      by apply H3.
Qed.

(** The first websocket to open while discovery is not finalized. *)
Lemma select_inv i s d :
  inv d → sockets d !! i = Some s → state s = CONNECTING → finalized d = false →
  inv (resolve i
         (finalize
            (with_hostSelected (<[pass s := true]> (hostSelected d))
               (set_socket i {| sport := sport s; state := OPEN; timer := false;
                                settled := true; pass := pass s |} d)))).
Proof.
  intros (Hso & Hs & Hq & Hl) Hi Hst Hfin.
  destruct (proj1 Hso Hfin) as (Hp & Hr & Hj & Hh).
  destruct (Hs _ _ Hi) as (_ & Hc & _ & Hlen). destruct (Hc Hst) as [Htm Hset].
  split_inv.
  - split; simpl; [done|]. intros _. split; [done|left]. exists i.
    by rewrite Hp, Hr, Hj.
  - intros j x Hl'. simpl in Hl'. simpl. rewrite Hp, length_insert.
    apply list_lookup_insert_Some in Hl' as [(-> & <- & _)|[Hne Hl']].
    + simpl. repeat split; try done.
    + destruct (Hs _ _ Hl') as (H1 & H2 & H3 & H4).
      refine (conj _ (conj H2 (conj H3 H4))).
      intros Ho. specialize (H1 Ho). congruence.
  - split_queue; simpl; [done|by left|].
    intros k c Hin. by apply elem_of_nil in Hin.
  - unfold loop_inv in *. simpl. destruct (awaiting d) as [k|] eqn:Ha.
    + destruct Hl as (H1 & H2 & H3 & H4 & H5).
      assert (Hk : pass s = k).
      { apply H3; [|done]. by apply list_elem_of_lookup_2 in Hi. }
      rewrite length_insert. repeat split; try done.
      * intros x Hin Hx. apply elem_of_insert_inv in Hin as [->|Hin]; [done|].
        by apply H3.
      * intros _. subst k. by apply list_lookup_insert_eq.
      * by rewrite Hp.
    + destruct Hl as (H1 & H2 & H3). repeat split; try done.
      intros x Hin. apply elem_of_insert_inv in Hin as [->|Hin]; [done|].
      by apply H3.
Qed.

Lemma enqueue_ginv j d :
  settled_once d → socket_inv d → loop_inv d →
  queue_inv (queue d ++ [j]) d →
  (inv (enqueue j d) ∧ ∀ j', j' ∈ queue (enqueue j d) → j' ∈ queue d ++ [j]) ∨
  (stuck (enqueue j d) ∧ ¬ jobs_dialable (key d) (queue d ++ [j])).
Proof.
  intros Hso Hs Hl Hq. unfold enqueue.
  destruct (running d) eqn:Hr.
  - left. split; [|done]. split_inv; try done.
    unfold loop_inv in *. simpl. destruct (awaiting d).
    + destruct Hl as [_ Hl]. by split.
    + destruct Hl as [? _]. congruence.
  - apply (drain_ginv (queue d ++ [j]) (with_catches _ d)); try done.
    unfold loop_inv in Hl. destruct (awaiting d).
    + destruct Hl as [? _]. congruence.
    + by destruct Hl as (_ & _ & ?).
Qed.

Lemma key_enqueue j d : key (enqueue j d) = key d.
Proof. unfold enqueue. destruct (running d); [done|]. by rewrite key_drain. Qed.

Lemma key_step d e : key (step d e) = key d.
Proof.
  destruct e as [configs| |i|i|i]; simpl.
  - destruct (finalized d); [done|]. by rewrite key_enqueue.
  - destruct (timeout d); [|done]. by rewrite key_enqueue.
  - destruct (sockets d !! i) as [s|]; [|done].
    destruct (state s); [|done..]. rewrite key_continue.
    by destruct (default false _).
  - destruct (sockets d !! i) as [s|]; [|done]. by rewrite key_continue.
  - destruct (sockets d !! i) as [s|]; [|done].
    destruct (timer s); [|done]. by rewrite key_continue.
Qed.

Lemma key_run k events : key (run k events) = k.
Proof.
  unfold run. change k with (key (init k)) at 2. generalize (init k).
  induction events as [|e events IH]; intros d; [done|].
  simpl. by rewrite IH, key_step.
Qed.

(** After the step of a state of the invariant, the loop of whose queue
    did not throw. *)
Lemma after_continue d x e :
  inv x → key x = key d → (∀ j, j ∈ queue x → j ∈ queue d) →
  (inv (continue x) ∧
   (∀ j, j ∈ queue (continue x) →
         j ∈ queue d ∨ j = TimeOut ∨
         ∃ p configs, e = Snapshot configs ∧ j = Explore p configs)) ∨
  (stuck (continue x) ∧ ¬ (jobs_dialable (key d) (queue d) ∧ dialable (key d) e)).
Proof.
  intros Hx Hk Hq. destruct (continue_ginv x Hx) as [[H1 H2]|[H1 H2]].
  - left. split; [done|]. intros j Hj. left. by apply Hq, H2.
  - right. split; [done|]. intros [Hd _]. apply H2. rewrite Hk.
    intros p c Hin. apply (Hd p). by apply Hq.
Qed.

(** Every event keeps the invariant, unless it makes the loop of the queue
    throw. *)
Lemma step_ginv d e :
  inv d →
  (inv (step d e) ∧
   (∀ j, j ∈ queue (step d e) →
         j ∈ queue d ∨ j = TimeOut ∨
         ∃ p configs, e = Snapshot configs ∧ j = Explore p configs)) ∨
  (stuck (step d e) ∧ ¬ (jobs_dialable (key d) (queue d) ∧ dialable (key d) e)).
Proof.
  intros Hinv. destruct (Hinv) as (Hso & Hs & Hq & Hl).
  destruct e as [configs| |i|i|i]; cbn [step].
  - destruct (finalized d) eqn:Hfin; [left; split; [done|by left]|].
    destruct (proj1 Hso Hfin) as (Hp & Hr & Hj & Hh).
    destruct Hq as (Hq1 & Hq2 & Hq3).
    destruct (enqueue_ginv (Explore (length (hostSelected d)) configs)
                (with_hostSelected (hostSelected d ++ [false]) d))
      as [[H1 H2]|[H1 H2]].
    + split; simpl; [|by rewrite Hfin]. intros _. repeat split; try done.
      intros k b Hk. apply lookup_app_Some in Hk as [Hk|[_ Hk]]; [by eapply Hh|].
      apply list_lookup_singleton_Some in Hk as [_ <-]. done.
    + intros j s Hj'. simpl. rewrite length_app. simpl.
      destruct (Hs j s Hj') as (H1 & H2 & H3 & H4).
      refine (conj H1 (conj H2 (conj H3 _))). lia.
    + unfold loop_inv in *. simpl. destruct (awaiting d) as [k|]; [|done].
      destruct Hl as (H1 & H2 & H3 & H4 & H5). rewrite length_app. simpl.
      repeat split; try done; [lia|]. by rewrite Hfin.
    + split_queue; simpl.
      * by rewrite Hfin.
      * intros Ht. destruct (Hq2 Ht) as [?|Hin]; [by left|right].
        apply elem_of_app. by left.
      * intros k c Hin. rewrite length_app. simpl.
        apply elem_of_app in Hin as [Hin|Hin].
        -- specialize (Hq3 _ _ Hin). lia.
        -- apply list_elem_of_singleton in Hin. injection Hin as -> _. lia.
    + left. split; [done|]. intros j Hj'. apply H2 in Hj'. simpl in Hj'.
      apply elem_of_app in Hj' as [?|Hj']; [by left|].
      apply list_elem_of_singleton in Hj' as ->.
      right. right. by eexists _, _.
    + right. split; [done|]. intros [Hd He]. apply H2. simpl.
      intros p c Hin. apply elem_of_app in Hin as [Hin|Hin]; [by apply (Hd p)|].
      apply list_elem_of_singleton in Hin. by injection Hin as _ ->.
  - destruct (timeout d) eqn:Ht; [|left; split; [done|by left]].
    assert (Hfin : finalized d = false).
    { destruct (finalized d) eqn:E; [|done].
      destruct (proj2 Hso E) as [? _]. congruence. }
    destruct Hq as (Hq1 & Hq2 & Hq3).
    destruct (enqueue_ginv TimeOut (with_timeout false d)) as [[H1 H2]|[H1 H2]];
      try done.
    + split; simpl; [exact (proj1 Hso)|by rewrite Hfin].
    + split_queue; simpl.
      * by rewrite Hfin.
      * intros _. right. apply elem_of_app. right. by apply list_elem_of_singleton.
      * intros k c Hin. apply elem_of_app in Hin as [Hin|Hin]; [by eapply Hq3|].
        by apply list_elem_of_singleton in Hin.
    + left. split; [done|]. intros j Hj'. apply H2 in Hj'. simpl in Hj'.
      apply elem_of_app in Hj' as [?|Hj']; [by left|].
      apply list_elem_of_singleton in Hj' as ->.
      right. by left.
    + right. split; [done|]. intros [Hd _]. apply H2. simpl.
      intros p c Hin. apply elem_of_app in Hin as [Hin|Hin]; [by apply (Hd p)|].
      by apply list_elem_of_singleton in Hin.
  - destruct (sockets d !! i) as [s|] eqn:Hi; [|left; split; [done|by left]].
    destruct (state s) eqn:Hst; [|left; split; [done|by left]..].
    assert (Hlen : pass s < length (hostSelected d)) by (by apply (Hs _ _ Hi)).
    destruct (lookup_lt_is_Some_2 _ _ Hlen) as [b Hb].
    cbv zeta.
    change (hostSelected (set_socket i _ d)) with (hostSelected d).
    rewrite Hb. cbn [default]. destruct b; cbv iota.
    + assert (Hfin : finalized d = true).
      { destruct (finalized d) eqn:E; [done|].
        destruct (proj1 Hso E) as (_ & _ & _ & Hh). by specialize (Hh _ _ Hb). }
      assert (Heq :
        set_socket i {| sport := sport s; state := CLOSED; timer := false;
                        settled := true; pass := pass s |}
          (set_socket i {| sport := sport s; state := OPEN; timer := false;
                           settled := true; pass := pass s |} d)
        = set_socket i {| sport := sport s; state := CLOSED; timer := false;
                          settled := true; pass := pass s |} d).
      { unfold set_socket, with_sockets. simpl. by rewrite list_insert_insert_eq. }
      rewrite Heq. apply after_continue; [|done|done].
      by apply (set_socket_inv i s).
    + assert (Hfin : finalized d = false).
      { destruct (finalized d) eqn:E; [|done].
        unfold loop_inv in Hl. destruct (awaiting d) as [k|] eqn:Ha.
        - destruct Hl as (_ & _ & H3 & H4 & _).
          assert (pass s = k) as <-.
          { apply H3; [by apply list_elem_of_lookup_2 in Hi|].
            by apply (Hs _ _ Hi). }
          specialize (H4 E). congruence.
        - destruct Hl as (_ & _ & H3).
          assert (settled s = true) by (apply H3; by apply list_elem_of_lookup_2 in Hi).
          destruct (Hs _ _ Hi) as (_ & H2 & _). destruct (H2 Hst). congruence. }
      apply after_continue; [|done|].
      * by apply select_inv.
      * intros j Hj'. by apply elem_of_nil in Hj'.
  - destruct (sockets d !! i) as [s|] eqn:Hi; [|left; split; [done|by left]].
    apply after_continue; [|done|done]. by apply (set_socket_inv i s).
  - destruct (sockets d !! i) as [s|] eqn:Hi; [|left; split; [done|by left]].
    destruct (timer s); [|left; split; [done|by left]].
    apply after_continue; [|done|done]. by apply (set_socket_inv i s).
Qed.

Lemma continue_idle d : awaiting d = None → continue d = d.
Proof. intros Ha. unfold continue. by rewrite Ha. Qed.

Lemma stuck_set_socket i s s' d :
  stuck d → sockets d !! i = Some s → settled s' = true →
  stuck (set_socket i s' d).
Proof.
  intros (Hr & Ha & [k Hk] & Hp & Hf) Hi Hset. split_and!; try done.
  exists k. intros x Hin Hx. simpl in Hin.
  apply elem_of_insert_inv in Hin as [->|Hin]; [congruence|]. by apply Hk.
Qed.

(** Once the loop of the queue has been left by an exception, no callback
    of the queue is run any more. *)
Lemma step_stuck d e : stuck d → stuck (step d e).
Proof.
  intros Hst. destruct (Hst) as (Hr & Ha & [k Hk] & Hp & Hf).
  destruct e as [configs| |i|i|i]; cbn [step].
  - destruct (finalized d) eqn:Hfin; [done|].
    unfold enqueue. cbn [running with_hostSelected]. rewrite Hr.
    split_and!; [done|done|exists k; exact Hk|intros H; by apply Hp in H|].
    intros H. change (finalized d = true) in H. congruence.
  - destruct (timeout d) eqn:Ht; [|done].
    unfold enqueue. cbn [running with_timeout]. rewrite Hr.
    split_and!; [done|done|exists k; exact Hk|exact Hp|done].
  - destruct (sockets d !! i) as [s|] eqn:Hi; [|done].
    destruct (state s) eqn:Hs; [|done..]. cbv zeta.
    change (hostSelected (set_socket i _ d)) with (hostSelected d).
    destruct (default false (hostSelected d !! pass s)).
    + rewrite continue_idle by done.
      apply (stuck_set_socket i {| sport := sport s; state := OPEN; timer := false;
                                   settled := true; pass := pass s |}); [|by
        apply list_lookup_insert_eq; eapply lookup_lt_Some|done].
      by apply (stuck_set_socket i s).
    + rewrite continue_idle by done.
      destruct (stuck_set_socket i s {| sport := sport s; state := OPEN; timer := false;
                                        settled := true; pass := pass s |} d Hst Hi eq_refl)
        as (_ & _ & Hk' & _).
      split_and!; done.
  - destruct (sockets d !! i) as [s|] eqn:Hi; [|done].
    rewrite continue_idle by done. by apply (stuck_set_socket i s).
  - destruct (sockets d !! i) as [s|] eqn:Hi; [|done].
    destruct (timer s); [|done].
    rewrite continue_idle by done. by apply (stuck_set_socket i s).
Qed.

(** Every reachable state is a state of the invariant, or one in which the
    loop of the queue is stuck. *)
Lemma run_ginv k events : inv (run k events) ∨ stuck (run k events).
Proof.
  unfold run. generalize (or_introl (stuck (init k)) (inv_init k)).
  generalize (init k).
  induction events as [|e events IH]; intros d Hd; [done|].
  simpl. apply IH. destruct Hd as [Hd|Hd].
  - destruct (step_ginv d e Hd) as [[? _]|[? _]]; [by left|by right].
  - right. by apply step_stuck.
Qed.


Lemma continue_queue_nil d :
  queue d = [] →
  sockets (continue d) = sockets d ∧ promise (continue d) = promise d.
Proof.
  intros Hq. unfold continue. destruct (awaiting d); [|done].
  destruct (pass_settled _ d); [|done]. by rewrite Hq.
Qed.




End DiscoveryFacts.

(** Two hosts advertised under the key: the one that opens first is the
    channel, the other is closed when it opens. *)
Lemma discovery_two_hosts :
  let host p := {| Discovery.cfg_key := "k"; Discovery.description := "host";
                   Discovery.port := p |} in
  let d := Discovery.run "k"
             [Discovery.Snapshot [host 4001; host 4002];
              Discovery.SocketOpen 1; Discovery.SocketOpen 0] in
  Discovery.promise d = Discovery.Resolved 1 ∧
  Discovery.state <$> Discovery.sockets d = [Discovery.CLOSED; Discovery.OPEN] ∧
  Discovery.resolves d = 1 ∧ Discovery.rejects d = 0.
Proof. by vm_compute. Qed.

(** No host is advertised: the discovery timer rejects. *)
Lemma discovery_times_out :
  let d := Discovery.run "k" [Discovery.Snapshot []; Discovery.TimerElapsed] in
  Discovery.promise d = Discovery.Rejected ∧ Discovery.rejects d = 1.
Proof. by vm_compute. Qed.

(** A port that is not valid makes [new WebSocket] throw: the pass is
    rejected and the [.catch] of the snapshot callback rejects the discovery
    at once, while the websocket of the other candidate is still connecting.
    When that one opens, [resolve] is called after [reject], and the
    websocket stays open. *)
Lemma discovery_invalid_port :
  let host p := {| Discovery.cfg_key := "k"; Discovery.description := "host";
                   Discovery.port := p |} in
  let d := Discovery.run "k" [Discovery.Snapshot [host 4001; host (N.to_nat 70000)]] in
  let d' := Discovery.step d (Discovery.SocketOpen 0) in
  ¬ dialable "k" (Discovery.Snapshot [host 4001; host (N.to_nat 70000)]) ∧
  Discovery.promise d = Discovery.Rejected ∧ Discovery.rejects d = 1 ∧
  Discovery.state <$> Discovery.sockets d = [Discovery.CONNECTING] ∧
  Discovery.promise d' = Discovery.Rejected ∧
  Discovery.resolves d' = 1 ∧ Discovery.rejects d' = 1 ∧
  Discovery.state <$> Discovery.sockets d' = [Discovery.OPEN].
Proof.
  intros host d d'. split; [|by vm_compute].
  intros H.
  assert (Hv : Discovery.valid_port (N.to_nat 70000) = false) by (by vm_compute).
  assert (Hv' : Discovery.valid_port (N.to_nat 70000) = true).
  { apply (H (host (N.to_nat 70000))); [|done]. right. left. }
  congruence.
Qed.



(** ** Further properties of the codec *)

Section CodecFacts.
Import Codec.


(** X2: the ids of a dehydrated record are dense: its keys are the numbers
    below some [n], and [n] is not zero, so that the root, which is numbered
    first, is found under 0. *)
Theorem dehydrate_ids_dense h v d :
  dehydrateValue h v = Ok d →
  ∃ n, 0 < n ∧ ∀ i, is_Some (d !! i) ↔ i < n.
Proof.
  unfold dehydrateValue.
  set (st0 := {| cache := []; nextId := 0 |}).
  assert (Hinv0 : dinv h [] st0).
  { split; [split_and!; [done|constructor|by intros ???]|by intros ???]. }
  pose proof (serialize_spec h (dehydrate_fuel h v) v st0 [] Hinv0) as Hspec.
  destruct (serialize _ _ _ _) as [[i0 st]| |]; [|done..].
  intros [= <-]. destruct Hspec as ([Hwf _] & _ & Hv & _).
  exists (length (cache st)). split.
  - unfold idof in Hv. destruct (jsmap_get (cache st) v) as [e|] eqn:He; [|done].
    apply jsmap_get_Some_elem in He. destruct (cache st); [by apply elem_of_nil in He|].
    simpl. lia.
  - pose proof Hwf as (Hnext & Hnd & Hpos). intros i. split.
    + intros [x Hx]. apply wf_cache_record in Hx as (k & Hk); [|done].
      apply jsmap_get_Some_elem, list_elem_of_lookup in Hk as [pos Hk].
      pose proof (Hpos _ _ _ Hk) as Heq. simpl in Heq. subst pos.
      by eapply lookup_lt_Some.
    + intros Hi. destruct (lookup_lt_is_Some_2 _ _ Hi) as [[k e] Hke].
      exists (entry_value e). apply wf_cache_record; [done|]. exists k.
      pose proof (Hpos _ _ _ Hke) as Heq.
      rewrite (jsmap_get_elem (cache st) k e Hnd) by (by eapply list_elem_of_lookup_2).
      destruct e; simpl in *; by subst.
Qed.

(** X3: a record that [dehydrateValue] returns is closed: every id that
    stands in one of its arrays or under one of its property names is a key
    of the record, so that hydration never reads an absent entry. *)
Theorem dehydrate_record_closed h v d i :
  dehydrateValue h v = Ok d →
  match d !! i with
  | Some (EArr ids) => ∀ j, j ∈ ids → is_Some (d !! j)
  | Some (EObj props) => ∀ kj, kj ∈ props → is_Some (d !! kj.2)
  | _ => True
  end.
Proof.
  intros Hd. apply dehydrateValue_spec in Hd as [nu Hnum].
  destruct (d !! i) as [x|] eqn:Hi; [|done].
  destruct (Hnum) as (_ & _ & Henc & Hsur & _).
  destruct (Hsur _ _ Hi) as [k Hk]. destruct (Henc _ _ Hk) as (x' & Hx' & He).
  assert (x' = x) as -> by congruence.
  assert (Hkey : ∀ y j, nu y = Some j → is_Some (d !! j)).
  { intros y j Hy. destruct (Henc _ _ Hy) as (z & Hz & _). by eexists. }
  destruct x as [p|ids|props]; [done|..]; destruct k as [q|a]; simpl in He.
  - by destruct He as [_ ?].
  - destruct (h !! a) as [[elems|ps|name]|]; [| |done..].
    + destruct He as (ids' & [= <-] & HF). intros j Hj.
      apply list_elem_of_lookup in Hj as [n Hn].
      destruct (Forall2_lookup_r _ _ _ _ _ HF Hn) as (y & _ & Hy). by eapply Hkey.
    + by destruct He as (? & ? & _).
  - by destruct He as [_ ?].
  - destruct (h !! a) as [[elems|ps|name]|]; [| |done..].
    + by destruct He as (? & ? & _).
    + destruct He as (qs & [= ->] & HF). intros kj Hj.
      apply elem_of_assigned in Hj.
      apply list_elem_of_lookup in Hj as [n Hn].
      destruct (Forall2_lookup_r _ _ _ _ _ HF Hn) as (y & _ & _ & Hy). by eapply Hkey.
Qed.

(** X4: a function does not survive the round trip. Wherever it is reached,
    its entry in the record is the string [function_<name>], with [[anon]]
    for an empty name; and the round trip of a function returns that
    string. *)
Theorem function_becomes_placeholder h v a name :
  h !! a = Some (OFun name) →
  roundtrip h (VRef a) = Ok (VPrim (PStr (function_placeholder name)), []) ∧
  ∀ d, dehydrateValue h v = Ok d → rtc (edge h) v (VRef a) →
       ∃ i, d !! i = Some (EPrim (PStr (function_placeholder name))).
Proof.
  intros Ha. split.
  - unfold roundtrip, dehydrateValue, dehydrate_fuel. simpl. rewrite Ha. simpl.
    destruct (decide (VRef a = VRef a)); [|done]. unfold fromEntries. simpl.
    unfold hydrateValue. rewrite insert_empty, map_size_singleton.
    destruct (decide (1 = 0)); [done|].
    unfold hydrate_fuel, dget. rewrite lookup_singleton_eq. done.
  - intros d Hd Hreach. apply dehydrateValue_spec in Hd as [nu Hnum].
    destruct (numbered_complete h v nu d _ Hnum Hreach) as [i Hi].
    destruct (numbered_entry h v nu d Hnum _ _ Hi) as (x & Hx & He).
    simpl in He. rewrite Ha in He. subst x. by exists i.
Qed.

(** X5: hydration returns on every record that is not empty, has no null
    entry and has no property named [__proto__], whatever its ids are: an id
    without entry reads as undefined, and a cycle of ids is cut by the
    cache. *)
Theorem hydrate_returns_on_any_record d :
  size d ≠ 0 → (∀ i, d !! i ≠ Some (EPrim PNull)) → proto_free d →
  ∃ r hp, hydrateValue (Some d) = Ok (r, hp).
Proof.
  intros Hsize Hd Hproto. unfold hydrateValue. rewrite decide_False by done.
  pose proof (deserialize_enough_fuel d (dget d 0) (huniverse_closed d 0)) as Hfuel.
  pose proof (deserialize_throw d (hydrate_fuel d) (dget d 0)
                {| hcache := []; hheap := []; hproto := [] |}
                Hd Hproto (dget_not_null d 0 Hd) (wf_node_dget d 0)) as Hthrow.
  destruct (deserialize _ _ _ _) as [[r st]| |]; [|done..]. eauto.
Qed.

(** A property named [__proto__] sets the prototype of the new object, and
    [hydrateValue] throws when that closes a cycle of prototypes. *)
Lemma hydrate_proto_cycle_throws :
  hydrateValue (Some {[0 := EObj [("__proto__", 0)]]}) = Throw TypeError.
Proof. by vm_compute. Qed.

Lemma hydrate_proto_sets_prototype :
  let d : dehydrated := {[0 := EObj [("a", 1); ("__proto__", 1)]; 1 := EObj []]} in
  hydrateValue (Some d) = Ok (VRef 0, [OObj [("a", VRef 1)]; OObj []]) ∧
  prototypes d = [(0, 1)].
Proof. split; by vm_compute. Qed.

End CodecFacts.


Lemma dehydrate_ids_dense_witness :
  ∃ n, 0 < n ∧
       ∀ i, is_Some (({[0 := Codec.EObj [("self", 0); ("n", 1)];
                        1 := Codec.EPrim (Codec.PNum 5)]} : Codec.dehydrated) !! i)
            ↔ i < n.
Proof.
  apply (dehydrate_ids_dense
           [Codec.OObj [("self", Codec.VRef 0); ("n", Codec.VPrim (Codec.PNum 5))]]
           (Codec.VRef 0)).
  by vm_compute.
Defined.

Lemma dehydrate_record_closed_witness :
  match ({[0 := Codec.EObj [("self", 0); ("n", 1)];
           1 := Codec.EPrim (Codec.PNum 5)]} : Codec.dehydrated) !! 0 with
  | Some (Codec.EArr ids) =>
      ∀ j, j ∈ ids →
           is_Some (({[0 := Codec.EObj [("self", 0); ("n", 1)];
                       1 := Codec.EPrim (Codec.PNum 5)]} : Codec.dehydrated) !! j)
  | Some (Codec.EObj props) =>
      ∀ kj, kj ∈ props →
            is_Some (({[0 := Codec.EObj [("self", 0); ("n", 1)];
                        1 := Codec.EPrim (Codec.PNum 5)]} : Codec.dehydrated) !! kj.2)
  | _ => True
  end.
Proof.
  apply (dehydrate_record_closed
           [Codec.OObj [("self", Codec.VRef 0); ("n", Codec.VPrim (Codec.PNum 5))]]
           (Codec.VRef 0)).
  by vm_compute.
Defined.

Lemma function_becomes_placeholder_witness :
  Codec.roundtrip [Codec.OFun "resolve"] (Codec.VRef 0)
  = Ok (Codec.VPrim (Codec.PStr "function_resolve"), []).
Proof.
  apply (function_becomes_placeholder [Codec.OFun "resolve"] (Codec.VRef 0) 0 "resolve").
  reflexivity.
Defined.

Lemma hydrate_returns_on_any_record_witness :
  ∃ r hp, Codec.hydrateValue
            (Some {[0 := Codec.EArr [0; 7; 1]; 1 := Codec.EObj [("back", 0)]]})
          = Ok (r, hp).
Proof.
  apply hydrate_returns_on_any_record.
  - by vm_compute.
  - intros i Hi. apply lookup_insert_Some in Hi as [[_ Hi]|[_ Hi]]; [discriminate|].
    apply lookup_singleton_Some in Hi as [_ Hi]. discriminate.
  - intros i props Hi. apply lookup_insert_Some in Hi as [[_ Hi]|[_ Hi]]; [discriminate|].
    apply lookup_singleton_Some in Hi as [_ [= <-]]. repeat constructor. discriminate.
Defined.

(** ** Further properties of the message channel *)

Section ChannelExtras.
Import Channel.
Context {body : Type}.
Variable frames : string.

Lemma apply_op_numbers (ch : @channel body) o :
  sent_numbers ch = seq 0 (n ch) →
  sent_numbers (apply_op frames ch o) = seq 0 (n (apply_op frames ch o)) ∧
  n (apply_op frames ch o) = (if is_request o then S (n ch) else n ch).
Proof.
  unfold sent_numbers. intros Hn. destruct o as [key b|key f|m|t|key|key]; simpl.
  - rewrite omap_app, Hn. simpl. split; [|done].
    change (0 :: seq 1 (n ch)) with (seq 0 (S (n ch))). by rewrite seq_S.
  - done.
  - unfold messageHandler.
    destruct (raw_source m); [|done].
    destruct (raw_message m) as [key b|k rb isError|type]; simpl.
    + destruct (match jsmap_get (handlerRegistry ch) key with
                | Some requestHandler => requestHandler b
                | None => _
                end) as [r|[|stack]]; simpl.
      * destruct (raw_n m); simpl; [|done]. rewrite omap_app, Hn. simpl.
        by rewrite app_nil_r.
      * done.
      * destruct (raw_n m); simpl; [|done]. rewrite omap_app, Hn. simpl.
        by rewrite app_nil_r.
    + destruct (jsmap_get (responseHandlers ch) k) as [rh|]; simpl; [|done].
      unfold settle. simpl.
      by destruct (jsmap_get (promises ch) (rh_promise rh)) as [[| |]|].
    + unfold eventEmitter_emit. by case_decide.
  - unfold timeout_fires. case_decide; [|done].
    unfold settle. simpl. by destruct (jsmap_get (promises ch) t) as [[| |]|].
  - done.
  - done.
Qed.

(** A frame of type ['error'] on a channel that has no listener for
    ['error']: the emitter throws, the promise of [messageHandler] rejects,
    and ['message'] is not published. With a listener the frame is published
    like any other. *)
Lemma error_frame_without_listener (ch : @channel body) k :
  "error" ∉ (listeners ch).*1 →
  messageHandler frames
    {| raw_n := k; raw_message := OTHER "error"; raw_source := true |} ch
  = (ch, Some UnhandledError).
Proof.
  intros Hl. unfold messageHandler, eventEmitter_emit. simpl.
  by rewrite decide_True.
Qed.

Lemma error_frame_with_listener (ch : @channel body) k :
  messageHandler frames
    {| raw_n := k; raw_message := OTHER "error"; raw_source := true |}
    (on "error" ch)
  = (emit "message" (emit "error" (on "error" ch)), None).
Proof.
  unfold messageHandler, eventEmitter_emit. simpl.
  rewrite decide_False; [done|]. intros [_ Hl]. apply Hl.
  rewrite fmap_app. apply elem_of_app. right. by left.
Qed.

(** X6: the frames of requests carry the numbers 0, 1, 2, ... in the order
    in which the requests were made, whatever else happens to the channel in
    between (frames that arrive, handlers that are registered, timers that
    fire): a response frame carries no number of its own, and no number is
    used twice. *)
Theorem request_numbers_consecutive registry (ops : list (@channel_op body)) :
  let ch := run_channel frames registry ops in
  n ch = length (filter (λ o, is_request o = true) ops) ∧
  sent_numbers ch = seq 0 (n ch).
Proof.
  unfold run_channel.
  assert (H0 : sent_numbers (create registry) = seq 0 (n (@create body registry)) ∧
               n (@create body registry) = 0) by done.
  revert H0. generalize (@create body registry). intros ch0 [Hs Hn].
  assert (Hgen : ∀ (ops : list (@channel_op body)) ch, sent_numbers ch = seq 0 (n ch) →
            n (foldl (apply_op frames) ch ops)
            = n ch + length (filter (λ o, is_request o = true) ops) ∧
            sent_numbers (foldl (apply_op frames) ch ops)
            = seq 0 (n (foldl (apply_op frames) ch ops))).
  { clear. induction ops as [|o ops IH]; intros ch Hch; simpl.
    - split; [lia|done].
    - destruct (apply_op_numbers ch o Hch) as [Hs' Hn'].
      destruct (IH _ Hs') as [IH1 IH2]. split; [|done].
      rewrite IH1, Hn'. destruct (is_request o) eqn:E.
      + rewrite filter_cons_True by done. simpl. lia.
      + rewrite filter_cons_False by (by rewrite E). lia. }
  simpl. destruct (Hgen ops ch0 Hs) as [H1 H2]. split; [|done]. lia.
Qed.

(** A request whose handler throws null or undefined is left to its
    timer. *)
Lemma exchange_nullish key b (here peer : @channel body) f :
  jsmap_get (handlerRegistry peer) key = Some f → f b = Throws ThrownNullish →
  (exchange frames key b here peer).1.1 = Rejected (TimedOut TIMEOUT).
Proof.
  intros Hf Hb.
  set (frame := {| raw_n := Some (n here); raw_message := REQUEST key b;
                   raw_source := true |}).
  unfold exchange, invoke.
  destruct (request key b here) as [k here1] eqn:Hreq.
  destruct (request_state key b here) as (Hk & Hrh & Hp & Ht).
  rewrite Hreq in Hk, Hrh, Hp, Ht. simpl in Hk, Hrh, Hp, Ht. subst k.
  assert (Hnew : new_frames here here1 = [frame]).
  { apply new_frames_app. by injection Hreq as <-. }
  rewrite Hnew. simpl.
  assert (Hpeer : (messageHandler frames frame peer).1 = peer).
  { unfold messageHandler. simpl. by rewrite Hf, Hb. }
  rewrite Hpeer. unfold new_frames at 1. rewrite drop_all. simpl.
  unfold timeout_fires. rewrite decide_True by done.
  assert (Hp' : jsmap_get (promises (clearTimeout (n here) here1)) (n here)
                = Some Pending) by done.
  by rewrite (promises_settle_pending _ _ _ Hp').
Qed.

(** X7: when the handler of a request throws null or undefined, reading
    [e.stack] in the catch block throws in turn: the promise of
    [messageHandler] is rejected, no response frame is sent, and the
    requester is left to its timer, which rejects after TIMEOUT. *)
Theorem nullish_throw_unanswered key b (here peer : @channel body) f :
  jsmap_get (handlerRegistry peer) key = Some f → f b = Throws ThrownNullish →
  let frame := {| raw_n := Some (n here); raw_message := REQUEST key b;
                  raw_source := true |} in
  messageHandler frames frame peer = (peer, Some StackOfNullish) ∧
  (exchange frames key b here peer).1.1 = Rejected (TimedOut TIMEOUT).
Proof.
  intros Hf Hb frame. split.
  - unfold messageHandler. simpl. by rewrite Hf, Hb.
  - by eapply exchange_nullish.
Qed.

(** X8: the first response to a request wins. A second response frame with
    the same number finds no entry: [messageHandler] rejects with 'unexpected
    response message', emits nothing, and leaves the channel, and with it
    the outcome of the request, as it was. *)
Theorem duplicate_response_rejected (ch : @channel body) k rh rb isError rb' isError' :
  jsmap_get (responseHandlers ch) k = Some rh →
  let response b e := {| raw_n := None; raw_message := RESPONSE k b e;
                         raw_source := true |} in
  let ch' := (messageHandler frames (response rb isError) ch).1 in
  messageHandler frames (response rb' isError') ch' = (ch', Some UnexpectedResponse).
Proof.
  intros Hrh response ch'.
  assert (Hnone : jsmap_get (responseHandlers ch') k = None).
  { subst ch'. unfold messageHandler. simpl. rewrite Hrh. simpl.
    rewrite responseHandlers_settle. simpl. apply jsmap_delete_get_eq. }
  unfold messageHandler at 1. simpl. by rewrite Hnone.
Qed.

(** X9: responses are matched by number, not by order of arrival: of two
    requests in flight, the one made second may be answered first, and each
    promise is resolved with the body of its own response. *)
Theorem responses_matched_by_number (ch : @channel body) key1 a1 key2 a2 r1 r2 :
  let req1 := request key1 a1 ch in
  let req2 := request key2 a2 req1.2 in
  let k1 := req1.1 in
  let k2 := req2.1 in
  let response k b := {| raw_n := None; raw_message := RESPONSE k b false;
                         raw_source := true |} in
  let c3 := (messageHandler frames (response k2 r2) req2.2).1 in
  let c4 := (messageHandler frames (response k1 r1) c3).1 in
  k2 = S k1 ∧
  jsmap_get (promises c3) k1 = Some Pending ∧
  jsmap_get (promises c4) k1 = Some (Resolved r1) ∧
  jsmap_get (promises c4) k2 = Some (Resolved r2) ∧
  jsmap_get (responseHandlers c4) k1 = None ∧
  jsmap_get (responseHandlers c4) k2 = None ∧
  (k1 ∉ timers c4) ∧ (k2 ∉ timers c4).
Proof.
  intros req1 req2 k1 k2 response.
  assert (Hk : k2 = S k1) by done.
  assert (Hne : k1 ≠ k2) by lia.
  assert (Hne' : k2 ≠ k1) by lia.
  set (c2 := req2.2).
  assert (Hrh2 : jsmap_get (responseHandlers c2) k2
                 = Some {| rh_promise := k2; rh_timeout := k2 |}).
  { apply (request_state key2 a2 req1.2). }
  assert (Hrh1 : jsmap_get (responseHandlers c2) k1
                 = Some {| rh_promise := k1; rh_timeout := k1 |}).
  { subst c2 req2. simpl. rewrite jsmap_get_set_ne by done.
    apply jsmap_get_set_eq. }
  assert (Hp2 : jsmap_get (promises c2) k2 = Some Pending).
  { apply (request_state key2 a2 req1.2). }
  assert (Hp1 : jsmap_get (promises c2) k1 = Some Pending).
  { subst c2 req2. simpl. rewrite jsmap_get_set_ne by done.
    apply jsmap_get_set_eq. }
  intros c3.
  assert (E3 : c3 = emit "message"
                      (settle k2 (Resolved r2)
                         (clearTimeout k2 (delete_responseHandler k2 c2)))).
  { subst c3 response. unfold messageHandler. cbn [raw_source raw_message].
    by rewrite Hrh2. }
  assert (Hrh31 : jsmap_get (responseHandlers c3) k1
                  = Some {| rh_promise := k1; rh_timeout := k1 |}).
  { rewrite E3. simpl. rewrite responseHandlers_settle. simpl.
    by rewrite jsmap_delete_get_ne. }
  assert (Hp31 : jsmap_get (promises c3) k1 = Some Pending).
  { rewrite E3. cbn [promises emit]. unfold settle.
    cbn [promises clearTimeout delete_responseHandler]. rewrite Hp2.
    cbn [promises]. by rewrite jsmap_get_set_ne. }
  assert (Hp32 : jsmap_get (promises c3) k2 = Some (Resolved r2)).
  { rewrite E3. simpl. by apply promises_settle_pending. }
  intros c4.
  assert (E4 : c4 = emit "message"
                      (settle k1 (Resolved r1)
                         (clearTimeout k1 (delete_responseHandler k1 c3)))).
  { subst c4 response. unfold messageHandler. cbn [raw_source raw_message].
    by rewrite Hrh31. }
  split_and!; [done|done|..].
  - rewrite E4. simpl. by apply promises_settle_pending.
  - rewrite E4. cbn [promises emit]. unfold settle.
    cbn [promises clearTimeout delete_responseHandler]. rewrite Hp31.
    cbn [promises]. by rewrite jsmap_get_set_ne.
  - rewrite E4. simpl. rewrite responseHandlers_settle. simpl.
    apply jsmap_delete_get_eq.
  - rewrite E4. simpl. rewrite responseHandlers_settle. simpl.
    rewrite jsmap_delete_get_ne by done.
    rewrite E3. simpl. rewrite responseHandlers_settle. simpl.
    apply jsmap_delete_get_eq.
  - rewrite E4. simpl. rewrite timers_settle. simpl. apply not_elem_of_filter_ne.
  - rewrite E4. simpl. rewrite timers_settle. simpl.
    rewrite list_elem_of_filter. intros [_ Hin]. revert Hin.
    rewrite E3. simpl. rewrite timers_settle. simpl. apply not_elem_of_filter_ne.
Qed.

(** X10: a handler registered again under a key replaces the earlier one:
    a request for the key is answered by the handler registered last. *)
Theorem handle_replaces key b (here peer : @channel body) f g r :
  g b = Returns r →
  (exchange frames key b here (handle key g (handle key f peer))).1.1
  = Resolved (RValue r).
Proof.
  intros Hg. apply (exchange_returns frames key b here _ g r); [|done].
  simpl. apply jsmap_get_set_eq.
Qed.

End ChannelExtras.

Section RoutingFacts.
Import Channel Routing.
Context {body : Type}.
Variable frames : string.

(** X11: a request routed over a channel whose peer has called
    [routeMessageChannel] is served by the handler that the registry of the
    route holds for the key. It is rejected with 'no handlers known for
    given route' when the peer knows no such route, and with 'missing
    handler for <key>' when the registry of the route has no handler for
    the key; the result or the stack of the handler comes back otherwise. *)
Theorem routed_request_served (here peer : @channel (@payload body))
    routeRegistries route handlerKey b :
  let peer' := routeMessageChannel frames peer routeRegistries in
  let req := routed_invoke route handlerKey b here in
  (exchange frames ROUTED_REQUEST (Routed route handlerKey b) here peer').1.1
  = match jsmap_get routeRegistries route with
    | None =>
        Rejected (ResponseError
          (RStack (Some ("Error: no handlers known for given route" +:+ frames))))
    | Some r =>
        match jsmap_get r handlerKey with
        | None =>
            Rejected (ResponseError
              (RStack (Some ("Error: missing handler for " +:+ handlerKey +:+ frames))))
        | Some f =>
            match f b with
            | Returns x => Resolved (RValue x)
            | Throws (ThrownValue stack) => Rejected (ResponseError (RStack stack))
            | Throws ThrownNullish => Rejected (TimedOut TIMEOUT)
            end
        end
    end ∧
  sent req.2 = sent here ++
    [{| raw_n := Some req.1; raw_message := REQUEST ROUTED_REQUEST (Routed route handlerKey b);
        raw_source := true |}].
Proof.
  intros peer' req. split; [|done].
  assert (Hreg : jsmap_get (handlerRegistry peer') ROUTED_REQUEST
                 = Some (routed_handler frames routeRegistries)).
  { subst peer'. simpl. apply jsmap_get_set_eq. }
  destruct (routed_handler frames routeRegistries (Routed route handlerKey b))
    as [x|[|stack]] eqn:Hres.
  - rewrite (exchange_returns frames _ _ here peer' _ x Hreg Hres).
    simpl in Hres. destruct (jsmap_get routeRegistries route) as [r|]; [|done].
    unfold registryAsHandlers in Hres.
    destruct (jsmap_get r handlerKey) as [f|]; [|done]. by rewrite Hres.
  - rewrite (exchange_nullish frames _ _ here peer' _ Hreg Hres).
    simpl in Hres. destruct (jsmap_get routeRegistries route) as [r|]; [|done].
    unfold registryAsHandlers in Hres.
    destruct (jsmap_get r handlerKey) as [f|]; [|done]. by rewrite Hres.
  - rewrite (exchange_throws frames _ _ here peer' _ stack Hreg Hres).
    simpl in Hres. destruct (jsmap_get routeRegistries route) as [r|].
    + unfold registryAsHandlers in Hres.
      destruct (jsmap_get r handlerKey) as [f|]; [by rewrite Hres|].
      by injection Hres as <-.
    + by injection Hres as <-.
Qed.

End RoutingFacts.

Lemma nullish_throw_unanswered_witness :
  let peer := @Channel.create Z [("crash", λ _, Channel.Throws Channel.ThrownNullish)] in
  let here := @Channel.create Z [] in
  (Channel.exchange "" "crash" 1%Z here peer).1.1
  = Channel.Rejected (Channel.TimedOut Channel.TIMEOUT).
Proof.
  intros peer here.
  apply (nullish_throw_unanswered "" "crash" 1%Z here peer
           (λ _, Channel.Throws Channel.ThrownNullish)); reflexivity.
Defined.

Lemma duplicate_response_rejected_witness :
  let ch := (@Channel.request Z "k" 5%Z (Channel.create [])).2 in
  let response b := {| Channel.raw_n := None;
                       Channel.raw_message := Channel.RESPONSE 0 (Channel.RValue b) false;
                       Channel.raw_source := true |} in
  let ch' := (Channel.messageHandler "" (response 1%Z) ch).1 in
  Channel.messageHandler "" (response 2%Z) ch'
  = (ch', Some Channel.UnexpectedResponse).
Proof.
  intros ch response ch'.
  apply (duplicate_response_rejected "" ch 0
           {| Channel.rh_promise := 0; Channel.rh_timeout := 0 |}).
  reflexivity.
Defined.

Lemma handle_replaces_witness :
  let peer := @Channel.create Z [] in
  (Channel.exchange "" "f" 20%Z (Channel.create [])
     (Channel.handle "f" (λ x, Channel.Returns (x + 1)%Z)
        (Channel.handle "f" (λ x, Channel.Returns (x * 2)%Z) peer))).1.1
  = Channel.Resolved (Channel.RValue 21%Z).
Proof.
  intros peer.
  apply (handle_replaces "" "f" 20%Z (Channel.create []) peer
           (λ x, Channel.Returns (x * 2)%Z) (λ x, Channel.Returns (x + 1)%Z)).
  reflexivity.
Defined.

(** ** Further properties of discovery *)

Section DiscoveryExtras.
Import Discovery.

(** X12: the queue explores one snapshot at a time: in every reachable
    state, the websockets whose promise has not settled were all made by
    the same pass. *)
Theorem one_pass_at_a_time k events s s' :
  let d := run k events in
  s ∈ sockets d → s' ∈ sockets d →
  settled s = false → settled s' = false → pass s = pass s'.
Proof.
  intros d Hs Hs' Hu Hu'.
  destruct (run_ginv k events) as [(_ & _ & _ & Hl)|(_ & _ & [p Hp] & _)].
  - fold d in Hl. unfold loop_inv in Hl. destruct (awaiting d) as [p|].
    + destruct Hl as (_ & _ & H3 & _). by rewrite (H3 s), (H3 s').
    + destruct Hl as (_ & _ & H3). specialize (H3 s Hs). congruence.
  - fold d in Hp. by rewrite (Hp s), (Hp s').
Qed.

Lemma sockets_continue_settled d :
  queue d = [] → sockets (continue d) = sockets d.
Proof. intros H. by destruct (continue_queue_nil d H). Qed.

(** X13: once its promise is settled, discovery makes no further
    connection: whatever happens next, the websockets are the ones that
    existed when the promise was settled. *)
Theorem no_connection_after_settled k events e :
  let d := run k events in
  promise d ≠ Pending →
  sport <$> sockets (step d e) = sport <$> sockets d.
Proof.
  intros d Hp.
  assert (Hins : ∀ i s s', sockets d !! i = Some s → sport s' = sport s →
            sport <$> <[i := s']> (sockets d) = sport <$> sockets d).
  { intros i s s' Hi Hport. rewrite list_fmap_insert, Hport.
    apply list_insert_id. by rewrite list_lookup_fmap, Hi. }
  destruct (run_ginv k events) as [(Hso & Hs & Hq & Hl)|Hst];
    [fold d in Hso, Hs, Hq, Hl|fold d in Hst].
  - assert (Hfin : finalized d = true).
    { destruct (finalized d) eqn:E; [done|]. by destruct (proj1 Hso E). }
    assert (Hq0 : queue d = []) by (by apply Hq).
    destruct e as [configs| |i|i|i]; simpl.
    + by rewrite Hfin.
    + destruct (proj2 Hso Hfin) as [-> _]. done.
    + destruct (sockets d !! i) as [s|] eqn:Hi; [|done].
      destruct (state s); [|done..].
      rewrite sockets_continue_settled.
      * destruct (default false _); simpl.
        -- rewrite list_insert_insert_eq. by apply (Hins i s).
        -- by apply (Hins i s).
      * by destruct (default false _).
    + destruct (sockets d !! i) as [s|] eqn:Hi; [|done].
      rewrite sockets_continue_settled by done. by apply (Hins i s).
    + destruct (sockets d !! i) as [s|] eqn:Hi; [|done].
      destruct (timer s); [|done].
      rewrite sockets_continue_settled by done. by apply (Hins i s).
  - destruct (Hst) as (Hr & Ha & _ & Hpf & Hft).
    destruct e as [configs| |i|i|i]; cbn [step].
    + destruct (finalized d); [done|].
      unfold enqueue. cbn [running with_hostSelected]. by rewrite Hr.
    + destruct (timeout d); [|done].
      unfold enqueue. cbn [running with_timeout]. by rewrite Hr.
    + destruct (sockets d !! i) as [s|] eqn:Hi; [|done].
      destruct (state s); [|done..]. cbv zeta.
      rewrite continue_idle by (by destruct (default false _)).
      destruct (default false _); simpl.
      * rewrite list_insert_insert_eq. by apply (Hins i s).
      * by apply (Hins i s).
    + destruct (sockets d !! i) as [s|] eqn:Hi; [|done].
      rewrite continue_idle by done. by apply (Hins i s).
    + destruct (sockets d !! i) as [s|] eqn:Hi; [|done].
      destruct (timer s); [|done].
      rewrite continue_idle by done. by apply (Hins i s).
Qed.

Lemma made_for_set_socket seen i s s' d :
  made_for seen d → sockets d !! i = Some s → sport s' = sport s →
  made_for seen (set_socket i s' d).
Proof.
  intros [H1 H2] Hi Hp. split; [|done].
  intros x Hx. simpl in Hx. apply elem_of_insert_inv in Hx as [->|Hx]; [|by apply H1].
  rewrite Hp. apply H1. by apply list_elem_of_lookup_2 in Hi.
Qed.

Lemma made_for_drain seen jobs d :
  (∀ s, s ∈ sockets d →
     ∃ configs c, seen configs ∧ c ∈ configs ∧ cfg_key c = key d ∧ port c = sport s) →
  (∀ p configs, Explore p configs ∈ jobs → seen configs) →
  made_for seen (drain jobs d) ∧ key (drain jobs d) = key d.
Proof.
  revert d. induction jobs as [|j rest IH]; intros d Hs Hj.
  - simpl. split; [split; [done|]|done]. intros p c Hin. by apply elem_of_nil in Hin.
  - assert (Hrest : ∀ p configs, Explore p configs ∈ rest → seen configs).
    { intros p c Hin. apply (Hj p c). by right. }
    destruct j as [p configs|]; cbn [drain].
    + destruct (candidates d configs) as [|q ports] eqn:Hc.
      * destruct (IH (with_queue rest true None d)) as [IH1 IH2]; done.
      * assert (Hnew : ∀ s, s ∈ sockets d ++ omap (createOpenSocket p) (q :: ports) →
                  ∃ configs c, seen configs ∧ c ∈ configs ∧ cfg_key c = key d ∧
                               port c = sport s).
        { intros s Hin. apply elem_of_app in Hin as [Hin|Hin]; [by apply Hs|].
          apply elem_of_createOpenSocket in Hin as (q' & Hq & ->). rewrite <- Hc in Hq.
          unfold candidates in Hq. apply list_elem_of_fmap in Hq as (c & -> & Hcin).
          apply list_elem_of_filter in Hcin as [Hkey Hcin].
          exists configs, c. split_and!; try done. apply (Hj p). by left. }
        destruct (forallb valid_port (q :: ports)); [by split; [split|]|].
        destruct (catches d); (split; [split|done]); try done.
        intros p' c' Hin. by apply elem_of_nil in Hin.
    + destruct (finalized d).
      * destruct (IH (with_queue rest true None d)) as [IH1 IH2]; done.
      * split; [split; [done|]|done]. intros p c Hin. by apply elem_of_nil in Hin.
Qed.

Lemma made_for_continue seen d :
  made_for seen d → made_for seen (continue d) ∧ key (continue d) = key d.
Proof.
  intros [H1 H2]. unfold continue. destruct (awaiting d); [|done].
  destruct (pass_settled _ d); [|done]. by apply made_for_drain.
Qed.

Lemma made_for_enqueue seen j d :
  made_for seen d → (∀ p configs, j = Explore p configs → seen configs) →
  made_for seen (enqueue j d) ∧ key (enqueue j d) = key d.
Proof.
  intros [H1 H2] Hj.
  assert (Hq : ∀ p configs, Explore p configs ∈ queue d ++ [j] → seen configs).
  { intros p c Hin. apply elem_of_app in Hin as [Hin|Hin]; [by eapply H2|].
    apply list_elem_of_singleton in Hin. by eapply Hj. }
  unfold enqueue. destruct (running d); [done|].
  by apply (made_for_drain seen _ (with_catches _ d)).
Qed.

Lemma made_for_step seen d e :
  made_for seen d → (∀ configs, e = Snapshot configs → seen configs) →
  made_for seen (step d e) ∧ key (step d e) = key d.
Proof.
  intros Hm He. destruct e as [configs| |i|i|i]; simpl.
  - destruct (finalized d); [done|].
    apply (made_for_enqueue seen _ (with_hostSelected _ d)); [done|].
    intros p c [= _ <-]. by apply He.
  - destruct (timeout d); [|done].
    by apply (made_for_enqueue seen _ (with_timeout false d)).
  - destruct (sockets d !! i) as [s|] eqn:Hi; [|done].
    destruct (state s); [|done..].
    match goal with |- context [continue ?x] =>
      assert (Hx : made_for seen x ∧ key x = key d) end.
    { destruct (default false _); simpl.
      - split; [|done].
        destruct Hm as [H1 H2]. split; [|done]. intros x Hx. simpl in Hx.
        rewrite list_insert_insert_eq in Hx.
        apply elem_of_insert_inv in Hx as [->|Hx]; [|by apply H1].
        simpl. apply H1. by apply list_elem_of_lookup_2 in Hi.
      - split; [|done]. destruct Hm as [H1 H2]. split.
        + intros x Hx. simpl in Hx.
          apply elem_of_insert_inv in Hx as [->|Hx]; [|by apply H1].
          simpl. apply H1. by apply list_elem_of_lookup_2 in Hi.
        + intros p c Hin. by apply elem_of_nil in Hin. }
    destruct Hx as [Hx1 Hx2]. destruct (made_for_continue seen _ Hx1) as [? Hk].
    split; [done|]. by rewrite Hk.
  - destruct (sockets d !! i) as [s|] eqn:Hi; [|done].
    destruct (made_for_continue seen _ (made_for_set_socket seen i s
      {| sport := sport s; state := CLOSED; timer := timer s;
         settled := true; pass := pass s |} d Hm Hi eq_refl)) as [? Hk].
    by rewrite Hk.
  - destruct (sockets d !! i) as [s|] eqn:Hi; [|done].
    destruct (timer s); [|done].
    destruct (made_for_continue seen _ (made_for_set_socket seen i s
      {| sport := sport s; state := CLOSED; timer := false;
         settled := true; pass := pass s |} d Hm Hi eq_refl)) as [? Hk].
    by rewrite Hk.
Qed.

(** X14: discovery connects only to hosts that are advertised under its
    key: the port of every websocket is the port of a configuration with
    that key in one of the snapshots received. *)
Theorem connects_to_own_key_only k events s :
  s ∈ sockets (run k events) →
  ∃ configs c, Snapshot configs ∈ events ∧ c ∈ configs ∧
               cfg_key c = k ∧ port c = sport s.
Proof.
  set (seen := λ configs, Snapshot configs ∈ events).
  assert (Hgen : ∀ evs d, made_for seen d →
            (∀ e, e ∈ evs → ∀ configs, e = Snapshot configs → seen configs) →
            made_for seen (foldl step d evs) ∧ key (foldl step d evs) = key d).
  { induction evs as [|e evs IH]; intros d Hd Hevs; [done|]. simpl.
    destruct (made_for_step seen d e Hd) as [H1 H2].
    { apply Hevs. by left. }
    destruct (IH (step d e) H1) as [H3 H4].
    { intros e' He'. apply Hevs. by right. }
    split; [done|]. by rewrite H4. }
  destruct (Hgen events (init k)) as [[H1 _] Hk].
  { split; simpl.
    - intros x Hin. by apply elem_of_nil in Hin.
    - intros p c Hin. by apply elem_of_nil in Hin. }
  { intros e He configs ->. done. }
  intros Hs. destruct (H1 s Hs) as (configs & c & ? & ? & Hkey & ?).
  exists configs, c. split_and!; try done. by rewrite Hkey, Hk.
Qed.

End DiscoveryExtras.

Lemma one_pass_at_a_time_witness :
  let host p := {| Discovery.cfg_key := "k"; Discovery.description := "host";
                   Discovery.port := p |} in
  let s p := {| Discovery.sport := p; Discovery.state := Discovery.CONNECTING;
                Discovery.timer := true; Discovery.settled := false;
                Discovery.pass := 1 |} in
  Discovery.sockets
    (Discovery.run "k" [Discovery.Snapshot []; Discovery.Snapshot [host 4001; host 4002]])
  = [s 4001; s 4002] ∧
  Discovery.pass (s 4001) = Discovery.pass (s 4002).
Proof.
  intros host s. split; [reflexivity|].
  apply (one_pass_at_a_time "k"
           [Discovery.Snapshot []; Discovery.Snapshot [host 4001; host 4002]]).
  - left.
  - right. left.
  - reflexivity.
  - reflexivity.
Defined.

Lemma no_connection_after_settled_witness :
  let host p := {| Discovery.cfg_key := "k"; Discovery.description := "host";
                   Discovery.port := p |} in
  let d := Discovery.run "k" [Discovery.Snapshot [host 4001]; Discovery.SocketOpen 0] in
  Discovery.promise d = Discovery.Resolved 0 ∧
  Discovery.sport <$> Discovery.sockets
                        (Discovery.step d (Discovery.Snapshot [host 4002; host 4003]))
  = Discovery.sport <$> Discovery.sockets d.
Proof.
  intros host d. split; [reflexivity|].
  apply (no_connection_after_settled "k"
           [Discovery.Snapshot [host 4001]; Discovery.SocketOpen 0]).
  discriminate.
Defined.

Lemma connects_to_own_key_only_witness :
  let mine := {| Discovery.cfg_key := "k"; Discovery.description := "mine";
                 Discovery.port := 4001 |} in
  let other := {| Discovery.cfg_key := "j"; Discovery.description := "other";
                  Discovery.port := 4002 |} in
  let s := {| Discovery.sport := 4001; Discovery.state := Discovery.CONNECTING;
              Discovery.timer := true; Discovery.settled := false;
              Discovery.pass := 0 |} in
  Discovery.sockets (Discovery.run "k" [Discovery.Snapshot [other; mine]]) = [s] ∧
  ∃ configs c, Discovery.Snapshot configs ∈ [Discovery.Snapshot [other; mine]] ∧
               c ∈ configs ∧ Discovery.cfg_key c = "k" ∧
               Discovery.port c = Discovery.sport s.
Proof.
  intros mine other s. split; [reflexivity|].
  apply (connects_to_own_key_only "k" [Discovery.Snapshot [other; mine]] s).
  left.
Defined.

(** ** Further properties of the global context store *)

Section StoreExtras.
Import GlobalContext.
Context {content : Type}.
Implicit Types (w : @world content).

Lemma jsmap_delete_filter {K V} `{EqDecision K} (m : list (K * V)) k :
  jsmap_delete m k = filter (λ kv, kv.1 ≠ k) m.
Proof.
  induction m as [|[k' v] m IH]; [done|]. simpl.
  destruct (decide (k' = k)) as [->|Hne].
  - rewrite filter_cons_False by (simpl; tauto). done.
  - rewrite filter_cons_True by done. by rewrite IH.
Qed.

Lemma jsmap_delete_set {K V} `{EqDecision K} (m : list (K * V)) k v :
  jsmap_delete (jsmap_set m k v) k = jsmap_delete m k.
Proof.
  induction m as [|[k' v'] m IH]; simpl.
  - by rewrite decide_True.
  - destruct (decide (k' = k)) as [->|Hne]; simpl.
    + by rewrite decide_True.
    + rewrite decide_False by done. by rewrite IH.
Qed.

(** X15: the function that [exposeGlobalContext] returns removes the file
    that was written, and nothing else: the directory of the key is what it
    was before, without any file of that name, and the other directories are
    untouched. Calling it again finds no file and changes nothing. *)
Theorem hide_after_expose pid i key c w :
  let exposed := exposeGlobalContext pid i key c w in
  let w1 := exposed.1 in
  let contextPath := exposed.2 in
  let w2 := hideGlobalContext key contextPath w1 in
  jsmap_get (readdir key w1) contextPath = Some {| mtime := now w; fdata := Json c |} ∧
  readdir key w2 = filter (λ nf, nf.1 ≠ contextPath) (readdir key w) ∧
  (∀ key', key' ≠ key → readdir key' w2 = readdir key' w) ∧
  hideGlobalContext key contextPath w2 = w2.
Proof.
  intros exposed w1 path w2.
  set (f := {| mtime := now w; fdata := Json c |}).
  assert (E1 : readdir key w1 = jsmap_set (readdir key w) path f).
  { subst w1 exposed. unfold readdir. simpl. by rewrite decide_True. }
  assert (E1' : ∀ key', key' ≠ key → readdir key' w1 = readdir key' w).
  { intros key' Hne. subst w1 exposed. unfold readdir. simpl.
    by rewrite decide_False. }
  assert (Hget : jsmap_get (readdir key w1) path = Some f).
  { rewrite E1. apply jsmap_get_set_eq. }
  assert (E2 : w2 = set_dir key (jsmap_delete (readdir key w1) path) w1).
  { subst w2. unfold hideGlobalContext, unlinkSync. by rewrite Hget. }
  assert (E3 : readdir key w2 = jsmap_delete (readdir key w) path).
  { rewrite E2. unfold set_dir, with_fs, readdir in *. cbn [fs].
    rewrite decide_True by done. by rewrite E1, jsmap_delete_set. }
  split_and!.
  - done.
  - rewrite E3. apply jsmap_delete_filter.
  - intros key' Hne. rewrite <- (E1' key' Hne). rewrite E2.
    unfold set_dir, with_fs, readdir. cbn [fs]. by rewrite decide_False.
  - unfold hideGlobalContext, unlinkSync. rewrite E3.
    by rewrite jsmap_delete_get_eq.
Qed.

Lemma filter_ext_elem {A} (P Q : A → Prop) `{∀ x, Decision (P x)}
    `{∀ x, Decision (Q x)} (l : list A) :
  (∀ x, x ∈ l → (P x ↔ Q x)) → filter P l = filter Q l.
Proof.
  induction l as [|x l IH]; intros HPQ; [done|].
  rewrite !filter_cons. rewrite IH by (intros y Hy; apply HPQ; by right).
  destruct (decide (P x)) as [HP|HP], (decide (Q x)) as [HQ|HQ]; try done.
  - destruct HQ. apply HPQ; [by left|done].
  - destruct HP. apply HPQ; [by left|done].
Qed.

Lemma filter_all {A} (P : A → Prop) `{∀ x, Decision (P x)} (l : list A) :
  (∀ x, x ∈ l → P x) → filter P l = l.
Proof.
  induction l as [|x l IH]; intros HP; [done|].
  rewrite filter_cons_True by (apply HP; by left).
  rewrite IH; [done|]. intros y Hy. apply HP. by right.
Qed.

Lemma NoDup_fst_filter {A B} (P : A * B → Prop) `{∀ x, Decision (P x)}
    (l : list (A * B)) :
  NoDup l.*1 → NoDup (filter P l).*1.
Proof.
  induction l as [|x l IH]; [done|]. rewrite fmap_cons, NoDup_cons.
  intros [Hx Hl]. rewrite filter_cons. destruct (decide (P x)); [|by apply IH].
  rewrite fmap_cons, NoDup_cons. split; [|by apply IH].
  intros Hin. apply Hx. apply list_elem_of_fmap in Hin as (y & -> & Hy).
  apply list_elem_of_filter in Hy as [_ Hy]. apply list_elem_of_fmap. by exists y.
Qed.

Lemma watcher_key_update_watcher wid wid' f w :
  (∀ v, wkey (f v) = wkey v) →
  watcher_key wid' (update_watcher wid f w) = watcher_key wid' w.
Proof.
  intros Hf. unfold watcher_key, update_watcher.
  destruct (watchers w !! wid) as [x|] eqn:Hx; [|done]. simpl.
  destruct (decide (wid' = wid)) as [->|Hne].
  - rewrite list_lookup_insert_eq by (by eapply lookup_lt_Some).
    rewrite Hx. simpl. by rewrite Hf.
  - by rewrite list_lookup_insert_ne.
Qed.

(** What one step of [readAll] does to the directory of the watcher. *)
Lemma readAll_entry_dir wid w name :
  let key := watcher_key wid w in
  let w' := readAll_entry wid w name in
  boot w' = boot w ∧ watcher_key wid w' = key ∧
  readdir key w' =
    match jsmap_get (readdir key w) name with
    | Some f => if decide (mtime f < boot w)%Z
                then jsmap_delete (readdir key w) name else readdir key w
    | None => readdir key w
    end.
Proof.
  intros key w'. subst w'. unfold readAll_entry. fold key.
  destruct (jsmap_get (readdir key w) name) as [f|] eqn:Hf; [|done].
  destruct (decide (mtime f < boot w)%Z) as [Hold|Hnew].
  - unfold unlinkSync. rewrite Hf. unfold set_dir, with_fs, readdir. cbn [fs].
    split_and!; [done|done|]. by rewrite decide_True.
  - unfold eventTriggered. fold key. rewrite Hf.
    destruct f as [m [c|]]; simpl.
    + split_and!; [|by apply watcher_key_update_watcher|].
      * unfold update_watcher. by destruct (watchers w !! wid).
      * unfold update_watcher, readdir. by destruct (watchers w !! wid).
    + done.
Qed.

(** X16: the scan that a new watcher makes of its directory deletes the
    files that were written before the system started, and only those: the
    directory is left with its files whose modification time is not before
    the boot time, in their order. *)
Theorem readAll_keeps_recent_files wid w :
  let key := watcher_key wid w in
  NoDup (readdir key w).*1 →
  readdir key (readAll wid w)
  = filter (λ nf, (boot w ≤ mtime nf.2)%Z) (readdir key w).
Proof.
  intros key Hnd. unfold readAll. fold key.
  assert (Hgen : ∀ names w0, watcher_key wid w0 = key → NoDup (readdir key w0).*1 →
            readdir key (foldl (readAll_entry wid) w0 names)
            = filter (λ nf, ¬ (nf.1 ∈ names ∧ (mtime nf.2 < boot w0)%Z)) (readdir key w0) ∧
            boot (foldl (readAll_entry wid) w0 names) = boot w0).
  { clear. induction names as [|name names IH]; intros w0 Hkey Hnd0; simpl.
    - split; [|done]. symmetry. apply filter_all. intros x _ [Hin _].
      by apply elem_of_nil in Hin.
    - destruct (readAll_entry_dir wid w0 name) as (Hb & Hk & Hd).
      rewrite Hkey in Hk, Hd.
      set (w1 := readAll_entry wid w0 name) in *.
      assert (Hnd1 : NoDup (readdir key w1).*1).
      { rewrite Hd. destruct (jsmap_get (readdir key w0) name) as [f|]; [|done].
        case_decide; [|done]. rewrite jsmap_delete_filter.
        by apply NoDup_fst_filter. }
      destruct (IH w1 Hk Hnd1) as [IH1 IH2]. rewrite IH1, IH2, Hb. split; [|done].
      rewrite Hd.
      assert (Huniq : ∀ f nf, jsmap_get (readdir key w0) name = Some f →
                nf ∈ readdir key w0 → nf.1 = name → nf.2 = f).
      { intros f [n' f'] Hget Hin Hn. simpl in *. subst n'.
        apply (jsmap_get_elem _ _ _ Hnd0) in Hin. congruence. }
      destruct (jsmap_get (readdir key w0) name) as [f|] eqn:Hget.
      + destruct (decide (mtime f < boot w0)%Z) as [Hold|Hnew].
        * rewrite jsmap_delete_filter, list_filter_filter.
          apply filter_ext_elem. intros nf Hin. rewrite elem_of_cons. split.
          -- intros [Hn Hne] [[Heq|Hin'] Hlt]; [by destruct Hne|]. by apply Hn.
          -- intros Hn. split.
             ++ intros [Hin' Hlt]. apply Hn. split; [by right|done].
             ++ intros Heq. apply Hn. split; [by left|].
                by rewrite (Huniq f nf eq_refl Hin Heq).
        * apply filter_ext_elem. intros nf Hin. rewrite elem_of_cons. split.
          -- intros Hn [[Heq|Hin'] Hlt]; [|by apply Hn].
             rewrite (Huniq f nf eq_refl Hin Heq) in Hlt. lia.
          -- intros Hn [Hin' Hlt]. apply Hn. split; [by right|done].
      + apply filter_ext_elem. intros nf Hin. rewrite elem_of_cons. split.
        * intros Hn [[Heq|Hin'] Hlt]; [|by apply Hn].
          apply jsmap_get_None in Hget. apply Hget.
          apply list_elem_of_fmap. by exists nf.
        * intros Hn [Hin' Hlt]. apply Hn. split; [by right|done]. }
  destruct (Hgen (readdir key w).*1 w eq_refl Hnd) as [-> _].
  apply filter_ext_elem. intros nf Hin. split.
  - intros Hn. destruct (decide (boot w ≤ mtime nf.2)%Z); [done|].
    destruct Hn. split; [|lia]. apply list_elem_of_fmap. by exists nf.
  - intros Hle [_ Hlt]. lia.
Qed.

Lemma update_watcher_frame wid f w :
  fs (update_watcher wid f w) = fs w ∧
  globalContextWatchers (update_watcher wid f w) = globalContextWatchers w ∧
  immediates (update_watcher wid f w) = immediates w ∧
  timers (update_watcher wid f w) = timers w ∧
  subscriptions (update_watcher wid f w) = subscriptions w.
Proof. unfold update_watcher. by destruct (watchers w !! wid). Qed.

Lemma getGlobalContextWatcher_registered key w :
  jsmap_get (globalContextWatchers (getGlobalContextWatcher key w).2) key
  = Some (getGlobalContextWatcher key w).1.
Proof.
  unfold getGlobalContextWatcher.
  destruct (jsmap_get (globalContextWatchers w) key) as [wid|] eqn:Hreg; [done|].
  simpl. apply jsmap_get_set_eq.
Qed.

(** X17: a second subscription to a key reuses the watcher of the first:
    the directory is not scanned again and no second purge interval is
    armed; the new subscriber is given the next name and is sent its first
    notification. *)
Theorem second_watch_shares_watcher key kind kind' w :
  let sub1 := watchGlobalContext key kind w in
  let w1 := sub1.2 in
  let sub2 := watchGlobalContext key kind' w1 in
  let w2 := sub2.2 in
  sub2.1.1 = sub1.1.1 ∧
  sub2.1.2 = S sub1.1.2 ∧
  timers w2 = timers w1 ∧
  fs w2 = fs w1 ∧
  globalContextWatchers w2 = globalContextWatchers w1 ∧
  immediates w2 = immediates w1 ++ [TFirst sub2.1.1 sub2.1.2].
Proof.
  intros sub1 w1 sub2 w2.
  pose proof (getGlobalContextWatcher_registered key w) as Hreg.
  assert (Hsub1 : sub1 = watchGlobalContext key kind w) by done.
  unfold watchGlobalContext in Hsub1.
  destruct (getGlobalContextWatcher key w) as [wid wa] eqn:Hg. simpl in Hreg.
  set (s1 := length (subscriptions wa)) in *.
  set (wb := with_subscriptions (subscriptions wa ++ [kind wid s1]) wa) in *.
  assert (Hw1 : w1 = subscribe wid s1 wb) by (subst w1; by rewrite Hsub1).
  assert (H11 : sub1.1.1 = wid) by (by rewrite Hsub1).
  assert (H12 : sub1.1.2 = s1) by (by rewrite Hsub1).
  destruct (update_watcher_frame wid
              (λ v, if decide (s1 ∈ subscribers v) then v
                    else set_subscribers (subscribers v ++ [s1]) v) wb)
    as (_ & Hr1 & _ & _ & Hs1).
  assert (Hreg1 : jsmap_get (globalContextWatchers w1) key = Some wid).
  { rewrite Hw1. unfold subscribe. simpl. by rewrite Hr1. }
  assert (Hlen1 : length (subscriptions w1) = S s1).
  { rewrite Hw1. unfold subscribe. simpl. rewrite Hs1. simpl.
    rewrite length_app. simpl. lia. }
  assert (Hsub2 : sub2 = watchGlobalContext key kind' w1) by done.
  unfold watchGlobalContext, getGlobalContextWatcher in Hsub2.
  rewrite Hreg1, Hlen1 in Hsub2.
  set (wc := with_subscriptions (subscriptions w1 ++ [kind' wid (S s1)]) w1) in *.
  destruct (update_watcher_frame wid
              (λ v, if decide (S s1 ∈ subscribers v) then v
                    else set_subscribers (subscribers v ++ [S s1]) v) wc)
    as (Hf2 & Hr2 & Hi2 & Ht2 & _).
  subst w2. rewrite Hsub2, H11, H12. unfold subscribe. simpl.
  rewrite Hf2, Hr2, Hi2, Ht2. done.
Qed.

(** One step of [readAll] on a recent, well-formed file that the watcher
    does not hold yet. *)
Lemma readAll_entry_good wid w v name f c :
  watchers w !! wid = Some v →
  jsmap_get (readdir (wkey v) w) name = Some f →
  (boot w ≤ mtime f)%Z → fdata f = Json c → name ∉ (configByFileName v).*1 →
  readAll_entry wid w name
  = with_immediates (immediates w ++ [TEmit wid])
      (with_watchers
         (<[wid := set_config (configByFileName v ++ [(name, c)]) v]> (watchers w)) w).
Proof.
  intros Hv Hf Hm Hc Hfresh.
  assert (Hkey : watcher_key wid w = wkey v) by (unfold watcher_key; by rewrite Hv).
  unfold readAll_entry. rewrite Hkey, Hf. rewrite decide_False by lia.
  unfold eventTriggered. rewrite Hkey, Hf. destruct f as [m d]. simpl in Hc. subst d.
  unfold update_watcher. rewrite Hv.
  rewrite jsmap_set_fresh by (by apply jsmap_get_None). done.
Qed.

Lemma readAll_good wid files : ∀ cs w v,
  watchers w !! wid = Some v →
  Forall2 (λ nf c, jsmap_get (readdir (wkey v) w) nf.1 = Some nf.2 ∧
                   (boot w ≤ mtime nf.2)%Z ∧ fdata nf.2 = Json c) files cs →
  NoDup (files.*1 ++ (configByFileName v).*1) →
  foldl (readAll_entry wid) w files.*1
  = with_immediates (immediates w ++ replicate (length files) (TEmit wid))
      (with_watchers
         (<[wid := set_config (configByFileName v ++ zip files.*1 cs) v]> (watchers w)) w).
Proof.
  induction files as [|[name f] files IH]; intros cs w v Hv HF Hnd.
  - simpl. rewrite !app_nil_r.
    replace (set_config (configByFileName v) v) with v by (by destruct v).
    rewrite list_insert_id by done. by destruct w.
  - inversion HF as [|? c ? cs' (Hget & Hm & Hc) HF']; subst.
    rewrite fmap_cons in Hnd |- *. cbn [fst snd foldl app] in *.
    apply NoDup_cons in Hnd as [Hname Hnd].
    rewrite (readAll_entry_good wid w v name f c) by (try done; set_solver).
    set (v' := set_config (configByFileName v ++ [(name, c)]) v).
    set (w' := with_immediates _ _).
    assert (Hv' : watchers w' !! wid = Some v').
    { subst w'. simpl. apply list_lookup_insert_eq. by eapply lookup_lt_Some. }
    rewrite (IH cs' w' v' Hv').
    + subst w' v'. simpl. rewrite list_insert_insert_eq.
      rewrite <- !app_assoc. done.
    + exact HF'.
    + subst v'. simpl. rewrite fmap_app. simpl.
      apply NoDup_app in Hnd as (H1 & H2 & H3).
      apply NoDup_app. split_and!; [done| |].
      * intros x Hx. rewrite elem_of_app, list_elem_of_singleton.
        intros [Hin| ->]; [by eapply H2|]. apply Hname. set_solver.
      * apply NoDup_app. split_and!; [done| |apply NoDup_singleton].
        intros x Hx ->%list_elem_of_singleton. apply Hname. set_solver.
Qed.

Lemma purge_all_alive wid w v :
  watchers w !! wid = Some v →
  (∀ nm, nm ∈ (configByFileName v).*1 →
         ∃ pid seq, nm = CtxFile pid seq ∧ kill0 w pid ≠ ESRCH) →
  purge wid w = w ∨ purge wid w = update_watcher wid (set_lastCalled (now w)) w.
Proof.
  intros Hv Halive. unfold purge. rewrite Hv. case_decide; [right|by left].
  set (w1 := update_watcher wid _ w).
  assert (Hk : kill0 w1 = kill0 w).
  { subst w1. unfold update_watcher. by rewrite Hv. }
  assert (Hfold : ∀ names, (∀ nm, nm ∈ names →
                     ∃ pid seq, nm = CtxFile pid seq ∧ kill0 w pid ≠ ESRCH) →
            foldl (purge_entry wid) (w1, false) names = (w1, false)).
  { induction names as [|nm names IH]; intros Hn; [done|]. cbn [foldl].
    destruct (Hn nm) as (pid & seq & Hnm & Hp); [by left|].
    rewrite (purge_entry_running wid w1 false nm pid seq Hnm) by (by rewrite Hk).
    apply IH. intros nm' Hin. apply Hn. by right. }
  by rewrite Hfold.
Qed.

Lemma run_task_idle wid w :
  subscribers_of wid w = [] → run_task w (TEmit wid) = w.
Proof. intros H. simpl. by rewrite H. Qed.

Lemma run_tasks_idle wid n w :
  subscribers_of wid w = [] → foldl run_task w (replicate n (TEmit wid)) = w.
Proof.
  intros H. induction n as [|n IH]; [done|]. cbn [replicate foldl].
  by rewrite run_task_idle.
Qed.

Lemma onChange_getAll s p t wid configs w :
  subscriptions w !! s = Some (GetAll p t wid) →
  onChange s configs w
  = settle p (Resolved configs)
      (record (Resolve p configs) (clearTimer t (unsubscribe wid s w))).
Proof. intros H. unfold onChange. by rewrite H. Qed.

(** The last subscriber goes: the watcher leaves the registry, is closed,
    and its purge interval is cleared. *)
Lemma unsubscribe_last wid s w v :
  watchers w !! wid = Some v → filter (λ s', s' ≠ s) (subscribers v) = [] →
  unsubscribe wid s w
  = with_timers (filter (λ it, it.2 ≠ PurgeInterval wid) (timers w)) (next_timer w)
      (with_watchers (<[wid := set_closed (set_subscribers [] v)]> (watchers w))
         (with_registry (jsmap_delete (globalContextWatchers w) (wkey v))
            (with_log (log w ++ [Unsubscribe wid s]) w))).
Proof.
  intros Hv Hs. unfold unsubscribe.
  assert (Hlt : wid < length (watchers w)) by (by eapply lookup_lt_Some).
  assert (E1 : update_watcher wid
                 (λ v, set_subscribers (filter (λ s', s' ≠ s) (subscribers v)) v) w
               = with_watchers (<[wid := set_subscribers [] v]> (watchers w)) w).
  { unfold update_watcher. by rewrite Hv, Hs. }
  rewrite E1. cbv zeta.
  unfold subscribers_of, watcher_key, record.
  cbn [watchers with_log with_watchers log].
  rewrite list_lookup_insert_eq by done.
  cbn [fmap option_fmap option_map default subscribers set_subscribers wkey].
  unfold update_watcher.
  cbn [watchers with_registry with_log with_watchers].
  rewrite list_lookup_insert_eq by done.
  rewrite list_insert_insert_eq. reflexivity.
Qed.

(** X18: in a process that has not used the store yet,
    [getAllGlobalContexts] of a key whose files are all recent, well-formed
    and written by running processes is resolved in the first check phase
    with the contents of those files, in the order of the directory (for an
    empty directory, with the empty list). By then its watcher is
    unregistered and closed and no timer is left: the timeout of 500 ms has
    been cleared and can no longer reject. *)
Theorem getAll_resolves_with_directory key cs (w : @world content) :
  fresh_process w → NoDup (readdir key w).*1 →
  Forall2 (live_entry w) (readdir key w) cs →
  let call := getAllGlobalContexts key w in
  let p := call.1.1.1.1 in
  let timeout := call.1.1.1.2 in
  let w2 := run_immediates call.2 in
  promises w2 !! p = Some (Resolved cs) ∧
  timers w2 = [] ∧ globalContextWatchers w2 = [] ∧
  fire timeout w2 = w2.
Proof.
  intros (Hreg & Hw & Hsub & Him & Htm & Hnt & Hlog) Hnd Hdir.
  destruct w as [F K N B reg ws subs imm tms nt P lg].
  simpl in Hreg, Hw, Hsub, Him, Htm, Hnt, Hlog. subst.
  unfold readdir in Hnd, Hdir. cbn [fs] in Hnd, Hdir.
  set (dir := F key) in *.
  pose (W := λ cfg lc sb cl reg sbs imm tms nt proms lg,
     {| fs := F; kill0 := K; now := N; boot := B;
        globalContextWatchers := reg;
        watchers := [{| wkey := key; subscribers := sb; configByFileName := cfg;
                        lastCalled := lc; closed := cl |}];
        subscriptions := sbs; immediates := imm; timers := tms; next_timer := nt;
        promises := proms; log := lg |}).
  set (p := length P).
  set (n := length dir).
  set (cfg := zip dir.*1 cs).
  assert (Hlen : length cs = n) by (symmetry; by eapply Forall2_length).
  assert (Hcfg2 : cfg.*2 = cs) by (apply snd_zip; rewrite length_fmap; lia).
  assert (Hcfg1 : cfg.*1 = dir.*1) by (apply fst_zip; rewrite length_fmap; lia).
  assert (EA : readAll 0 (W [] 0%Z [] false [] [] [] [] 1 (P ++ [Pending]) [])
               = W cfg 0%Z [] false [] [] (replicate n (TEmit 0)) [] 1 (P ++ [Pending]) []).
  { unfold readAll.
    change (watcher_key 0 (W [] 0%Z [] false [] [] [] [] 1 (P ++ [Pending]) [])) with key.
    change (readdir key (W [] 0%Z [] false [] [] [] [] 1 (P ++ [Pending]) [])) with dir.
    rewrite (readAll_good 0 dir cs _
               {| wkey := key; subscribers := []; configByFileName := [];
                  lastCalled := 0; closed := false |}); [done|done| |].
    - apply Forall2_same_length_lookup. split; [by rewrite Hlen|].
      intros i nf c Hnf Hc.
      destruct (Forall2_lookup_lr _ _ _ _ _ _ Hdir Hnf Hc) as (Hd & Hb & _).
      split_and!; [|done|done].
      change (readdir key (W [] 0%Z [] false [] [] [] [] 1 (P ++ [Pending]) [])) with dir.
      apply jsmap_get_elem; [done|]. destruct nf. by eapply list_elem_of_lookup_2.
    - simpl. by rewrite app_nil_r. }
  assert (EB : ∃ lc,
     purge 0 (W cfg 0%Z [] false [] [] (replicate n (TEmit 0)) [] 1 (P ++ [Pending]) [])
     = W cfg lc [] false [] [] (replicate n (TEmit 0)) [] 1 (P ++ [Pending]) []).
  { destruct (purge_all_alive 0
                (W cfg 0%Z [] false [] [] (replicate n (TEmit 0)) [] 1 (P ++ [Pending]) [])
                {| wkey := key; subscribers := []; configByFileName := cfg;
                   lastCalled := 0; closed := false |} eq_refl) as [E|E].
    - simpl. rewrite Hcfg1. intros nm Hnm.
      apply list_elem_of_fmap in Hnm as (nf & -> & Hnf).
      apply list_elem_of_lookup in Hnf as [i Hi].
      destruct (Forall2_lookup_l _ _ _ _ _ Hdir Hi) as (c & _ & _ & _ & Hlive).
      exact Hlive.
    - exists 0%Z. exact E.
    - exists N. exact E. }
  destruct EB as [lc EB].
  set (Wt := {| fs := F; kill0 := K; now := N; boot := B;
                globalContextWatchers := []; watchers := [];
                subscriptions := []; immediates := []; timers := []; next_timer := 1;
                promises := P ++ [Pending]; log := [] |}).
  assert (E1 : getGlobalContextWatcher key Wt
     = (0, W cfg lc [] false [(key, 0)] [] (replicate n (TEmit 0) ++ [TEmit 0])
             [(1, PurgeInterval 0)] 2 (P ++ [Pending]) [])).
  { unfold getGlobalContextWatcher.
    cbn [globalContextWatchers Wt jsmap_get watchers length app].
    change (mkdirSync key (with_watchers _ Wt))
      with (W [] 0%Z [] false [] [] [] [] 1 (P ++ [Pending]) []).
    rewrite EA, EB. reflexivity. }
  assert (E2 : watchGlobalContext key (λ wid _, GetAll p 0 wid) Wt
     = (0, 0, W cfg lc [0] false [(key, 0)] [GetAll p 0 0]
                (replicate n (TEmit 0) ++ [TEmit 0; TFirst 0 0])
                [(1, PurgeInterval 0)] 2 (P ++ [Pending]) [])).
  { unfold watchGlobalContext. rewrite E1. unfold subscribe, update_watcher.
    simpl. unfold setImmediate, with_immediates, with_watchers, with_subscriptions,
      set_subscribers, W. cbn. by rewrite <- app_assoc. }
  assert (E3 : getAllGlobalContexts key
                 {| fs := F; kill0 := K; now := N; boot := B;
                    globalContextWatchers := []; watchers := [];
                    subscriptions := []; immediates := []; timers := [];
                    next_timer := 0; promises := P; log := [] |}
     = (p, 0, 0, 0, W cfg lc [0] false [(key, 0)] [GetAll p 0 0]
                      (TEmit 0 :: replicate n (TEmit 0) ++ [TFirst 0 0])
                      [(1, PurgeInterval 0); (0, GetAllTimeout p 0 0)] 2
                      (P ++ [Pending]) [])).
  { unfold getAllGlobalContexts. cbv zeta.
    change (with_timers _ _ (with_promises _ _)) with Wt.
    change (length (promises _)) with p.
    change (next_timer (with_promises _ _)) with 0.
    rewrite E2. cbn [next_timer Wt]. unfold with_timers, W. cbn.
    replace (replicate n (TEmit 0) ++ [TEmit 0; TFirst 0 0])
      with (TEmit 0 :: replicate n (TEmit 0) ++ [TFirst 0 0]); [done|].
    change (TEmit 0 :: replicate n (TEmit 0) ++ [TFirst 0 0])
      with (replicate (S n) (TEmit 0) ++ [TFirst 0 0]).
    by rewrite replicate_S_end, <- app_assoc. }
  rewrite E3. cbn [fst snd].
  set (A := W cfg lc [] true [] [GetAll p 0 0] [] [] 2 (P ++ [Resolved cs])).
  assert (Hp : (P ++ [@Pending content]) !! p = Some Pending)
    by (by apply list_lookup_middle).
  assert (Hins : <[p := Resolved cs]> (P ++ [@Pending content]) = P ++ [Resolved cs]).
  { subst p. rewrite insert_app_r_alt by done. by rewrite Nat.sub_diag. }
  assert (E4 : run_task (W cfg lc [0] false [(key, 0)] [GetAll p 0 0] []
                           [(1, PurgeInterval 0); (0, GetAllTimeout p 0 0)] 2
                           (P ++ [Pending]) []) (TEmit 0)
               = A [Unsubscribe 0 0; Resolve p cs]).
  { unfold run_task, configs_of, subscribers_of, W. cbn -[onChange]. rewrite Hcfg2.
    rewrite (onChange_getAll 0 p 0 0) by done.
    rewrite (unsubscribe_last 0 0 _
               {| wkey := key; subscribers := [0]; configByFileName := cfg;
                  lastCalled := lc; closed := false |}) by done.
    change (jsmap_delete (globalContextWatchers _) _)
      with (jsmap_delete [(key, 0)] key).
    rewrite jsmap_delete_head. unfold settle.
    change (promises (record _ _)) with (P ++ [@Pending content]).
    rewrite Hp. unfold with_promises.
    change (promises (record _ _)) with (P ++ [@Pending content]).
    rewrite Hins. reflexivity. }
  assert (E5 : run_task (A [Unsubscribe 0 0; Resolve p cs]) (TFirst 0 0)
               = A [Unsubscribe 0 0; Resolve p cs; Unsubscribe 0 0; Resolve p cs]).
  { unfold run_task, configs_of, A, W. cbn -[onChange]. rewrite Hcfg2.
    rewrite (onChange_getAll 0 p 0 0) by done.
    rewrite (unsubscribe_last 0 0 _
               {| wkey := key; subscribers := []; configByFileName := cfg;
                  lastCalled := lc; closed := true |}) by done.
    unfold settle.
    change (promises (record _ _)) with (P ++ [Resolved cs]).
    assert (Hp' : (P ++ [Resolved cs]) !! p = Some (Resolved cs))
      by (by apply list_lookup_middle).
    rewrite Hp'. reflexivity. }
  assert (E6 : run_immediates
                 (W cfg lc [0] false [(key, 0)] [GetAll p 0 0]
                    (TEmit 0 :: replicate n (TEmit 0) ++ [TFirst 0 0])
                    [(1, PurgeInterval 0); (0, GetAllTimeout p 0 0)] 2
                    (P ++ [Pending]) [])
               = A [Unsubscribe 0 0; Resolve p cs; Unsubscribe 0 0; Resolve p cs]).
  { change (run_immediates ?w)
      with (foldl run_task
              (W cfg lc [0] false [(key, 0)] [GetAll p 0 0] []
                 [(1, PurgeInterval 0); (0, GetAllTimeout p 0 0)] 2
                 (P ++ [Pending]) [])
              (TEmit 0 :: replicate n (TEmit 0) ++ [TFirst 0 0])).
    cbn [foldl]. rewrite E4, foldl_app, run_tasks_idle by done.
    cbn [foldl]. exact E5. }
  rewrite E6. split_and!.
  - by apply list_lookup_middle.
  - done.
  - done.
  - done.
Qed.

End StoreExtras.

Lemma readAll_keeps_recent_files_witness :
  let w : @GlobalContext.world Z :=
    {| GlobalContext.fs := λ _,
         [(GlobalContext.CtxFile 11 1,
           {| GlobalContext.mtime := 5; GlobalContext.fdata := GlobalContext.Json 1%Z |});
          (GlobalContext.CtxFile 12 1,
           {| GlobalContext.mtime := 50; GlobalContext.fdata := GlobalContext.Json 2%Z |})];
       GlobalContext.kill0 := λ _, GlobalContext.Running;
       GlobalContext.now := 60; GlobalContext.boot := 10;
       GlobalContext.globalContextWatchers := [];
       GlobalContext.watchers :=
         [{| GlobalContext.wkey := "k"; GlobalContext.subscribers := [];
             GlobalContext.configByFileName := []; GlobalContext.lastCalled := 0;
             GlobalContext.closed := false |}];
       GlobalContext.subscriptions := []; GlobalContext.immediates := [];
       GlobalContext.timers := []; GlobalContext.next_timer := 0;
       GlobalContext.promises := []; GlobalContext.log := [] |} in
  GlobalContext.readdir "k" (GlobalContext.readAll 0 w)
  = filter (λ nf, (GlobalContext.boot w ≤ GlobalContext.mtime nf.2)%Z)
      (GlobalContext.readdir "k" w).
Proof.
  intros w. apply (readAll_keeps_recent_files 0 w).
  apply NoDup_cons. split; [|apply NoDup_singleton].
  intros Hin. apply list_elem_of_singleton in Hin. discriminate.
Defined.

Lemma getAll_resolves_with_directory_witness :
  let w : @GlobalContext.world Z :=
    {| GlobalContext.fs := λ _,
         [(GlobalContext.CtxFile 11 1,
           {| GlobalContext.mtime := 50; GlobalContext.fdata := GlobalContext.Json 7%Z |})];
       GlobalContext.kill0 := λ _, GlobalContext.Running;
       GlobalContext.now := 60; GlobalContext.boot := 10;
       GlobalContext.globalContextWatchers := []; GlobalContext.watchers := [];
       GlobalContext.subscriptions := []; GlobalContext.immediates := [];
       GlobalContext.timers := []; GlobalContext.next_timer := 0;
       GlobalContext.promises := []; GlobalContext.log := [] |} in
  let call := GlobalContext.getAllGlobalContexts "k" w in
  let w2 := GlobalContext.run_immediates call.2 in
  GlobalContext.promises w2 !! call.1.1.1.1 = Some (GlobalContext.Resolved [7%Z]) ∧
  GlobalContext.timers w2 = [] ∧ GlobalContext.globalContextWatchers w2 = [] ∧
  GlobalContext.fire call.1.1.1.2 w2 = w2.
Proof.
  intros w. apply (getAll_resolves_with_directory "k" [7%Z] w).
  - by repeat split.
  - apply NoDup_singleton.
  - constructor; [|constructor]. split_and!; [reflexivity|simpl; lia|].
    exists 11, 1. split; [reflexivity|discriminate].
Defined.

(** *** What a scan or a purge leaves alone *)

Section StoreSteps.
Import GlobalContext.
Context {content : Type}.
Implicit Types (w : @world content).

#[global] Instance watcher_steps_refl wid : Reflexive (@watcher_steps content wid).
Proof.
  intros w. split_and!; try done. { by eauto. }
  exists []. by rewrite app_nil_r.
Qed.

#[global] Instance watcher_steps_trans wid : Transitive (@watcher_steps content wid).
Proof.
  intros w1 w2 w3 (A1 & A2 & A3 & A4 & A5 & A6 & A7 & t1 & A8 & A9)
    (B1 & B2 & B3 & B4 & B5 & B6 & B7 & t2 & B8 & B9).
  split_and!; try congruence.
  - destruct A1 as (? & ? & ? & ? & ?), B1 as (? & ? & ? & ? & ?).
    split_and!; congruence.
  - intros v Hv. destruct (A7 v Hv) as (v' & Hv' & ? & ? & ?).
    destruct (B7 v' Hv') as (v'' & Hv'' & ? & ? & ?).
    exists v''. split_and!; congruence.
  - exists (t1 ++ t2). split; [by rewrite B8, A8, app_assoc|by apply Forall_app].
Qed.

Lemma watcher_steps_update_watcher wid f w :
  (∀ v, wkey (f v) = wkey v ∧ subscribers (f v) = subscribers v ∧
        closed (f v) = closed v) →
  watcher_steps wid w (update_watcher wid f w).
Proof.
  intros Hf. unfold update_watcher.
  destruct (watchers w !! wid) as [v|] eqn:Hv; [|reflexivity].
  split_and!; try done.
  - simpl. by rewrite length_insert.
  - intros v0 Hv0. assert (v0 = v) as -> by congruence. exists (f v). simpl.
    split; [|apply Hf]. apply list_lookup_insert_eq. by eapply lookup_lt_Some.
  - exists []. simpl. by rewrite app_nil_r.
Qed.

Lemma watcher_steps_setImmediate wid t w :
  own_task wid t → watcher_steps wid w (setImmediate t w).
Proof.
  intros Ht. split_and!; try done. { by eauto. }
  exists [t]. split; [done|by constructor].
Qed.

Lemma watcher_steps_unlinkSync wid key name w w' :
  unlinkSync key name w = Some w' → watcher_steps wid w w'.
Proof.
  unfold unlinkSync. destruct (jsmap_get (readdir key w) name); [|done].
  intros [= <-]. split_and!; try done. { by eauto. }
  exists []. simpl. by rewrite app_nil_r.
Qed.

Lemma watcher_steps_purge_entry wid w purged name :
  watcher_steps wid w (purge_entry wid (w, purged) name).1.
Proof.
  unfold purge_entry. destruct name as [pid seq|name].
  - destruct (kill0 w pid); simpl; try reflexivity.
    destruct (unlinkSync _ _ w) as [w'|] eqn:Hu; simpl; [|reflexivity].
    etrans; [by eapply watcher_steps_unlinkSync|].
    by apply (watcher_steps_update_watcher wid
                (λ v, set_config (jsmap_delete (configByFileName v) (CtxFile pid seq)) v)).
  - simpl. apply watcher_steps_setImmediate. right. by eexists.
Qed.

Lemma watcher_steps_purge wid w : watcher_steps wid w (purge wid w).
Proof.
  unfold purge. destruct (watchers w !! wid) as [v|]; [|reflexivity].
  case_decide; [|reflexivity].
  set (w1 := update_watcher wid _ w).
  assert (H1 : watcher_steps wid w w1) by (by apply watcher_steps_update_watcher).
  assert (H2 : ∀ l acc, watcher_steps wid w acc.1 →
            watcher_steps wid w (foldl (purge_entry wid) acc l).1).
  { induction l as [|x l IH]; intros [w' b] Hacc; simpl; [done|].
    apply IH. etrans; [done|]. apply watcher_steps_purge_entry. }
  specialize (H2 (configByFileName v).*1 (w1, false) H1).
  destruct (foldl _ _ _) as [w2 purged]. simpl in H2.
  destruct purged; [|done]. etrans; [done|].
  apply watcher_steps_setImmediate. by left.
Qed.

Lemma watcher_steps_eventTriggered wid name w :
  watcher_steps wid w (eventTriggered wid name w).
Proof.
  unfold eventTriggered, emit.
  destruct (jsmap_get _ name) as [[m [c|]]|].
  - etrans; [|apply watcher_steps_setImmediate; by left].
    by apply watcher_steps_update_watcher.
  - etrans; [|apply watcher_steps_setImmediate; by left].
    apply watcher_steps_setImmediate. right. by eexists.
  - etrans; [|apply watcher_steps_setImmediate; by left].
    by apply watcher_steps_update_watcher.
Qed.

Lemma watcher_steps_readAll_entry wid w name :
  watcher_steps wid w (readAll_entry wid w name).
Proof.
  unfold readAll_entry. destruct (jsmap_get _ name) as [f|]; [|reflexivity].
  case_decide; [|apply watcher_steps_eventTriggered].
  destruct (unlinkSync _ _ w) as [w'|] eqn:Hu; [|reflexivity].
  by eapply watcher_steps_unlinkSync.
Qed.

Lemma watcher_steps_readAll_entries wid names : ∀ w,
  watcher_steps wid w (foldl (readAll_entry wid) w names).
Proof.
  induction names as [|x l IH]; intros w; simpl; [reflexivity|].
  etrans; [apply watcher_steps_readAll_entry|apply IH].
Qed.

Lemma watcher_steps_readAll wid w : watcher_steps wid w (readAll wid w).
Proof. apply watcher_steps_readAll_entries. Qed.

End StoreSteps.

(** *** The timeout of [getAllGlobalContexts] *)

Section StoreGetAll.
Import GlobalContext.
Context {content : Type}.
Implicit Types (w : @world content).

Lemma getGlobalContextWatcher_watcher key w :
  registry_wf w →
  is_Some (watchers (getGlobalContextWatcher key w).2
             !! (getGlobalContextWatcher key w).1).
Proof.
  intros Hwf. unfold getGlobalContextWatcher.
  destruct (jsmap_get (globalContextWatchers w) key) as [wid|] eqn:Hreg; simpl.
  { apply lookup_lt_is_Some_2. by eapply Hwf. }
  set (wid := length (watchers w)).
  set (w1 := with_watchers _ w).
  assert (H : watcher_steps wid w1 (purge wid (readAll wid (mkdirSync key w1)))).
  { etrans; [|apply watcher_steps_purge]. apply watcher_steps_readAll. }
  destruct H as (_ & _ & _ & _ & _ & Hlen & _).
  apply lookup_lt_is_Some_2.
  unfold emit, setImmediate, setTimer.
  cbn [watchers with_registry with_immediates with_timers snd].
  rewrite Hlen. subst w1. cbn [watchers with_watchers].
  rewrite length_app. simpl. lia.
Qed.

Lemma lookup_update_watcher wid f w :
  watchers (update_watcher wid f w) !! wid = f <$> watchers w !! wid.
Proof.
  unfold update_watcher. destruct (watchers w !! wid) as [v|] eqn:Hv; simpl.
  - by rewrite list_lookup_insert_eq by (by eapply lookup_lt_Some).
  - by rewrite Hv.
Qed.

Lemma subscribers_of_update_watcher wid f w :
  subscribers_of wid (update_watcher wid f w)
  = default [] ((λ v, subscribers (f v)) <$> watchers w !! wid).
Proof.
  unfold subscribers_of. rewrite lookup_update_watcher.
  by destruct (watchers w !! wid).
Qed.

Lemma subscribers_of_unsubscribe wid s w :
  subscribers_of wid (unsubscribe wid s w)
  = filter (λ s', s' ≠ s) (subscribers_of wid w).
Proof.
  unfold unsubscribe.
  set (w1 := update_watcher wid _ w).
  assert (H1 : subscribers_of wid w1 = filter (λ s', s' ≠ s) (subscribers_of wid w)).
  { subst w1. rewrite subscribers_of_update_watcher. unfold subscribers_of.
    by destruct (watchers w !! wid). }
  change (subscribers_of wid (record (Unsubscribe wid s) w1))
    with (subscribers_of wid w1).
  destruct (subscribers_of wid w1) as [|x l] eqn:Hs; [|by rewrite <- H1].
  rewrite <- H1. cbv zeta.
  set (w3 := with_registry _ _).
  change (subscribers_of wid (update_watcher wid set_closed w3) = []).
  rewrite subscribers_of_update_watcher.
  change (watchers w3) with (watchers w1).
  unfold subscribers_of in Hs. by destruct (watchers w1 !! wid).
Qed.

Lemma jsmap_get_filter_None {K V} `{EqDecision K} (P : K * V → Prop)
    `{∀ x, Decision (P x)} (m : list (K * V)) k :
  jsmap_get m k = None → jsmap_get (filter P m) k = None.
Proof.
  rewrite !jsmap_get_None. intros Hk Hin. apply Hk.
  apply list_elem_of_fmap in Hin as (x & -> & Hx).
  apply list_elem_of_filter in Hx as [_ Hx]. apply list_elem_of_fmap. by exists x.
Qed.

Lemma timers_unsubscribe wid s w t :
  jsmap_get (timers w) t = None → jsmap_get (timers (unsubscribe wid s w)) t = None.
Proof.
  intros Ht. unfold unsubscribe.
  set (w1 := update_watcher wid _ w).
  assert (H1 : timers w1 = timers w) by apply update_watcher_frame.
  destruct (subscribers_of wid (record (Unsubscribe wid s) w1)); simpl.
  - set (w3 := with_registry _ _).
    assert (H3 : timers (update_watcher wid set_closed w3) = timers w3)
      by apply update_watcher_frame.
    rewrite H3. simpl. rewrite H1. by apply jsmap_get_filter_None.
  - by rewrite H1.
Qed.

(** C9: [getAllGlobalContexts] subscribes to the watcher of the key and arms
    a timer for its pending promise. As long as no snapshot has disarmed it,
    the callback of the timer first unsubscribes, then rejects with
    undefined: the subscriber is taken out of the set of the watcher, which
    is unregistered and closed, its purge interval cleared, when that was
    its last subscriber; no error value is passed to [reject], and a promise
    that is still pending ends rejected with undefined. *)
Theorem getAll_timeout_rejects_undefined key w :
  timers_fresh w → registry_wf w →
  let call := getAllGlobalContexts key w in
  let p := call.1.1.1.1 in
  let timeout := call.1.1.1.2 in
  let wid := call.1.1.2 in
  let s := call.1.2 in
  let w1 := call.2 in
  jsmap_get (timers w1) timeout = Some (GetAllTimeout p wid s) ∧
  promises w1 !! p = Some Pending ∧
  subscriptions w1 !! s = Some (GetAll p timeout wid) ∧
  s ∈ subscribers_of wid w1 ∧
  jsmap_get (globalContextWatchers w1) key = Some wid ∧
  ∀ w2, jsmap_get (timers w2) timeout = Some (GetAllTimeout p wid s) →
        let w3 := fire timeout w2 in
        log w3 = log w2 ++ [Unsubscribe wid s; Reject p None] ∧
        (promises w2 !! p = Some Pending →
         promises w3 !! p = Some (Rejected None)) ∧
        (s ∉ subscribers_of wid w3) ∧
        jsmap_get (timers w3) timeout = None ∧
        (∀ v, watchers w2 !! wid = Some v → subscribers v = [s] →
              jsmap_get (globalContextWatchers w3) (wkey v) = None ∧
              closed <$> watchers w3 !! wid = Some true ∧
              ∀ t, jsmap_get (timers w3) t ≠ Some (PurgeInterval wid)).
Proof.
  intros Hfresh Hwf.
  unfold getAllGlobalContexts, watchGlobalContext.
  set (w0 := with_timers _ _ (with_promises (promises w ++ [Pending]) w)).
  assert (Hwf0 : registry_wf w0) by exact Hwf.
  pose proof (getGlobalContextWatcher_timers key w0) as (Hp & Hs & Hl & Ht).
  pose proof (getGlobalContextWatcher_watcher key w0 Hwf0) as [v Hv].
  pose proof (getGlobalContextWatcher_registered key w0) as Hreg.
  destruct (getGlobalContextWatcher key w0) as [wid' w3] eqn:Hg.
  cbn [fst snd] in *. cbv beta iota zeta. cbn [fst snd].
  rewrite Hs. change (subscriptions w0) with (subscriptions w).
  change (next_timer (with_promises (promises w ++ [Pending]) w)) with (next_timer w).
  set (p := length (promises w)). set (s := length (subscriptions w)).
  set (w4 := with_subscriptions (subscriptions w ++ [GetAll p (next_timer w) wid']) w3).
  assert (Hsub : subscribe wid' s w4
                 = setImmediate (TFirst wid' s)
                     (with_watchers
                        (<[wid' := if decide (s ∈ subscribers v) then v
                                   else set_subscribers (subscribers v ++ [s]) v]>
                           (watchers w4)) w4)).
  { unfold subscribe, update_watcher. change (watchers w4) with (watchers w3).
    by rewrite Hv. }
  rewrite Hsub. unfold setImmediate.
  cbn [timers promises subscriptions globalContextWatchers watchers
       with_immediates with_watchers with_timers with_subscriptions].
  subst w4. cbn [timers promises subscriptions globalContextWatchers watchers
       with_subscriptions].
  split_and!.
  - assert (Hnone : jsmap_get (timers w3) (next_timer w) = None).
    { apply jsmap_get_None. intros Hin.
      destruct Ht as [[Ht _]|(wid'' & Ht & _)]; rewrite Ht in Hin.
      - apply Hfresh in Hin. lia.
      - rewrite fmap_app, elem_of_app in Hin. destruct Hin as [Hin|Hin].
        + apply Hfresh in Hin. lia.
        + simpl in Hin. apply list_elem_of_singleton in Hin. lia. }
    by rewrite jsmap_set_fresh_get.
  - rewrite Hp. subst p. simpl. by apply list_lookup_middle.
  - subst s. by apply list_lookup_middle.
  - unfold subscribers_of. cbn [watchers with_timers with_immediates with_watchers].
    rewrite list_lookup_insert_eq by (by eapply lookup_lt_Some). simpl.
    destruct (decide (s ∈ subscribers v)); [done|]. simpl.
    apply elem_of_app. right. by left.
  - exact Hreg.
  - intros w2 Hw2.
    destruct (fire_getAll_timeout (next_timer w) p wid' s w2 Hw2) as [Hlog Hprom].
    split_and!; [exact Hlog|exact Hprom|..].
    + unfold fire. rewrite Hw2. unfold settle.
      set (w6 := record _ (unsubscribe _ _ _)).
      assert (Hsubs : subscribers_of wid' w6
                      = filter (λ s', s' ≠ s) (subscribers_of wid' (clearTimer (next_timer w) w2)))
        by apply subscribers_of_unsubscribe.
      assert (Hnot : s ∉ subscribers_of wid' w6).
      { rewrite Hsubs. intros [Hin _]%list_elem_of_filter. done. }
      destruct (promises w6 !! p) as [[| |]|]; exact Hnot.
    + unfold fire. rewrite Hw2. unfold settle.
      set (w6 := record _ (unsubscribe _ _ _)).
      assert (Hnone : jsmap_get (timers w6) (next_timer w) = None).
      { apply timers_unsubscribe. simpl. apply jsmap_delete_get_eq. }
      destruct (promises w6 !! p) as [[| |]|]; exact Hnone.
    + intros v2 Hv2 Hlast. unfold fire. rewrite Hw2. unfold settle.
      set (w6 := record _ (unsubscribe _ _ _)).
      assert (E : unsubscribe wid' s (clearTimer (next_timer w) w2)
                  = with_timers
                      (filter (λ it, it.2 ≠ PurgeInterval wid')
                         (timers (clearTimer (next_timer w) w2)))
                      (next_timer (clearTimer (next_timer w) w2))
                      (with_watchers
                         (<[wid' := set_closed (set_subscribers [] v2)]>
                            (watchers (clearTimer (next_timer w) w2)))
                         (with_registry
                            (jsmap_delete
                               (globalContextWatchers (clearTimer (next_timer w) w2))
                               (wkey v2))
                            (with_log (log (clearTimer (next_timer w) w2)
                                         ++ [Unsubscribe wid' s])
                               (clearTimer (next_timer w) w2))))).
      { apply unsubscribe_last; [done|]. rewrite Hlast.
        rewrite filter_cons_False by (simpl; tauto). done. }
      assert (H6 : jsmap_get (globalContextWatchers w6) (wkey v2) = None ∧
                   closed <$> watchers w6 !! wid' = Some true ∧
                   ∀ t, jsmap_get (timers w6) t ≠ Some (PurgeInterval wid')).
      { subst w6. rewrite E. cbn [globalContextWatchers watchers timers record
          with_log with_timers with_watchers with_registry clearTimer].
        split_and!.
        - apply jsmap_delete_get_eq.
        - rewrite list_lookup_insert_eq by (by eapply lookup_lt_Some). done.
        - intros t Hin. apply jsmap_get_Some_elem in Hin.
          apply list_elem_of_filter in Hin as [Hin _]. by apply Hin. }
      destruct (promises w6 !! p) as [[| |]|]; exact H6.
Qed.

End StoreGetAll.

(** *** A malformed file *)

Section StoreReject.
Import GlobalContext.
Context {content : Type}.
Implicit Types (w : @world content).

Lemma run_task_own_idle wid t w :
  own_task wid t → subscribers_of wid w = [] → run_task w t = w.
Proof. intros [->|[err ->]] H; simpl; by rewrite H. Qed.

Lemma run_tasks_own_idle wid tasks w :
  Forall (own_task wid) tasks → subscribers_of wid w = [] →
  foldl run_task w tasks = w.
Proof.
  intros Ht H. induction Ht as [|t tasks Ht _ IH]; [done|]. cbn [foldl].
  by rewrite (run_task_own_idle wid).
Qed.

(** X19: one malformed file is enough to make [getAllGlobalContexts] fail.
    When the first file of the directory is recent and its text is not
    JSON, the error of [JSON.parse] is reported before the first snapshot,
    and the promise is rejected with it, whatever the other files hold; the
    snapshot that follows unsubscribes the watcher and clears the timers. *)
Theorem getAll_rejects_on_malformed key name f rest (w : @world content) :
  fresh_process w → readdir key w = (name, f) :: rest →
  fdata f = Malformed → (boot w ≤ mtime f)%Z →
  let call := getAllGlobalContexts key w in
  let p := call.1.1.1.1 in
  let w2 := run_immediates call.2 in
  promises w2 !! p = Some (Rejected (Some (SyntaxError name))) ∧
  timers w2 = [] ∧ globalContextWatchers w2 = [].
Proof.
  intros (Hreg & Hw & Hsub & Him & Htm & Hnt & Hlog) Hdir0 Hmal Hrecent.
  destruct w as [F K N B reg ws subs imm tms nt P lg].
  simpl in Hreg, Hw, Hsub, Him, Htm, Hnt, Hlog. subst.
  unfold readdir in Hdir0. cbn [fs boot] in Hdir0, Hrecent.
  pose (W := λ (G : string → list (filename * @file content)) (cfg : list (filename * content)) lc sb cl reg sbs imm tms nt proms lg,
     {| fs := G; kill0 := K; now := N; boot := B;
        globalContextWatchers := reg;
        watchers := [{| wkey := key; subscribers := sb; configByFileName := cfg;
                        lastCalled := lc; closed := cl |}];
        subscriptions := sbs; immediates := imm; timers := tms; next_timer := nt;
        promises := proms; log := lg |}).
  set (p := length P).
  set (err := SyntaxError name).
  assert (EA0 : readAll_entry 0 (W F [] 0%Z [] false [] [] [] [] 1 (P ++ [Pending]) []) name
                = W F [] 0%Z [] false [] [] [TError 0 err; TEmit 0] [] 1 (P ++ [Pending]) []).
  { unfold readAll_entry.
    change (watcher_key 0 (W F [] 0%Z [] false [] [] [] [] 1 (P ++ [Pending]) [])) with key.
    change (readdir key (W F [] 0%Z [] false [] [] [] [] 1 (P ++ [Pending]) [])) with (F key).
    rewrite Hdir0, jsmap_get_head. rewrite decide_False by (simpl; lia).
    unfold eventTriggered.
    change (watcher_key 0 (W F [] 0%Z [] false [] [] [] [] 1 (P ++ [Pending]) [])) with key.
    change (readdir key (W F [] 0%Z [] false [] [] [] [] 1 (P ++ [Pending]) [])) with (F key).
    rewrite Hdir0, jsmap_get_head. destruct f as [m d]. simpl in Hmal. subst d.
    reflexivity. }
  assert (EB : ∃ F' cfg lc tasks, Forall (own_task 0) tasks ∧
     purge 0 (readAll 0 (W F [] 0%Z [] false [] [] [] [] 1 (P ++ [Pending]) []))
     = W F' cfg lc [] false [] [] ([TError 0 err; TEmit 0] ++ tasks)
         [] 1 (P ++ [Pending]) []).
  { assert (Hst : watcher_steps 0
                    (W F [] 0%Z [] false [] [] [TError 0 err; TEmit 0] [] 1 (P ++ [Pending]) [])
                    (purge 0 (readAll 0 (W F [] 0%Z [] false [] [] [] [] 1 (P ++ [Pending]) [])))).
    { etrans; [|apply watcher_steps_purge]. unfold readAll.
      change (watcher_key 0 (W F [] 0%Z [] false [] [] [] [] 1 (P ++ [Pending]) [])) with key.
      change (readdir key (W F [] 0%Z [] false [] [] [] [] 1 (P ++ [Pending]) [])) with (F key).
      rewrite Hdir0, fmap_cons. cbn [foldl fst]. rewrite EA0.
      apply watcher_steps_readAll_entries. }
    destruct (purge 0 _) as [F' K' N' B' reg' ws' subs' imm' tms' nt' P' lg'].
    destruct Hst as ((H1 & H2 & H3 & H4 & H5) & H6 & H7 & H8 & H9 & H10 & H11
                     & tasks & H12 & H13).
    simpl in *. subst.
    destruct (H11 _ eq_refl) as (v' & Hv' & Hk & Hs & Hc).
    destruct ws' as [|v'' [|]]; try done. injection Hv' as ->.
    destruct v' as [k sb cfg lc cl]. simpl in *. subst.
    by exists F', cfg, lc, tasks. }
  destruct EB as (F' & cfg & lc & tasks & Htasks & EB).
  set (Wt := {| fs := F; kill0 := K; now := N; boot := B;
                globalContextWatchers := []; watchers := [];
                subscriptions := []; immediates := []; timers := []; next_timer := 1;
                promises := P ++ [Pending]; log := [] |}).
  assert (E1 : getGlobalContextWatcher key Wt
     = (0, W F' cfg lc [] false [(key, 0)] []
             (([TError 0 err; TEmit 0] ++ tasks) ++ [TEmit 0])
             [(1, PurgeInterval 0)] 2 (P ++ [Pending]) [])).
  { unfold getGlobalContextWatcher.
    cbn [globalContextWatchers Wt jsmap_get watchers length app].
    change (mkdirSync key (with_watchers _ Wt))
      with (W F [] 0%Z [] false [] [] [] [] 1 (P ++ [Pending]) []).
    rewrite EB. reflexivity. }
  assert (E2 : watchGlobalContext key (λ wid _, GetAll p 0 wid) Wt
     = (0, 0, W F' cfg lc [0] false [(key, 0)] [GetAll p 0 0]
                (TError 0 err :: TEmit 0 :: tasks ++ [TEmit 0; TFirst 0 0])
                [(1, PurgeInterval 0)] 2 (P ++ [Pending]) [])).
  { unfold watchGlobalContext. rewrite E1. unfold subscribe, update_watcher.
    simpl. unfold setImmediate, with_immediates, with_watchers, with_subscriptions,
      set_subscribers, W. cbn. by rewrite <- app_assoc. }
  assert (E3 : getAllGlobalContexts key
                 {| fs := F; kill0 := K; now := N; boot := B;
                    globalContextWatchers := []; watchers := [];
                    subscriptions := []; immediates := []; timers := [];
                    next_timer := 0; promises := P; log := [] |}
     = (p, 0, 0, 0, W F' cfg lc [0] false [(key, 0)] [GetAll p 0 0]
                      (TError 0 err :: TEmit 0 :: tasks ++ [TEmit 0; TFirst 0 0])
                      [(1, PurgeInterval 0); (0, GetAllTimeout p 0 0)] 2
                      (P ++ [Pending]) [])).
  { unfold getAllGlobalContexts. cbv zeta.
    change (with_timers _ _ (with_promises _ _)) with Wt.
    change (length (promises _)) with p.
    change (next_timer (with_promises _ _)) with 0.
    rewrite E2. reflexivity. }
  rewrite E3. cbn [fst snd].
  set (A := W F' cfg lc [] true [] [GetAll p 0 0] [] [] 2 (P ++ [Rejected (Some err)])).
  assert (Hp : (P ++ [@Pending content]) !! p = Some Pending)
    by (by apply list_lookup_middle).
  assert (Hp' : (P ++ [Rejected (Some err)]) !! p = Some (Rejected (Some err)))
    by (by apply list_lookup_middle).
  assert (Hins : <[p := Rejected (Some err)]> (P ++ [@Pending content])
                 = P ++ [Rejected (Some err)]).
  { subst p. rewrite insert_app_r_alt by done. by rewrite Nat.sub_diag. }
  assert (E4 : run_task (W F' cfg lc [0] false [(key, 0)] [GetAll p 0 0] []
                           [(1, PurgeInterval 0); (0, GetAllTimeout p 0 0)] 2
                           (P ++ [Pending]) []) (TError 0 err)
               = W F' cfg lc [0] false [(key, 0)] [GetAll p 0 0] []
                   [(1, PurgeInterval 0); (0, GetAllTimeout p 0 0)] 2
                   (P ++ [Rejected (Some err)]) [Reject p (Some err)]).
  { unfold run_task, subscribers_of, W. cbn -[onError]. unfold onError. cbn -[settle record].
    unfold settle.
    change (promises (record _ _)) with (P ++ [@Pending content]).
    rewrite Hp. unfold with_promises.
    change (promises (record _ _)) with (P ++ [@Pending content]).
    rewrite Hins. reflexivity. }
  assert (E5 : run_task (W F' cfg lc [0] false [(key, 0)] [GetAll p 0 0] []
                           [(1, PurgeInterval 0); (0, GetAllTimeout p 0 0)] 2
                           (P ++ [Rejected (Some err)]) [Reject p (Some err)]) (TEmit 0)
               = A [Reject p (Some err); Unsubscribe 0 0; Resolve p cfg.*2]).
  { unfold run_task, configs_of, subscribers_of, W. cbn -[onChange].
    rewrite (onChange_getAll 0 p 0 0) by done.
    rewrite (unsubscribe_last 0 0 _
               {| wkey := key; subscribers := [0]; configByFileName := cfg;
                  lastCalled := lc; closed := false |}) by done.
    change (jsmap_delete (globalContextWatchers _) _)
      with (jsmap_delete [(key, 0)] key).
    rewrite jsmap_delete_head. unfold settle.
    change (promises (record _ _)) with (P ++ [Rejected (Some err)]).
    rewrite Hp'. reflexivity. }
  assert (E6 : run_task (A [Reject p (Some err); Unsubscribe 0 0; Resolve p cfg.*2]) (TFirst 0 0)
               = A [Reject p (Some err); Unsubscribe 0 0; Resolve p cfg.*2;
                    Unsubscribe 0 0; Resolve p cfg.*2]).
  { unfold run_task, configs_of, A, W. cbn -[onChange].
    rewrite (onChange_getAll 0 p 0 0) by done.
    rewrite (unsubscribe_last 0 0 _
               {| wkey := key; subscribers := []; configByFileName := cfg;
                  lastCalled := lc; closed := true |}) by done.
    unfold settle.
    change (promises (record _ _)) with (P ++ [Rejected (Some err)]).
    rewrite Hp'. reflexivity. }
  assert (E7 : run_immediates
                 (W F' cfg lc [0] false [(key, 0)] [GetAll p 0 0]
                    (TError 0 err :: TEmit 0 :: tasks ++ [TEmit 0; TFirst 0 0])
                    [(1, PurgeInterval 0); (0, GetAllTimeout p 0 0)] 2
                    (P ++ [Pending]) [])
               = A [Reject p (Some err); Unsubscribe 0 0; Resolve p cfg.*2;
                    Unsubscribe 0 0; Resolve p cfg.*2]).
  { change (run_immediates ?w)
      with (foldl run_task
              (W F' cfg lc [0] false [(key, 0)] [GetAll p 0 0] []
                 [(1, PurgeInterval 0); (0, GetAllTimeout p 0 0)] 2
                 (P ++ [Pending]) [])
              (TError 0 err :: TEmit 0 :: tasks ++ [TEmit 0; TFirst 0 0])).
    cbn [foldl]. rewrite E4, E5, foldl_app.
    rewrite (run_tasks_own_idle 0 tasks) by done.
    cbn [foldl]. rewrite run_task_idle by done. exact E6. }
  rewrite E7. split_and!; [exact Hp'|done|done].
Qed.

End StoreReject.

Lemma getAll_timeout_rejects_undefined_witness :
  let w0 : @GlobalContext.world (list (string * Z)) :=
    {| GlobalContext.fs := λ _, [];
       GlobalContext.kill0 := λ _, GlobalContext.Running;
       GlobalContext.now := 1000000; GlobalContext.boot := 400000;
       GlobalContext.globalContextWatchers := []; GlobalContext.watchers := [];
       GlobalContext.subscriptions := []; GlobalContext.immediates := [];
       GlobalContext.timers := []; GlobalContext.next_timer := 0;
       GlobalContext.promises := []; GlobalContext.log := [] |} in
  let call := GlobalContext.getAllGlobalContexts "k" w0 in
  let p := call.1.1.1.1 in
  let timeout := call.1.1.1.2 in
  let wid := call.1.1.2 in
  let s := call.1.2 in
  let w3 := GlobalContext.fire timeout call.2 in
  timers_fresh w0 ∧ registry_wf w0 ∧
  GlobalContext.log w3
  = GlobalContext.log call.2
    ++ [GlobalContext.Unsubscribe wid s; GlobalContext.Reject p None] ∧
  GlobalContext.promises w3 !! p
  = Some (@GlobalContext.Rejected (list (string * Z)) None) ∧
  (s ∉ GlobalContext.subscribers_of wid w3) ∧
  jsmap_get (GlobalContext.timers w3) timeout = None ∧
  jsmap_get (GlobalContext.globalContextWatchers w3) "k" = None ∧
  GlobalContext.closed <$> GlobalContext.watchers w3 !! wid = Some true.
Proof.
  intros w0 call p timeout wid s w3.
  assert (Hf : timers_fresh w0) by (intros t Ht; by apply elem_of_nil in Ht).
  assert (Hwf : registry_wf w0) by (intros k wd Hk; discriminate Hk).
  destruct (getAll_timeout_rejects_undefined "k" w0 Hf Hwf)
    as (H1 & H2 & H3 & H4 & H5 & Hfire).
  destruct (Hfire call.2 H1) as (L & Pm & S & T & Last).
  destruct (Last {| GlobalContext.wkey := "k"; GlobalContext.subscribers := [0];
                    GlobalContext.configByFileName := [];
                    GlobalContext.lastCalled := 1000000;
                    GlobalContext.closed := false |} eq_refl eq_refl)
    as (R & C & _).
  split_and!; [exact Hf|exact Hwf|exact L|exact (Pm H2)|exact S|exact T|exact R|exact C].
Defined.

Lemma getAll_rejects_on_malformed_witness :
  let name := GlobalContext.CtxFile 11 1 in
  let w : @GlobalContext.world Z :=
    {| GlobalContext.fs := λ _,
         [(name, {| GlobalContext.mtime := 50;
                    GlobalContext.fdata := GlobalContext.Malformed |});
          (GlobalContext.CtxFile 12 1,
           {| GlobalContext.mtime := 5; GlobalContext.fdata := GlobalContext.Json 3%Z |});
          (GlobalContext.OtherFile "notes.txt",
           {| GlobalContext.mtime := 55; GlobalContext.fdata := GlobalContext.Json 4%Z |});
          (GlobalContext.CtxFile 13 2,
           {| GlobalContext.mtime := 58; GlobalContext.fdata := GlobalContext.Malformed |});
          (GlobalContext.CtxFile 14 1,
           {| GlobalContext.mtime := 59; GlobalContext.fdata := GlobalContext.Json 6%Z |})];
       GlobalContext.kill0 := λ pid, if decide (pid = 14) then GlobalContext.ESRCH
                                     else GlobalContext.Running;
       GlobalContext.now := 60; GlobalContext.boot := 10;
       GlobalContext.globalContextWatchers := []; GlobalContext.watchers := [];
       GlobalContext.subscriptions := []; GlobalContext.immediates := [];
       GlobalContext.timers := []; GlobalContext.next_timer := 0;
       GlobalContext.promises := []; GlobalContext.log := [] |} in
  let call := GlobalContext.getAllGlobalContexts "k" w in
  let w2 := GlobalContext.run_immediates call.2 in
  GlobalContext.promises w2 !! call.1.1.1.1
  = Some (GlobalContext.Rejected (Some (GlobalContext.SyntaxError name))) ∧
  GlobalContext.timers w2 = [] ∧ GlobalContext.globalContextWatchers w2 = [].
Proof.
  intros name w.
  eapply (getAll_rejects_on_malformed "k" name
            {| GlobalContext.mtime := 50; GlobalContext.fdata := GlobalContext.Malformed |}).
  - by repeat split.
  - reflexivity.
  - reflexivity.
  - simpl. lia.
Defined.

(** ** Keys of the global context *)

Section KeyFacts.
Import ContextKey.

Lemma ascii_compare_trans a b c :
  Ascii.compare a b ≠ Gt → Ascii.compare b c ≠ Gt →
  Ascii.compare a c ≠ Gt ∧
  (Ascii.compare a c = Eq → Ascii.compare a b = Eq ∧ Ascii.compare b c = Eq).
Proof.
  unfold Ascii.compare. rewrite !N.compare_gt_iff, !N.compare_eq_iff. lia.
Qed.

Lemma string_compare_trans s : ∀ t u,
  String.compare s t ≠ Gt → String.compare t u ≠ Gt → String.compare s u ≠ Gt.
Proof.
  induction s as [|a s IH]; intros [|b t] [|c u]; simpl; try done.
  destruct (Ascii.compare a b) eqn:Eab; [| |done];
    destruct (Ascii.compare b c) eqn:Ebc; try done; intros Hst Htu.
  - apply Ascii.compare_eq_iff in Eab as ->. rewrite Ebc. by eapply IH.
  - apply Ascii.compare_eq_iff in Eab as ->. by rewrite Ebc.
  - apply Ascii.compare_eq_iff in Ebc as <-. by rewrite Eab.
  - destruct (ascii_compare_trans a b c) as [Hn He]; [by rewrite Eab|by rewrite Ebc|].
    destruct (Ascii.compare a c); [|done|done].
    destruct He as [He _]; [done|]. congruence.
Qed.

#[local] Instance code_unit_le_trans : Transitive code_unit_le.
Proof.
  intros s t u. unfold code_unit_le, String.leb. intros Hst Htu.
  pose proof (string_compare_trans s t u) as H.
  destruct (String.compare s t); try done; destruct (String.compare t u); try done;
    destruct (String.compare s u); try done; by exfalso; apply H.
Qed.

#[local] Instance code_unit_le_antisym : AntiSymm (=) code_unit_le.
Proof. intros s t Hst Hts. by apply String.leb_antisym. Qed.

#[local] Instance code_unit_le_total : Total code_unit_le.
Proof. intros s t. unfold code_unit_le. destruct (String.leb_total s t); auto. Qed.

Lemma createKey_perm a b :
  a ≡ₚ b → createKeyFromComponents a = createKeyFromComponents b.
Proof.
  intros Hab. unfold createKeyFromComponents. f_equal.
  apply (Sorted_unique code_unit_le).
  - apply Sorted_merge_sort, _.
  - apply Sorted_merge_sort, _.
  - by rewrite !merge_sort_Permutation.
Qed.

Lemma append_empty (s : string) : "" +:+ s = s.
Proof. reflexivity. Qed.

Lemma append_String c (s t : string) : String c s +:+ t = String c (s +:+ t).
Proof. reflexivity. Qed.

(** A component without full stop ends where the first full stop of the key
    stands. *)
Lemma append_dot_free_inj x : ∀ y r r',
  dot_free x = true → dot_free y = true →
  (x +:+ "." +:+ r = y +:+ "." +:+ r' → x = y ∧ r = r') ∧
  (x +:+ "." +:+ r ≠ y).
Proof.
  induction x as [|c x IH]; intros [|c' y] r r';
    repeat (rewrite append_empty || rewrite append_String); simpl.
  - intros _ _. split; [by intros [= ->]|done].
  - intros _. destruct (decide _) as [->|Hc']; [done|]. intros _.
    split; [intros [= <-]; by destruct Hc'|]. intros [= <-]. by destruct Hc'.
  - destruct (decide _) as [->|Hc]; [done|]. intros _ _.
    split; [intros [= ->]; by destruct Hc|done].
  - destruct (decide (c = _)); [done|]. destruct (decide (c' = _)); [done|].
    intros Hx Hy. destruct (IH y r r' Hx Hy) as [H1 H2]. split.
    + intros [= -> Heq]. destruct (H1 Heq) as [-> ->]. done.
    + intros [= -> Heq]. done.
Qed.

Lemma concat_dot_free_inj l1 : ∀ l2,
  Forall (λ s, dot_free s = true) l1 → Forall (λ s, dot_free s = true) l2 →
  l1 ≠ [] → l2 ≠ [] →
  String.concat "." l1 = String.concat "." l2 → l1 = l2.
Proof.
  induction l1 as [|x l1 IH]; intros [|y l2] H1 H2 Hn1 Hn2; try done.
  apply Forall_cons in H1 as [Hx H1]. apply Forall_cons in H2 as [Hy H2].
  destruct l1 as [|x' l1], l2 as [|y' l2].
  - simpl. by intros ->.
  - intros Heq. exfalso. symmetry in Heq.
    by apply (append_dot_free_inj y x (String.concat "." (y' :: l2)) "" Hy Hx) in Heq.
  - intros Heq. exfalso.
    by apply (append_dot_free_inj x y (String.concat "." (x' :: l1)) "" Hx Hy) in Heq.
  - intros Heq.
    apply (append_dot_free_inj x y _ _ Hx Hy) in Heq as [-> Heq].
    f_equal. by apply IH.
Qed.

(** X20: the key that [createKeyFromComponents] makes does not depend on
    the order in which the components are given; and lists of components
    without full stop, neither of them empty, get the same key only when
    they are the same up to order. *)
Theorem key_ignores_order a b :
  (a ≡ₚ b → createKeyFromComponents a = createKeyFromComponents b) ∧
  (Forall (λ s, dot_free s = true) a → Forall (λ s, dot_free s = true) b →
   a ≠ [] → b ≠ [] →
   createKeyFromComponents a = createKeyFromComponents b → a ≡ₚ b).
Proof.
  split; [apply createKey_perm|].
  intros Ha Hb Hna Hnb Heq. unfold createKeyFromComponents in Heq.
  apply concat_dot_free_inj in Heq.
  - by rewrite <-(merge_sort_Permutation code_unit_le a), Heq, merge_sort_Permutation.
  - by rewrite merge_sort_Permutation.
  - by rewrite merge_sort_Permutation.
  - intros E. apply Hna, Permutation_nil_r. by rewrite <-E, merge_sort_Permutation.
  - intros E. apply Hnb, Permutation_nil_r. by rewrite <-E, merge_sort_Permutation.
Qed.

End KeyFacts.

Lemma key_ignores_order_witness :
  ContextKey.createKeyFromComponents ["typeglance"; "host"; "channel"]
  = ContextKey.createKeyFromComponents ["channel"; "typeglance"; "host"] ∧
  ["typeglance"; "host"; "channel"] ≡ₚ ["channel"; "typeglance"; "host"].
Proof.
  destruct (key_ignores_order ["typeglance"; "host"; "channel"]
              ["channel"; "typeglance"; "host"]) as [H1 H2].
  assert (Hp : ["typeglance"; "host"; "channel"] ≡ₚ ["channel"; "typeglance"; "host"]).
  { change ["typeglance"; "host"; "channel"] with (["typeglance"; "host"] ++ ["channel"]).
    by rewrite Permutation_app_comm. }
  split; [exact (H1 Hp)|].
  apply H2; [by repeat constructor|by repeat constructor|done|done|exact (H1 Hp)].
Defined.

(** ** The heartbeat of a websocket *)

Section HeartbeatFacts.
Import Heartbeat.

Lemma run_answered events : ∀ h waiting t,
  (0 ≤ ms h)%Z → closes h = 0 →
  (waiting = false → (lastSentPing h ≤ lastReceivedMessage h)%Z) →
  (lastSentPing h ≤ t)%Z →
  clock_from t events → answered waiting events →
  closes (run h events) = 0 ∧
  (interval h = true → Close ∉ events → pings (run h events) = pings h + ticks events).
Proof.
  induction events as [|e events IH]; intros h waiting t Hms Hc Hw Ht Hclock Hans.
  { split; [done|]. intros _ _. unfold ticks. simpl. lia. }
  assert (Hticks : ∀ now, ticks (Tick now :: events) = S (ticks events)) by done.
  assert (Hpong : ∀ e', match e' with Tick _ => False | _ => True end →
                        ticks (e' :: events) = ticks events) by (by intros []).
  unfold run. cbn [foldl]. fold (run (step h e) events).
  destruct e as [now|now|now|]; simpl in Hclock, Hans.
  - destruct Hclock as [Hnow Hclock], Hans as [-> Hans]. specialize (Hw eq_refl).
    rewrite Hticks. destruct (interval h) eqn:Hi.
    + assert (E : step h (Tick now) =
                  {| ms := ms h; lastSentPing := now;
                     lastReceivedMessage := lastReceivedMessage h; interval := true;
                     closes := closes h; pings := S (pings h) |}).
      { simpl. rewrite Hi, decide_False by lia. done. }
      rewrite E. clear E.
      set (h' := {| ms := ms h; lastSentPing := now;
                    lastReceivedMessage := lastReceivedMessage h; interval := true;
                    closes := closes h; pings := S (pings h) |}).
      edestruct (IH h' true now) as [H1 H2]; [| | | |exact Hclock|exact Hans|];
        simpl; try done; try lia.
      split; [exact H1|]. intros _ Hn. apply not_elem_of_cons in Hn as [_ Hn].
      rewrite H2 by done. simpl. lia.
    + assert (E : step h (Tick now) = h) by (simpl; by rewrite Hi).
      rewrite E. edestruct (IH h true now) as [H1 H2]; [| | | |exact Hclock|exact Hans|];
        try done; try lia.
  - destruct Hclock as [Hnow Hclock]. rewrite Hpong by done.
    edestruct (IH (step h (Pong now)) false now) as [H1 H2];
      [simpl; try done; try lia..|exact Hclock|exact Hans|].
    split; [exact H1|]. intros Hi Hn. apply not_elem_of_cons in Hn as [_ Hn].
    by rewrite (H2 Hi Hn).
  - destruct Hclock as [Hnow Hclock]. rewrite Hpong by done.
    edestruct (IH (step h (Ping now)) false now) as [H1 H2];
      [simpl; try done; try lia..|exact Hclock|exact Hans|].
    split; [exact H1|]. intros Hi Hn. apply not_elem_of_cons in Hn as [_ Hn].
    by rewrite (H2 Hi Hn).
  - edestruct (IH (step h Close) waiting t) as [H1 H2];
      [simpl; try done..|exact Hclock|exact Hans|].
    split; [exact H1|]. intros _ Hn. apply not_elem_of_cons in Hn as [Hn _]. done.
Qed.

(** X21: a peer that answers is never closed by the heartbeat. When the
    clock does not go back and a pong or a ping arrives between any two ticks
    of the interval, no tick calls [ws.close()]; and as long as the socket
    has not closed, every tick sends a ping. *)
Theorem answering_peer_is_kept ms t0 t1 events :
  (0 ≤ ms)%Z → (t0 ≤ t1)%Z → clock_from t1 events → answered false events →
  closes (run (addHeartbeat ms t0 t1) events) = 0 ∧
  (Close ∉ events → pings (run (addHeartbeat ms t0 t1) events) = ticks events).
Proof.
  intros Hms Ht Hclock Hans.
  destruct (run_answered events (addHeartbeat ms t0 t1) false t1) as [H1 H2];
    simpl; try done.
  split; [done|]. intros Hn. by rewrite H2.
Qed.

Lemma run_overdue times : ∀ h,
  interval h = true → (lastSentPing h - lastReceivedMessage h > ms h)%Z →
  pings (run h (Tick <$> times)) = pings h ∧
  closes (run h (Tick <$> times)) = closes h + length times.
Proof.
  induction times as [|t times IH]; intros h Hi Hlate; [simpl; lia|].
  rewrite fmap_cons. unfold run. cbn [foldl].
  set (h' := {| ms := ms h; lastSentPing := lastSentPing h;
                lastReceivedMessage := lastReceivedMessage h; interval := interval h;
                closes := S (closes h); pings := pings h |}).
  assert (E : step h (Tick t) = h').
  { subst h'. simpl. rewrite Hi. by destruct (decide _). }
  rewrite E. destruct (IH h') as [H1 H2]; [done..|].
  unfold run in H1, H2. rewrite H1, H2. simpl. lia.
Qed.

(** X22: a peer that never answers gets two pings at most. When the ticks
    of the interval lie [ms] apart and nothing is received, the first tick
    sends a ping, the second one sends a ping unless the first came later
    than [ms] after the start, and every other tick calls [ws.close()]. *)
Theorem silent_peer_is_closed ms t0 t1 times :
  (0 < ms)%Z → (t0 ≤ t1)%Z → spaced ms t1 times →
  let h := run (addHeartbeat ms t0 t1) (Tick <$> times) in
  pings h = min (length times)
              (match times with
               | [] => 0
               | T1 :: _ => if decide (T1 - t1 > ms)%Z then 1 else 2
               end) ∧
  closes h = length times - pings h.
Proof.
  intros Hms Ht Hsp h. subst h.
  destruct times as [|T1 times]; [done|].
  destruct Hsp as [HT1 Hsp]. rewrite fmap_cons. unfold run. cbn [foldl].
  change (step (addHeartbeat ms t0 t1) (Tick T1)) with
    (if decide (t0 - t1 > ms)%Z
     then {| ms := ms; lastSentPing := t0; lastReceivedMessage := t1; interval := true;
             closes := 1; pings := 0 |}
     else {| ms := ms; lastSentPing := T1; lastReceivedMessage := t1; interval := true;
             closes := 0; pings := 1 |}).
  rewrite decide_False by lia.
  set (h1 := {| ms := ms; lastSentPing := T1; lastReceivedMessage := t1; interval := true;
                closes := 0; pings := 1 |}).
  destruct (decide (T1 - t1 > ms)%Z) as [Hlate|Hnot].
  { destruct (run_overdue times h1) as [H1 H2]; [done..|].
    unfold run in H1, H2. rewrite H1, H2. simpl. lia. }
  destruct times as [|T2 times].
  { simpl. lia. }
  destruct Hsp as [HT2 Hsp]. rewrite fmap_cons. cbn [foldl].
  change (step h1 (Tick T2)) with
    (if decide (T1 - t1 > ms)%Z
     then {| ms := ms; lastSentPing := T1; lastReceivedMessage := t1; interval := true;
             closes := 1; pings := 1 |}
     else {| ms := ms; lastSentPing := T2; lastReceivedMessage := t1; interval := true;
             closes := 0; pings := 2 |}).
  rewrite decide_False by done.
  set (h2 := {| ms := ms; lastSentPing := T2; lastReceivedMessage := t1; interval := true;
                closes := 0; pings := 2 |}).
  destruct (run_overdue times h2) as [H1 H2]; [done|simpl; lia|].
  unfold run in H1, H2. rewrite H1, H2. simpl. lia.
Qed.

End HeartbeatFacts.

Lemma answering_peer_is_kept_witness :
  Heartbeat.closes
    (Heartbeat.run (Heartbeat.addHeartbeat 20000 5 5)
       [Heartbeat.Tick 20005; Heartbeat.Pong 20040; Heartbeat.Tick 40010;
        Heartbeat.Ping 41000; Heartbeat.Tick 61000]) = 0.
Proof.
  apply (answering_peer_is_kept 20000 5 5
           [Heartbeat.Tick 20005; Heartbeat.Pong 20040; Heartbeat.Tick 40010;
            Heartbeat.Ping 41000; Heartbeat.Tick 61000]).
  - lia.
  - lia.
  - simpl. lia.
  - simpl. tauto.
Defined.

Lemma silent_peer_is_closed_witness :
  let h := Heartbeat.run (Heartbeat.addHeartbeat 20000 5 5)
             (Heartbeat.Tick <$> [20005; 40006; 60006; 80010]%Z) in
  Heartbeat.pings h = 2 ∧ Heartbeat.closes h = 2.
Proof.
  intros h.
  apply (silent_peer_is_closed 20000 5 5 [20005; 40006; 60006; 80010]%Z).
  - lia.
  - lia.
  - simpl. lia.
Defined.

(** ** The host of a discoverable channel *)

Section HostFacts.
Import GlobalContext Discovery Host.
Implicit Types (w : store) (h : host).

Lemma readdir_set_dir_eq key d w : readdir key (set_dir key d w) = d.
Proof. unfold readdir, set_dir. simpl. by rewrite decide_True. Qed.

Lemma readdir_set_dir_ne key key' d w :
  key' ≠ key → readdir key' (set_dir key d w) = readdir key' w.
Proof. intros Hne. unfold readdir, set_dir. simpl. by rewrite decide_False. Qed.

Lemma now_set_dir key d w : now (set_dir key d w) = now w.
Proof. done. Qed.

Lemma expose_all_spec clientKeys : ∀ pid i description port w,
  let r := expose_all pid i clientKeys description port w in
  r.2 = i + length clientKeys ∧
  r.1.1 = (λ j, CtxFile pid (S (i + j))) <$> seq 0 (length clientKeys) ∧
  now r.1.2 = now w ∧
  (∀ key', key' ≠ globalContextKey → readdir key' r.1.2 = readdir key' w) ∧
  (∀ j key, clientKeys !! j = Some key →
     jsmap_get (readdir globalContextKey r.1.2) (CtxFile pid (S (i + j)))
     = Some {| mtime := now w;
               fdata := Json {| cfg_key := key; description := description;
                                port := port |} |}) ∧
  (∀ name, name ∉ r.1.1 →
     jsmap_get (readdir globalContextKey r.1.2) name
     = jsmap_get (readdir globalContextKey w) name).
Proof.
  induction clientKeys as [|key keys IH]; intros pid i description port w.
  { simpl. split_and!; try done; lia. }
  cbn [expose_all]. unfold exposeGlobalContext, mkdirSync, writeFileSync.
  set (c := {| cfg_key := key; description := description; port := port |}).
  set (w1 := set_dir globalContextKey _ w).
  specialize (IH pid (S i) description port w1).
  destruct (expose_all pid (S i) keys description port w1) as [[paths w2] i'].
  cbn [fst snd] in *. destruct IH as (Hi & Hp & Hnow & Hother & Hget & Hrest).
  assert (Hpaths : CtxFile pid (S i) :: paths
                   = (λ j, CtxFile pid (S (i + j))) <$> seq 0 (length (key :: keys))).
  { cbn [length seq]. rewrite fmap_cons, Nat.add_0_r. f_equal. rewrite Hp.
    rewrite <-(fmap_S_seq 0), <-list_fmap_compose. apply list_fmap_ext.
    intros _ j _. simpl. f_equal. lia. }
  assert (Hfresh : CtxFile pid (S i) ∉ paths).
  { rewrite Hp. intros (j & [= Hj] & _)%list_elem_of_fmap. lia. }
  split_and!.
  - simpl. lia.
  - done.
  - by rewrite Hnow.
  - intros key' Hne. rewrite Hother by done. by apply readdir_set_dir_ne.
  - intros [|j] key0 Hj.
    + injection Hj as <-. rewrite Nat.add_0_r, Hrest by done.
      subst w1. rewrite readdir_set_dir_eq. apply jsmap_get_set_eq.
    + simpl in Hj. specialize (Hget j key0 Hj).
      replace (S (i + S j)) with (S (S i + j)) by lia. by rewrite Hget.
  - intros name Hname. apply not_elem_of_cons in Hname as [Hne Hname].
    rewrite Hrest by done. subst w1. rewrite readdir_set_dir_eq.
    by apply jsmap_get_set_ne.
Qed.

(** X23: a host advertises every client key. After
    [hostDiscoverableMessageChannel] the directory of discoverable channels
    holds, for the j-th client key, a file of this process with the next
    j-th number of its counter, whose content is that key with the port of
    the server and the description, which is the client keys joined when
    none was given; the files of other names and the other directories are
    as they were. *)
Theorem host_advertises_every_key pid i clientKeys description port w :
  let r := hostDiscoverableMessageChannel pid i clientKeys description port w in
  let h := r.1.1 in
  let w' := r.1.2 in
  r.2 = i + length clientKeys ∧
  hideGlobalContextCallbacks h
  = (λ j, CtxFile pid (S (i + j))) <$> seq 0 (length clientKeys) ∧
  (∀ j key, clientKeys !! j = Some key →
     jsmap_get (readdir globalContextKey w') (CtxFile pid (S (i + j)))
     = Some {| mtime := now w;
               fdata := Json {| cfg_key := key;
                                description :=
                                  default (String.concat ", " clientKeys) description;
                                port := port |} |}) ∧
  (∀ name, name ∉ hideGlobalContextCallbacks h →
     jsmap_get (readdir globalContextKey w') name
     = jsmap_get (readdir globalContextKey w) name) ∧
  (∀ key', key' ≠ globalContextKey → readdir key' w' = readdir key' w).
Proof.
  intros r h w'. subst h w' r. unfold hostDiscoverableMessageChannel.
  pose proof (expose_all_spec clientKeys pid i
                (default (String.concat ", " clientKeys) description) port w) as H.
  destruct (expose_all _ _ _ _ _ _) as [[paths w2] i'].
  cbn [fst snd hideGlobalContextCallbacks] in *.
  destruct H as (Hi & Hp & Hnow & Hother & Hget & Hrest). by split_and!.
Qed.

Lemma hide_all_spec paths : ∀ w,
  readdir globalContextKey (hide_all paths w)
  = filter (λ nf, nf.1 ∉ paths) (readdir globalContextKey w) ∧
  (∀ key', key' ≠ globalContextKey → readdir key' (hide_all paths w) = readdir key' w).
Proof.
  induction paths as [|path paths IH]; intros w.
  { split; [|done]. simpl. symmetry. apply filter_all. intros ? _. apply not_elem_of_nil. }
  unfold hide_all. cbn [foldl]. fold (hide_all paths (hideGlobalContext globalContextKey path w)).
  destruct (IH (hideGlobalContext globalContextKey path w)) as [H1 H2].
  assert (E : readdir globalContextKey (hideGlobalContext globalContextKey path w)
              = filter (λ nf, nf.1 ≠ path) (readdir globalContextKey w) ∧
              ∀ key', key' ≠ globalContextKey →
                readdir key' (hideGlobalContext globalContextKey path w) = readdir key' w).
  { unfold hideGlobalContext, unlinkSync.
    destruct (jsmap_get (readdir globalContextKey w) path) eqn:Hg.
    - rewrite readdir_set_dir_eq. split; [apply jsmap_delete_filter|].
      intros key' Hne. by apply readdir_set_dir_ne.
    - split; [|done]. symmetry. apply filter_all. intros [name f] Hin. simpl.
      intros ->. apply jsmap_get_None in Hg. apply Hg.
      apply list_elem_of_fmap. by exists (path, f). }
  destruct E as [E1 E2]. split.
  - rewrite H1, E1, list_filter_filter. apply filter_ext_elem.
    intros nf _. rewrite not_elem_of_cons. tauto.
  - intros key' Hne. by rewrite H2, E2.
Qed.

(** X24: [close] takes back every advertisement of the host, and nothing
    else, whatever has happened to the directory since: what remains is the
    directory without the files that the host had written. It stops the
    server and calls [onClose], both once: a second [close] changes
    nothing. *)
Theorem close_hides_every_advertisement h w :
  closed h = false →
  let h' := (close h w).1 in
  let w' := (close h w).2 in
  readdir globalContextKey w'
  = filter (λ nf, nf.1 ∉ hideGlobalContextCallbacks h) (readdir globalContextKey w) ∧
  (∀ key', key' ≠ globalContextKey → readdir key' w' = readdir key' w) ∧
  server_closes h' = S (server_closes h) ∧
  onClose_calls h' = S (onClose_calls h) ∧
  close h' w' = (h', w').
Proof.
  intros Hc h' w'. subst h' w'. unfold close. rewrite Hc. cbn [fst snd].
  destruct (hide_all_spec (hideGlobalContextCallbacks h) w) as [H1 H2].
  by split_and!.
Qed.

(** X25: 'terminate-unused-host' looks at the connections when the request
    is handled, and the host closes later, in a callback of [setImmediate].
    A host with a connection is left as it is and nothing is scheduled; a
    host without connection is closed by the callback even when a
    connection has arrived in between, and 'terminate-any-host' closes a
    host whatever its connections are. *)
Theorem terminate_unused_host_checks_early h w c :
  closed h = false → close_scheduled h = 0 →
  (connections h ≠ [] →
   terminate_unused_host h = h ∧ run_scheduled_close h w = (h, w)) ∧
  (connections h = [] →
   let r := run_scheduled_close (connection c (terminate_unused_host h)) w in
   closed r.1 = true ∧ connections r.1 = [c] ∧
   server_closes r.1 = S (server_closes h) ∧ r.2 = (close h w).2) ∧
  (let r := run_scheduled_close (terminate_any_host h) w in
   closed r.1 = true ∧ connections r.1 = connections h ∧ r.2 = (close h w).2).
Proof.
  intros Hc Hs. split_and!.
  - intros Hn. unfold terminate_unused_host, run_scheduled_close.
    rewrite Hs. by destruct (connections h).
  - intros He r. subst r.
    unfold terminate_unused_host, run_scheduled_close, connection, schedule_close, close.
    rewrite He. cbn. rewrite Hc. cbn. rewrite decide_False by apply not_elem_of_nil.
    done.
  - intros r. subst r.
    unfold terminate_any_host, run_scheduled_close, schedule_close, close.
    cbn. by rewrite Hc.
Qed.

End HostFacts.

Lemma close_hides_every_advertisement_witness :
  let w0 : Host.store :=
    {| GlobalContext.fs := λ _, [(GlobalContext.CtxFile 77 3,
                                  {| GlobalContext.mtime := 5;
                                     GlobalContext.fdata := GlobalContext.Malformed |})];
       GlobalContext.kill0 := λ _, GlobalContext.Running;
       GlobalContext.now := 100; GlobalContext.boot := 0;
       GlobalContext.globalContextWatchers := []; GlobalContext.watchers := [];
       GlobalContext.subscriptions := []; GlobalContext.immediates := [];
       GlobalContext.timers := []; GlobalContext.next_timer := 0;
       GlobalContext.promises := []; GlobalContext.log := [] |} in
  let r := Host.hostDiscoverableMessageChannel 42 10 ["lsp"; "preview"] None 3000 w0 in
  GlobalContext.readdir Host.globalContextKey (Host.close r.1.1 r.1.2).2
  = filter (λ nf, nf.1 ∉ Host.hideGlobalContextCallbacks r.1.1)
      (GlobalContext.readdir Host.globalContextKey r.1.2).
Proof.
  intros w0 r.
  apply (close_hides_every_advertisement r.1.1 r.1.2).
  reflexivity.
Defined.

Lemma terminate_unused_host_checks_early_witness :
  let w0 : Host.store :=
    {| GlobalContext.fs := λ _, [(GlobalContext.CtxFile 42 11,
                                  {| GlobalContext.mtime := 5;
                                     GlobalContext.fdata := GlobalContext.Malformed |})];
       GlobalContext.kill0 := λ _, GlobalContext.Running;
       GlobalContext.now := 100; GlobalContext.boot := 0;
       GlobalContext.globalContextWatchers := []; GlobalContext.watchers := [];
       GlobalContext.subscriptions := []; GlobalContext.immediates := [];
       GlobalContext.timers := []; GlobalContext.next_timer := 0;
       GlobalContext.promises := []; GlobalContext.log := [] |} in
  let h := {| Host.hport := 3000; Host.connections := []; Host.closed := false;
              Host.hideGlobalContextCallbacks := [GlobalContext.CtxFile 42 11];
              Host.server_closes := 0; Host.onClose_calls := 0;
              Host.close_scheduled := 0 |} in
  Host.closed
    (Host.run_scheduled_close (Host.connection 1 (Host.terminate_unused_host h)) w0).1
  = true.
Proof.
  intros w0 h.
  destruct (terminate_unused_host_checks_early h w0 1) as (_ & H & _); [done..|].
  by destruct H.
Defined.

(** ** The hooks *)

Section HookFacts.
Import Hooks.
Implicit Types (σ : hooks) (t i : nat).

Lemma cell_types_lookup σ t cur i a :
  cell_types σ t = Some <$> cur → cur !! i = Some a →
  ∃ c cell, memoryCells σ t !! i = Some c ∧ cells σ !! c = Some cell ∧ type cell = a.
Proof.
  intros Hct Ha. unfold cell_types in Hct.
  assert (H : ((λ c, type <$> cells σ !! c) <$> memoryCells σ t) !! i = Some (Some a))
    by (by rewrite Hct, list_lookup_fmap, Ha).
  rewrite list_lookup_fmap in H.
  destruct (memoryCells σ t !! i) as [c|]; [|done]. simpl in H.
  destruct (cells σ !! c) as [cell|] eqn:Hc; [|done]. simpl in H.
  exists c, cell. split_and!; congruence.
Qed.

Lemma cell_types_length σ t cur :
  cell_types σ t = Some <$> cur → length (memoryCells σ t) = length cur.
Proof.
  intros Hct. unfold cell_types in Hct.
  by rewrite <-(length_fmap (λ c, type <$> cells σ !! c)), Hct, length_fmap.
Qed.

Lemma getMemoryCell_hit σ t i next cur a ty :
  hookState σ = {| index := i; target := t |} :: next →
  cell_types σ t = Some <$> cur → cur !! i = Some a →
  ∃ c, getMemoryCell ty σ
       = (with_hookState ({| index := S i; target := t |} :: next) σ,
          if decide (a = ty) then Returns c
          else Throws (Error ("Hook policy violated: expected " +:+ a
                              +:+ " but found " +:+ ty +:+ " instead"))).
Proof.
  intros Hs Hct Ha. destruct (cell_types_lookup σ t cur i a Hct Ha) as (c & cell & Hc & Hcell & <-).
  exists c. unfold getMemoryCell. rewrite Hs. cbn [target index]. rewrite Hc, Hcell.
  by destruct (decide _).
Qed.

Lemma getMemoryCell_miss σ t i next cur ty :
  hookState σ = {| index := i; target := t |} :: next →
  cell_types σ t = Some <$> cur → cur !! i = None →
  ∃ σ', getMemoryCell ty σ = (σ', Returns (length (cells σ))) ∧
        hookState σ' = {| index := S i; target := t |} :: next ∧
        cell_types σ' t = Some <$> (cur ++ [ty]).
Proof.
  intros Hs Hct Ha. unfold getMemoryCell. rewrite Hs. cbn [target index].
  assert (Hm : memoryCells σ t !! i = None).
  { apply lookup_ge_None. rewrite (cell_types_length σ t cur Hct).
    by apply lookup_ge_None. }
  rewrite Hm. eexists. split_and!; [done..|].
  unfold cell_types. cbn [memoryCells with_memoryCells cells with_cells with_hookState].
  rewrite decide_True by done. rewrite !fmap_app. f_equal.
  - rewrite <-Hct. unfold cell_types. apply list_fmap_ext. intros j c Hj.
    assert (H : ((λ c, type <$> cells σ !! c) <$> memoryCells σ t) !! j
                = (Some <$> cur) !! j) by (by rewrite <-Hct).
    rewrite !list_lookup_fmap, Hj in H. simpl in H.
    destruct (cells σ !! c) as [cell|] eqn:Hc.
    + by rewrite (lookup_app_l_Some _ _ _ _ Hc).
    + by destruct (cur !! j).
  - simpl. by rewrite list_lookup_middle.
Qed.

Lemma hook_calls_run t rest : ∀ σ i cur next,
  hookState σ = {| index := i; target := t |} :: next →
  cell_types σ t = Some <$> cur → i ≤ length cur →
  ((∀ k a b, cur !! (i + k) = Some a → rest !! k = Some b → a = b) →
   (hook_calls rest σ).2 = Returns () ∧
   (∃ j, hookState (hook_calls rest σ).1 = {| index := j; target := t |} :: next) ∧
   cell_types (hook_calls rest σ).1 t = Some <$> (cur ++ drop (length cur - i) rest)) ∧
  (∀ k a b,
     (∀ j a' b', j < k → cur !! (i + j) = Some a' → rest !! j = Some b' → a' = b') →
     cur !! (i + k) = Some a → rest !! k = Some b → a ≠ b →
     (hook_calls rest σ).2 = Throws (policy_error a b) ∧
     (∃ j, hookState (hook_calls rest σ).1 = {| index := j; target := t |} :: next) ∧
     cell_types (hook_calls rest σ).1 t = Some <$> cur).
Proof.
  induction rest as [|ty rest IH]; intros σ i cur next Hs Hct Hi.
  { split.
    - intros _. simpl. split_and!; [done|by eexists|]. by rewrite drop_nil, app_nil_r.
    - intros k a b _ _ Hb. done. }
  cbn [hook_calls foldr]. fold (hook_calls rest). unfold bind.
  destruct (cur !! i) as [a0|] eqn:Ha0.
  - destruct (getMemoryCell_hit σ t i next cur a0 ty Hs Hct Ha0) as [c Hget].
    rewrite Hget. clear Hget.
    set (σ1 := with_hookState ({| index := S i; target := t |} :: next) σ).
    assert (Hlt : i < length cur) by (by eapply lookup_lt_Some).
    destruct (decide (a0 = ty)) as [->|Hne]; cbv beta iota.
    + destruct (IH σ1 (S i) cur next) as [IH1 IH2]; [done|done|lia|].
      split.
      * intros Hcompat. destruct IH1 as (H1 & H2 & H3).
        { intros k a b Ha Hb. apply (Hcompat (S k) a b); [|done].
          by replace (i + S k) with (S i + k) by lia. }
        split_and!; [done..|]. rewrite H3. do 2 f_equal.
        replace (length cur - i) with (S (length cur - S i)) by lia. done.
      * intros [|k] a b Hpre Ha Hb Hab.
        { rewrite Nat.add_0_r in Ha. simpl in Hb. congruence. }
        apply (IH2 k a b); [|by replace (S i + k) with (i + S k) by lia|done..].
        intros j a' b' Hj Ha' Hb'. apply (Hpre (S j) a' b'); [lia| |done].
        by replace (i + S j) with (S i + j) by lia.
    + split.
      * intros Hcompat. destruct Hne. apply (Hcompat 0 a0 ty); [|done].
        by rewrite Nat.add_0_r.
      * intros [|k] a b Hpre Ha Hb Hab.
        -- rewrite Nat.add_0_r in Ha. simpl in Hb.
           assert (a = a0) as -> by congruence. assert (b = ty) as -> by congruence.
           cbn [fst snd]. split_and!; [done|by eexists|done].
        -- destruct Hne. apply (Hpre 0 a0 ty); [lia| |done]. by rewrite Nat.add_0_r.
  - destruct (getMemoryCell_miss σ t i next cur ty Hs Hct Ha0) as (σ' & Hget & Hs' & Hct').
    rewrite Hget. clear Hget. cbv beta iota.
    assert (Hge : length cur ≤ i) by (by apply lookup_ge_None).
    destruct (IH σ' (S i) (cur ++ [ty]) next) as [IH1 _];
      [done|done|rewrite length_app; simpl; lia|].
    destruct IH1 as (H1 & H2 & H3).
    { intros k a b Ha _. apply lookup_lt_Some in Ha. rewrite length_app in Ha.
      simpl in Ha. lia. }
    split.
    + intros _. split_and!; [done..|]. rewrite H3. f_equal.
      rewrite length_app. simpl.
      replace (length cur + 1 - S i) with 0 by lia.
      replace (length cur - i) with 0 by lia.
      by rewrite !drop_0, <-app_assoc.
    + intros k a b _ Ha. apply lookup_lt_Some in Ha. lia.
Qed.

Lemma hook_calls_frame t rest : ∀ σ i cur next,
  hookState σ = {| index := i; target := t |} :: next →
  cell_types σ t = Some <$> cur →
  (∃ j, hookState (hook_calls rest σ).1 = {| index := j; target := t |} :: next) ∧
  (hook_calls rest σ).2 ≠ NoFuel.
Proof.
  induction rest as [|ty rest IH]; intros σ i cur next Hs Hct.
  { simpl. split; [by eexists|done]. }
  cbn [hook_calls foldr]. fold (hook_calls rest). unfold bind.
  destruct (cur !! i) as [a0|] eqn:Ha0.
  - destruct (getMemoryCell_hit σ t i next cur a0 ty Hs Hct Ha0) as [c Hget].
    rewrite Hget. clear Hget.
    destruct (decide (a0 = ty)) as [->|Hne]; cbv beta iota.
    + by apply (IH _ (S i) cur next).
    + cbn [fst snd]. split; [by eexists|done].
  - destruct (getMemoryCell_miss σ t i next cur ty Hs Hct Ha0) as (σ' & Hget & Hs' & Hct').
    rewrite Hget. cbv beta iota. by apply (IH σ' (S i) (cur ++ [ty]) next).
Qed.

(** X26: the rule of hooks. When a target is executed again, the hooks that
    it calls must have the types of its memory cells, in their order; calling
    more hooks than before adds cells, and calling fewer is accepted. The
    first hook that breaks the order throws, with the two types in the
    message, and leaves the cells as they were. In both cases the stack of
    hook targets is what it was before. *)
Theorem hook_policy t ts ts' σ :
  cell_types σ t = Some <$> ts →
  let r := executeWithHooks t (hook_calls ts') σ in
  hookState r.1 = hookState σ ∧
  ((∀ i a b, ts !! i = Some a → ts' !! i = Some b → a = b) →
   r.2 = Returns () ∧ cell_types r.1 t = Some <$> (ts ++ drop (length ts) ts')) ∧
  (∀ i a b, take i ts' = take i ts → ts !! i = Some a → ts' !! i = Some b → a ≠ b →
   r.2 = Throws (policy_error a b) ∧ cell_types r.1 t = Some <$> ts).
Proof.
  intros Hct r.
  set (σ0 := with_hookState ({| index := 0; target := t |} :: hookState σ) σ).
  destruct (hook_calls_run t ts' σ0 0 ts (hookState σ)) as [Hok Hbad];
    [done|done|lia|].
  destruct (hook_calls_frame t ts' σ0 0 ts (hookState σ)) as [[j Hj] Hfuel]; [done..|].
  assert (E : r = (with_hookState (hookState σ) (hook_calls ts' σ0).1,
                   (hook_calls ts' σ0).2)).
  { subst r. unfold executeWithHooks, bind, pushHookTarget, modify, finally.
    fold σ0. destruct (hook_calls ts' σ0) as [σ1 r1]. cbn [fst snd] in *.
    unfold popHookTarget. rewrite Hj. cbn [target]. rewrite decide_True by done.
    by destruct r1. }
  rewrite E. cbn [fst snd]. split_and!.
  - done.
  - intros Hcompat. destruct Hok as (H1 & _ & H3); [done|].
    split; [done|]. by rewrite Nat.sub_0_r in H3.
  - intros i a b Hpre Ha Hb Hab.
    destruct (Hbad i a b) as (H1 & _ & H3); [|done..].
    intros k a' b' Hk Ha' Hb'.
    assert (Hk' : take i ts' !! k = Some b') by (by rewrite lookup_take_lt).
    rewrite Hpre, lookup_take_lt in Hk' by done. simpl in Ha'. congruence.
Qed.

Lemma strict_eq_true a b : strict_eq a b = true ↔ a = b ∧ a ≠ NaN.
Proof.
  destruct a, b; simpl; rewrite ?bool_decide_eq_true; split;
    try (intros [? ?]); try done; try (intros ?; split; done).
Qed.

Lemma deps_changed_false old deps :
  deps_changed old deps = false ↔ old = deps ∧ NaN ∉ old.
Proof.
  unfold deps_changed. rewrite orb_false_iff, negb_false_iff, Nat.eqb_eq. split.
  - intros [Hlen Hex].
    assert (Hall : ∀ j v, old !! j = Some v → deps !! j = Some v ∧ v ≠ NaN).
    { intros j v Hj.
      assert (Hin : In (j, v) (imap pair old)).
      { apply list_elem_of_In. by apply (elem_of_lookup_imap_2 pair). }
      destruct (strict_eq (default Undefined (deps !! j)) v) eqn:Hse.
      - apply strict_eq_true in Hse as [Hse Hn]. subst v.
        destruct (deps !! j) eqn:Hd; [done|].
        apply lookup_ge_None in Hd. apply lookup_lt_Some in Hj. lia.
      - assert (existsb (λ iv, negb (strict_eq (default Undefined (deps !! iv.1)) iv.2))
                  (imap pair old) = true); [|congruence].
        apply existsb_exists. exists (j, v). split; [done|]. simpl. by rewrite Hse. }
    split.
    + apply list_eq_same_length with (length old); [done|done|].
      intros j x y _ Hx Hy. destruct (Hall j x Hx) as [Hy' _]. congruence.
    + intros (j & Hj)%list_elem_of_lookup. by destruct (Hall j NaN Hj).
  - intros [-> Hn]. split; [done|].
    destruct (existsb _ _) eqn:Hex; [|done]. exfalso.
    apply existsb_exists in Hex as ([j v] & Hin & Hneg).
    apply list_elem_of_In, elem_of_lookup_imap in Hin as (j' & v' & [= -> ->] & Hj).
    simpl in Hneg. rewrite Hj in Hneg. simpl in Hneg.
    apply negb_true_iff in Hneg.
    assert (strict_eq v' v' = true); [|congruence].
    apply strict_eq_true. split; [done|]. intros ->. apply Hn.
    by eapply list_elem_of_lookup_2.
Qed.

(** [useMemo] at a cell that holds a ref. *)
Lemma useMemo_existing σ t i next c cell r s old create deps :
  hookState σ = {| index := i; target := t |} :: next →
  memoryCells σ t !! i = Some c → cells σ !! c = Some cell →
  type cell = "memo" → ref cell = Some r → refs σ !! r = Some (MemoRef s old) →
  (deps_changed old deps = false →
   useMemo create deps σ
   = (with_hookState ({| index := S i; target := t |} :: next) σ, Returns s)) ∧
  (deps_changed old deps = true → ∀ v', create = ret v' →
   (useMemo create deps σ).2 = Returns v').
Proof.
  intros Hs Hc Hcell Hty Href Hr.
  set (σ1 := with_hookState ({| index := S i; target := t |} :: next) σ).
  assert (E1 : getMemoryCell "memo" σ = (σ1, Returns c)).
  { unfold getMemoryCell. rewrite Hs. cbn [index target]. rewrite Hc, Hcell.
    by rewrite decide_True. }
  assert (E2 : cell_ref c σ1 = (σ1, Returns (Some r))).
  { unfold cell_ref. subst σ1. cbn [cells with_hookState]. by rewrite Hcell, Href. }
  assert (E3 : read_ref r σ1 = (σ1, Returns (MemoRef s old))).
  { unfold read_ref. subst σ1. cbn [refs with_hookState]. by rewrite Hr. }
  split.
  - intros Hd. unfold useMemo, bind. rewrite E1, E2. unfold ret at 1. rewrite E3, Hd.
    unfold ret at 1. unfold get_state, bind. rewrite E3. done.
  - intros Hd v' ->. unfold useMemo, bind. rewrite E1, E2. unfold ret at 1.
    rewrite E3, Hd. unfold set_deps, set_state, get_state, modify, ret, bind, read_ref.
    subst σ1. cbn [refs with_hookState with_refs]. rewrite Hr.
    cbn [refs with_hookState with_refs]. rewrite list_lookup_insert_eq by (by eapply lookup_lt_Some).
    cbn [refs with_hookState with_refs].
    rewrite list_lookup_insert_eq by (rewrite length_insert; by eapply lookup_lt_Some).
    done.
Qed.

(** [useMemo] at the end of the cells: the first execution. *)
Lemma useMemo_first σ t i next v deps :
  hookState σ = {| index := i; target := t |} :: next →
  length (memoryCells σ t) = i →
  ∃ σ2 c r,
    useMemo (ret v) deps σ = (σ2, Returns v) ∧
    hookState σ2 = {| index := S i; target := t |} :: next ∧
    memoryCells σ2 t !! i = Some c ∧
    cells σ2 !! c = Some {| type := "memo"; ctarget := t; ref := Some r |} ∧
    refs σ2 !! r = Some (MemoRef v deps) ∧
    (NaN ∉ deps →
     with_hookState ({| index := S i; target := t |} :: next)
       (with_hookState ({| index := i; target := t |} :: next) σ2) = σ2).
Proof.
  intros Hs Hlen.
  set (c := length (cells σ)). set (r := length (refs σ)).
  set (cell0 := {| type := "memo"; ctarget := t; ref := None |}).
  set (cell1 := {| type := "memo"; ctarget := t; ref := Some r |}).
  set (σ1 := with_memoryCells t (memoryCells σ t ++ [c])
               (with_cells (cells σ ++ [cell0])
                  (with_hookState ({| index := S i; target := t |} :: next) σ))).
  set (σ2 := with_cells (<[c := cell1]> (cells σ1))
               (with_refs (refs σ1 ++ [MemoRef v deps]) σ1)).
  assert (E1 : getMemoryCell "memo" σ = (σ1, Returns c)).
  { unfold getMemoryCell. rewrite Hs. cbn [index target].
    rewrite (proj2 (lookup_ge_None _ _)) by lia. done. }
  assert (Hc1 : cells σ1 !! c = Some cell0).
  { subst σ1. cbn [cells with_memoryCells with_cells]. by apply list_lookup_middle. }
  assert (E2 : cell_ref c σ1 = (σ1, Returns None)).
  { unfold cell_ref. by rewrite Hc1. }
  assert (E3 : set_cell_ref c (MemoRef v deps) σ1 = (σ2, Returns r)).
  { unfold set_cell_ref. by rewrite Hc1. }
  assert (Hr2 : refs σ2 !! r = Some (MemoRef v deps)).
  { subst σ2 σ1. cbn [refs with_cells with_refs with_memoryCells with_hookState].
    by apply list_lookup_middle. }
  assert (E4 : read_ref r σ2 = (σ2, Returns (MemoRef v deps))).
  { unfold read_ref. by rewrite Hr2. }
  assert (Hm2 : memoryCells σ2 t !! i = Some c).
  { subst σ2 σ1. cbn [memoryCells with_cells with_refs with_memoryCells].
    rewrite decide_True by done. by apply list_lookup_middle. }
  assert (Hc2 : cells σ2 !! c = Some cell1).
  { subst σ2. cbn [cells with_cells]. apply list_lookup_insert_eq.
    by eapply lookup_lt_Some. }
  assert (Hh2 : hookState σ2 = {| index := S i; target := t |} :: next) by done.
  assert (Estart : useMemo (ret v) deps σ
                   = ((if deps_changed deps deps
                       then let* _ := set_deps r deps in
                            let* s := ret v in set_state r s
                       else ret ()) ;;; get_state r) σ2).
  { unfold useMemo. unfold bind at 1. rewrite E1. unfold bind at 1. rewrite E2.
    unfold bind at 1. unfold bind at 1. unfold ret at 1. rewrite E3.
    unfold bind at 1. rewrite E4. done. }
  destruct (deps_changed deps deps) eqn:Hd.
  - set (σ3 := with_refs (<[r := MemoRef v deps]> (refs σ2)) σ2).
    set (σ4 := with_refs (<[r := MemoRef v deps]> (refs σ3)) σ3).
    assert (Hr3 : refs σ3 !! r = Some (MemoRef v deps)).
    { subst σ3. cbn [refs with_refs]. apply list_lookup_insert_eq. by eapply lookup_lt_Some. }
    assert (Hr4 : refs σ4 !! r = Some (MemoRef v deps)).
    { subst σ4. cbn [refs with_refs]. apply list_lookup_insert_eq. by eapply lookup_lt_Some. }
    exists σ4, c, r. split_and!; try done.
    rewrite Estart. unfold set_deps, set_state, get_state, modify, ret, bind, read_ref.
    rewrite Hr2. fold σ3. rewrite Hr3. fold σ4. by rewrite Hr4.
  - exists σ2, c, r. split_and!; try done.
    rewrite Estart. unfold get_state, ret, bind, read_ref. by rewrite Hr2.
Qed.

(** X27: [useMemo] keeps what it has created while the dependencies are
    the same. In the execution that follows the first one, and at the same
    hook, equal dependencies without NaN give the value of the first
    execution back, and [create] is not called, whatever it is; other
    dependencies, or a NaN among them, give the value that [create] returns
    now. *)
Theorem memo_kept_while_deps_same σ t i v deps :
  rendering t i σ → length (memoryCells σ t) = i →
  let first := useMemo (ret v) deps σ in
  first.2 = Returns v ∧
  ∀ deps',
    (deps' = deps → NaN ∉ deps → ∀ create,
       useMemo create deps' (again i first.1) = (first.1, Returns v)) ∧
    (deps' ≠ deps ∨ NaN ∈ deps → ∀ v',
       (useMemo (ret v') deps' (again i first.1)).2 = Returns v').
Proof.
  intros [next Hs] Hlen first.
  destruct (useMemo_first σ t i next v deps Hs Hlen)
    as (σ2 & c & r & E & Hh & Hm & Hc & Hr & Heta).
  subst first. rewrite E. cbn [fst snd]. split; [done|]. intros deps'.
  assert (Ea : again i σ2 = with_hookState ({| index := i; target := t |} :: next) σ2).
  { unfold again. by rewrite Hh. }
  rewrite Ea.
  set (σ' := with_hookState ({| index := i; target := t |} :: next) σ2).
  split.
  - intros -> Hn create.
    destruct (useMemo_existing σ' t i next c
                {| type := "memo"; ctarget := t; ref := Some r |} r v deps create deps)
      as [H1 _]; try done.
    rewrite H1 by (by apply deps_changed_false). subst σ'. by rewrite Heta.
  - intros Hne v'.
    destruct (useMemo_existing σ' t i next c
                {| type := "memo"; ctarget := t; ref := Some r |} r v deps (ret v') deps')
      as [_ H2]; try done.
    apply H2; [|done]. destruct (deps_changed deps deps') eqn:Hd; [done|].
    apply deps_changed_false in Hd as [-> Hn]. by destruct Hne.
Qed.

Section Schedule.
Variable depth : nat → option nat.
Variable execute : nat → M unit.
Variable I : hooks → Prop.
Hypothesis Hmem : memory_only I.
Hypothesis Hquiet : quiet I execute.

Lemma add_all_spec nodes : ∀ set,
  NoDup set →
  NoDup (add_all nodes set) ∧ ∀ x, x ∈ add_all nodes set ↔ x ∈ set ∨ x ∈ nodes.
Proof.
  induction nodes as [|n nodes IH]; intros set Hnd.
  { simpl. split; [done|]. intros x. rewrite elem_of_nil. tauto. }
  unfold add_all. cbn [foldl]. fold (add_all nodes (if decide (n ∈ set) then set else set ++ [n])).
  destruct (decide (n ∈ set)) as [Hin|Hin].
  - destruct (IH set Hnd) as [H1 H2]. split; [done|]. intros x.
    rewrite H2, elem_of_cons. split; [tauto|]. intros [?|[->|?]]; tauto.
  - destruct (IH (set ++ [n])) as [H1 H2].
    { apply NoDup_app. split_and!; [done| |apply NoDup_singleton].
      intros x Hx ->%list_elem_of_singleton. done. }
    split; [done|]. intros x.
    rewrite H2, elem_of_app, list_elem_of_singleton, elem_of_cons. tauto.
Qed.

Lemma insert_sorted_perm x l : insert_sorted depth x l ≡ₚ x :: l.
Proof.
  induction l as [|y l IH]; [done|]. simpl. destruct (decide _); [done|].
  by rewrite IH, Permutation_swap.
Qed.

Lemma sort_perm l : sort depth l ≡ₚ l.
Proof.
  induction l as [|x l IH]; [done|]. unfold sort. cbn [foldr]. fold (sort depth l).
  by rewrite insert_sorted_perm, IH.
Qed.

Lemma insert_sorted_sorted x l :
  StronglySorted (before depth) l → StronglySorted (before depth) (insert_sorted depth x l).
Proof.
  induction 1 as [|y l Hl IH Hy]; simpl.
  { repeat constructor. }
  destruct (decide (before depth x y)) as [Hxy|Hxy].
  - constructor; [by constructor|]. constructor; [done|].
    eapply Forall_impl; [exact Hy|]. intros z Hz. unfold before in *. lia.
  - constructor; [done|]. rewrite insert_sorted_perm. constructor; [|done].
    unfold before in *. lia.
Qed.

Lemma sort_sorted l : StronglySorted (before depth) (sort depth l).
Proof.
  induction l as [|x l IH]; [constructor|]. unfold sort. cbn [foldr].
  by apply insert_sorted_sorted.
Qed.

Lemma StronglySorted_reverse_flip {A} (R : relation A) l :
  StronglySorted R l → StronglySorted (flip R) (reverse l).
Proof.
  induction 1 as [|x l Hl IH Hx]; [constructor|]. rewrite reverse_cons.
  apply StronglySorted_app. split_and!; [|done|repeat constructor].
  intros x1 x2 Hx1 ->%list_elem_of_singleton. unfold flip.
  rewrite elem_of_reverse in Hx1. rewrite Forall_forall in Hx. by apply Hx.
Qed.

Lemma StronglySorted_filter {A} (R : relation A) (P : A → Prop)
    `{∀ x, Decision (P x)} l :
  StronglySorted R l → StronglySorted R (filter P l).
Proof.
  induction 1 as [|x l Hl IH Hx]; [constructor|]. rewrite filter_cons.
  destruct (decide (P x)); [|done]. constructor; [done|].
  rewrite Forall_forall in Hx. apply Forall_forall.
  intros y [_ Hy]%list_elem_of_filter. by apply Hx.
Qed.

Lemma refresh_quiet t σ :
  I σ →
  ∃ σ', refresh execute t σ = (σ', Returns ()) ∧ I σ' ∧
        nodesToRefresh σ' = filter (λ n, n ≠ t) (nodesToRefresh σ) ∧
        stack σ' = stack σ ∧ executingSchedule σ' = executingSchedule σ ∧
        (∀ n, active σ' n = active σ n) ∧ hookState σ' = hookState σ ∧
        executed σ' = executed σ ++ (if active σ t then [t] else []).
Proof.
  intros HI. unfold refresh, bind, modify, gets.
  set (σ1 := with_nodesToRefresh (filter (λ n, n ≠ t) (nodesToRefresh σ)) σ).
  assert (HI1 : I σ1) by (by apply (Hmem σ)).
  change (active σ1 t) with (active σ t).
  destruct (active σ t) eqn:Ha.
  - set (σ2 := with_executed (executed σ1 ++ [t]) σ1).
    unfold executeWithHooks, bind, pushHookTarget, modify, finally.
    set (σ3 := with_hookState ({| index := 0; target := t |} :: hookState σ2) σ2).
    assert (HI3 : I σ3) by (by apply (Hmem σ)).
    destruct (Hquiet t (hookState σ2) σ3 HI3 eq_refl)
      as (σ4 & j & E & HI4 & Hj & Hact & Hn & Hst & Hex & Hexd).
    rewrite E. unfold popHookTarget. rewrite Hj. cbn [target].
    rewrite decide_True by done.
    eexists. split; [done|].
    cbn [nodesToRefresh stack executingSchedule active hookState executed with_hookState].
    rewrite Hn, Hst, Hex, Hexd. split_and!; try done.
    by apply (Hmem σ4).
  - eexists. split; [done|]. split_and!; try done. by rewrite app_nil_r.
Qed.

Lemma activate_quiet t σ : I σ → I (activate execute t σ).1.
Proof.
  intros HI. unfold activate, bind, modify.
  destruct (refresh_quiet t (with_active t true σ)) as (σ' & E & HI' & _).
  { by apply (Hmem σ). }
  by rewrite E.
Qed.

Lemma drain_quiet rs : ∀ fuel σ,
  I σ →
  stack σ = reverse rs → NoDup rs → (∀ x, x ∈ nodesToRefresh σ ↔ x ∈ rs) →
  length rs ≤ fuel →
  ∃ σ', drain execute fuel σ = (σ', Returns ()) ∧ I σ' ∧
        nodesToRefresh σ' = [] ∧ executingSchedule σ' = executingSchedule σ ∧
        hookState σ' = hookState σ ∧
        executed σ' = executed σ ++ filter (λ n, active σ n = true) rs.
Proof.
  induction rs as [|node rest IH]; intros fuel σ HI Hst Hnd Hset Hfuel.
  { exists σ. destruct fuel; simpl; rewrite Hst; simpl.
    all: split_and!; try done; try (by rewrite app_nil_r).
    all: destruct (nodesToRefresh σ) as [|x l] eqn:E; [done|].
    all: exfalso; eapply elem_of_nil, Hset; left. }
  destruct fuel as [|fuel]; [simpl in Hfuel; lia|].
  apply NoDup_cons in Hnd as [Hnotin Hnd].
  cbn [drain]. rewrite Hst, reverse_involutive. unfold bind at 1. unfold modify at 1.
  set (σ1 := with_stack (reverse rest) σ).
  assert (HI1 : I σ1) by (by apply (Hmem σ)).
  unfold bind at 1. unfold gets at 1.
  change (nodesToRefresh σ1) with (nodesToRefresh σ).
  rewrite bool_decide_eq_true_2 by (apply Hset; left).
  unfold bind at 1.
  destruct (refresh_quiet node σ1 HI1) as (σ2 & E & HI2 & Hn & Hs2 & Hex & Hact & Hh & Hexd).
  rewrite E.
  destruct (IH fuel σ2) as (σ3 & E3 & HI3 & Hn3 & Hex3 & Hh3 & Hexd3).
  - done.
  - by rewrite Hs2.
  - done.
  - intros x. rewrite Hn, list_elem_of_filter.
    change (nodesToRefresh σ1) with (nodesToRefresh σ). rewrite Hset, elem_of_cons.
    split; [intros [Hne [->|Hx]]; done|]. intros Hx. split; [|by right].
    intros ->. done.
  - simpl in Hfuel. lia.
  - exists σ3. rewrite E3. split_and!; try done.
    + by rewrite Hex3, Hex.
    + by rewrite Hh3, Hh.
    + rewrite Hexd3, Hexd.
      change (executed σ1) with (executed σ). change (active σ1 node) with (active σ node).
      rewrite <-app_assoc. f_equal. rewrite filter_cons.
      destruct (active σ node) eqn:Ha.
      * rewrite decide_True by done. simpl. f_equal. apply filter_ext_elem.
        intros x _. by rewrite Hact.
      * rewrite decide_False by (by intros ?). simpl. apply filter_ext_elem.
        intros x _. by rewrite Hact.
Qed.

Lemma scheduleRefresh_quiet fuel rawNodes σ :
  I σ →
  executingSchedule σ = false → NoDup (nodesToRefresh σ) →
  length (add_all rawNodes (nodesToRefresh σ)) ≤ fuel →
  ∃ σ', scheduleRefresh depth execute fuel rawNodes σ = (σ', Returns ()) ∧ I σ' ∧
        nodesToRefresh σ' = [] ∧ executingSchedule σ' = false ∧
        hookState σ' = hookState σ ∧
        executed σ'
        = executed σ ++ filter (λ n, active σ n = true)
                          (reverse (sort depth (add_all rawNodes (nodesToRefresh σ)))).
Proof.
  intros HI Hex Hnd Hfuel.
  set (nodes := add_all rawNodes (nodesToRefresh σ)) in *.
  destruct (add_all_spec rawNodes (nodesToRefresh σ) Hnd) as [Hnd' _]. fold nodes in Hnd'.
  unfold scheduleRefresh. unfold bind at 1. unfold modify at 1. cbv beta iota.
  fold nodes. set (σ1 := with_nodesToRefresh nodes σ).
  unfold bind at 1. unfold modify at 1. cbv beta iota.
  change (nodesToRefresh σ1) with nodes.
  set (σ2 := with_stack (sort depth nodes) σ1).
  unfold bind at 1. unfold gets at 1. cbv beta iota.
  change (executingSchedule σ2) with (executingSchedule σ). rewrite Hex.
  unfold bind at 1. unfold modify at 1. cbv beta iota.
  set (σ3 := with_executingSchedule true σ2).
  assert (HI3 : I σ3) by (by apply (Hmem σ)).
  destruct (drain_quiet (reverse (sort depth nodes)) fuel σ3 HI3)
    as (σ4 & E & HI4 & Hn & He & Hh & Hexd).
  - by rewrite reverse_involutive.
  - by rewrite reverse_Permutation, sort_perm.
  - intros x. change (nodesToRefresh σ3) with nodes.
    by rewrite elem_of_reverse, sort_perm.
  - by rewrite length_reverse, sort_perm.
  - unfold bind at 1. rewrite E. unfold modify. eexists. split; [done|].
    cbn [nodesToRefresh executingSchedule hookState executed with_executingSchedule].
    split_and!; try done. by apply (Hmem σ4).
Qed.

(** X28: [scheduleRefresh] refreshes parents before children. Let the
    targets have an [execute] that returns and leaves the schedule alone
    whenever it is run by [executeWithHooks] on the memory [I] that earlier
    executions have built, which it may change by calling hooks. Then every
    active target among the nodes that are given, and among those that were
    left to refresh, is executed once, in the order of the depths, the
    least first; no node is left to refresh, and the stack of hook targets
    is what it was. *)
Theorem refresh_in_order_of_depth fuel rawNodes σ :
  I σ →
  executingSchedule σ = false → NoDup (nodesToRefresh σ) →
  let nodes := add_all rawNodes (nodesToRefresh σ) in
  length nodes ≤ fuel →
  let r := scheduleRefresh depth execute fuel rawNodes σ in
  r.2 = Returns () ∧ I r.1 ∧
  nodesToRefresh r.1 = [] ∧ executingSchedule r.1 = false ∧
  hookState r.1 = hookState σ ∧
  ∃ order, executed r.1 = executed σ ++ order ∧
           NoDup order ∧
           (∀ n, n ∈ order ↔
                 active σ n = true ∧ (n ∈ rawNodes ∨ n ∈ nodesToRefresh σ)) ∧
           Sorted le (depth_of depth <$> order).
Proof.
  intros HI Hex Hnd nodes Hfuel r.
  destruct (scheduleRefresh_quiet fuel rawNodes σ HI Hex Hnd Hfuel)
    as (σ' & E & HI' & Hn & He & Hh & Hexd).
  destruct (add_all_spec rawNodes (nodesToRefresh σ) Hnd) as [Hnd' Hin].
  subst r. rewrite E. cbn [fst snd]. split_and!; try done.
  eexists. split; [exact Hexd|]. split_and!.
  - apply NoDup_filter. by rewrite reverse_Permutation, sort_perm.
  - intros n. rewrite list_elem_of_filter, elem_of_reverse, sort_perm, Hin. tauto.
  - apply Sorted.StronglySorted_Sorted.
    apply (StronglySorted_fmap _ (flip (before depth))); [by intros x y Hxy|].
    apply StronglySorted_filter, StronglySorted_reverse_flip, sort_sorted.
Qed.

Hypothesis Hstable : state_stable I.

(** X29: [setState] does its work in a callback of [setImmediate]. A new
    state that is [===] to the old one changes nothing and executes nothing;
    another state is stored, and then the target that called [useState] is
    refreshed: it is executed, once, if it is active. A function as the new
    state throws and stores nothing. The targets are as in X28: their
    [execute] may call hooks, [useState] among them. *)
Theorem setState_refreshes_on_change fuel r s t arg σ :
  I σ →
  refs σ !! r = Some (StateRef s t) → immediates σ = [] →
  executingSchedule σ = false → nodesToRefresh σ = [] → 0 < fuel →
  let res := run_immediate depth execute fuel (setState r arg σ).1 in
  match (match arg with Direct v => Value v | Updater f => f s end) with
  | Function =>
      res.2 = Throws (Error "functions can't be stored as top-level values in useState hooks") ∧
      refs res.1 = refs σ ∧ executed res.1 = executed σ
  | Value v =>
      res.2 = Returns () ∧
      if strict_eq s v then refs res.1 = refs σ ∧ executed res.1 = executed σ
      else
        (∃ σ', refs σ' = <[r := StateRef v t]> (refs σ) ∧
               res = scheduleRefresh depth execute fuel [t] σ') ∧
        executed res.1 = executed σ ++ (if active σ t then [t] else [])
  end.
Proof.
  intros HI Hr Him Hex Hn Hfuel res.
  set (σ1 := with_immediates [] (with_immediates [SetState r arg] σ)).
  assert (E : res = match (match arg with Direct v => Value v | Updater f => f s end) with
                    | Function =>
                        (σ1, Throws (Error "functions can't be stored as top-level values in useState hooks"))
                    | Value v =>
                        if strict_eq s v then (σ1, Returns ())
                        else scheduleRefresh depth execute fuel [t]
                               (with_refs (<[r := StateRef v t]> (refs σ)) σ1)
                    end).
  { subst res. unfold setState, modify. cbn [fst]. rewrite Him. cbn [app].
    unfold run_immediate. cbn [immediates with_immediates].
    unfold bind at 1. unfold modify at 1. cbv beta iota. fold σ1.
    unfold run_task. unfold bind at 1.
    assert (E1 : read_ref r σ1 = (σ1, Returns (StateRef s t))).
    { unfold read_ref. change (refs σ1) with (refs σ). by rewrite Hr. }
    rewrite E1.
    destruct (match arg with Direct v => Value v | Updater f => f s end) as [v|]; [|done].
    destruct (strict_eq s v); [done|].
    unfold bind, set_state, modify. change (refs σ1) with (refs σ). by rewrite Hr. }
  rewrite E. clear E res.
  destruct (match arg with Direct v => Value v | Updater f => f s end) as [v|].
  2: { cbn [fst snd]. by split_and!. }
  destruct (strict_eq s v) eqn:Hse.
  { cbn [fst snd]. by split_and!. }
  set (σ2 := with_refs (<[r := StateRef v t]> (refs σ)) σ1).
  assert (HI2 : I σ2).
  { apply (Hmem (with_refs (<[r := StateRef v t]> (refs σ)) σ)); try done.
    by apply (Hstable σ r s). }
  destruct (scheduleRefresh_quiet fuel [t] σ2 HI2) as (σ' & E & _ & Hn' & He' & Hh' & Hexd).
  - done.
  - change (nodesToRefresh σ2) with (nodesToRefresh σ). rewrite Hn. constructor.
  - change (nodesToRefresh σ2) with (nodesToRefresh σ). rewrite Hn. simpl. lia.
  - rewrite E. cbn [fst snd]. change (nodesToRefresh σ2) with (nodesToRefresh σ) in Hexd.
    rewrite Hn in Hexd. change (executed σ2) with (executed σ) in Hexd.
    change (active σ2) with (active σ) in Hexd.
    assert (Hsort : reverse (sort depth (add_all [t] [])) = [t]) by done.
    rewrite Hsort in Hexd. rewrite Hexd. split_and!.
    + done.
    + exists σ2. split; [done|]. by rewrite E.
    + rewrite filter_cons, filter_nil. by destruct (active σ t).
Qed.

End Schedule.

(** *** A target that calls [useState] *)

Lemma one_state_memory_only : memory_only one_state_memory.
Proof.
  intros σ σ' Hc Hr Hm HI t. rewrite Hm, Hc, Hr. apply HI.
Qed.

Lemma one_state_stable : state_stable one_state_memory.
Proof.
  intros σ r s t v Hr HI t0. destruct (HI t0) as [H|(c & ct & r' & s' & t' & H1 & H2 & H3)].
  { by left. }
  right. cbn [memoryCells cells refs with_refs].
  destruct (decide (r' = r)) as [->|Hne].
  - exists c, ct, r, v, t. split_and!; [done|done|].
    apply list_lookup_insert_eq. by eapply lookup_lt_Some.
  - exists c, ct, r', s', t'. split_and!; [done|done|].
    by rewrite list_lookup_insert_ne.
Qed.

Lemma one_state_quiet initialState : quiet one_state_memory (one_state initialState).
Proof.
  intros t next σ HI Hh. unfold one_state, useState.
  destruct (HI t) as [Hm|(c & ct & r & s & t' & Hm & Hc & Hr)].
  - (* the first execution: the cell and its ref are made *)
    set (c := length (cells σ)). set (r := length (refs σ)).
    set (σ' := with_cells (<[c := {| type := "state"; ctarget := t; ref := Some r |}]>
                             (cells σ ++ [{| type := "state"; ctarget := t; ref := None |}]))
                 (with_refs (refs σ ++ [StateRef initialState t])
                    (with_memoryCells t [c]
                       (with_cells (cells σ ++ [{| type := "state"; ctarget := t; ref := None |}])
                          (with_hookState ({| index := 1; target := t |} :: next) σ))))).
    exists σ', 1.
    assert (Hcell : (cells σ ++ [{| type := "state"; ctarget := t; ref := None |}]) !! c
                    = Some {| type := "state"; ctarget := t; ref := None |}).
    { by apply list_lookup_middle. }
    split_and!; try done.
    + set (σ1 := with_memoryCells t [c]
                   (with_cells (cells σ ++ [{| type := "state"; ctarget := t; ref := None |}])
                      (with_hookState ({| index := 1; target := t |} :: next) σ))).
      assert (E1 : getMemoryCell "state" σ = (σ1, Returns c)).
      { unfold getMemoryCell. rewrite Hh. cbn [target index]. by rewrite Hm. }
      assert (E2 : cell_ref c σ1 = (σ1, Returns None)).
      { unfold cell_ref. subst σ1. cbn [cells with_memoryCells with_cells].
        by rewrite Hcell. }
      assert (E3 : getHookTarget σ1 = (σ1, Returns t)) by done.
      assert (E4 : set_cell_ref c (StateRef initialState t) σ1 = (σ', Returns r)).
      { unfold set_cell_ref. subst σ1. cbn [cells refs with_memoryCells with_cells with_hookState].
        by rewrite Hcell. }
      assert (E5 : read_ref r σ' = (σ', Returns (StateRef initialState t))).
      { unfold read_ref. subst σ'. cbn [refs with_cells with_refs].
        by rewrite (list_lookup_middle (refs σ) [] (StateRef initialState t) r). }
      unfold get_state, bind. rewrite E1, E2, E3, E4, E5. reflexivity.
    + intros t0. destruct (decide (t0 = t)) as [->|Hne].
      * right. exists c, t, r, initialState, t. subst σ'.
        cbn [memoryCells cells refs with_cells with_refs with_memoryCells with_hookState].
        rewrite decide_True by done. split_and!; [done| |].
        -- apply list_lookup_insert_eq. rewrite length_app. simpl. lia.
        -- by apply list_lookup_middle.
      * destruct (HI t0) as [H0|(c0 & ct0 & r0 & s0 & t0' & H1 & H2 & H3)].
        -- left. subst σ'.
           cbn [memoryCells cells refs with_cells with_refs with_memoryCells with_hookState].
           by rewrite decide_False.
        -- right. exists c0, ct0, r0, s0, t0'. subst σ'.
           cbn [memoryCells cells refs with_cells with_refs with_memoryCells with_hookState].
           rewrite decide_False by done. split_and!; [done| |].
           ++ assert (c0 < c) by (by eapply lookup_lt_Some).
              rewrite list_lookup_insert_ne by lia. by apply lookup_app_l_Some.
           ++ by apply lookup_app_l_Some.
  - (* a later execution: the cell is found *)
    exists (with_hookState ({| index := 1; target := t |} :: next) σ), 1.
    split_and!; try done.
    set (σ1 := with_hookState ({| index := 1; target := t |} :: next) σ).
    assert (E1 : getMemoryCell "state" σ = (σ1, Returns c)).
      { unfold getMemoryCell. rewrite Hh. cbn [target index]. rewrite Hm.
        cbn [lookup list_lookup]. rewrite Hc. cbn [type]. by rewrite decide_True. }
      assert (E2 : cell_ref c σ1 = (σ1, Returns (Some r))).
      { unfold cell_ref. subst σ1. cbn [cells with_hookState]. by rewrite Hc. }
      assert (E5 : read_ref r σ1 = (σ1, Returns (StateRef s t'))).
      { unfold read_ref. subst σ1. cbn [refs with_hookState]. by rewrite Hr. }
      unfold get_state, bind. rewrite E1, E2. unfold ret at 1. rewrite E5. reflexivity.
Qed.

Lemma one_state_memory_init : one_state_memory init.
Proof. intros t. by left. Qed.

End HookFacts.

Lemma hook_policy_witness :
  let σ1 := (Hooks.executeWithHooks 1 (hook_calls ["state"; "memo"]) Hooks.init).1 in
  (Hooks.executeWithHooks 1 (hook_calls ["memo"; "state"]) σ1).2
  = Hooks.Throws (policy_error "state" "memo") ∧
  (Hooks.executeWithHooks 1 (hook_calls ["state"; "memo"; "effect"]) σ1).2
  = Hooks.Returns ().
Proof.
  intros σ1. split.
  - destruct (hook_policy 1 ["state"; "memo"] ["memo"; "state"] σ1) as (_ & _ & H);
      [reflexivity|].
    by apply (H 0 "state" "memo").
  - destruct (hook_policy 1 ["state"; "memo"] ["state"; "memo"; "effect"] σ1)
      as (_ & H & _); [reflexivity|].
    apply H. intros [|[|i]] a b Ha Hb; simpl in Ha, Hb; [congruence..|].
    by rewrite lookup_nil in Ha.
Defined.

Lemma memo_kept_while_deps_same_witness :
  let σ := (Hooks.pushHookTarget 1 Hooks.init).1 in
  let first := Hooks.useMemo (Hooks.ret (Hooks.Num 5)) [Hooks.Num 1; Hooks.Str "a"] σ in
  first.2 = Hooks.Returns (Hooks.Num 5) ∧
  ∀ create, Hooks.useMemo create [Hooks.Num 1; Hooks.Str "a"] (again 0 first.1)
            = (first.1, Hooks.Returns (Hooks.Num 5)).
Proof.
  intros σ first.
  destruct (memo_kept_while_deps_same σ 1 0 (Hooks.Num 5) [Hooks.Num 1; Hooks.Str "a"])
    as [H1 H2].
  - by exists [].
  - reflexivity.
  - split; [exact H1|]. intros create.
    apply (H2 [Hooks.Num 1; Hooks.Str "a"]); [reflexivity|].
    intros Hn. apply elem_of_cons in Hn as [Hn|Hn]; [discriminate|].
    apply elem_of_cons in Hn as [Hn|Hn]; [discriminate|]. by apply elem_of_nil in Hn.
Defined.


Lemma refresh_in_order_of_depth_witness :
  let execute := one_state (Hooks.Num 0) in
  let σ := Hooks.with_active 3 true (Hooks.with_active 1 true
             (Hooks.with_active 2 true Hooks.init)) in
  let r := Hooks.scheduleRefresh (λ n, Some n) execute 3 [3; 1; 2; 1] σ in
  r.2 = Hooks.Returns () ∧ Hooks.executed r.1 = [1; 2; 3] ∧
  Hooks.refs r.1 = [Hooks.StateRef (Hooks.Num 0) 1; Hooks.StateRef (Hooks.Num 0) 2;
                    Hooks.StateRef (Hooks.Num 0) 3] ∧
  Hooks.nodesToRefresh r.1 = [] ∧ Hooks.hookState r.1 = [].
Proof.
  intros execute σ r.
  destruct (refresh_in_order_of_depth (λ n, Some n) execute one_state_memory
              one_state_memory_only (one_state_quiet (Hooks.Num 0))
              3 [3; 1; 2; 1] σ) as (H1 & _ & H2 & _ & H3 & _).
  - intros t. by left.
  - reflexivity.
  - constructor.
  - vm_compute. lia.
  - split_and!; [exact H1|reflexivity|reflexivity|exact H2|exact H3].
Defined.

Lemma setState_refreshes_on_change_witness :
  let execute := one_state (Hooks.Num 0) in
  let σ := (Hooks.activate execute 1 Hooks.init).1 in
  let res := Hooks.run_immediate (λ _, None) execute 1
               (Hooks.setState 0 (Hooks.Direct (Hooks.Num 1)) σ).1 in
  Hooks.refs σ = [Hooks.StateRef (Hooks.Num 0) 1] ∧ Hooks.executed σ = [1] ∧
  res.2 = Hooks.Returns () ∧ Hooks.executed res.1 = [1; 1] ∧
  Hooks.refs res.1 = [Hooks.StateRef (Hooks.Num 1) 1].
Proof.
  intros execute σ res.
  destruct (setState_refreshes_on_change (λ _, None) execute one_state_memory
              one_state_memory_only (one_state_quiet (Hooks.Num 0)) one_state_stable
              1 0 (Hooks.Num 0) 1 (Hooks.Direct (Hooks.Num 1)) σ) as (H1 & _ & H2);
    try reflexivity.
  - apply (activate_quiet execute one_state_memory one_state_memory_only
             (one_state_quiet (Hooks.Num 0)) 1 Hooks.init one_state_memory_init).
  - lia.
  - split_and!; [reflexivity|reflexivity|exact H1|exact H2|reflexivity].
Defined.
